(** * A per-guild music subscription: queue, player and connection handlers

    Shallow embedding of [music/subscription.js] (the subscription registry,
    the [MusicSubscription] class and its event handlers), of the [/swap],
    [/skip] and dispatch parts of [commands/commands.js], and of the
    [interactionCreate] handler of [client.js].

    JavaScript objects with identity live in a heap indexed by references;
    every method is a function in a state-and-exception monad over the whole
    world.  Each [async] function is cut at its [await]s: the synchronous
    prefix is one function, and every continuation is a separate function
    that the environment runs when the awaited promise settles.  Numbers are
    rationals (every finite double is one), with [NaN] and the two
    infinities added; where the program multiplies a fraction, the product
    is rounded as a product of doubles is. *)

From Stdlib Require Import QArith Qround Qpower Lqa.
From stdpp Require Import gmap strings list fin_maps pretty.

Local Open Scope string_scope.
Local Open Scope list_scope.

(** ** Values *)

Inductive AudioPlayerStatus := Idle | Buffering | Playing | Paused | AutoPaused.
Inductive VoiceConnectionStatus :=
  Signalling | Connecting | Ready | Disconnected | Destroyed.
Inductive VoiceConnectionDisconnectReason :=
  WebSocketClose | AdapterUnavailable | EndpointRemoved | Manual.

#[global] Instance AudioPlayerStatus_eq_dec : EqDecision AudioPlayerStatus.
Proof. solve_decision. Defined.
#[global] Instance VoiceConnectionStatus_eq_dec : EqDecision VoiceConnectionStatus.
Proof. solve_decision. Defined.
#[global] Instance VoiceConnectionDisconnectReason_eq_dec :
  EqDecision VoiceConnectionDisconnectReason.
Proof. solve_decision. Defined.

(** Exceptions a JavaScript evaluation can raise.  [OutOfFuel] and
    [Dangling] belong to the model only: the first marks an exhausted
    re-entrancy bound, the second a reference with no object behind it. *)
Inductive JsError :=
| TypeError (msg : string)
| ReferenceError (identifier : string)
| Error (msg : string)
| OutOfFuel
| Dangling.

(** A JavaScript number: [NaN], an infinity, or a finite value kept as an
    exact rational.  The two zeroes are identified; the program only
    compares numbers and uses them as property keys, and both treat [-0]
    as [0]. *)
Inductive JsNum := JNaN | JPosInf | JNegInf | JFin (q : Q).

Definition of_nat (n : nat) : JsNum := JFin (inject_Z (Z.of_nat n)).

(** [a > b] *)
Definition js_gt (a b : JsNum) : bool :=
  match a, b with
  | JNaN, _ | _, JNaN => false
  | JPosInf, JPosInf => false
  | JPosInf, _ => true
  | _, JPosInf => false
  | JNegInf, _ => false
  | JFin _, JNegInf => true
  | JFin x, JFin y => negb (Qle_bool x y)
  end.

(** [a < b] *)
Definition js_lt (a b : JsNum) : bool := js_gt b a.

(** [a === b] on numbers *)
Definition js_strict_eq (a b : JsNum) : bool :=
  match a, b with
  | JPosInf, JPosInf | JNegInf, JNegInf => true
  | JFin x, JFin y => Qeq_bool x y
  | _, _ => false
  end.

(** [Number.isNaN] *)
Definition Number_isNaN (a : JsNum) : bool :=
  match a with JNaN => true | _ => false end.

(** Modelled from the spec: [music/track.js] is not among the sources.  A
    Track is an opaque unit of playable work with an identity, the titles
    the commands print, and the transient [errored] flag; its three
    lifecycle callbacks are recorded as events, and the outcome of
    [createAudioResource] is supplied by the environment when the promise
    settles. *)
Record Track := {
  track_id : nat;
  youtube_title : string;
  errored : bool;
}.

#[global] Instance Track_eq_dec : EqDecision Track.
Proof. solve_decision. Defined.

(** An audio resource carries the track it was produced from as metadata. *)
Record AudioResource := { metadata : Track }.

(** An array element or property value: [None] is [undefined]. *)
Abbreviation slot := (option Track).

(** ** Arrays

    A JavaScript array is its indexed elements together with any other
    properties stored on the object under a numeric key that is not an array
    index (a negative or fractional number, [NaN], an infinity). *)
Record JsArray := {
  items : list slot;
  named : list (JsNum * slot);
}.

Definition empty_array : JsArray := {| items := []; named := [] |}.

Definition array_length (a : JsArray) : nat := length (items a).

(** The array index a number denotes, if it denotes one. *)
Definition to_index (k : JsNum) : option nat :=
  match k with
  | JFin q =>
      if Qeq_bool q (inject_Z (Qfloor q)) && (0 <=? Qfloor q)%Z
      then Some (Z.to_nat (Qfloor q)) else None
  | _ => None
  end.

(** Property keys are the strings of the numbers, so [NaN] is one key. *)
Definition key_eqb (a b : JsNum) : bool :=
  match a, b with
  | JNaN, JNaN => true
  | _, _ => js_strict_eq a b
  end.

Fixpoint named_get (ps : list (JsNum * slot)) (k : JsNum) : slot :=
  match ps with
  | [] => None
  | (k', v) :: ps' => if key_eqb k' k then v else named_get ps' k
  end.

(** [a[k]]: reading past the end, or a key never written, is [undefined]. *)
Definition array_get (a : JsArray) (k : JsNum) : slot :=
  match to_index k with
  | Some i => default None (items a !! i)
  | None => named_get (named a) k
  end.

(** [a[k] = v]: writing at an index past the end extends the array, the gap
    filled with holes; writing at a key that is no index adds a property
    and leaves the elements and the length alone. *)
Definition array_set (a : JsArray) (k : JsNum) (v : slot) : JsArray :=
  match to_index k with
  | Some i =>
      if decide (i < length (items a))
      then {| items := <[i := v]> (items a); named := named a |}
      else {| items := items a ++ replicate (i - length (items a)) None ++ [v];
              named := named a |}
  | None => {| items := items a; named := (k, v) :: named a |}
  end.

(** [a.push(...vs)] *)
Definition array_push (a : JsArray) (vs : list slot) : JsArray :=
  {| items := items a ++ vs; named := named a |}.

(** [a.shift()]: the removed first element and the rest of the array. *)
Definition array_shift (a : JsArray) : slot * JsArray :=
  match items a with
  | [] => (None, a)
  | v :: vs => (v, {| items := vs; named := named a |})
  end.

(** ** Objects *)

Abbreviation ref := nat (only parsing).
Abbreviation GuildId := string (only parsing).
Abbreviation TextChannel := string (only parsing).

Record VoiceConnectionState := {
  conn_status : VoiceConnectionStatus;
  reason : option VoiceConnectionDisconnectReason;
  closeCode : option nat;
}.

Definition plain_state (st : VoiceConnectionStatus) : VoiceConnectionState :=
  {| conn_status := st; reason := None; closeCode := None |}.

Record VoiceConnection := {
  conn_state : VoiceConnectionState;
  rejoinAttempts : nat;
}.

Record AudioPlayerState := {
  player_status : AudioPlayerStatus;
  resource : option AudioResource;
}.

Definition idle_state : AudioPlayerState :=
  {| player_status := Idle; resource := None |}.

(** The fields of a [MusicSubscription].  The three flags are never
    initialised by the constructor; they start out [undefined], which every
    use reads as false. *)
Record MusicSubscription := {
  voiceConnection : VoiceConnection;
  audioPlayer : AudioPlayerState;
  queue : JsArray;
  destroyed : bool;
  lastTextChannel : TextChannel;
  guildId : GuildId;
  queueLock : bool;
  readyLock : bool;
  wait : bool;
}.

Definition set_voiceConnection (c : VoiceConnection) (s : MusicSubscription) :=
  {| voiceConnection := c; audioPlayer := audioPlayer s; queue := queue s;
     destroyed := destroyed s; lastTextChannel := lastTextChannel s;
     guildId := guildId s; queueLock := queueLock s; readyLock := readyLock s;
     wait := wait s |}.
Definition set_audioPlayer (p : AudioPlayerState) (s : MusicSubscription) :=
  {| voiceConnection := voiceConnection s; audioPlayer := p; queue := queue s;
     destroyed := destroyed s; lastTextChannel := lastTextChannel s;
     guildId := guildId s; queueLock := queueLock s; readyLock := readyLock s;
     wait := wait s |}.
Definition set_queue (q : JsArray) (s : MusicSubscription) :=
  {| voiceConnection := voiceConnection s; audioPlayer := audioPlayer s; queue := q;
     destroyed := destroyed s; lastTextChannel := lastTextChannel s;
     guildId := guildId s; queueLock := queueLock s; readyLock := readyLock s;
     wait := wait s |}.
Definition set_destroyed (b : bool) (s : MusicSubscription) :=
  {| voiceConnection := voiceConnection s; audioPlayer := audioPlayer s;
     queue := queue s; destroyed := b; lastTextChannel := lastTextChannel s;
     guildId := guildId s; queueLock := queueLock s; readyLock := readyLock s;
     wait := wait s |}.
Definition set_lastTextChannel (c : TextChannel) (s : MusicSubscription) :=
  {| voiceConnection := voiceConnection s; audioPlayer := audioPlayer s;
     queue := queue s; destroyed := destroyed s; lastTextChannel := c;
     guildId := guildId s; queueLock := queueLock s; readyLock := readyLock s;
     wait := wait s |}.
Definition set_queueLock (b : bool) (s : MusicSubscription) :=
  {| voiceConnection := voiceConnection s; audioPlayer := audioPlayer s;
     queue := queue s; destroyed := destroyed s;
     lastTextChannel := lastTextChannel s; guildId := guildId s; queueLock := b;
     readyLock := readyLock s; wait := wait s |}.
Definition set_readyLock (b : bool) (s : MusicSubscription) :=
  {| voiceConnection := voiceConnection s; audioPlayer := audioPlayer s;
     queue := queue s; destroyed := destroyed s;
     lastTextChannel := lastTextChannel s; guildId := guildId s;
     queueLock := queueLock s; readyLock := b; wait := wait s |}.
Definition set_wait (b : bool) (s : MusicSubscription) :=
  {| voiceConnection := voiceConnection s; audioPlayer := audioPlayer s;
     queue := queue s; destroyed := destroyed s;
     lastTextChannel := lastTextChannel s; guildId := guildId s;
     queueLock := queueLock s; readyLock := readyLock s; wait := b |}.

(** ** The world *)

Inductive Callback := onStart | onFinish | onError.

#[global] Instance Callback_eq_dec : EqDecision Callback.
Proof. solve_decision. Defined.

(** What the program does to its surroundings, in the order it does it. *)
Inductive Event :=
| Call (cb : Callback) (t : Track)            (* a Track lifecycle callback runs *)
| Send (channel : TextChannel) (msg : string) (* [lastTextChannel.send] *)
| Reply (msg : string)                        (* [interaction.reply] *)
| FollowUp (msg : string)                     (* [interaction.followUp] *)
| DeferReply                                  (* [interaction.deferReply] *)
| Join (channelId : string) (guild : GuildId) (* [joinVoiceChannel] *)
| Destroy (r : ref)                           (* the connection of [r] is torn down *)
| Rejoin (r : ref)                            (* [voiceConnection.rejoin] *)
| Play (r : ref) (t : Track).                 (* [audioPlayer.play] takes a resource *)

#[global] Instance Event_eq_dec : EqDecision Event.
Proof. solve_decision. Defined.

(** A voice channel, and a slash-command interaction as the commands read
    it: [voice_channel] is [interaction.member.voice.channel] when the
    member is a guild member inside a voice channel, [options] holds the
    string options that were supplied.  Of
    [voiceChannel.guild.voiceAdapterCreator] the model keeps the one thing
    the voice library asks of the adapter when the command runs: whether
    the request to join can be sent to the gateway ([sendPayload] returns
    true). *)
Record VoiceChannel := {
  channel_id : string;
  channel_guild : GuildId;
  adapter_sends : bool;
}.

Record Interaction := {
  isCommand : bool;
  commandName : string;
  interaction_guildId : GuildId;
  channel : TextChannel;
  voice_channel : option VoiceChannel;
  options : list (string * string);
}.

#[global] Instance VoiceChannel_eq_dec : EqDecision VoiceChannel.
Proof. solve_decision. Defined.
#[global] Instance Interaction_eq_dec : EqDecision Interaction.
Proof. solve_decision. Defined.

(** How [/play] looks for its track: by URL or by search. *)
Inductive Lookup := fromURL | fromSearch.

#[global] Instance Lookup_eq_dec : EqDecision Lookup.
Proof. solve_decision. Defined.

(** A suspended [await]: the promise the program waits on, and whose
    continuation runs when it settles. *)
Inductive Pending :=
| Production (r : ref) (nextTrack : slot) (* [await nextTrack.createAudioResource()] *)
| IdleGuard (r : ref)     (* [await entersState(audioPlayer, Playing, 30_000)] *)
| ReadyGuard (r : ref)    (* [await entersState(voiceConnection, Ready, 15_000)] *)
| MoveGuard (r : ref)     (* [await entersState(voiceConnection, Connecting, 5_000)] *)
| RejoinWait (r : ref) (ms : nat)  (* [await wait(ms)] *)
| EnsureReady (i : Interaction) (r : ref) (beginningOfQueue now : bool)
    (how : Lookup)        (* [await ensureConnectionIsReady(subscription)] *)
| FindTrack (i : Interaction) (r : ref) (beginningOfQueue now : bool)
    (how : Lookup)        (* [await Track.fromURL(..)], [await Track.fromSearch(..)] *)
| FindPlaylist (i : Interaction) (r : ref).
                          (* [await getSpotifySongsFromPlaylist(..)] and the tracks *)

#[global] Instance Pending_eq_dec : EqDecision Pending.
Proof. solve_decision. Defined.

(** [subscriptions] is the module-level [Map] from guild ids to
    subscriptions; [random] is the sequence of values [Math.random] will
    return and [drawn] how many of them have been used. *)
Record World := {
  heap : gmap nat MusicSubscription;
  subscriptions : gmap string nat;
  trace : list Event;
  pending : list Pending;
  random : nat -> Q;
  drawn : nat;
}.

Definition set_heap (h : gmap nat MusicSubscription) (w : World) : World :=
  {| heap := h; subscriptions := subscriptions w; trace := trace w;
     pending := pending w; random := random w; drawn := drawn w |}.
Definition set_subscriptions (m : gmap string nat) (w : World) : World :=
  {| heap := heap w; subscriptions := m; trace := trace w;
     pending := pending w; random := random w; drawn := drawn w |}.
Definition set_trace (t : list Event) (w : World) : World :=
  {| heap := heap w; subscriptions := subscriptions w; trace := t;
     pending := pending w; random := random w; drawn := drawn w |}.
Definition set_pending (p : list Pending) (w : World) : World :=
  {| heap := heap w; subscriptions := subscriptions w; trace := trace w;
     pending := p; random := random w; drawn := drawn w |}.
Definition set_drawn (n : nat) (w : World) : World :=
  {| heap := heap w; subscriptions := subscriptions w; trace := trace w;
     pending := pending w; random := random w; drawn := n |}.

(** ** The monad: state and exceptions

    A thrown exception keeps the state reached so far, as in JavaScript. *)
Inductive Outcome (A : Type) :=
| Return (a : A)
| Throw (e : JsError).
Arguments Return {A} a.
Arguments Throw {A} e.

Definition M (A : Type) : Type := World -> Outcome A * World.

#[global] Instance M_ret : MRet M := fun A a w => (Return a, w).
#[global] Instance M_bind : MBind M := fun A B k c w =>
  match c w with
  | (Return a, w') => k a w'
  | (Throw e, w') => (Throw e, w')
  end.

Definition throw {A} (e : JsError) : M A := fun w => (Throw e, w).

(** [try { body } catch (e) { handler e }] *)
Definition try_catch {A} (body : M A) (handler : JsError -> M A) : M A :=
  fun w => match body w with
           | (Return a, w') => (Return a, w')
           | (Throw e, w') => handler e w'
           end.

(** [try { body } finally { final }] *)
Definition try_finally {A} (body : M A) (final : M unit) : M A :=
  fun w => match body w with
           | (o, w') => match final w' with
                        | (Return _, w'') => (o, w'')
                        | (Throw e, w'') => (Throw e, w'')
                        end
           end.

(** [void promise], and a listener called by an emitter: the [async]
    function runs up to its first [await] or its exception, and a rejection
    is not seen by the caller.  The two errors of the model itself are
    never swallowed. *)
Definition void {A} (c : M A) : M unit :=
  fun w => match c w with
           | (Throw OutOfFuel, w') => (Throw OutOfFuel, w')
           | (Throw Dangling, w') => (Throw Dangling, w')
           | (_, w') => (Return tt, w')
           end.

Definition when (b : bool) (c : M unit) : M unit := if b then c else mret tt.

Definition world : M World := fun w => (Return w, w).
Definition modify (f : World -> World) : M unit := fun w => (Return tt, f w).

Definition emit (e : Event) : M unit :=
  modify (fun w => set_trace (trace w ++ [e]) w).

Definition suspend (p : Pending) : M unit :=
  modify (fun w => set_pending (pending w ++ [p]) w).

(** Reading and updating the object behind [this]. *)
Definition this (r : ref) : M MusicSubscription :=
  fun w => match heap w !! r with
           | Some s => (Return s, w)
           | None => (Throw Dangling, w)
           end.

Definition update (r : ref) (f : MusicSubscription -> MusicSubscription) : M unit :=
  fun w => match heap w !! r with
           | Some s => (Return tt, set_heap (<[r := f s]> (heap w)) w)
           | None => (Throw Dangling, w)
           end.

(** The continuation of a suspended [await] starts by retiring its promise. *)
Fixpoint remove_first (p : Pending) (ps : list Pending) : list Pending :=
  match ps with
  | [] => []
  | p' :: ps' => if decide (p' = p) then ps' else p' :: remove_first p ps'
  end.

Definition settle (p : Pending) : M unit :=
  modify (fun w => set_pending (remove_first p (pending w)) w).

(** An event that several suspended [await]s wait for meets them all. *)
Definition settle_all (p : Pending) : M unit :=
  modify (fun w => set_pending (filter (fun p' => p' <> p) (pending w)) w).

(** Evaluating an identifier: a name that the module neither imports nor
    declares raises a [ReferenceError]. *)
Definition resolve_identifier (scope : list string) (name : string) : M unit :=
  if bool_decide (name ∈ scope) then mret tt else throw (ReferenceError name).

(** [Math.random()] and [Math.floor] *)
Definition Math_random : M JsNum :=
  fun w => (Return (JFin (random w (drawn w))), set_drawn (S (drawn w)) w).

Definition Math_floor (x : JsNum) : JsNum :=
  match x with
  | JFin q => JFin (inject_Z (Qfloor q))
  | _ => x
  end.

(** [x * n] for a number [x] and the count [n] of rows on a page: the
    exact product, which the product of two doubles is when both are
    integers and the result stays below [2 ^ 53]. *)
Definition js_mul (x : JsNum) (n : nat) : JsNum :=
  match x, n with
  | JFin q, _ => JFin (q * inject_Z (Z.of_nat n))
  | JNaN, _ | _, 0 => JNaN
  | _, _ => x
  end.

(** ** Doubles

    The product of a fraction and a count is rounded: the result is the
    double nearest to the exact product, the one with the even significand
    when two are equally near.  [binade q] is the exponent of a positive
    [q], the [e] with [2 ^ e <= q < 2 ^ (e + 1)], and [double q] is [q]
    rounded to 53 significant binary digits.  The range of the exponent is
    not modelled: the product of a double below 1 and a count is never
    rounded for want of exponent, and leaves the range of the doubles only
    for a count of [2 ^ 1024] or more. *)
Definition binade (q : Q) : Z :=
  let e := (Z.log2 (Qnum q) - Z.log2 (Zpos (Qden q)))%Z in
  if Qle_bool (Qpower 2 e) q then e else (e - 1)%Z.

Definition round_half_even (q : Q) : Z :=
  let f := Qfloor q in
  match Qcompare (q - inject_Z f) (1 # 2) with
  | Lt => f
  | Gt => (f + 1)%Z
  | Eq => if Z.even f then f else (f + 1)%Z
  end.

Definition significand (q : Q) : Z :=
  round_half_even (q * Qpower 2 (52 - binade q)).

Definition double (q : Q) : Q :=
  match Qcompare q 0 with
  | Eq => 0
  | Gt => inject_Z (significand q) * Qpower 2 (binade q - 52)
  | Lt => - (inject_Z (significand (- q)) * Qpower 2 (binade (- q) - 52))
  end.

(** [x * n] for the value [x] of [Math.random] and a count [n] *)
Definition js_times (x : JsNum) (n : nat) : JsNum :=
  match x, n with
  | JFin q, _ => JFin (double (q * inject_Z (Z.of_nat n)))
  | JNaN, _ | _, 0 => JNaN
  | _, _ => x
  end.

(** ** The player and the queue ([music/subscription.js])

    The names a module can evaluate are its imports and its top-level
    declarations. *)
Definition subscription_scope : list string :=
  ["AudioPlayerStatus"; "createAudioPlayer"; "entersState"; "joinVoiceChannel";
   "VoiceConnectionDisconnectReason"; "VoiceConnectionStatus"; "promisify";
   "wait"; "subscriptions"; "getOrCreateSubscription"; "MusicSubscription"].

(** [processQueue()] up to its [await].  When the dequeued element is
    [undefined], reading its [createAudioResource] throws inside the [try],
    and the [catch] block throws again on [nextTrack.onError] before it
    releases the lock. *)
Definition processQueue (r : ref) : M unit :=
  update r (set_wait false);;
  s ← this r;
  if queueLock s
     || negb (bool_decide (player_status (audioPlayer s) = Idle))
     || bool_decide (array_length (queue s) = 0)
  then mret tt
  else
    update r (set_queueLock true);;
    let '(nextTrack, rest) := array_shift (queue s) in
    update r (set_queue rest);;
    match nextTrack with
    | Some t => suspend (Production r nextTrack)
    | None => throw (TypeError "Cannot read properties of undefined (reading 'onError')")
    end.

(** The [stateChange] listener the constructor puts on the audio player.
    Callbacks of a Track are taken to return normally. *)
Definition onPlayerStateChange (r : ref) (oldState newState : AudioPlayerState)
  : M unit :=
  if bool_decide (player_status newState = Idle)
     && negb (bool_decide (player_status oldState = Idle))
  then
    match resource oldState with
    | None => throw (TypeError "Cannot read properties of undefined (reading 'metadata')")
    | Some res =>
        let currentTrack := metadata res in
        when (negb (errored currentTrack)) (emit (Call onFinish (metadata res)));;
        s ← this r;
        when (negb (wait s)) (void (processQueue r));;
        suspend (IdleGuard r)
    end
  else if bool_decide (player_status newState = Playing) then
    match resource newState with
    | None => throw (TypeError "Cannot read properties of undefined (reading 'metadata')")
    | Some res => emit (Call onStart (metadata res))
    end
  else mret tt.


(** The player of the voice library, as far as the subscription relies on
    it: [play] attaches the resource and starts buffering; [stop] leaves an
    idle player alone and, when forced, makes any other idle at once;
    [pause] pauses a playing player and leaves any other alone;
    every change of state is announced to the listener before the call
    returns.  Without [force] the library first plays out a few frames of
    silence, and the player becomes idle later, on its own. *)
Definition audioPlayer_play (r : ref) (res : AudioResource) : M unit :=
  s ← this r;
  let newState := {| player_status := Buffering; resource := Some res |} in
  update r (set_audioPlayer newState);;
  emit (Play r (metadata res));;
  void (onPlayerStateChange r (audioPlayer s) newState).

Definition audioPlayer_stop (r : ref) (force : bool) : M bool :=
  s ← this r;
  if bool_decide (player_status (audioPlayer s) = Idle) then mret false
  else if force then
    update r (set_audioPlayer idle_state);;
    void (onPlayerStateChange r (audioPlayer s) idle_state);;
    mret true
  else mret true.

Definition audioPlayer_pause (r : ref) : M bool :=
  s ← this r;
  if bool_decide (player_status (audioPlayer s) = Playing) then
    let newState := {| player_status := Paused; resource := resource (audioPlayer s) |} in
    update r (set_audioPlayer newState);;
    void (onPlayerStateChange r (audioPlayer s) newState);;
    mret true
  else mret false.

(** The player changes state on its own (buffering ends, a stream ends or
    fails): the listener runs, and every pending wait for [Playing] is met,
    however many idle transitions have armed one. *)
Definition player_enters (r : ref) (newState : AudioPlayerState) : M unit :=
  s ← this r;
  update r (set_audioPlayer newState);;
  void (onPlayerStateChange r (audioPlayer s) newState);;
  when (bool_decide (player_status newState = Playing)) (settle_all (IdleGuard r)).

(** The [catch] block of [processQueue], and the two ways its [await] ends:
    with a resource whose metadata is the track, or with an error. *)
Definition processQueue_catch (r : ref) (nextTrack : Track) (error : JsError)
  : M unit :=
  emit (Call onError nextTrack);;
  update r (set_queueLock false);;
  processQueue r.

Definition processQueue_settled (r : ref) (nextTrack : Track)
    (outcome : option JsError) : M unit :=
  settle (Production r (Some nextTrack));;
  match outcome with
  | None =>
      try_catch
        (audioPlayer_play r {| metadata := nextTrack |};;
         update r (set_queueLock false))
        (processQueue_catch r nextTrack)
  | Some error => processQueue_catch r nextTrack error
  end.

(** [swap(index1, index2)] *)
Definition swap (r : ref) (index1 index2 : JsNum) : M unit :=
  s ← this r;
  let temporaryValue := array_get (queue s) index1 in
  update r (fun s => set_queue (array_set (queue s) index1 (array_get (queue s) index2)) s);;
  update r (fun s => set_queue (array_set (queue s) index2 temporaryValue) s).

(** [shuffle()]: the [while] loop runs once for each value of
    [currentIndex] from the length down to 1. *)
Fixpoint shuffle_loop (r : ref) (currentIndex : nat) : M unit :=
  match currentIndex with
  | 0 => mret tt
  | S currentIndex' =>
      x ← Math_random;
      let randomIndex := Math_floor (js_times x currentIndex) in
      swap r (of_nat currentIndex') randomIndex;;
      shuffle_loop r currentIndex'
  end.

Definition shuffle (r : ref) : M unit :=
  s ← this r;
  shuffle_loop r (array_length (queue s)).

(** [enqueue], [bulkEnqueue], [enqueueNext] and [clear] *)
Definition enqueue (r : ref) (track : slot) : M unit :=
  update r (fun s => set_queue (array_push (queue s) [track]) s);;
  processQueue r.

Definition bulkEnqueue (r : ref) (tracks : list slot) (autoShuffle : bool) : M unit :=
  update r (fun s => set_queue (array_push (queue s) tracks) s);;
  when autoShuffle (shuffle r);;
  processQueue r.

Definition enqueueNext (r : ref) (track : slot) : M unit :=
  update r (fun s => set_queue (array_push (queue s) [track]) s);;
  s ← this r;
  swap r (of_nat 0) (of_nat (array_length (queue s) - 1));;
  processQueue r.

Definition clear (r : ref) : M unit :=
  update r (set_queue empty_array).

(** [nowPlaying()] *)
Definition nowPlaying (r : ref) : M Track :=
  s ← this r;
  match resource (audioPlayer s) with
  | Some res => mret (metadata res)
  | None => throw (TypeError "Cannot read properties of undefined (reading 'metadata')")
  end.

(** The [error] listener of the audio player *)
Definition onPlayerError (r : ref) (res : AudioResource) : M unit :=
  emit (Call onError (metadata res)).

(** ** The connection

    The connection of the voice library, as far as the subscription relies
    on it.  [destroy] refuses a connection that is already destroyed and
    otherwise makes it [Destroyed]; [rejoin] does nothing on a destroyed
    connection, counts the attempt unless the connection is ready, and moves
    to [Signalling] when the join request could be sent and to
    [Disconnected] when it could not; entering [Ready] resets the counter;
    [subscribe] puts the player into the state of a connection that is not
    destroyed, and leaves the status as it is.  Every change of state is
    announced to the listener before the call returns, that of [subscribe]
    too. *)
Definition set_conn_state (st : VoiceConnectionState) (s : MusicSubscription)
  : MusicSubscription :=
  set_voiceConnection
    {| conn_state := st;
       rejoinAttempts := if bool_decide (conn_status st = Ready) then 0
                         else rejoinAttempts (voiceConnection s) |} s.

Definition count_rejoin (s : MusicSubscription) : MusicSubscription :=
  set_voiceConnection
    {| conn_state := conn_state (voiceConnection s);
       rejoinAttempts := S (rejoinAttempts (voiceConnection s)) |} s.

Definition status_of (s : MusicSubscription) : VoiceConnectionStatus :=
  conn_status (conn_state (voiceConnection s)).

(** A disconnection because the adapter could not send the request *)
Definition adapter_unavailable : VoiceConnectionState :=
  {| conn_status := Disconnected; reason := Some AdapterUnavailable; closeCode := None |}.

Section Connection.
(** The listener on [stateChange], called with the old and the new state. *)
Variable listener : ref -> VoiceConnectionState -> VoiceConnectionState -> M unit.

Definition voiceConnection_enters (r : ref) (newState : VoiceConnectionState)
  : M unit :=
  s ← this r;
  update r (set_conn_state newState);;
  void (listener r (conn_state (voiceConnection s)) newState).

Definition voiceConnection_destroy (r : ref) : M unit :=
  s ← this r;
  if bool_decide (status_of s = Destroyed)
  then throw (Error "Cannot destroy VoiceConnection - it has already been destroyed")
  else
    emit (Destroy r);;
    voiceConnection_enters r (plain_state Destroyed).

Definition voiceConnection_rejoin (r : ref) (sent : bool) : M bool :=
  s ← this r;
  if bool_decide (status_of s = Destroyed) then mret false
  else
    let notReady := negb (bool_decide (status_of s = Ready)) in
    when notReady (update r count_rejoin);;
    emit (Rejoin r);;
    if sent then
      when notReady (voiceConnection_enters r (plain_state Signalling));;
      mret true
    else
      voiceConnection_enters r
        {| conn_status := Disconnected; reason := Some AdapterUnavailable;
           closeCode := None |};;
      mret false.

Definition voiceConnection_subscribe (r : ref) : M unit :=
  s ← this r;
  if bool_decide (status_of s = Destroyed) then mret tt
  else void (listener r (conn_state (voiceConnection s)) (conn_state (voiceConnection s))).
End Connection.

(** [stop()], with the call [this.voiceConnection.destroy()] left open: the
    connection announces its destruction to the listener below, which calls
    [stop()] again before [destroy] returns. *)
Definition stop_with (destroy : ref -> M unit) (r : ref) : M unit :=
  update r (set_queueLock true);;
  update r (set_queue empty_array);;
  audioPlayer_stop r true;;
  update r (set_destroyed true);;
  s ← this r;
  when (negb (bool_decide (status_of s = Destroyed))) (destroy r);;
  modify (fun w => set_subscriptions (delete (guildId s) (subscriptions w)) w).

(** The [stateChange] listener the constructor puts on the connection, up
    to its first [await].  [depth] bounds how many listener calls can be
    nested inside one another. *)
Fixpoint onVoiceStateChange (depth : nat) (r : ref)
    (oldState newState : VoiceConnectionState) : M unit :=
  match depth with
  | 0 => throw OutOfFuel
  | S depth' =>
      let destroy := voiceConnection_destroy (onVoiceStateChange depth') in
      if bool_decide (conn_status newState = Disconnected) then
        if bool_decide (reason newState = Some WebSocketClose)
           && bool_decide (closeCode newState = Some 4014)
        then suspend (MoveGuard r)
        else
          s ← this r;
          if (rejoinAttempts (voiceConnection s) <? 5)%nat
          then suspend (RejoinWait r ((rejoinAttempts (voiceConnection s) + 1) * 5000)%nat)
          else destroy r
      else if bool_decide (conn_status newState = Destroyed) then
        stop_with destroy r
      else
        s ← this r;
        if negb (readyLock s)
           && (bool_decide (conn_status newState = Connecting)
               || bool_decide (conn_status newState = Signalling))
        then
          update r (set_readyLock true);;
          suspend (ReadyGuard r)
        else mret tt
  end.

(** A listener call nests at most one further call: the destruction it may
    cause announces [Destroyed], and [stop()] then finds the connection
    destroyed (see [listener_depth]). *)
Definition onStateChange : ref -> VoiceConnectionState -> VoiceConnectionState -> M unit :=
  onVoiceStateChange 2.

Definition destroy : ref -> M unit := voiceConnection_destroy onStateChange.
Definition rejoin : ref -> bool -> M bool := voiceConnection_rejoin onStateChange.

(** [stop()] *)
Definition stop : ref -> M unit := stop_with destroy.

(** The connection changes state on its own; a pending wait for the state
    entered is met, and its continuation runs. *)
Definition connection_enters (r : ref) (newState : VoiceConnectionState) : M unit :=
  voiceConnection_enters onStateChange r newState;;
  w ← world;
  when (bool_decide (conn_status newState = Ready)
        && bool_decide (ReadyGuard r ∈ pending w))
       (settle (ReadyGuard r);; update r (set_readyLock false));;
  when (bool_decide (conn_status newState = Connecting)) (settle (MoveGuard r)).

(** ** Continuations of the listeners *)

(** Situation A: no [Connecting] within 5 seconds. *)
Definition moveGuard_timeout (r : ref) : M unit :=
  settle (MoveGuard r);;
  destroy r.

(** Situation B: the back-off has elapsed. *)
Definition rejoinWait_elapsed (r : ref) (ms : nat) (sent : bool) : M unit :=
  settle (RejoinWait r ms);;
  rejoin r sent;;
  mret tt.

(** Situation D: no [Ready] within 15 seconds.  The [catch] block compares
    the status with [VoiceConnectdionStatus.Destroyed]; the left operand is
    evaluated first, then the identifier on the right. *)
Definition readyGuard_timeout (r : ref) : M unit :=
  settle (ReadyGuard r);;
  try_finally
    (s ← this r;
     resolve_identifier subscription_scope "VoiceConnectdionStatus";;
     when (negb (bool_decide (status_of s = Destroyed))) (destroy r))
    (update r (set_readyLock false)).

(** Situation E: no [Playing] within 30 seconds. *)
Definition inactivity : string :=
  "Left the channel because you guys weren't giving me attention and I'm a little whore :(".

Definition idleGuard_timeout (r : ref) : M unit :=
  settle (IdleGuard r);;
  s ← this r;
  emit (Send (lastTextChannel s) inactivity);;
  when (negb (bool_decide (status_of s = Destroyed))) (destroy r).

(** ** The registry *)

(** The voice library keeps the connection it has made for a guild until
    that connection is destroyed.  The program has a connection made only in
    [getOrCreateSubscription], for the subscription it then registers under
    the guild, and [stop()] removes from the registry none but a
    subscription whose connection is destroyed: the connection the library
    holds for a guild is the one of the registered subscription, as long as
    it is not destroyed. *)
Definition getVoiceConnection (guild : GuildId) : M (option ref) :=
  w ← world;
  mret (r ← subscriptions w !! guild;
        s ← heap w !! r;
        if bool_decide (status_of s = Destroyed) then None else Some r).

(** [joinVoiceChannel] of the voice library.  A guild whose connection the
    library still holds gets no new one: the library acts on the one there
    is, with [rejoin] when it is disconnected and with the request to join
    otherwise, and a request that cannot be sent disconnects it.  A new
    connection starts in [Signalling], or disconnected when the request
    could not be sent. *)
Definition joinVoiceChannel (voiceChannel : VoiceChannel) : M VoiceConnection :=
  emit (Join (channel_id voiceChannel) (channel_guild voiceChannel));;
  existing ← getVoiceConnection (channel_guild voiceChannel);
  match existing with
  | Some r =>
      s ← this r;
      (if bool_decide (status_of s = Disconnected)
       then rejoin r (adapter_sends voiceChannel);; mret tt
       else when (negb (adapter_sends voiceChannel))
              (voiceConnection_enters onStateChange r adapter_unavailable));;
      s ← this r;
      mret (voiceConnection s)
  | None =>
      mret {| conn_state := if adapter_sends voiceChannel then plain_state Signalling
                            else adapter_unavailable;
              rejoinAttempts := 0 |}
  end.

(** [new MusicSubscription(voiceConnection, textChannel, guildId)]: a new
    object, with an idle player and an empty queue.  The listeners are in
    place when the constructor ends with [voiceConnection.subscribe], so
    the listener on the connection runs once before the object is handed
    out. *)
Definition new_MusicSubscription (conn : VoiceConnection)
    (textChannel : TextChannel) (guild : GuildId) : M ref :=
  w ← world;
  let r := fresh (dom (heap w)) in
  modify (set_heap (<[r := {| voiceConnection := conn;
                              audioPlayer := idle_state;
                              queue := empty_array;
                              destroyed := false;
                              lastTextChannel := textChannel;
                              guildId := guild;
                              queueLock := false;
                              readyLock := false;
                              wait := false |}]> (heap w)));;
  voiceConnection_subscribe onStateChange r;;
  mret r.

Definition getOrCreateSubscription (voiceChannel : VoiceChannel)
    (textChannel : TextChannel) : M ref :=
  let guild := channel_guild voiceChannel in
  w ← world;
  match subscriptions w !! channel_guild voiceChannel with
  | Some subscription =>
      update subscription (set_lastTextChannel textChannel);;
      mret subscription
  | None =>
      conn ← joinVoiceChannel voiceChannel;
      subscription ← new_MusicSubscription conn textChannel guild;
      modify (fun w => set_subscriptions
                         (<[channel_guild voiceChannel := subscription]> (subscriptions w)) w);;
      mret subscription
  end.

(** ** The commands ([commands/commands.js])

    The built-in string and number functions the commands call are
    parameters: [Number] is the conversion of a string to a number,
    [ToString] the text of a number inside a concatenation.  The text that
    [/queue] prints is a parameter too. *)

Definition commands_scope : list string :=
  ["SlashCommandBuilder"; "GuildMember"; "MessageEmbed"; "MessageAttachment";
   "AudioPlayerStatus"; "entersState"; "joinVoiceChannel"; "VoiceConnectionStatus";
   "Track"; "subscriptions"; "getOrCreateSubscription";
   "getSpotifySongsFromPlaylist"; "isInteractionValidForMusic";
   "ensureConnectionIsReady"; "commands"; "enqueueYoutubeTrack";
   "interaction"; "subscription"; "index1"; "index2"].

Fixpoint assoc (name : string) (l : list (string * string)) : option string :=
  match l with
  | [] => None
  | (k, v) :: l' => if bool_decide (k = name) then Some v else assoc name l'
  end.

(** [interaction.options.getString(name)]: [None] is [null]. *)
Definition getString (interaction : Interaction) (name : string) : option string :=
  assoc name (options interaction).

(** [subscriptions.get(guildId)] *)
Definition subscriptions_get (guild : GuildId) : M (option ref) :=
  w ← world;
  mret (subscriptions w !! guild).

Definition isInteractionValidForMusic (interaction : Interaction) : bool :=
  bool_decide (is_Some (voice_channel interaction)).

Definition not_playing : string := "Not currently playing on this server".

Section Commands.
Variable Number : string -> JsNum.
Variable trim : string -> string.
Variable ToString : JsNum -> string.
Variable toLowerCase : string -> string.
Variable includes : string -> string -> bool.
Variable queue_page : JsArray -> option string -> string.

(** [enqueueYoutubeTrack]; the calls to the [async] methods of the
    subscription are not awaited. *)
Definition enqueueYoutubeTrack (track : Track) (r : ref)
    (beginningOfQueue now : bool) : M unit :=
  let beginningOfQueue := now || beginningOfQueue in
  if beginningOfQueue then
    void (enqueueNext r (Some track));;
    when now (audioPlayer_stop r true;; mret tt);;
    emit (FollowUp ("Enqueued `" +:+ youtube_title track +:+ "` at position `0`"))
  else
    s ← this r;
    emit (FollowUp ("Enqueued `" +:+ youtube_title track +:+ "` at position `"
                    +:+ ToString (of_nat (array_length (queue s))) +:+ "`"));;
    void (enqueue r (Some track)).

(** [play.execute(interaction, beginningOfQueue, now)] up to its first
    [await].  A string option is truthy when it is supplied and not
    empty. *)
Definition play_execute (beginningOfQueue now : bool) (interaction : Interaction)
  : M unit :=
  let beginningOfQueue := now || beginningOfQueue in
  emit DeferReply;;
  let userInput := getString interaction "song" in
  match voice_channel interaction with
  | None =>
      emit (FollowUp "You must be a user and inside of a voice channel to use this command")
  | Some voiceChannel =>
      match userInput with
      | Some (String c u as song) =>
          r ← getOrCreateSubscription voiceChannel (channel interaction);
          if includes (toLowerCase song) "youtube.com/watch" then
            suspend (EnsureReady interaction r beginningOfQueue now fromURL)
          else if includes (toLowerCase song) "spotify.com/playlist" then
            if beginningOfQueue
            then emit (FollowUp "This command cannot be used with spotify playlists")
            else suspend (FindPlaylist interaction r)
          else suspend (EnsureReady interaction r beginningOfQueue now fromSearch)
      | _ =>
          subscription ← subscriptions_get (interaction_guildId interaction);
          match subscription with
          | None => emit (FollowUp not_playing)
          | Some r =>
              s ← this r;
              if negb (bool_decide (player_status (audioPlayer s) = Paused))
              then emit (FollowUp "Cannot unpause, the audio player is not currently paused. If you are trying to queue up a song, make sure you see the [song] parameter appear while typing the command")
              else
                update r (set_lastTextChannel (channel interaction));;
                audioPlayer_pause r;;
                emit (FollowUp "Unpaused")
          end
      end
  end.

(** The continuations of [play.execute] *)
Definition play_ready (interaction : Interaction) (r : ref)
    (beginningOfQueue now : bool) (how : Lookup) (ready : bool) : M unit :=
  settle (EnsureReady interaction r beginningOfQueue now how);;
  if negb ready
  then emit (FollowUp "Could not establish a voice connection within 15 seconds, please try again later")
  else suspend (FindTrack interaction r beginningOfQueue now how).

Definition play_found (interaction : Interaction) (r : ref)
    (beginningOfQueue now : bool) (how : Lookup) (track : option Track) : M unit :=
  settle (FindTrack interaction r beginningOfQueue now how);;
  match track with
  | None =>
      emit (FollowUp match how with
                     | fromURL => "Error queuing up track. Make sure the URL is valid, or try again later"
                     | fromSearch => "Could not find any tracks based on that search. Try using a less specific search"
                     end)
  | Some track => enqueueYoutubeTrack track r beginningOfQueue now
  end.

Definition play_playlist (interaction : Interaction) (r : ref)
    (spotifyTracks : option (list slot)) : M unit :=
  settle (FindPlaylist interaction r);;
  match spotifyTracks with
  | None =>
      emit (FollowUp "Could not get playlist information. Please make sure spotify URL is correct, or try again later")
  | Some tracks =>
      void (bulkEnqueue r tracks true);;
      emit (FollowUp ("Enqueued **" +:+ ToString (of_nat (length tracks))
                      +:+ "** tracks from the spotify playlist"))
  end.

Definition next_execute : Interaction -> M unit := play_execute true false.
Definition now_execute : Interaction -> M unit := play_execute true true.

Definition pause_execute (interaction : Interaction) : M unit :=
  subscription ← subscriptions_get (interaction_guildId interaction);
  match subscription with
  | None => emit (Reply not_playing)
  | Some r =>
      s ← this r;
      if bool_decide (player_status (audioPlayer s) = Paused)
      then emit (Reply "Already paused. You can use /play without entering a song name to unpause")
      else
        update r (set_lastTextChannel (channel interaction));;
        audioPlayer_pause r;;
        emit (Reply "Paused")
  end.

Definition shuffle_execute (interaction : Interaction) : M unit :=
  subscription ← subscriptions_get (interaction_guildId interaction);
  match subscription with
  | None => emit (Reply not_playing)
  | Some r =>
      update r (set_lastTextChannel (channel interaction));;
      shuffle r;;
      emit (Reply "Shuffled!")
  end.

Definition clear_execute (interaction : Interaction) : M unit :=
  subscription ← subscriptions_get (interaction_guildId interaction);
  match subscription with
  | None => emit (Reply not_playing)
  | Some r =>
      update r (set_lastTextChannel (channel interaction));;
      clear r;;
      emit (Reply "Queue Cleared!")
  end.

Definition queue_execute (interaction : Interaction) : M unit :=
  subscription ← subscriptions_get (interaction_guildId interaction);
  match subscription with
  | None => emit (Reply not_playing)
  | Some r =>
      update r (set_lastTextChannel (channel interaction));;
      s ← this r;
      if bool_decide (array_length (queue s) = 0)
      then emit (Reply "The queue is currently empty")
      else emit (Reply (queue_page (queue s) (getString interaction "page")))
  end.

(** [index1 = queue.length - 1]: the right-hand side is evaluated before
    the assignment, which would itself fail, [index1] being a [const]. *)
Definition clamp : M unit :=
  resolve_identifier commands_scope "queue";;
  throw (TypeError "Assignment to constant variable.").

Definition swap_execute (interaction : Interaction) : M unit :=
  subscription ← subscriptions_get (interaction_guildId interaction);
  match subscription with
  | None => emit (Reply not_playing)
  | Some r =>
      s ← this r;
      if (array_length (queue s) <? 2)%nat
      then emit (Reply "If you swap a melon with a melon what do you get? A melon")
      else
        match getString interaction "index1", getString interaction "index2" with
        | None, _ | _, None =>
            throw (TypeError "Cannot read properties of null (reading 'trim')")
        | Some option1, Some option2 =>
            let index1 := Number (trim option1) in
            if Number_isNaN index1
            then emit (Reply "Index must be a number! To see indices, type /queue")
            else
              let index2 := Number (trim option2) in
              if Number_isNaN index2
              then emit (Reply "Index must be a number! To see indices, type /queue")
              else
                when (js_gt index1 (of_nat (array_length (queue s)))) clamp;;
                when (js_gt index2 (of_nat (array_length (queue s)))) clamp;;
                if js_strict_eq index1 index2
                then emit (Reply "Indices cannot be the same")
                else if js_lt index1 (of_nat 0) || js_lt index2 (of_nat 0)
                then emit (Reply "Index can't be less than 0")
                else
                  update r (set_lastTextChannel (channel interaction));;
                  swap r index1 index2;;
                  emit (Reply ("Swapped positions `" +:+ ToString index1 +:+ "` and `"
                               +:+ ToString index2 +:+ "` in the queue"))
        end
  end.

(** The first property written under the key [skip] ... *)
Definition skip_execute (interaction : Interaction) : M unit :=
  subscription ← subscriptions_get (interaction_guildId interaction);
  match subscription with
  | None => emit (Reply not_playing)
  | Some r =>
      update r (set_lastTextChannel (channel interaction));;
      s ← this r;
      if bool_decide (player_status (audioPlayer s) = Idle)
         || bool_decide (player_status (audioPlayer s) = Buffering)
      then emit (Reply "Cannot skip since a track is not playing yet")
      else
        skipping ← nowPlaying r;
        audioPlayer_stop r false;;
        emit (Reply ("Skipped `" +:+ youtube_title skipping +:+ "`"))
  end.

(** ... and the second, whose builder is named [stop]. *)
Definition skip_execute_2 (interaction : Interaction) : M unit :=
  subscription ← subscriptions_get (interaction_guildId interaction);
  match subscription with
  | None => emit (Reply not_playing)
  | Some r =>
      update r (set_lastTextChannel (channel interaction));;
      s ← this r;
      if bool_decide (player_status (audioPlayer s) = Idle)
         || bool_decide (player_status (audioPlayer s) = Buffering)
      then emit (Reply "Cannot skip since a track is not playing yet")
      else
        skipping ← nowPlaying r;
        audioPlayer_stop r false;;
        emit (Reply ("Skipped `" +:+ youtube_title skipping +:+ "`"))
  end.

Definition move_execute (interaction : Interaction) : M unit :=
  subscription ← subscriptions_get (interaction_guildId interaction);
  match subscription with
  | None => emit (Reply not_playing)
  | Some r =>
      update r (set_lastTextChannel (channel interaction));;
      match voice_channel interaction with
      | None => emit (Reply "You must be a user and inside of a voice channel to use this command")
      | Some voiceChannel =>
          joinVoiceChannel voiceChannel;;
          emit (Reply "Moved!")
      end
  end.

(** A command: the name given to its builder, and its [execute]. *)
Record Command := {
  builder_name : string;
  execute : Interaction -> M unit;
}.

(** The object literal [commands], property by property as written. *)
Definition commands_literal : list (string * Command) :=
  [ ("play", {| builder_name := "play"; execute := play_execute false false |});
    ("next", {| builder_name := "next"; execute := next_execute |});
    ("now", {| builder_name := "now"; execute := now_execute |});
    ("pause", {| builder_name := "pause"; execute := pause_execute |});
    ("shuffle", {| builder_name := "shuffle"; execute := shuffle_execute |});
    ("clear", {| builder_name := "clear"; execute := clear_execute |});
    ("queue", {| builder_name := "queue"; execute := queue_execute |});
    ("swap", {| builder_name := "swap"; execute := swap_execute |});
    ("skip", {| builder_name := "skip"; execute := skip_execute |});
    ("skip", {| builder_name := "stop"; execute := skip_execute_2 |});
    ("move", {| builder_name := "move"; execute := move_execute |}) ].

(** Evaluating an object literal defines its properties in order; a key
    written twice keeps the value written last. *)
Definition object_of {V} (properties : list (string * V)) : gmap string V :=
  foldl (fun object property => <[property.1 := property.2]> object) ∅ properties.

Definition commands : gmap string Command := object_of commands_literal.

(** The properties every object inherits; all of them are truthy, and none
    has an [execute]. *)
Definition Object_prototype : list string :=
  ["constructor"; "__defineGetter__"; "__defineSetter__"; "hasOwnProperty";
   "__lookupGetter__"; "__lookupSetter__"; "isPrototypeOf";
   "propertyIsEnumerable"; "toString"; "valueOf"; "__proto__"; "toLocaleString"].

(** The [interactionCreate] listener of [client.js] *)
Definition interactionCreate (interaction : Interaction) : M unit :=
  if isCommand interaction then
    match commands !! commandName interaction with
    | Some command => execute command interaction
    | None =>
        if bool_decide (commandName interaction ∈ Object_prototype)
        then throw (TypeError "commands[interaction.commandName].execute is not a function")
        else mret tt
    end
  else mret tt.
End Commands.

(** ** Auxiliary definitions for the proofs *)

(** Exchanging two elements of a list, as [swap] does on indices in range. *)
Definition swap_items (l : list slot) (i j : nat) : list slot :=
  <[j := default None (l !! i)]> (<[i := default None (l !! j)]> l).

(** The index [Math.floor(x * currentIndex)] *)
Definition pick (x : Q) (currentIndex : nat) : nat :=
  Z.to_nat (Qfloor (double (x * inject_Z (Z.of_nat currentIndex)))).

(** What the loop of [shuffle] does to the elements, given the values of
    [Math.random] from the [d]-th on. *)
Fixpoint fisher_yates (rnd : nat -> Q) (d : nat) (l : list slot)
    (currentIndex : nat) : list slot :=
  match currentIndex with
  | 0 => l
  | S n => fisher_yates rnd (S d) (swap_items l n (pick (rnd d) (S n))) n
  end.

(** [Math.random] returns doubles in [0, 1). *)
Definition unit_interval (rnd : nat -> Q) : Prop :=
  forall k, (0 <= rnd k)%Q /\ (rnd k < 1)%Q /\ (double (rnd k) == rnd k)%Q.

(** The loop of [shuffle] as a function of the indices it draws *)
Fixpoint shuffle_by (cs : list nat) (l : list slot) (n : nat) : list slot :=
  match n, cs with
  | S n', j :: cs' => shuffle_by cs' (swap_items l n' j) n'
  | _, _ => l
  end.

Fixpoint picks (rnd : nat -> Q) (d n : nat) : list nat :=
  match n with
  | 0 => []
  | S n' => pick (rnd d) (S n') :: picks rnd (S d) n'
  end.

(** Index vectors a Fisher-Yates run can draw: the [k]-th from the end is at most k *)
Fixpoint in_range (cs : list nat) (n : nat) : Prop :=
  match n, cs with
  | 0, [] => True
  | S n', j :: cs' => (j <= n')%nat /\ in_range cs' n'
  | _, _ => False
  end.

(** A value of [Math.random] that draws the index [j] of [n]: the multiple
    of [2 ^ (-53)] at, or next above, the middle of the [j]-th of the [n]
    equal parts of the unit interval. *)
Definition draw (j n : nat) : Q :=
  inject_Z (((2 * Z.of_nat j + 1) * 2 ^ 52 + Z.of_nat n - 1) / Z.of_nat n)
  * Qpower 2 (-53).

(** Values of [Math.random] that draw given indices *)
Fixpoint tape (cs : list nat) (n k : nat) : Q :=
  match cs, k with
  | [], _ => 0
  | j :: _, 0 => draw j n
  | _ :: cs', S k' => tape cs' (Nat.pred n) k'
  end.

(** A world for the examples: one subscription with two queued tracks,
    registered for its guild. *)
Definition track_A : Track := {| track_id := 1; youtube_title := "A"; errored := false |}.
Definition track_B : Track := {| track_id := 2; youtube_title := "B"; errored := false |}.
Definition track_C : Track := {| track_id := 3; youtube_title := "C"; errored := false |}.

Definition example_subscription : MusicSubscription :=
  {| voiceConnection := {| conn_state := plain_state Ready; rejoinAttempts := 0 |};
     audioPlayer := idle_state;
     queue := {| items := [Some track_A; Some track_B]; named := [] |};
     destroyed := false;
     lastTextChannel := "general";
     guildId := "guild";
     queueLock := false;
     readyLock := false;
     wait := false |}.

Definition example_world : World :=
  {| heap := {[ 0%nat := example_subscription ]};
     subscriptions := {[ "guild" := 0%nat ]};
     trace := [];
     pending := [];
     random := fun _ => 1 # 4;
     drawn := 0 |}.

(** Every registered subscription is an object of the heap. *)
Definition registry_ok (w : World) : Prop :=
  forall g r, subscriptions w !! g = Some r -> is_Some (heap w !! r).

(** The object the constructor builds. *)
Definition fresh_subscription (conn : VoiceConnection) (textChannel : TextChannel)
    (guild : GuildId) : MusicSubscription :=
  {| voiceConnection := conn;
     audioPlayer := idle_state;
     queue := empty_array;
     destroyed := false;
     lastTextChannel := textChannel;
     guildId := guild;
     queueLock := false;
     readyLock := false;
     wait := false |}.

Definition example_channel : VoiceChannel :=
  {| channel_id := "voice-1"; channel_guild := "guild"; adapter_sends := true |}.
Definition example_channel' : VoiceChannel :=
  {| channel_id := "voice-2"; channel_guild := "guild"; adapter_sends := true |}.

(** ** Local effects *)

(** The change a method makes to the world when, of the heap, it touches
    the subscription [r] alone: [r] is left in the state [s'], the events
    [es] and the suspended awaits [ps] are appended, and the guilds [gs] are
    removed from the registry. *)
Definition effect (r : ref) (s' : MusicSubscription) (es : list Event)
    (ps : list Pending) (gs : list GuildId) (w : World) : World :=
  {| heap := <[r := s']> (heap w);
     subscriptions := foldl (fun m g => delete g m) (subscriptions w) gs;
     trace := trace w ++ es; pending := pending w ++ ps;
     random := random w; drawn := drawn w |}.

(** [c], run in a world where [r] is in the state [s], ends with [out]
    and has the effect given. *)
Definition runs {A} (c : M A) (r : ref) (s : MusicSubscription) (out : Outcome A)
    (s' : MusicSubscription) (es : list Event) (ps : list Pending)
    (gs : list GuildId) : Prop :=
  forall w, heap w !! r = Some s -> c w = (out, effect r s' es ps gs w).

Definition swallowed {A} (out : Outcome A) : Outcome unit :=
  match out with
  | Throw OutOfFuel => Throw OutOfFuel
  | Throw Dangling => Throw Dangling
  | _ => Return tt
  end.

(** What [processQueue] does to its subscription. *)
Definition processQueue_local (r : ref) (s : MusicSubscription)
  : Outcome unit * MusicSubscription * list Pending :=
  if queueLock s
     || negb (bool_decide (player_status (audioPlayer s) = Idle))
     || bool_decide (array_length (queue s) = 0%nat)
  then (Return tt, set_wait false s, [])
  else
    let s' := set_queue (array_shift (queue s)).2 (set_queueLock true (set_wait false s)) in
    match (array_shift (queue s)).1 with
    | Some t => (Return tt, s', [Production r (Some t)])
    | None => (Throw (TypeError "Cannot read properties of undefined (reading 'onError')"), s', [])
    end.

(** What the listener on the player does to its subscription; a rejection is not observed. *)
Definition onPlayerStateChange_local (r : ref) (oldState newState : AudioPlayerState)
    (s : MusicSubscription) : MusicSubscription * list Event * list Pending :=
  if bool_decide (player_status newState = Idle)
     && negb (bool_decide (player_status oldState = Idle))
  then
    match resource oldState with
    | None => (s, [], [])
    | Some res =>
        (if wait s then s else (processQueue_local r s).1.2,
         if errored (metadata res) then [] else [Call onFinish (metadata res)],
         (if wait s then [] else (processQueue_local r s).2) ++ [IdleGuard r])
    end
  else if bool_decide (player_status newState = Playing) then
    match resource newState with
    | None => (s, [], [])
    | Some res => (s, [Call onStart (metadata res)], [])
    end
  else (s, [], []).

(** What a forced [audioPlayer.stop] does to its subscription. *)
Definition audioPlayer_stop_local (r : ref) (s : MusicSubscription)
  : bool * (MusicSubscription * list Event * list Pending) :=
  if bool_decide (player_status (audioPlayer s) = Idle) then (false, (s, [], []))
  else (true, onPlayerStateChange_local r (audioPlayer s) idle_state
                (set_audioPlayer idle_state s)).

(** The callback and the guard that ending the playback of [p] brings. *)
Definition finish_events (p : AudioPlayerState) : list Event :=
  match resource p with
  | Some res =>
      if bool_decide (player_status p = Idle) || errored (metadata res) then []
      else [Call onFinish (metadata res)]
  | None => []
  end.

Definition idle_guards (r : ref) (p : AudioPlayerState) : list Pending :=
  match resource p with
  | Some res => if bool_decide (player_status p = Idle) then [] else [IdleGuard r]
  | None => []
  end.

(** The subscription after [stop()] has locked and cleared the queue,
    stopped the player and marked the subscription. *)
Definition halted (s : MusicSubscription) : MusicSubscription :=
  set_destroyed true
    (if bool_decide (player_status (audioPlayer s) = Idle)
     then set_queue empty_array (set_queueLock true s)
     else set_audioPlayer idle_state (set_queue empty_array (set_queueLock true s))).

(** The subscription after [stop()] *)
Definition stopped (s : MusicSubscription) : MusicSubscription :=
  set_conn_state (plain_state Destroyed) (halted s).


(** The productions settle one after the other, each as [produce] says,
    until one succeeds. *)
Fixpoint settle_productions (produce : Track -> option JsError) (r : ref)
    (ts : list Track) : M unit :=
  match ts with
  | [] => mret tt
  | t :: ts' =>
      processQueue_settled r t (produce t);;
      match produce t with
      | None => mret tt
      | Some _ => settle_productions produce r ts'
      end
  end.

(** The events such a run must show, and the queue it must leave. *)
Fixpoint skipped_then_played (produce : Track -> option JsError) (r : ref)
    (ts : list Track) : list Event :=
  match ts with
  | [] => []
  | t :: ts' =>
      match produce t with
      | None => [Play r t]
      | Some _ => Call onError t :: skipped_then_played produce r ts'
      end
  end.

Fixpoint left_queued (produce : Track -> option JsError) (ts : list Track) : list Track :=
  match ts with
  | [] => []
  | t :: ts' =>
      match produce t with
      | None => ts'
      | Some _ => left_queued produce ts'
      end
  end.

(** The events [stop()] adds: the end of what was playing, and the
    destruction of a connection that was not yet destroyed. *)
Definition stop_events (r : ref) (s : MusicSubscription) : list Event :=
  finish_events (audioPlayer s)
  ++ if bool_decide (status_of s = Destroyed) then [] else [Destroy r].

(** The state [stop()] leaves the subscription in. *)
Definition after_stop (s : MusicSubscription) : MusicSubscription :=
  if bool_decide (status_of s = Destroyed) then halted s else stopped s.

(** The same world while track C is playing. *)
Definition playing_subscription : MusicSubscription :=
  set_audioPlayer
    {| player_status := Playing; resource := Some {| metadata := track_C |} |}
    example_subscription.

Definition playing_world : World :=
  set_heap {[ 0%nat := playing_subscription ]} example_world.

(** How many awaits of a kind are suspended. *)
Definition count_pending (p : Pending) (ps : list Pending) : nat :=
  length (filter (fun p' => p' = p) ps).


(** A connection that is still signalling, its guard not armed. *)
Definition signalling_subscription : MusicSubscription :=
  set_voiceConnection {| conn_state := plain_state Signalling; rejoinAttempts := 0 |}
    example_subscription.

Definition signalling_world : World :=
  set_heap {[ 0%nat := signalling_subscription ]} example_world.

(** A disconnection that is not the close code 4014 *)
Definition recoverable (st : VoiceConnectionState) : Prop :=
  conn_status st = Disconnected
  /\ (bool_decide (reason st = Some WebSocketClose)
      && bool_decide (closeCode st = Some 4014%nat)) = false.

(** One failed reconnection: the connection drops, the back-off the listener
    asked for elapses, and the join request is sent. *)
Definition failed_cycle (dropped : VoiceConnectionState) (r : ref) : M unit :=
  s ← this r;
  connection_enters r dropped;;
  rejoinWait_elapsed r ((rejoinAttempts (voiceConnection s) + 1) * 5000)%nat true.

Fixpoint failed_cycles (n : nat) (dropped : VoiceConnectionState) (r : ref) : M unit :=
  match n with
  | 0 => mret tt
  | S n' => failed_cycle dropped r;; failed_cycles n' dropped r
  end.

(** The subscription after a rejoin that was sent while it was neither ready nor destroyed. *)
Definition rejoined (s : MusicSubscription) : MusicSubscription :=
  set_readyLock true (set_conn_state (plain_state Signalling) (count_rejoin s)).

(** A disconnection for a reason other than the close code 4014. *)
Definition dropped_state : VoiceConnectionState :=
  {| conn_status := Disconnected; reason := Some WebSocketClose; closeCode := Some 4000%nat |}.

(** A command that ends with one reply and nothing else. *)
Definition replied (msg : string) (w : World) : Outcome unit * World :=
  (Return tt, set_trace (trace w ++ [Reply msg]) w).

(** For the examples: [Number] on a string of decimal digits (the empty
    string is 0), with every other string taken as not numeric; [trim] on
    strings free of white space; [ToString] on integers. *)
Fixpoint digits (s : string) (acc : Z) : option Z :=
  match s with
  | "" => Some acc
  | String c s' =>
      let n := Z.of_nat (Ascii.nat_of_ascii c) in
      if ((48 <=? n) && (n <=? 57))%Z then digits s' (10 * acc + (n - 48))%Z else None
  end.

Definition Number_of_digits (s : string) : JsNum :=
  match digits s 0 with
  | Some z => JFin (inject_Z z)
  | None => JNaN
  end.

Definition ToString_integer (x : JsNum) : string :=
  match x with
  | JNaN => "NaN"
  | JPosInf => "Infinity"
  | JNegInf => "-Infinity"
  | JFin q => pretty (Qfloor q)
  end.

Definition swap_interaction (index1 index2 : string) : Interaction :=
  {| isCommand := true; commandName := "swap"; interaction_guildId := "guild";
     channel := "general"; voice_channel := None;
     options := [("index1", index1); ("index2", index2)] |}.

(** Nothing has been torn down between [w] and [w']: every subscription
    marked destroyed in [w'] was so in [w], every guild registered in [w] is
    registered to the same subscription in [w'], and every destruction of a
    connection recorded in [w'] was recorded in [w]. *)
Definition no_teardown (w w' : World) : Prop :=
  (forall r s', heap w' !! r = Some s' -> destroyed s' = true ->
     exists s, heap w !! r = Some s /\ destroyed s = true)
  /\ (forall g r, subscriptions w !! g = Some r -> subscriptions w' !! g = Some r)
  /\ (forall r, Destroy r ∈ trace w' -> Destroy r ∈ trace w).

(** [c] tears nothing down, however it ends. *)
Definition harmless {A} (c : M A) : Prop := forall w, no_teardown w (c w).2.

Definition not_a_destruction (e : Event) : Prop :=
  match e with Destroy _ => False | _ => True end.

(** A [/stop] interaction, as the gateway delivers it. *)
Definition stop_interaction : Interaction :=
  {| isCommand := true; commandName := "stop"; interaction_guildId := "guild";
     channel := "general"; voice_channel := None; options := [] |}.

(** The queue is not to be processed now: it is locked, or the player is
    not idle. *)
Definition busy (s : MusicSubscription) : bool :=
  queueLock s || negb (bool_decide (player_status (audioPlayer s) = Idle)).

(** The items after [enqueueNext]: the new track in front, the old front
    at the end. *)
Definition next_in_front (track : slot) (l : list slot) : list slot :=
  match l with
  | [] => [track]
  | front :: behind => track :: behind ++ [front]
  end.

(** ** Everything that can happen

    What reaches the program from outside: a slash command, a promise that
    settles, a change of state of a player or a connection, a timer that
    runs out.  The continuation of an [await] runs only while that [await]
    is suspended. *)
Inductive Action :=
| Interact (interaction : Interaction)
| ConnectionChecked (interaction : Interaction) (r : ref) (beginningOfQueue now : bool)
    (how : Lookup) (ready : bool)
| TrackLookedUp (interaction : Interaction) (r : ref) (beginningOfQueue now : bool)
    (how : Lookup) (track : option Track)
| PlaylistLookedUp (interaction : Interaction) (r : ref) (tracks : option (list slot))
| ProductionSettles (r : ref) (nextTrack : Track) (outcome : option JsError)
| PlayerEnters (r : ref) (newState : AudioPlayerState)
| PlayerFails (r : ref) (res : AudioResource)
| ConnectionEnters (r : ref) (newState : VoiceConnectionState)
| IdleGuardRunsOut (r : ref)
| ReadyGuardRunsOut (r : ref)
| MoveGuardRunsOut (r : ref)
| RejoinWaitElapses (r : ref) (ms : nat) (sent : bool).

(** Running the continuation of the suspended await [p] *)
Definition resume {A} (p : Pending) (continuation : M A) : M unit :=
  w ← world;
  when (bool_decide (p ∈ pending w)) (void continuation).

Section Environment.
Variable Number : string -> JsNum.
Variable trim : string -> string.
Variable ToString : JsNum -> string.
Variable toLowerCase : string -> string.
Variable includes : string -> string -> bool.
Variable queue_page : JsArray -> option string -> string.

Definition perform (a : Action) : M unit :=
  match a with
  | Interact interaction =>
      void (interactionCreate Number trim ToString toLowerCase includes queue_page
              interaction)
  | ConnectionChecked interaction r beginningOfQueue now how ready =>
      resume (EnsureReady interaction r beginningOfQueue now how)
        (play_ready interaction r beginningOfQueue now how ready)
  | TrackLookedUp interaction r beginningOfQueue now how track =>
      resume (FindTrack interaction r beginningOfQueue now how)
        (play_found ToString interaction r beginningOfQueue now how track)
  | PlaylistLookedUp interaction r tracks =>
      resume (FindPlaylist interaction r) (play_playlist ToString interaction r tracks)
  | ProductionSettles r nextTrack outcome =>
      resume (Production r (Some nextTrack)) (processQueue_settled r nextTrack outcome)
  | PlayerEnters r newState => player_enters r newState
  | PlayerFails r res => void (onPlayerError r res)
  | ConnectionEnters r newState => connection_enters r newState
  | IdleGuardRunsOut r => resume (IdleGuard r) (idleGuard_timeout r)
  | ReadyGuardRunsOut r => resume (ReadyGuard r) (readyGuard_timeout r)
  | MoveGuardRunsOut r => resume (MoveGuard r) (moveGuard_timeout r)
  | RejoinWaitElapses r ms sent => resume (RejoinWait r ms) (rejoinWait_elapsed r ms sent)
  end.

(** The world after a run of actions, one after the other, however each
    of them ends. *)
Definition perform_all (actions : list Action) (w : World) : World :=
  foldl (fun w a => (perform a w).2) w actions.
End Environment.

(** The productions of [r] that are awaited *)
Definition is_production (r : ref) (p : Pending) : bool :=
  match p with
  | Production r' _ => bool_decide (r' = r)
  | _ => false
  end.

Definition in_flight (r : ref) (ps : list Pending) : nat :=
  length (filter (fun p => is_production r p = true) ps).

(** A property of the lock of [r] and of the productions of [r] in flight *)
Definition lock_invariant (phi : bool -> nat -> Prop) (r : ref) (w : World) : Prop :=
  exists s, heap w !! r = Some s /\ phi (queueLock s) (in_flight r (pending w)).

Definition keeps {A} (phi : bool -> nat -> Prop) (r : ref) (c : M A) : Prop :=
  forall w, lock_invariant phi r w -> lock_invariant phi r (c w).2.

(** At most one production in flight, and none without the lock. *)
Definition one_at_a_time : bool -> nat -> Prop :=
  fun lock n => (n <= if lock then 1 else 0)%nat.

(** The lock is held, and nothing is in flight that would release it. *)
Definition jammed : bool -> nat -> Prop :=
  fun lock n => lock = true /\ n = 0%nat.

(** The example world after [/swap 2 0]: an empty place leads the queue. *)
Definition holed_world : World :=
  set_heap {[ 0%nat := set_queue {| items := [None; Some track_B; Some track_A];
                                    named := [] |} example_subscription ]}
    example_world.

(** The disconnection the gateway reports when the bot is moved to another
    channel, or kicked: the socket closes with code 4014. *)
Definition moved_state : VoiceConnectionState :=
  {| conn_status := Disconnected; reason := Some WebSocketClose;
     closeCode := Some 4014%nat |}.

(** A command, as the gateway delivers it *)
Definition command_interaction (name : string) (guild : GuildId)
    (options : list (string * string)) : Interaction :=
  {| isCommand := true; commandName := name; interaction_guildId := guild;
     channel := "lobby"; voice_channel := None; options := options |}.

(** The example world with its player paused on track C. *)
Definition paused_subscription : MusicSubscription :=
  set_audioPlayer
    {| player_status := Paused; resource := Some {| metadata := track_C |} |}
    example_subscription.

Definition paused_world : World :=
  set_heap {[ 0%nat := paused_subscription ]} example_world.

(** Every guild of the registry is filed under its own id, and its
    subscription has not been ended. *)
Definition registry_sound (w : World) : Prop :=
  forall g r, subscriptions w !! g = Some r ->
    exists s, heap w !! r = Some s /\ guildId s = g /\ destroyed s = false.

Definition sustains {A} (c : M A) : Prop :=
  forall w, registry_sound w -> registry_sound (c w).2.

(** The example world while the resource of track C is awaited. *)
Definition loading_subscription : MusicSubscription :=
  set_queueLock true example_subscription.

Definition loading_world : World :=
  set_pending [Production 0 (Some track_C)]
    (set_heap {[ 0%nat := loading_subscription ]} example_world).

(** The example world while the 15-second guard of its connection is armed. *)
Definition guarded_subscription : MusicSubscription :=
  set_readyLock true signalling_subscription.

Definition guarded_world : World :=
  set_pending [ReadyGuard 0]
    (set_heap {[ 0%nat := guarded_subscription ]} example_world).

(** ** The page that [/queue] prints

    More of the arithmetic of numbers: [x + n] and [x / n] for a number [x]
    and a positive count [n], [x - 1], [Math.ceil], and [!x]. *)
Definition js_add (x : JsNum) (n : nat) : JsNum :=
  match x with
  | JFin q => JFin (q + inject_Z (Z.of_nat n))
  | _ => x
  end.

Definition js_div (x : JsNum) (n : nat) : JsNum :=
  match x with
  | JFin q => JFin (q / inject_Z (Z.of_nat n))
  | _ => x
  end.

Definition js_pred (x : JsNum) : JsNum :=
  match x with
  | JFin q => JFin (q - 1)
  | _ => x
  end.

Definition Math_ceil (x : JsNum) : JsNum :=
  match x with
  | JFin q => JFin (inject_Z (Qceiling q))
  | _ => x
  end.

Definition js_not (x : JsNum) : bool :=
  match x with
  | JNaN => true
  | JFin q => Qeq_bool q 0
  | _ => false
  end.

(** Where [slice] starts or ends for an argument [x]: the number is cut to
    an integer, a negative one counts from the end, and the result is kept
    inside the array. *)
Definition slice_index (x : JsNum) (len : nat) : nat :=
  match x with
  | JNaN | JNegInf => 0
  | JPosInf => len
  | JFin q =>
      let z := if Qle_bool 0 q then Qfloor q else Qceiling q in
      if (z <? 0)%Z then Z.to_nat (Z.max (Z.of_nat len + z) 0)
      else Z.to_nat (Z.min z (Z.of_nat len))
  end.

(** [a.slice(start, end)] *)
Definition array_slice (a : JsArray) (start end_ : JsNum) : list slot :=
  let k := slice_index start (array_length a) in
  let final := slice_index end_ (array_length a) in
  take (final - k) (drop k (items a)).

Definition newline : string :=
  String (Ascii.Ascii false true false true false false false false) EmptyString.

Section QueuePage.
Variable Number : string -> JsNum.
Variable ToString : JsNum -> string.
(** The text of [track.spotify_title] inside a concatenation *)
Variable spotify_title : Track -> string.

(** [track.youtube_title || track.spotify_title] *)
Definition title (track : Track) : string :=
  match youtube_title track with
  | "" => spotify_title track
  | _ => youtube_title track
  end.

(** The loop over the tracks of the page; [currIndex++] gives the index
    before it is stepped. *)
Fixpoint queue_rows (tracks : list slot) (currIndex : JsNum) (text : string)
  : Outcome string :=
  match tracks with
  | [] => Return text
  | None :: _ =>
      Throw (TypeError "Cannot read properties of undefined (reading 'youtube_title')")
  | Some track :: tracks' =>
      queue_rows tracks' (js_add currIndex 1)
        (text +:+ newline +:+ "`" +:+ ToString currIndex +:+ "` " +:+ "`"
         +:+ title track +:+ "`")
  end.

(** What [/queue] replies with when the queue is not empty; [option] is the
    option [page], [None] when it was not supplied ([Number(null)] is 0). *)
Definition queue_page_text (queue : JsArray) (option : option string) : Outcome string :=
  let page := match option with
              | Some text => Number text
              | None => of_nat 0
              end in
  let page := if js_not page then of_nat 0 else page in
  let resultsPerPage := 10 in
  let highestPage :=
    js_pred (Math_ceil (js_div (of_nat (array_length queue)) resultsPerPage)) in
  let page := if js_gt page highestPage then highestPage else page in
  let end_ := js_add (js_mul page resultsPerPage) resultsPerPage in
  let end_ := if js_gt end_ (of_nat (array_length queue))
              then of_nat (array_length queue) else end_ in
  let tracks := array_slice queue (js_mul page resultsPerPage) end_ in
  let currIndex := js_mul page resultsPerPage in
  queue_rows tracks currIndex
    ("Queue Page " +:+ "`" +:+ ToString page +:+ "` of " +:+ "`" +:+ ToString highestPage
     +:+ "`" +:+ " ").

(** The page as it should read: the heading, and a row for each of the
    [count] tracks from position [first] on. *)
Definition page_heading (page highestPage : string) : string :=
  "Queue Page " +:+ "`" +:+ page +:+ "` of " +:+ "`" +:+ highestPage +:+ "`" +:+ " ".

Definition page_row (position : Z) (track : Track) : string :=
  newline +:+ "`" +:+ ToString (JFin (inject_Z position)) +:+ "` " +:+ "`"
  +:+ title track +:+ "`".

Fixpoint page_rows (tracks : list Track) (first : Z) (text : string) : string :=
  match tracks with
  | [] => text
  | track :: tracks' => page_rows tracks' (first + 1) (text +:+ page_row first track)
  end.
End QueuePage.

(** [slice_index] at an integer *)
Definition slice_at (i : Z) (len : nat) : nat :=
  if (i <? 0)%Z then Z.to_nat (Z.max (Z.of_nat len + i) 0)
  else Z.to_nat (Z.min i (Z.of_nat len)).

(** A queue of twelve tracks *)
Definition dozen : list Track :=
  (fun n => {| track_id := n; youtube_title := pretty n; errored := false |}) <$> seq 0 12.

(** [/move] finds the connection of the guild in no state in which the
    listener destroys it: the request to join can be sent, or fewer than
    five attempts will have been counted (one more than now, when the
    connection is disconnected and the library rejoins) when the listener
    hears that it could not. *)
Definition move_is_quiet (interaction : Interaction) (w : World) : Prop :=
  forall voiceChannel r s,
    voice_channel interaction = Some voiceChannel ->
    adapter_sends voiceChannel = false ->
    subscriptions w !! channel_guild voiceChannel = Some r ->
    heap w !! r = Some s ->
    (rejoinAttempts (voiceConnection s)
     + (if bool_decide (status_of s = Disconnected) then 1 else 0) < 5)%nat.

(** A [/move] from a member in another channel of the guild, at a time
    when the gateway cannot be reached. *)
Definition move_interaction : Interaction :=
  {| isCommand := true; commandName := "move"; interaction_guildId := "guild";
     channel := "general";
     voice_channel := Some {| channel_id := "voice-2"; channel_guild := "guild";
                              adapter_sends := false |};
     options := [] |}.

(** The connection drops five times, and is asked to rejoin after each
    back-off. *)
Definition five_failed_cycles : list Action :=
  [ConnectionEnters 0 dropped_state; RejoinWaitElapses 0 ((0 + 1) * 5000) true;
   ConnectionEnters 0 dropped_state; RejoinWaitElapses 0 ((1 + 1) * 5000) true;
   ConnectionEnters 0 dropped_state; RejoinWaitElapses 0 ((2 + 1) * 5000) true;
   ConnectionEnters 0 dropped_state; RejoinWaitElapses 0 ((3 + 1) * 5000) true;
   ConnectionEnters 0 dropped_state; RejoinWaitElapses 0 ((4 + 1) * 5000) true].

(** The example world after these five cycles. *)
Definition worn_world : World :=
  perform_all Number_of_digits id ToString_integer id (fun _ _ => false) (fun _ _ => "")
    five_failed_cycles example_world.






(** * Properties *)

(** ** Running a computation *)

Lemma run_bind {A B} (c : M A) (k : A -> M B) (w : World) :
  (c ≫= k) w = match c w with
               | (Return a, w') => k a w'
               | (Throw e, w') => (Throw e, w')
               end.
Proof. reflexivity. Qed.

Lemma run_this r s w : heap w !! r = Some s -> this r w = (Return s, w).
Proof. intros H. unfold this. by rewrite H. Qed.

Lemma run_update r f s w :
  heap w !! r = Some s ->
  update r f w = (Return tt, set_heap (<[r := f s]> (heap w)) w).
Proof. intros H. unfold update. by rewrite H. Qed.

(** Symbolic execution on a world given by its fields. *)
Ltac exec_step :=
  first
    [ progress cbn [heap subscriptions trace pending random drawn
                    set_heap set_subscriptions set_trace set_pending set_drawn
                    fst snd negb andb orb]
    | progress unfold mbind, M_bind, mret, M_ret, this, update, emit, suspend,
        settle, modify, world, when, void, throw, try_catch, try_finally,
        set_heap, set_subscriptions, set_trace, set_pending, set_drawn
    | rewrite lookup_insert_eq
    | rewrite insert_insert_eq
    | match goal with
      | H : ?h !! ?r = Some _ |- context [?h !! ?r] => rewrite H
      end ].
Ltac exec := repeat exec_step.

(** ** Array indices *)

Lemma to_index_Z (z : Z) :
  (0 <= z)%Z -> to_index (JFin (inject_Z z)) = Some (Z.to_nat z).
Proof.
  intros Hz. unfold to_index. rewrite Qfloor_Z, Qeq_bool_refl.
  by destruct (Z.leb_spec 0 z) as [_|?]; [|lia].
Qed.

Lemma to_index_of_nat (n : nat) : to_index (of_nat n) = Some n.
Proof. unfold of_nat. rewrite to_index_Z by lia. by rewrite Nat2Z.id. Qed.

Lemma length_swap_items l i j : length (swap_items l i j) = length l.
Proof. unfold swap_items. by rewrite !length_insert. Qed.

Lemma swap_items_perm l i j :
  (i < length l)%nat -> (j < length l)%nat -> swap_items l i j ≡ₚ l.
Proof.
  intros Hi Hj. unfold swap_items.
  destruct (lookup_lt_is_Some_2 l i Hi) as [x Hx].
  destruct (lookup_lt_is_Some_2 l j Hj) as [y Hy].
  rewrite Hx, Hy. simpl. by apply Permutation_insert_swap.
Qed.

Lemma array_swap_in_range (q : JsArray) (i j : nat) :
  (i < length (items q))%nat -> (j < length (items q))%nat ->
  array_set (array_set q (of_nat i) (array_get q (of_nat j))) (of_nat j)
            (array_get q (of_nat i))
  = {| items := swap_items (items q) i j; named := named q |}.
Proof.
  intros Hi Hj. unfold array_set, array_get. rewrite !to_index_of_nat.
  destruct (decide (i < length (items q))%nat) as [_|?]; [|lia]. simpl.
  rewrite length_insert. by destruct (decide (j < length (items q))%nat); [|lia].
Qed.

Lemma run_swap r s w (i j : nat) :
  heap w !! r = Some s ->
  (i < length (items (queue s)))%nat -> (j < length (items (queue s)))%nat ->
  swap r (of_nat i) (of_nat j) w
  = (Return tt,
     set_heap (<[r := set_queue {| items := swap_items (items (queue s)) i j;
                                   named := named (queue s) |} s]> (heap w)) w).
Proof.
  intros Hr Hi Hj. destruct w as [h m tr pe rnd dr]. simpl in Hr.
  unfold swap. exec.
  destruct s as [vc ap q d ltc g ql rl wt]. unfold set_queue. simpl in *.
  by rewrite array_swap_in_range.
Qed.

(** ** The shuffle *)

Lemma Qfloor_nonneg (x : Q) : (0 <= x)%Q -> (0 <= Qfloor x)%Z.
Proof. intros H. change 0%Z with (Qfloor 0). by apply Qfloor_resp_le. Qed.

Lemma scaled_nonneg (x : Q) (n : nat) :
  (0 <= x)%Q -> (0 <= x * inject_Z (Z.of_nat n))%Q.
Proof.
  intros Hx. apply Qmult_le_0_compat; [done|].
  change 0%Q with (inject_Z 0). rewrite <- Zle_Qle. lia.
Qed.

(** *** Rounding to a double *)

Section Doubles.
Local Open Scope Q_scope.

Lemma pow2_pos (e : Z) : 0 < 2 ^ e.
Proof. apply Qpower_0_lt. reflexivity. Qed.

Lemma pow2_add (a b : Z) : 2 ^ (a + b) == 2 ^ a * 2 ^ b.
Proof. apply Qpower_plus. discriminate. Qed.

Lemma pow2_succ (e : Z) : 2 ^ (e + 1) == 2 * 2 ^ e.
Proof. rewrite pow2_add. change (2 ^ 1) with 2. lra. Qed.

Lemma pow2_inv (a : Z) : 2 ^ a * 2 ^ (- a) == 1.
Proof. rewrite <- pow2_add. rewrite Z.add_opp_diag_r. reflexivity. Qed.

Lemma pow2_lt (a b : Z) : (a < b)%Z -> 2 ^ a < 2 ^ b.
Proof. intros H. apply Qpower_lt_compat_l; [exact H | reflexivity]. Qed.

Lemma pow2_le (a b : Z) : (a <= b)%Z -> 2 ^ a <= 2 ^ b.
Proof. intros H. apply Qpower_le_compat_l; [exact H | discriminate]. Qed.

Lemma pow2_lt_inv (a b : Z) : 2 ^ a < 2 ^ b -> (a < b)%Z.
Proof.
  intros H. destruct (Z.lt_ge_cases a b) as [?|Hge]; [assumption|].
  apply pow2_le in Hge. lra.
Qed.

Lemma pow2_Z (n : Z) : (0 <= n)%Z -> inject_Z (2 ^ n) == 2 ^ n.
Proof. intros H. apply (Zpower_Qpower 2 n H). Qed.

Lemma log2_bounds (a : Z) :
  (0 < a)%Z -> 2 ^ Z.log2 a <= inject_Z a /\ inject_Z a < 2 ^ (Z.log2 a + 1).
Proof.
  intros Ha. destruct (Z.log2_spec a Ha) as [Hl Hu].
  pose proof (Z.log2_nonneg a) as Hn.
  rewrite <- !pow2_Z by lia. rewrite <- Zle_Qle, <- Zlt_Qlt.
  split; [exact Hl | ]. replace (Z.log2 a + 1)%Z with (Z.succ (Z.log2 a)) by lia. exact Hu.
Qed.

Lemma binade_spec (q : Q) :
  0 < q -> 2 ^ binade q <= q /\ q < 2 ^ (binade q + 1).
Proof.
  intros Hq. destruct q as [a b].
  assert (0 < a)%Z as Ha by (unfold Qlt in Hq; simpl in Hq; lia).
  destruct (log2_bounds a Ha) as [Hal Hau].
  destruct (log2_bounds (Zpos b) eq_refl) as [Hbl Hbu].
  set (la := Z.log2 a) in *. set (lb := Z.log2 (Z.pos b)) in *.
  assert ((a # b) * inject_Z (Zpos b) == inject_Z a) as Hab.
  { unfold Qeq, Qmult, inject_Z. simpl. lia. }
  assert (0 < inject_Z (Zpos b)) as Hb by reflexivity.
  set (A := inject_Z a) in *. set (B := inject_Z (Zpos b)) in *. set (q := a # b) in *.
  assert (q < 2 ^ (la - lb + 1)) as Hup.
  { apply (Qmult_lt_r _ _ B Hb). rewrite Hab.
    eapply Qlt_le_trans; [exact Hau|].
    replace (la + 1)%Z with ((la - lb + 1) + lb)%Z by lia. rewrite pow2_add.
    apply Qmult_le_l; [apply pow2_pos | exact Hbl]. }
  assert (2 ^ (la - lb - 1) < q) as Hlow.
  { apply (Qmult_lt_r _ _ B Hb). rewrite Hab.
    eapply Qlt_le_trans; [|exact Hal].
    replace la with ((la - lb - 1) + (lb + 1))%Z at 2 by lia. rewrite pow2_add.
    apply Qmult_lt_l; [apply pow2_pos | exact Hbu]. }
  change (binade q) with (if Qle_bool (2 ^ (la - lb)) q then la - lb else la - lb - 1)%Z.
  destruct (Qle_bool (2 ^ (la - lb)) q) eqn:Htest.
  - apply Qle_bool_iff in Htest. split; [exact Htest | exact Hup].
  - assert (~ 2 ^ (la - lb) <= q) as Hn.
    { intros H. apply Qle_bool_iff in H. congruence. }
    apply Qnot_le_lt in Hn. split; [apply Qlt_le_weak, Hlow|].
    replace (la - lb - 1 + 1)%Z with (la - lb)%Z by lia. exact Hn.
Qed.

Lemma binade_unique (q : Q) (e : Z) :
  2 ^ e <= q -> q < 2 ^ (e + 1) -> binade q = e.
Proof.
  intros Hl Hu.
  assert (0 < q) as Hq by (pose proof (pow2_pos e); lra).
  destruct (binade_spec q Hq) as [Hl' Hu'].
  assert (binade q < e + 1)%Z by (apply pow2_lt_inv; lra).
  assert (e < binade q + 1)%Z by (apply pow2_lt_inv; lra).
  lia.
Qed.

Lemma binade_comp (q q' : Q) : 0 < q -> q == q' -> binade q = binade q'.
Proof.
  intros Hq Heq. symmetry. destruct (binade_spec q Hq) as [Hl Hu].
  apply binade_unique; rewrite <- Heq; assumption.
Qed.

Lemma round_half_even_error (q : Q) :
  q - (1 # 2) <= inject_Z (round_half_even q) /\ inject_Z (round_half_even q) <= q + (1 # 2).
Proof.
  unfold round_half_even.
  pose proof (Qfloor_le q) as Hl. pose proof (Qlt_floor q) as Hu.
  rewrite inject_Z_plus in Hu. change (inject_Z 1) with 1 in Hu.
  destruct (Qcompare_spec (q - inject_Z (Qfloor q)) (1 # 2)) as [H|H|H].
  - destruct (Z.even (Qfloor q)); [|rewrite inject_Z_plus; change (inject_Z 1) with 1]; lra.
  - lra.
  - rewrite inject_Z_plus. change (inject_Z 1) with 1. lra.
Qed.

Lemma round_half_even_comp (q q' : Q) : q == q' -> round_half_even q = round_half_even q'.
Proof.
  intros H. unfold round_half_even. rewrite (Qfloor_comp _ _ H).
  assert (Qcompare (q - inject_Z (Qfloor q')) (1 # 2)
          = Qcompare (q' - inject_Z (Qfloor q')) (1 # 2)) as ->; [|reflexivity].
  apply Qcompare_comp; [rewrite H; reflexivity | reflexivity].
Qed.

Lemma round_half_even_Z (z : Z) : round_half_even (inject_Z z) = z.
Proof.
  unfold round_half_even. rewrite Qfloor_Z.
  destruct (Qcompare_spec (inject_Z z - inject_Z z) (1 # 2)) as [H|H|H]; [lra|reflexivity|lra].
Qed.

Lemma double_positive (q : Q) :
  0 < q -> double q = inject_Z (significand q) * 2 ^ (binade q - 52).
Proof.
  intros Hq. unfold double.
  destruct (Qcompare_spec q 0) as [H|H|H]; [lra | lra | reflexivity].
Qed.

Lemma double_0 (q : Q) : q == 0 -> double q = 0.
Proof.
  intros Hq. unfold double.
  destruct (Qcompare_spec q 0) as [H|H|H]; [reflexivity | lra | lra].
Qed.

Lemma pow2_scale (e : Z) : 2 ^ (52 - e) * 2 ^ (e - 52) == 1.
Proof. rewrite <- pow2_add. replace (52 - e + (e - 52))%Z with 0%Z by lia. reflexivity. Qed.

Lemma double_error (q : Q) :
  0 < q ->
  q * (1 - 2 ^ (-53)) <= double q /\ double q <= q * (1 + 2 ^ (-53)).
Proof.
  intros Hq. rewrite (double_positive q Hq). unfold significand.
  destruct (binade_spec q Hq) as [He _].
  set (e := binade q) in *.
  destruct (round_half_even_error (q * 2 ^ (52 - e))) as [Hl Hu].
  set (m := inject_Z (round_half_even (q * 2 ^ (52 - e)))) in *.
  pose proof (pow2_scale e) as HPR.
  pose proof (pow2_pos (52 - e)) as HP. pose proof (pow2_pos (e - 52)) as HR.
  assert (2 ^ (e - 52) == 2 * (2 ^ e * 2 ^ (-53))) as Hulp.
  { replace (e - 52)%Z with (1 + (e + -53))%Z by lia. rewrite !pow2_add.
    change (2 ^ 1) with 2. reflexivity. }
  set (P := 2 ^ (52 - e)) in *. set (R := 2 ^ (e - 52)) in *.
  assert (0 < 2 ^ (-53)) as Hu53 by apply pow2_pos.
  set (u := 2 ^ (-53)) in *.
  assert (2 ^ e * u <= q * u) as Hqu by (apply Qmult_le_compat_r; lra).
  assert ((q * P - (1 # 2)) * R <= m * R) as H1 by (apply Qmult_le_compat_r; lra).
  assert (m * R <= (q * P + (1 # 2)) * R) as H2 by (apply Qmult_le_compat_r; lra).
  assert (q * P * R == q) as Hq1 by (rewrite <- Qmult_assoc, HPR; ring).
  split.
  - eapply Qle_trans; [|exact H1].
    setoid_replace ((q * P - (1 # 2)) * R) with (q * P * R - (1 # 2) * R) using relation Qeq by ring.
    rewrite Hq1, Hulp. lra.
  - eapply Qle_trans; [exact H2|].
    setoid_replace ((q * P + (1 # 2)) * R) with (q * P * R + (1 # 2) * R) using relation Qeq by ring.
    rewrite Hq1, Hulp. lra.
Qed.

Lemma double_nonneg (q : Q) : 0 <= q -> 0 <= double q.
Proof.
  intros Hq. destruct (Qlt_le_dec 0 q) as [Hpos|Hzero].
  - destruct (double_error q Hpos) as [Hl _].
    assert (2 ^ (-53) < 1) as Hu by reflexivity.
    eapply Qle_trans; [|exact Hl]. apply Qmult_le_0_compat; lra.
  - rewrite double_0 by lra. lra.
Qed.

Lemma significand_comp (q q' : Q) : 0 < q -> q == q' -> significand q = significand q'.
Proof.
  intros Hq Heq. unfold significand. rewrite <- (binade_comp q q' Hq Heq).
  apply round_half_even_comp. apply Qmult_comp; [exact Heq | reflexivity].
Qed.

Lemma double_comp (q q' : Q) : q == q' -> double q == double q'.
Proof.
  intros Heq. unfold double.
  rewrite <- (Qcompare_comp q q' Heq 0 0 (Qeq_refl 0)).
  destruct (Qcompare_spec q 0) as [H|H|H]; [reflexivity| |].
  - assert (0 < - q) as Hn by lra.
    assert (- q == - q') as Hneq by (apply Qopp_comp, Heq).
    rewrite <- (binade_comp (- q) (- q') Hn Hneq).
    rewrite <- (significand_comp (- q) (- q') Hn Hneq). reflexivity.
  - rewrite <- (binade_comp q q' H Heq).
    rewrite <- (significand_comp q q' H Heq). reflexivity.
Qed.

#[local] Instance double_proper : Proper (Qeq ==> Qeq) double.
Proof. intros q q' H. apply double_comp, H. Qed.

Lemma double_dyadic (m e : Z) :
  (0 < m < 2 ^ 53)%Z -> double (inject_Z m * 2 ^ e) == inject_Z m * 2 ^ e.
Proof.
  intros [Hm0 Hm]. set (q := inject_Z m * 2 ^ e).
  pose proof (pow2_pos e) as He.
  assert (0 < inject_Z m) as Hm0' by (change 0 with (inject_Z 0); rewrite <- Zlt_Qlt; lia).
  assert (0 < q) as Hq by (apply Qmult_lt_0_compat; assumption).
  destruct (binade_spec q Hq) as [Hl _].
  assert (q < 2 ^ (53 + e)) as Hu.
  { unfold q. rewrite pow2_add, <- (pow2_Z 53) by lia.
    apply Qmult_lt_compat_r; [exact He|]. rewrite <- Zlt_Qlt. exact Hm. }
  assert (binade q < 53 + e)%Z as Hb by (apply pow2_lt_inv; lra).
  rewrite (double_positive q Hq). unfold significand.
  set (b := binade q) in *.
  assert (q * 2 ^ (52 - b) == inject_Z (m * 2 ^ (e + 52 - b))) as Hscaled.
  { unfold q. rewrite inject_Z_mult, pow2_Z by lia.
    replace (e + 52 - b)%Z with (e + (52 - b))%Z by lia. rewrite pow2_add. ring. }
  rewrite (round_half_even_comp _ _ Hscaled), round_half_even_Z.
  rewrite inject_Z_mult, pow2_Z by lia. unfold q.
  rewrite <- Qmult_assoc, <- pow2_add.
  replace (e + 52 - b + (b - 52))%Z with e by lia. reflexivity.
Qed.

Lemma below_one (x : Q) :
  0 <= x -> x < 1 -> double x == x -> x <= 1 - 2 ^ (-53).
Proof.
  intros H0 H1 Hd.
  assert (2 ^ (-53) * inject_Z (2 ^ 53) == 1) as Hu by reflexivity.
  assert (0 < 2 ^ (-53)) as Hupos by apply pow2_pos.
  assert (2 ^ (-53) < 1 # 2) as Hsmall by reflexivity.
  destruct (Qlt_le_dec 0 x) as [Hpos|Hzero]; [|lra].
  destruct (binade_spec x Hpos) as [Hl Hup].
  assert (binade x < 0)%Z as Hb by (apply pow2_lt_inv; change (2 ^ 0) with 1; lra).
  destruct (Z.eq_dec (binade x) (-1)%Z) as [Heq|Hne].
  - rewrite (double_positive x Hpos), Heq in Hd. change (-1 - 52)%Z with (-53)%Z in Hd.
    set (m := significand x) in *.
    assert (inject_Z m < inject_Z (2 ^ 53)) as Hm.
    { apply (Qmult_lt_r _ _ (2 ^ (-53)) Hupos).
      rewrite Hd, (Qmult_comm (inject_Z (2 ^ 53))), Hu. exact H1. }
    rewrite <- Zlt_Qlt in Hm.
    assert (inject_Z m <= inject_Z (2 ^ 53) - 1) as Hm'.
    { assert (inject_Z m <= inject_Z (2 ^ 53 - 1)) as Hz by (rewrite <- Zle_Qle; lia).
      eapply Qle_trans; [exact Hz|]. unfold Z.sub. rewrite inject_Z_plus.
      change (inject_Z (- (1))) with (- (1)). lra. }
    rewrite <- Hd.
    assert (inject_Z m * 2 ^ (-53) <= (inject_Z (2 ^ 53) - 1) * 2 ^ (-53)) as Hle
      by (apply Qmult_le_compat_r; lra).
    eapply Qle_trans; [exact Hle|].
    setoid_replace ((inject_Z (2 ^ 53) - 1) * 2 ^ (-53))
      with (2 ^ (-53) * inject_Z (2 ^ 53) - 2 ^ (-53)) using relation Qeq by ring.
    rewrite Hu. lra.
  - assert (2 ^ (binade x + 1) <= 2 ^ (-1)) as Hhalf by (apply pow2_le; lia).
    change (2 ^ (-1)) with (1 # 2) in Hhalf. lra.
Qed.


Lemma count_pos (n : nat) : (0 < n)%nat -> 1 <= inject_Z (Z.of_nat n).
Proof. intros H. change 1 with (inject_Z 1). rewrite <- Zle_Qle. lia. Qed.

Lemma double_below (x : Q) (n : nat) :
  0 <= x -> x <= 1 - 2 ^ (-53) -> (0 < n)%nat ->
  double (x * inject_Z (Z.of_nat n)) < inject_Z (Z.of_nat n).
Proof.
  intros H0 H1 Hn. pose proof (count_pos n Hn) as HN.
  set (N := inject_Z (Z.of_nat n)) in *.
  assert (0 < 2 ^ (-53)) as Hupos by apply pow2_pos.
  assert (2 ^ (-53) < 1 # 2) as Hsmall by reflexivity.
  set (u := 2 ^ (-53)) in *.
  destruct (Qlt_le_dec 0 (x * N)) as [Hpos|Hzero].
  - destruct (double_error (x * N) Hpos) as [_ Hu]. fold u in Hu.
    eapply Qle_lt_trans; [exact Hu|].
    assert (x * N <= (1 - u) * N) as Hy by (apply Qmult_le_compat_r; lra).
    assert (x * N * (1 + u) <= (1 - u) * N * (1 + u)) as Hy'
      by (apply Qmult_le_compat_r; lra).
    eapply Qle_lt_trans; [exact Hy'|].
    setoid_replace ((1 - u) * N * (1 + u)) with (N - u * u * N) using relation Qeq by ring.
    assert (0 < u * u * N) by (repeat apply Qmult_lt_0_compat; lra). lra.
  - rewrite double_0; [lra|].
    assert (0 <= x * N) by (apply Qmult_le_0_compat; lra). lra.
Qed.

Lemma pick_lt (x : Q) (n : nat) :
  0 <= x -> x < 1 -> double x == x -> (0 < n)%nat -> (pick x n < n)%nat.
Proof.
  intros H0 H1 Hd Hn. unfold pick.
  pose proof (below_one x H0 H1 Hd) as Hx.
  pose proof (double_below x n H0 Hx Hn) as Hlt.
  assert (0 <= double (x * inject_Z (Z.of_nat n))) as Hnn.
  { apply double_nonneg, Qmult_le_0_compat; [exact H0|].
    pose proof (count_pos n Hn). lra. }
  assert (0 <= Qfloor (double (x * inject_Z (Z.of_nat n))))%Z as Hf.
  { change 0%Z with (Qfloor 0). apply Qfloor_resp_le, Hnn. }
  assert (Qfloor (double (x * inject_Z (Z.of_nat n))) < Z.of_nat n)%Z; [|lia].
  rewrite Zlt_Qlt. eapply Qle_lt_trans; [apply Qfloor_le | exact Hlt].
Qed.

Lemma Qfloor_eq (y : Q) (z : Z) :
  Qfloor y = z <-> (inject_Z z <= y)%Q /\ (y < inject_Z (z + 1))%Q.
Proof.
  split.
  - intros <-. split; [apply Qfloor_le | apply Qlt_floor].
  - intros [Hl Hu].
    pose proof (Qfloor_resp_le _ _ Hl) as H1. rewrite Qfloor_Z in H1.
    assert (Qfloor y < z + 1)%Z; [|lia].
    rewrite Zlt_Qlt. eapply Qle_lt_trans; [apply Qfloor_le | exact Hu].
Qed.

Lemma pick_floor (x : Q) (n j : nat) :
  0 <= x ->
  pick x n = j <-> Qfloor (double (x * inject_Z (Z.of_nat n))) = Z.of_nat j.
Proof.
  intros Hx. unfold pick.
  assert (0 <= Qfloor (double (x * inject_Z (Z.of_nat n))))%Z.
  { change 0%Z with (Qfloor 0). apply Qfloor_resp_le, double_nonneg, scaled_nonneg, Hx. }
  lia.
Qed.

Lemma double_near (y : Q) :
  0 <= y -> y * (1 - 2 ^ (-53)) <= double y /\ double y <= y * (1 + 2 ^ (-53)).
Proof.
  intros Hy. destruct (Qlt_le_dec 0 y) as [Hpos|Hzero]; [apply double_error, Hpos|].
  rewrite double_0 by lra.
  assert (y == 0) as -> by lra. lra.
Qed.

Lemma pick_bounds (x : Q) (n j : nat) :
  0 <= x -> pick x n = j ->
  inject_Z (Z.of_nat j) <= x * inject_Z (Z.of_nat n) * (1 + 2 ^ (-53))
  /\ x * inject_Z (Z.of_nat n) * (1 - 2 ^ (-53)) < inject_Z (Z.of_nat j) + 1.
Proof.
  intros Hx Hp. apply (pick_floor x n j Hx) in Hp. apply Qfloor_eq in Hp as [Hl Hu].
  rewrite inject_Z_plus in Hu. change (inject_Z 1) with 1 in Hu.
  destruct (double_near _ (scaled_nonneg x n Hx)) as [Hl' Hu']. lra.
Qed.

Lemma pick_inside (x : Q) (n j : nat) :
  0 <= x ->
  inject_Z (Z.of_nat j) <= x * inject_Z (Z.of_nat n) * (1 - 2 ^ (-53)) ->
  x * inject_Z (Z.of_nat n) * (1 + 2 ^ (-53)) < inject_Z (Z.of_nat j) + 1 ->
  pick x n = j.
Proof.
  intros Hx Hl Hu. apply (pick_floor x n j Hx). apply Qfloor_eq.
  rewrite inject_Z_plus. change (inject_Z 1) with 1.
  destruct (double_near _ (scaled_nonneg x n Hx)) as [Hl' Hu']. lra.
Qed.

Lemma draw_spec (j n : nat) :
  (j < n)%nat -> (Z.of_nat n < 2 ^ 32)%Z ->
  0 <= draw j n /\ draw j n < 1 /\ double (draw j n) == draw j n /\ pick (draw j n) n = j.
Proof.
  intros Hj Hn. unfold draw.
  set (J := Z.of_nat j) in *. set (N := Z.of_nat n) in *.
  set (k := (((2 * J + 1) * 2 ^ 52 + N - 1) / N)%Z).
  assert (0 <= J < N)%Z as HJ by lia.
  assert ((2 * J + 1) * 2 ^ 52 <= k * N < (2 * J + 1) * 2 ^ 52 + N)%Z as Hk.
  { unfold k. pose proof (Z.div_mod ((2 * J + 1) * 2 ^ 52 + N - 1) N ltac:(lia)) as Hdm.
    pose proof (Z.mod_pos_bound ((2 * J + 1) * 2 ^ 52 + N - 1) N ltac:(lia)) as Hmod.
    lia. }
  assert (0 < k < 2 ^ 53)%Z as Hk53.
  { change (2 ^ 53)%Z with (2 * 2 ^ 52)%Z in *. change (2 ^ 32)%Z with 4294967296%Z in *.
    change (2 ^ 52)%Z with 4503599627370496%Z in *. nia. }
  assert (0 < 2 ^ (-53)) as Hupos by apply pow2_pos.
  assert (inject_Z (2 ^ 53) * 2 ^ (-53) == 1) as Hu by reflexivity.
  assert (0 <= inject_Z k * 2 ^ (-53)) as H0.
  { apply Qmult_le_0_compat; [|lra]. change 0 with (inject_Z 0). rewrite <- Zle_Qle. lia. }
  assert (inject_Z k * 2 ^ (-53) < 1) as H1.
  { rewrite <- Hu. apply Qmult_lt_compat_r; [exact Hupos|]. rewrite <- Zlt_Qlt. lia. }
  split; [exact H0|]. split; [exact H1|].
  split; [apply double_dyadic, Hk53|].
  (* the product lies next to the middle of [j, j + 1) *)
  assert (inject_Z k * inject_Z N == inject_Z (k * N)) as HkN by (rewrite inject_Z_mult; reflexivity).
  assert (inject_Z ((2 * J + 1) * 2 ^ 52) <= inject_Z (k * N)) as Hlow
    by (rewrite <- Zle_Qle; lia).
  assert (inject_Z (k * N) < inject_Z ((2 * J + 1) * 2 ^ 52 + N)) as Hhigh
    by (rewrite <- Zlt_Qlt; lia).
  rewrite inject_Z_plus in Hhigh. rewrite !inject_Z_mult, !inject_Z_plus in Hlow, Hhigh.
  rewrite !inject_Z_mult in Hlow, Hhigh.
  change (inject_Z 2) with 2 in *. change (inject_Z 1) with 1 in *.
  assert (inject_Z (2 ^ 52) * 2 ^ (-53) == 1 # 2) as Hhalf by reflexivity.
  set (y := inject_Z k * 2 ^ (-53) * inject_Z N).
  assert (y == inject_Z (k * N) * 2 ^ (-53)) as Hy by (unfold y; rewrite <- HkN; ring).
  assert (inject_Z N < inject_Z (2 ^ 32)) as HN32 by (rewrite <- Zlt_Qlt; exact Hn).
  assert (0 <= inject_Z J) as HJ0 by (change 0 with (inject_Z 0); rewrite <- Zle_Qle; lia).
  assert (inject_Z J < inject_Z N) as HJN by (rewrite <- Zlt_Qlt; lia).
  assert (inject_Z (2 ^ 32) * 2 ^ (-53) == 1 # 2097152) as H21 by reflexivity.
  assert (inject_Z J + (1 # 2) <= y) as Hy1.
  { rewrite Hy.
    setoid_replace (inject_Z J + (1 # 2))
      with ((2 * inject_Z J + 1) * (inject_Z (2 ^ 52) * 2 ^ (-53))) using relation Qeq by (rewrite Hhalf; ring).
    rewrite Qmult_assoc. apply Qmult_le_compat_r; lra. }
  assert (y < inject_Z J + (1 # 2) + (1 # 2097152)) as Hy2.
  { rewrite Hy.
    assert (inject_Z (k * N) * 2 ^ (-53)
            < ((2 * inject_Z J + 1) * inject_Z (2 ^ 52) + inject_Z N) * 2 ^ (-53)) as Hlt
      by (apply Qmult_lt_compat_r; lra).
    eapply Qlt_le_trans; [exact Hlt|].
    setoid_replace (((2 * inject_Z J + 1) * inject_Z (2 ^ 52) + inject_Z N) * 2 ^ (-53))
      with ((2 * inject_Z J + 1) * (inject_Z (2 ^ 52) * 2 ^ (-53)) + inject_Z N * 2 ^ (-53))
      using relation Qeq by ring.
    rewrite Hhalf.
    assert (inject_Z N * 2 ^ (-53) <= inject_Z (2 ^ 32) * 2 ^ (-53)) as HNu
      by (apply Qmult_le_compat_r; lra).
    lra. }
  assert (inject_Z (2 ^ 32) == 4294967296) as H32 by reflexivity.
  assert (y * 2 ^ (-53) <= 8589934592 * 2 ^ (-53)) as Hyu
    by (apply Qmult_le_compat_r; lra).
  assert (8589934592 * 2 ^ (-53) == 1 # 1048576) as H20 by reflexivity.
  assert (y * (1 - 2 ^ (-53)) == y - y * 2 ^ (-53)) as Hm by ring.
  assert (y * (1 + 2 ^ (-53)) == y + y * 2 ^ (-53)) as Hp by ring.
  apply pick_inside; [exact H0| |].
  - change (inject_Z J <= y * (1 - 2 ^ (-53))). rewrite Hm. lra.
  - change (y * (1 + 2 ^ (-53)) < inject_Z J + 1). rewrite Hp. lra.
Qed.
End Doubles.

(** *** The loop *)

Lemma randomIndex_pick (x : Q) (n : nat) :
  (0 <= x)%Q -> Math_floor (js_times (JFin x) n) = of_nat (pick x n).
Proof.
  intros H0. unfold pick, of_nat, js_times, Math_floor.
  by rewrite Z2Nat.id by apply Qfloor_nonneg, double_nonneg, scaled_nonneg, H0.
Qed.

Lemma length_fisher_yates rnd l n d : length (fisher_yates rnd d l n) = length l.
Proof.
  revert l d. induction n as [|n IH]; intros l d; simpl; [done|].
  by rewrite IH, length_swap_items.
Qed.

Lemma fisher_yates_perm rnd l n d :
  unit_interval rnd -> (n <= length l)%nat -> fisher_yates rnd d l n ≡ₚ l.
Proof.
  intros Hrnd. revert l d. induction n as [|n IH]; intros l d Hn; simpl; [done|].
  destruct (Hrnd d) as (H0 & H1 & Hd).
  pose proof (pick_lt (rnd d) (S n) H0 H1 Hd ltac:(lia)).
  rewrite IH by (rewrite length_swap_items; lia).
  apply swap_items_perm; lia.
Qed.

Lemma set_queue_id (s : MusicSubscription) :
  set_queue {| items := items (queue s); named := named (queue s) |} s = s.
Proof. by destruct s as [? ? [? ?] ? ? ? ? ? ?]. Qed.

Lemma run_shuffle_loop r n : forall w s,
  heap w !! r = Some s ->
  (n <= length (items (queue s)))%nat ->
  unit_interval (random w) ->
  shuffle_loop r n w
  = (Return tt,
     set_drawn (drawn w + n)
       (set_heap (<[r := set_queue
                           {| items := fisher_yates (random w) (drawn w)
                                         (items (queue s)) n;
                              named := named (queue s) |} s]> (heap w)) w)).
Proof.
  induction n as [|n IH]; intros w s Hr Hn Hrnd.
  - simpl. rewrite set_queue_id, insert_id by done.
    destruct w. unfold set_drawn, set_heap. simpl. by rewrite Nat.add_0_r.
  - destruct (Hrnd (drawn w)) as (H0 & H1 & Hd).
    pose proof (pick_lt _ (S n) H0 H1 Hd ltac:(lia)) as Hp.
    cbn [shuffle_loop]. rewrite run_bind. unfold Math_random at 1.
    rewrite randomIndex_pick by done. rewrite run_bind.
    erewrite run_swap; [|done|lia..].
    rewrite (IH _ _ (lookup_insert_eq _ _ _)); [|simpl; rewrite length_swap_items; lia|done].
    destruct w as [h m tr pe rnd dr]. destruct s as [vc ap q d ltc g ql rl wt].
    unfold set_drawn, set_heap, set_queue. simpl.
    by rewrite insert_insert_eq, Nat.add_succ_r.
Qed.

Lemma fisher_yates_picks rnd l n d :
  fisher_yates rnd d l n = shuffle_by (picks rnd d n) l n.
Proof. revert l d. induction n as [|n IH]; intros; simpl; [done|]. apply IH. Qed.

Lemma picks_in_range rnd d n : unit_interval rnd -> in_range (picks rnd d n) n.
Proof.
  intros H. revert d. induction n as [|n IH]; intros d; simpl; [done|].
  split; [|apply IH]. destruct (H d) as (H0 & H1 & Hd).
  pose proof (pick_lt (rnd d) (S n) H0 H1 Hd). lia.
Qed.

Lemma swap_items_app l suf i j :
  (i < length l)%nat -> (j < length l)%nat ->
  swap_items (l ++ suf) i j = swap_items l i j ++ suf.
Proof.
  intros Hi Hj. unfold swap_items.
  rewrite !lookup_app_l by done.
  rewrite insert_app_l by done. rewrite insert_app_l by (by rewrite length_insert). done.
Qed.

Lemma length_shuffle_by cs l n : length (shuffle_by cs l n) = length l.
Proof.
  revert cs l. induction n as [|n IH]; intros [|j cs] l; simpl; try done.
  by rewrite IH, length_swap_items.
Qed.

Lemma shuffle_by_app cs n : forall l suf,
  in_range cs n -> (n <= length l)%nat ->
  shuffle_by cs (l ++ suf) n = shuffle_by cs l n ++ suf.
Proof.
  revert cs. induction n as [|n IH]; intros [|j cs] l suf Hcs Hn; simpl in *; try done.
  destruct Hcs as [Hj Hcs].
  rewrite swap_items_app by lia. apply IH; [done|]. rewrite length_swap_items. lia.
Qed.

(** After the first exchange the last element is settled. *)
Lemma swap_items_last l n j :
  length l = S n -> (j <= n)%nat ->
  swap_items l n j = take n (swap_items l n j) ++ [default None (l !! j)].
Proof.
  intros Hl Hj.
  assert (Hlen : length (swap_items l n j) = S n) by by rewrite length_swap_items.
  rewrite <- (take_drop n (swap_items l n j)) at 1. f_equal.
  assert (swap_items l n j !! n = Some (default None (l !! j))) as Hlast.
  { unfold swap_items. destruct (decide (j = n)) as [->|Hne].
    - rewrite list_lookup_insert_eq by (rewrite length_insert; lia). done.
    - rewrite list_lookup_insert_ne by done.
      rewrite list_lookup_insert_eq by lia. done. }
  apply list_eq. intros [|k].
  - rewrite lookup_drop, Nat.add_0_r. done.
  - rewrite lookup_drop. simpl. apply lookup_ge_None_2. lia.
Qed.

Lemma shuffle_by_step j cs l n :
  length l = S n -> (j <= n)%nat -> in_range cs n ->
  shuffle_by (j :: cs) l (S n)
  = shuffle_by cs (take n (swap_items l n j)) n ++ [default None (l !! j)].
Proof.
  intros Hl Hj Hcs. simpl. rewrite (swap_items_last l n j Hl Hj) at 1.
  apply shuffle_by_app; [done|]. rewrite length_take, length_swap_items. lia.
Qed.

Lemma shuffle_by_complete n : forall l l',
  length l = n -> l' ≡ₚ l ->
  exists cs, in_range cs n /\ shuffle_by cs l n = l'.
Proof.
  induction n as [|n IH]; intros l l' Hl Hp.
  - destruct l; [|done]. apply Permutation_nil_r in Hp as ->. by exists [].
  - assert (length l' = S n) as Hl' by (by rewrite Hp).
    destruct (decide (l' = [])) as [->|Hne]; [done|].
    destruct (exists_last Hne) as (l0 & x & ->).
    assert (x ∈ l) as Hx by (rewrite <- Hp; set_solver).
    apply list_elem_of_lookup in Hx as [j Hj].
    pose proof (lookup_lt_Some _ _ _ Hj) as Hjn.
    destruct (IH (take n (swap_items l n j)) l0) as (cs & Hcs & Heq).
    { rewrite length_take, length_swap_items. lia. }
    { apply (Permutation_app_inv_r [x]).
      rewrite Hp. rewrite <- (swap_items_perm l n j) at 1 by lia.
      rewrite (swap_items_last l n j) at 1 by (done || lia). by rewrite Hj. }
    exists (j :: cs). split; [simpl; split; [lia|done]|].
    rewrite shuffle_by_step by (done || lia). by rewrite Heq, Hj.
Qed.

Lemma shuffle_by_inj n : forall l cs1 cs2,
  length l = n -> NoDup l -> in_range cs1 n -> in_range cs2 n ->
  shuffle_by cs1 l n = shuffle_by cs2 l n -> cs1 = cs2.
Proof.
  induction n as [|n IH]; intros l [|j1 cs1] [|j2 cs2] Hl Hnd H1 H2 Heq;
    simpl in H1, H2; try done.
  destruct H1 as [Hj1 H1], H2 as [Hj2 H2].
  rewrite !shuffle_by_step in Heq by done.
  apply app_inj_tail in Heq as [Heq Hlast].
  destruct (lookup_lt_is_Some_2 l j1 ltac:(lia)) as [x1 Hx1].
  destruct (lookup_lt_is_Some_2 l j2 ltac:(lia)) as [x2 Hx2].
  rewrite Hx1, Hx2 in Hlast. simpl in Hlast. subst x2.
  assert (j1 = j2) as <- by (eapply NoDup_lookup; eauto).
  f_equal. eapply IH; [| |done|done|done].
  - rewrite length_take, length_swap_items. lia.
  - eapply sublist_NoDup; [|apply sublist_take].
    rewrite swap_items_perm by lia. done.
Qed.

Lemma picks_ext rnd1 rnd2 d1 d2 n :
  (forall k, rnd1 (d1 + k)%nat = rnd2 (d2 + k)%nat) -> picks rnd1 d1 n = picks rnd2 d2 n.
Proof.
  revert d1 d2. induction n as [|n IH]; intros d1 d2 H; simpl; [done|].
  f_equal.
  - specialize (H 0%nat). rewrite !Nat.add_0_r in H. by rewrite H.
  - apply IH. intros k. specialize (H (S k)). by rewrite !Nat.add_succ_r in H.
Qed.

Lemma picks_tape cs n :
  (Z.of_nat n < 2 ^ 32)%Z -> in_range cs n -> picks (tape cs n) 0 n = cs.
Proof.
  revert cs. induction n as [|n IH]; intros [|j cs] Hn H; simpl in *; try done.
  destruct H as [Hj H]. f_equal.
  - apply (draw_spec j (S n)); lia.
  - transitivity (picks (tape cs n) 0 n); [|apply IH; [lia | done]].
    apply picks_ext. intros k. done.
Qed.

Lemma tape_unit_interval cs n :
  (Z.of_nat n < 2 ^ 32)%Z -> in_range cs n -> unit_interval (tape cs n).
Proof.
  revert cs. induction n as [|n IH]; intros [|j cs] Hn H k; simpl in *; try done.
  destruct H as [Hj H]. destruct k as [|k]; [|apply IH; [lia | done]].
  destruct (draw_spec j (S n) ltac:(lia) Hn) as (H0 & H1 & Hd & _). done.
Qed.

Lemma run_shuffle r s w :
  heap w !! r = Some s ->
  unit_interval (random w) ->
  shuffle r w
  = (Return tt,
     set_drawn (drawn w + length (items (queue s)))
       (set_heap (<[r := set_queue
                           {| items := fisher_yates (random w) (drawn w)
                                         (items (queue s)) (length (items (queue s)));
                              named := named (queue s) |} s]> (heap w)) w)).
Proof.
  intros Hr Hrnd. unfold shuffle. rewrite run_bind, (run_this _ _ _ Hr).
  by apply run_shuffle_loop.
Qed.

Lemma example_unit_interval : unit_interval (random example_world).
Proof. intros k. split; [by vm_compute | split; [reflexivity | by vm_compute]]. Qed.

(** The product is the product of doubles that the program computes: for
    the double nearest to 0.7 and ten positions the exact product lies below
    7, the rounded one is 7, and 7 is the index drawn. *)
Lemma product_is_rounded :
  let x := (3152519739159347 # 4503599627370496)%Q in
  (0 <= x)%Q /\ (x < 1)%Q /\ (double x == x)%Q
  /\ Qfloor (x * 10) = 6%Z
  /\ pick x 10 = 7%nat.
Proof. vm_compute. repeat split; try reflexivity; discriminate. Qed.

(** C9. [shuffle()] runs to completion and exchanges elements in place,
    over the whole queue: the elements afterwards are a reordering of the
    elements before (same multiset, same length, no duplicate introduced),
    and nothing but the order of the queue and the count of random values
    used changes.  It is the Fisher-Yates shuffle: for every position from
    the last down to the first, it draws an index at or below the position
    and exchanges the two.  The index drawn is the [j] with [x * n] in
    [j, j + 1), for the value [x] of [Math.random] and the [n] positions
    left, up to the rounding of the product: the values that draw [j] make
    up the [j]-th of [n] equal parts of the unit interval, its ends moved by
    no more than a factor of [1 + 2 ^ (-53)].  Every reordering of the queue
    (of a length that an array can have) is the outcome for some values of
    [Math.random], and, on a queue without duplicates, for exactly one
    vector of drawn indices: indices drawn evenly give every reordering
    the same chance. *)
Theorem shuffle_is_uniform_permutation (r : ref) (s : MusicSubscription) (w : World) :
  heap w !! r = Some s ->
  unit_interval (random w) ->
  let l := items (queue s) in
  let l' := fisher_yates (random w) (drawn w) l (length l) in
  (exists w' s',
     shuffle r w = (Return tt, w')
     /\ heap w' !! r = Some s'
     /\ items (queue s') = l'
     /\ named (queue s') = named (queue s)
     /\ voiceConnection s' = voiceConnection s
     /\ audioPlayer s' = audioPlayer s
     /\ destroyed s' = destroyed s
     /\ lastTextChannel s' = lastTextChannel s
     /\ guildId s' = guildId s
     /\ queueLock s' = queueLock s
     /\ readyLock s' = readyLock s
     /\ wait s' = wait s
     /\ (forall r', r' <> r -> heap w' !! r' = heap w !! r')
     /\ subscriptions w' = subscriptions w
     /\ trace w' = trace w
     /\ pending w' = pending w
     /\ drawn w' = (drawn w + length l)%nat)
  /\ l' ≡ₚ l
  /\ length l' = length l
  /\ (NoDup l -> NoDup l')
  /\ l' = shuffle_by (picks (random w) (drawn w) (length l)) l (length l)
  /\ in_range (picks (random w) (drawn w) (length l)) (length l)
  /\ (forall (x : Q) (n j : nat), (0 <= x)%Q ->
        (pick x n = j ->
           (inject_Z (Z.of_nat j) <= x * inject_Z (Z.of_nat n) * (1 + 2 ^ (-53)))%Q
           /\ (x * inject_Z (Z.of_nat n) * (1 - 2 ^ (-53)) < inject_Z (Z.of_nat j) + 1)%Q)
        /\ ((inject_Z (Z.of_nat j) <= x * inject_Z (Z.of_nat n) * (1 - 2 ^ (-53)))%Q ->
            (x * inject_Z (Z.of_nat n) * (1 + 2 ^ (-53)) < inject_Z (Z.of_nat j) + 1)%Q ->
            pick x n = j))
  /\ ((Z.of_nat (length l) < 2 ^ 32)%Z ->
      forall target, target ≡ₚ l ->
        exists rnd, unit_interval rnd /\ fisher_yates rnd 0 l (length l) = target)
  /\ (NoDup l -> forall rnd1 rnd2, unit_interval rnd1 -> unit_interval rnd2 ->
        fisher_yates rnd1 0 l (length l) = fisher_yates rnd2 0 l (length l) ->
        picks rnd1 0 (length l) = picks rnd2 0 (length l)).
Proof.
  intros Hr Hrnd l l'.
  assert (l' ≡ₚ l) as Hp by (by apply fisher_yates_perm).
  split.
  { eexists _, _. split; [by apply run_shuffle|].
    split; [apply lookup_insert_eq|].
    repeat (split; [reflexivity|]).
    split; [|done].
    intros r' Hne. cbn [heap set_drawn set_heap]. by rewrite lookup_insert_ne. }
  split; [done|].
  split; [apply length_fisher_yates|].
  split; [by rewrite Hp|].
  split; [apply fisher_yates_picks|].
  split; [by apply picks_in_range|].
  split.
  { intros x n j Hx. split; [by apply pick_bounds | by apply pick_inside]. }
  split.
  - intros Hlen target Ht.
    destruct (shuffle_by_complete (length l) l target eq_refl Ht) as (cs & Hcs & Heq).
    exists (tape cs (length l)). split; [by apply tape_unit_interval|].
    by rewrite fisher_yates_picks, picks_tape.
  - intros Hnd rnd1 rnd2 H1 H2 Heq. rewrite !fisher_yates_picks in Heq.
    eapply shuffle_by_inj; [reflexivity|done|by apply picks_in_range..|done].
Qed.

Lemma shuffle_is_uniform_permutation_witness :
  exists w' s',
    shuffle 0 example_world = (Return tt, w')
    /\ heap w' !! 0%nat = Some s'
    /\ items (queue s') = [Some track_B; Some track_A]
    /\ [Some track_B; Some track_A] ≡ₚ [Some track_A; Some track_B].
Proof.
  pose proof (shuffle_is_uniform_permutation 0 example_subscription example_world
                eq_refl example_unit_interval) as ((w' & s' & Hrun & Hs & Hq & _) & Hperm & _).
  exists w', s'. split; [exact Hrun|]. split; [exact Hs|].
  assert (fisher_yates (random example_world) (drawn example_world)
            (items (queue example_subscription)) 2
          = [Some track_B; Some track_A]) as Hfy by (vm_compute; reflexivity).
  cbn [length example_subscription items queue] in Hq, Hperm.
  split; [by rewrite Hq | by rewrite <- Hfy].
Defined.

(** ** Methods acting on one subscription *)

Lemma effect_lookup r s es ps gs w : heap (effect r s es ps gs w) !! r = Some s.
Proof. apply lookup_insert_eq. Qed.

Lemma effect_effect r s1 es1 ps1 gs1 s2 es2 ps2 gs2 w :
  effect r s2 es2 ps2 gs2 (effect r s1 es1 ps1 gs1 w)
  = effect r s2 (es1 ++ es2) (ps1 ++ ps2) (gs1 ++ gs2) w.
Proof. unfold effect. simpl. by rewrite insert_insert_eq, !app_assoc, foldl_app. Qed.

Lemma effect_id r s w : heap w !! r = Some s -> effect r s [] [] [] w = w.
Proof. intros H. destruct w. unfold effect. simpl in *. by rewrite insert_id, !app_nil_r. Qed.

Lemma runs_ret {A} (a : A) r s : runs (mret a) r s (Return a) s [] [] [].
Proof. intros w H. by rewrite effect_id. Qed.

Lemma runs_throw {A} e r s : runs (throw (A:=A) e) r s (Throw e) s [] [] [].
Proof. intros w H. by rewrite effect_id. Qed.

Lemma runs_this r s : runs (this r) r s (Return s) s [] [] [].
Proof. intros w H. by rewrite effect_id, (run_this _ _ _ H). Qed.

Lemma runs_update r f s : runs (update r f) r s (Return tt) (f s) [] [] [].
Proof.
  intros w H. rewrite (run_update _ _ _ _ H). destruct w. unfold effect, set_heap.
  simpl. by rewrite !app_nil_r.
Qed.

Lemma runs_emit e r s : runs (emit e) r s (Return tt) s [e] [] [].
Proof.
  intros w H. destruct w. unfold effect, emit, modify, set_trace. simpl in *.
  by rewrite insert_id, app_nil_r.
Qed.

Lemma runs_suspend p r s : runs (suspend p) r s (Return tt) s [] [p] [].
Proof.
  intros w H. destruct w. unfold effect, suspend, modify, set_pending. simpl in *.
  by rewrite insert_id, app_nil_r.
Qed.

Lemma runs_unregister g r s :
  runs (modify (fun w => set_subscriptions (delete g (subscriptions w)) w)) r s
       (Return tt) s [] [] [g].
Proof.
  intros w H. destruct w. unfold effect, modify, set_subscriptions. simpl in *.
  by rewrite insert_id, !app_nil_r.
Qed.

Lemma runs_bind {A B} (c : M A) (k : A -> M B) r s a s1 es1 ps1 gs1 out s2 es2 ps2 gs2 :
  runs c r s (Return a) s1 es1 ps1 gs1 ->
  runs (k a) r s1 out s2 es2 ps2 gs2 ->
  runs (c ≫= k) r s out s2 (es1 ++ es2) (ps1 ++ ps2) (gs1 ++ gs2).
Proof.
  intros H1 H2 w H. rewrite run_bind, (H1 w H), (H2 _ (effect_lookup _ _ _ _ _ _)).
  by rewrite effect_effect.
Qed.

Lemma runs_bind_throw {A B} (c : M A) (k : A -> M B) r s e s1 es1 ps1 gs1 :
  runs c r s (Throw e) s1 es1 ps1 gs1 ->
  runs (c ≫= k) r s (Throw e) s1 es1 ps1 gs1.
Proof. intros H1 w H. by rewrite run_bind, (H1 w H). Qed.

Lemma runs_void {A} (c : M A) r s out s' es ps gs :
  runs c r s out s' es ps gs -> runs (void c) r s (swallowed out) s' es ps gs.
Proof.
  intros H1 w H. unfold void. rewrite (H1 w H).
  by destruct out as [a|[]].
Qed.

Lemma runs_eq {A} (c : M A) r s out s' es ps gs out' s'' es' ps' gs' :
  runs c r s out s' es ps gs ->
  out = out' -> s' = s'' -> es = es' -> ps = ps' -> gs = gs' ->
  runs c r s out' s'' es' ps' gs'.
Proof. by intros H -> -> -> -> ->. Qed.

Lemma runs_processQueue r s :
  runs (processQueue r) r s (processQueue_local r s).1.1 (processQueue_local r s).1.2 []
       (processQueue_local r s).2 [].
Proof.
  intros w Hr. destruct w as [h m tr pe rnd dr]. simpl in Hr.
  unfold processQueue, processQueue_local, effect. exec.
  cbn [queueLock set_wait audioPlayer queue].
  destruct (queueLock s || _ || _) eqn:Hguard; exec.
  - by rewrite !app_nil_r.
  - destruct (array_shift (queue s)) as [[t|] rest] eqn:Hshift; exec;
      by rewrite ?app_nil_r.
Qed.

Lemma runs_when (b : bool) (c : M unit) r s s' es ps gs :
  runs c r s (Return tt) s' es ps gs ->
  runs (when b c) r s (Return tt) (if b then s' else s) (if b then es else [])
       (if b then ps else []) (if b then gs else []).
Proof. destruct b; [done | intros _; apply runs_ret]. Qed.

Lemma processQueue_swallowed r s : swallowed (processQueue_local r s).1.1 = Return tt.
Proof. unfold processQueue_local. by repeat case_match. Qed.

Lemma runs_onPlayerStateChange r s oldState newState :
  runs (void (onPlayerStateChange r oldState newState)) r s (Return tt)
       (onPlayerStateChange_local r oldState newState s).1.1
       (onPlayerStateChange_local r oldState newState s).1.2
       (onPlayerStateChange_local r oldState newState s).2 [].
Proof.
  unfold onPlayerStateChange, onPlayerStateChange_local.
  destruct (bool_decide (player_status newState = Idle)
            && negb (bool_decide (player_status oldState = Idle))).
  - destruct (resource oldState) as [res|].
    + eapply runs_eq; [apply runs_void|..].
      * eapply runs_bind; [apply runs_when, runs_emit|].
        eapply runs_bind; [apply runs_this|].
        eapply runs_bind; [|apply runs_suspend].
        apply runs_when. eapply runs_eq; [apply runs_void, runs_processQueue|..]; try done.
        apply processQueue_swallowed.
      * done.
      * by destruct (errored (metadata res)); simpl; destruct (wait s).
      * destruct (errored (metadata res)); simpl; destruct (wait s); simpl;
          by rewrite ?app_nil_r.
      * by destruct (errored (metadata res)); simpl; destruct (wait s).
      * by destruct (errored (metadata res)); simpl; destruct (wait s).
    + eapply runs_eq; [apply runs_void, runs_throw|done..].
  - destruct (bool_decide (player_status newState = Playing)).
    + destruct (resource newState).
      * eapply runs_eq; [apply runs_void, runs_emit|done..].
      * eapply runs_eq; [apply runs_void, runs_throw|done..].
    + eapply runs_eq; [apply runs_void, runs_ret|done..].
Qed.

Lemma runs_audioPlayer_stop r s :
  runs (audioPlayer_stop r true) r s (Return (audioPlayer_stop_local r s).1)
       (audioPlayer_stop_local r s).2.1.1 (audioPlayer_stop_local r s).2.1.2
       (audioPlayer_stop_local r s).2.2 [].
Proof.
  unfold audioPlayer_stop, audioPlayer_stop_local.
  destruct (bool_decide (player_status (audioPlayer s) = Idle)) eqn:Hidle.
  - eapply runs_eq; [eapply runs_bind; [apply runs_this|]|..].
    + rewrite Hidle. apply runs_ret.
    + done.
    + done.
    + done.
    + done.
    + done.
  - eapply runs_eq; [eapply runs_bind; [apply runs_this|]|..].
    + rewrite Hidle. eapply runs_bind; [apply runs_update|].
      eapply runs_bind; [apply runs_onPlayerStateChange|]. apply runs_ret.
    + done.
    + done.
    + simpl. by rewrite ?app_nil_r.
    + simpl. by rewrite ?app_nil_r.
    + done.
Qed.


Lemma set_wait_id s : set_wait (wait s) s = s.
Proof. by destruct s. Qed.

Lemma runs_when_false (c : M unit) r s : runs (when false c) r s (Return tt) s [] [] [].
Proof. apply runs_ret. Qed.

Lemma audioPlayer_stop_locked r s :
  queueLock s = true ->
  audioPlayer_stop_local r s
  = if bool_decide (player_status (audioPlayer s) = Idle) then (false, (s, [], []))
    else (true, (set_audioPlayer idle_state s, finish_events (audioPlayer s),
                 idle_guards r (audioPlayer s))).
Proof.
  intros Hl. unfold audioPlayer_stop_local, onPlayerStateChange_local,
    processQueue_local, finish_events, idle_guards.
  destruct (bool_decide (player_status (audioPlayer s) = Idle)) eqn:Hidle; [done|].
  cbn [player_status idle_state bool_decide decide_rel andb negb].
  rewrite bool_decide_eq_true_2 by done. cbn [andb negb].
  destruct (resource (audioPlayer s)) as [res|]; [|done].
  cbn [queueLock set_audioPlayer wait]. rewrite Hl. cbn [orb fst snd].
  destruct (wait s) eqn:Hw.
  - by destruct (errored (metadata res)).
  - rewrite <- Hw at 1. 
    replace (set_wait (wait s) (set_audioPlayer idle_state s)) with (set_audioPlayer idle_state s)
      by (by destruct s).
    by destruct (errored (metadata res)).
Qed.

Lemma runs_stop_with_destroyed (destroy : ref -> M unit) r s :
  status_of s = Destroyed ->
  runs (stop_with destroy r) r s (Return tt) (halted s)
       (finish_events (audioPlayer s)) (idle_guards r (audioPlayer s)) [guildId s].
Proof.
  intros Hst. unfold stop_with.
  eapply runs_eq.
  - eapply runs_bind; [apply runs_update|].
    eapply runs_bind; [apply runs_update|].
    eapply runs_bind; [apply runs_audioPlayer_stop|].
    rewrite audioPlayer_stop_locked by done.
    eapply runs_bind; [apply runs_update|].
    eapply runs_bind; [apply runs_this|].
    eapply runs_bind; [|apply runs_unregister].
    match goal with |- runs (when ?b _) _ _ _ _ _ _ _ =>
      replace b with false; [apply runs_when_false|] end.
    cbn [audioPlayer set_queue set_queueLock].
    unfold status_of in *.
    destruct (bool_decide (player_status (audioPlayer s) = Idle)); cbn; by rewrite Hst.
  - done.
  - rewrite ?audioPlayer_stop_locked by done. unfold halted.
    cbn [audioPlayer set_queue set_queueLock].
    by destruct (bool_decide (player_status (audioPlayer s) = Idle)).
  - rewrite ?audioPlayer_stop_locked by done.
    cbn [audioPlayer set_queue set_queueLock].
    destruct (bool_decide (player_status (audioPlayer s) = Idle)) eqn:Hidle; cbn [fst snd];
      rewrite ?app_nil_r; [|done].
    unfold finish_events. rewrite Hidle. by destruct (resource _).
  - rewrite ?audioPlayer_stop_locked by done.
    cbn [audioPlayer set_queue set_queueLock].
    destruct (bool_decide (player_status (audioPlayer s) = Idle)) eqn:Hidle; cbn [fst snd];
      rewrite ?app_nil_r; [|done].
    unfold idle_guards. rewrite Hidle. by destruct (resource _).
  - rewrite ?audioPlayer_stop_locked by done.
    cbn [audioPlayer set_queue set_queueLock].
    by destruct (bool_decide (player_status (audioPlayer s) = Idle)).
Qed.

Lemma halted_stopped s : halted (stopped s) = stopped s.
Proof.
  unfold stopped, halted.
  by destruct s as [vc [[] res] q d ltc g ql rl wt].
Qed.

Lemma halted_halted s : halted (halted s) = halted s.
Proof.
  unfold halted.
  by destruct s as [vc [[] res] q d ltc g ql rl wt].
Qed.

Lemma halted_idle s :
  finish_events (audioPlayer (halted s)) = []
  /\ forall r, idle_guards r (audioPlayer (halted s)) = [].
Proof.
  unfold halted, finish_events, idle_guards.
  by destruct s as [vc [[] [res|]] q d ltc g ql rl wt].
Qed.

Lemma runs_listener_destroyed d r s oldState newState :
  conn_status newState = Destroyed ->
  status_of s = Destroyed ->
  runs (onVoiceStateChange (S d) r oldState newState) r s (Return tt) (halted s)
       (finish_events (audioPlayer s)) (idle_guards r (audioPlayer s)) [guildId s].
Proof.
  intros Hn Hs. cbn [onVoiceStateChange]. rewrite Hn. cbn [bool_decide decide_rel].
  rewrite bool_decide_eq_false_2 by done. rewrite bool_decide_eq_true_2 by done.
  by apply runs_stop_with_destroyed.
Qed.

Lemma runs_destroy d r s :
  status_of s <> Destroyed ->
  runs (voiceConnection_destroy (onVoiceStateChange (S d)) r) r s (Return tt)
       (halted (set_conn_state (plain_state Destroyed) s))
       (Destroy r :: finish_events (audioPlayer s)) (idle_guards r (audioPlayer s))
       [guildId s].
Proof.
  intros Hs. unfold voiceConnection_destroy, voiceConnection_enters.
  eapply runs_eq.
  - eapply runs_bind; [apply runs_this|].
    rewrite bool_decide_eq_false_2 by done.
    eapply runs_bind; [apply runs_emit|].
    eapply runs_bind; [apply runs_this|].
    eapply runs_bind; [apply runs_update|].
    apply runs_void, runs_listener_destroyed; done.
  - done.
  - done.
  - done.
  - done.
  - done.
Qed.

Lemma runs_destroy_twice listener r s :
  status_of s = Destroyed ->
  runs (voiceConnection_destroy listener r) r s
       (Throw (Error "Cannot destroy VoiceConnection - it has already been destroyed"))
       s [] [] [].
Proof.
  intros Hs. unfold voiceConnection_destroy.
  eapply runs_eq; [eapply runs_bind; [apply runs_this|]|done..].
  rewrite bool_decide_eq_true_2 by done. apply runs_throw.
Qed.

Lemma effect_unregister_twice r s es ps g gs w :
  effect r s es ps (g :: g :: gs) w = effect r s es ps (g :: gs) w.
Proof. unfold effect. simpl. by rewrite delete_delete_eq. Qed.

Lemma stopped_eq s :
  halted (set_conn_state (plain_state Destroyed) (halted s)) = stopped s.
Proof. by destruct s as [vc [[] res] q d ltc g ql rl wt]. Qed.

Lemma runs_stop r s :
  runs (stop r) r s (Return tt)
       (if bool_decide (status_of s = Destroyed) then halted s else stopped s)
       (finish_events (audioPlayer s)
        ++ if bool_decide (status_of s = Destroyed) then [] else [Destroy r])
       (idle_guards r (audioPlayer s)) [guildId s].
Proof.
  destruct (bool_decide (status_of s = Destroyed)) eqn:Hst.
  - apply bool_decide_eq_true_1 in Hst. rewrite app_nil_r.
    by apply runs_stop_with_destroyed.
  - apply bool_decide_eq_false_1 in Hst.
    intros w Hw. rewrite <- effect_unregister_twice. revert w Hw.
    unfold stop, stop_with, destroy, onStateChange.
    assert (status_of (halted s) <> Destroyed) as Hst'.
    { unfold halted, status_of in *.
      by destruct (bool_decide (player_status (audioPlayer s) = Idle)). }
    assert (set_destroyed true
              (audioPlayer_stop_local r (set_queue empty_array (set_queueLock true s))).2.1.1
            = halted s) as Hhalt.
    { rewrite audioPlayer_stop_locked by done. unfold halted.
      cbn [audioPlayer set_queue set_queueLock].
      by destruct (bool_decide (player_status (audioPlayer s) = Idle)). }
    eapply runs_eq.
    + eapply runs_bind; [apply runs_update|].
      eapply runs_bind; [apply runs_update|].
      eapply runs_bind; [apply runs_audioPlayer_stop|].
      eapply runs_bind; [apply runs_update|].
      eapply runs_bind; [apply runs_this|].
      eapply runs_bind; [|apply runs_unregister].
      rewrite Hhalt. rewrite bool_decide_eq_false_2 by done.
      apply (runs_when true). by apply runs_destroy.
    + done.
    + cbn [fst snd]. by rewrite stopped_eq.
    + rewrite audioPlayer_stop_locked by done.
      cbn [audioPlayer set_queue set_queueLock fst snd app].
      destruct (halted_idle s) as [-> _]. rewrite !app_nil_r.
      destruct (bool_decide (player_status (audioPlayer s) = Idle)) eqn:Hidle; [|done].
      unfold finish_events. rewrite Hidle. by destruct (resource _).
    + rewrite audioPlayer_stop_locked by done.
      cbn [audioPlayer set_queue set_queueLock fst snd app].
      destruct (halted_idle s) as [_ ->]. rewrite !app_nil_r.
      destruct (bool_decide (player_status (audioPlayer s) = Idle)) eqn:Hidle; [|done].
      unfold idle_guards. rewrite Hidle. by destruct (resource _).
    + rewrite audioPlayer_stop_locked by done. cbn.
      by destruct (bool_decide (player_status (audioPlayer s) = Idle)).
Qed.


(** ** The idle transition *)





Lemma runs_audioPlayer_pause r s :
  runs (audioPlayer_pause r) r s
       (Return (bool_decide (player_status (audioPlayer s) = Playing)))
       (if bool_decide (player_status (audioPlayer s) = Playing)
        then set_audioPlayer {| player_status := Paused;
                                resource := resource (audioPlayer s) |} s
        else s) [] [] [].
Proof.
  unfold audioPlayer_pause.
  destruct (bool_decide (player_status (audioPlayer s) = Playing)) eqn:Hp.
  - eapply runs_eq.
    + eapply runs_bind; [apply runs_this|]. rewrite Hp.
      eapply runs_bind; [apply runs_update|].
      eapply runs_bind; [apply runs_onPlayerStateChange|]. apply runs_ret.
    + done.
    + done.
    + done.
    + done.
    + done.
  - eapply runs_eq.
    + eapply runs_bind; [apply runs_this|]. rewrite Hp. apply runs_ret.
    + done.
    + done.
    + done.
    + done.
    + done.
Qed.



(** ** Processing the queue *)

Lemma run_settle {A} p (k : unit -> M A) w :
  (settle p ≫= k) w = k tt (set_pending (remove_first p (pending w)) w).
Proof. reflexivity. Qed.

Lemma runs_audioPlayer_play r s res :
  player_status (audioPlayer s) = Idle ->
  runs (audioPlayer_play r res) r s (Return tt)
       (set_audioPlayer {| player_status := Buffering; resource := Some res |} s)
       [Play r (metadata res)] [] [].
Proof.
  intros Hidle. unfold audioPlayer_play.
  eapply runs_eq.
  - eapply runs_bind; [apply runs_this|].
    eapply runs_bind; [apply runs_update|].
    eapply runs_bind; [apply runs_emit|].
    apply runs_onPlayerStateChange.
  - done.
  - done.
  - done.
  - done.
  - done.
Qed.

Lemma processQueue_local_take r s t rest :
  queueLock s = false -> player_status (audioPlayer s) = Idle ->
  items (queue s) = Some t :: rest ->
  processQueue_local r s
  = (Return tt,
     set_queue {| items := rest; named := named (queue s) |}
       (set_queueLock true (set_wait false s)),
     [Production r (Some t)]).
Proof.
  intros Hl Hi Hq. unfold processQueue_local, array_length, array_shift.
  rewrite Hl, Hi, Hq. reflexivity.
Qed.

Lemma runs_processQueue_take r s t rest :
  queueLock s = false -> player_status (audioPlayer s) = Idle ->
  items (queue s) = Some t :: rest ->
  runs (processQueue r) r s (Return tt)
       (set_queue {| items := rest; named := named (queue s) |}
          (set_queueLock true (set_wait false s)))
       [] [Production r (Some t)] [].
Proof.
  intros Hl Hi Hq. eapply runs_eq; [apply runs_processQueue|..];
    by rewrite ?(processQueue_local_take r s t rest).
Qed.

Lemma runs_processQueue_blocked r s :
  queueLock s = true \/ player_status (audioPlayer s) <> Idle \/ items (queue s) = [] ->
  runs (processQueue r) r s (Return tt) (set_wait false s) [] [] [].
Proof.
  intros H. 
  assert (processQueue_local r s = (Return tt, set_wait false s, [])) as Heq.
  { unfold processQueue_local, array_length.
    destruct H as [-> | [H | ->]]; [done| |by rewrite !orb_true_r].
    rewrite (bool_decide_eq_false_2 _ H). cbn. by rewrite orb_true_r. }
  eapply runs_eq; [apply runs_processQueue|..]; by rewrite ?Heq.
Qed.

Lemma runs_processQueue_catch r s t error next rest :
  player_status (audioPlayer s) = Idle ->
  items (queue s) = Some next :: rest ->
  runs (processQueue_catch r t error) r s (Return tt)
       (set_queue {| items := rest; named := named (queue s) |}
          (set_queueLock true (set_wait false (set_queueLock false s))))
       [Call onError t] [Production r (Some next)] [].
Proof.
  intros Hi Hq. unfold processQueue_catch.
  eapply runs_eq.
  - eapply runs_bind; [apply runs_emit|].
    eapply runs_bind; [apply runs_update|].
    by apply (runs_processQueue_take _ _ next rest).
  - done.
  - done.
  - done.
  - done.
  - done.
Qed.

Lemma runs_processQueue_resolved r s t :
  player_status (audioPlayer s) = Idle ->
  runs (try_catch
          (audioPlayer_play r {| metadata := t |};; update r (set_queueLock false))
          (processQueue_catch r t)) r s (Return tt)
       (set_queueLock false
          (set_audioPlayer
             {| player_status := Buffering; resource := Some {| metadata := t |} |} s))
       [Play r t] [] [].
Proof.
  intros Hi w Hw. unfold try_catch.
  assert (runs (audioPlayer_play r {| metadata := t |};; update r (set_queueLock false))
            r s (Return tt)
            (set_queueLock false
               (set_audioPlayer
                  {| player_status := Buffering; resource := Some {| metadata := t |} |} s))
            [Play r t] [] []) as Hrun.
  { eapply runs_eq; [eapply runs_bind; [by apply runs_audioPlayer_play|apply runs_update]|done..]. }
  by rewrite (Hrun w Hw).
Qed.

Lemma run_bind_assoc {A B C} (c : M A) (k : A -> M B) (k' : B -> M C) w :
  ((c ≫= k) ≫= k') w = (c ≫= (fun a => k a ≫= k')) w.
Proof. rewrite !run_bind. destruct (c w) as [[a|e] w']; [|done]. by rewrite run_bind. Qed.

Lemma queue_in_order produce r ts : forall w s,
  heap w !! r = Some s ->
  queueLock s = false ->
  player_status (audioPlayer s) = Idle ->
  items (queue s) = Some <$> ts ->
  exists w' s',
    (processQueue r;; settle_productions produce r ts) w = (Return tt, w')
    /\ heap w' !! r = Some s'
    /\ trace w' = trace w ++ skipped_then_played produce r ts
    /\ items (queue s') = Some <$> left_queued produce ts
    /\ queueLock s' = false
    /\ destroyed s' = destroyed s
    /\ voiceConnection s' = voiceConnection s
    /\ subscriptions w' = subscriptions w.
Proof.
  induction ts as [|t ts IH]; intros w s Hr Hl Hi Hq.
  - exists (effect r (set_wait false s) [] [] [] w), (set_wait false s).
    split.
    { rewrite run_bind. rewrite (runs_processQueue_blocked r s) by auto. done. }
    split; [apply effect_lookup|]. simpl. by rewrite app_nil_r.
  - rewrite run_bind, (runs_processQueue_take r s t (fmap (M:=list) Some ts) Hl Hi Hq w Hr).
    cbn [settle_productions]. unfold processQueue_settled.
    set (s1 := set_queue _ _).
    set (w1 := effect r s1 _ _ _ w).
    destruct (produce t) as [error|] eqn:Hp.
    + rewrite run_bind_assoc, run_settle. unfold processQueue_catch.
      set (w1' := set_pending _ w1).
      assert (heap w1' !! r = Some s1) as Hr1 by apply lookup_insert_eq.
      rewrite run_bind_assoc, run_bind, (runs_emit _ r s1 _ Hr1).
      rewrite run_bind_assoc, run_bind,
        (runs_update r _ s1 _ (effect_lookup _ _ _ _ _ _)), effect_effect.
      destruct (IH (effect r (set_queueLock false s1) ([Call onError t] ++ []) ([] ++ [])
                      ([] ++ []) w1') (set_queueLock false s1))
        as (w' & s' & Hrun & Hr' & Htr & Hq' & Hl' & Hd' & Hc' & Hs');
        [apply effect_lookup|done..|].
      exists w', s'. split; [exact Hrun|]. split; [done|].
      cbn [skipped_then_played left_queued]. rewrite Hp.
      split; [rewrite Htr; simpl; by rewrite !app_nil_r, <- app_assoc|].
      by rewrite Hq', Hl', Hd', Hc', Hs'.
    + rewrite run_bind, run_settle.
      assert (heap (set_pending (remove_first (Production r (Some t)) (pending w1)) w1) !! r
              = Some s1) as Hr1 by apply lookup_insert_eq.
      rewrite (runs_processQueue_resolved r s1 t Hi _ Hr1).
      eexists _, _. split; [reflexivity|]. split; [apply effect_lookup|].
      cbn [skipped_then_played left_queued]. rewrite Hp.
      simpl. by rewrite !app_nil_r.
Qed.

(** C1.  The queue is free, the player idle, and the queue starts with a
    track A followed by a track B.  [processQueue()] takes A and awaits its
    resource.  When that production fails, the continuation invokes [onError]
    of A, once, releases the lock and calls [processQueue()] again at once
    (the very call on the world with the lock released), which takes B, the
    front of what is left, and leaves the tracks after B in their order.
    When the production of B succeeds, B is what the player is handed.  The
    events of the whole run are [onError] of A followed by the play of B:
    [onFinish] of A is never invoked.  The failure leaves the subscription
    alive: its [destroyed] flag, its connection and the registry are as
    before.  Whatever the outcome of each later production, the tracks are
    tried in the order of the queue: every track in front of the first that
    can be produced gets its [onError], that first one is played, and the
    tracks behind it stay queued in their order. *)
Theorem failed_track_is_skipped (r : ref) (s : MusicSubscription) (w : World)
    (A B : Track) (rest : list slot) (error : JsError) :
  heap w !! r = Some s ->
  queueLock s = false ->
  player_status (audioPlayer s) = Idle ->
  items (queue s) = Some A :: Some B :: rest ->
  let after_A := {| items := Some B :: rest; named := named (queue s) |} in
  let after_B := {| items := rest; named := named (queue s) |} in
  let s1 := set_queue after_A (set_queueLock true (set_wait false s)) in
  let w1 := effect r s1 [] [Production r (Some A)] [] w in
  let w1' := set_pending (remove_first (Production r (Some A)) (pending w1)) w1 in
  let s2 := set_queue after_B (set_queueLock true (set_wait false (set_queueLock false s1))) in
  let w2 := effect r s2 [Call onError A] [Production r (Some B)] [] w1' in
  let w2' := set_pending (remove_first (Production r (Some B)) (pending w2)) w2 in
  let s3 := set_queueLock false
              (set_audioPlayer {| player_status := Buffering;
                                  resource := Some {| metadata := B |} |} s2) in
  let w3 := effect r s3 [Play r B] [] [] w2' in
  processQueue r w = (Return tt, w1)
  /\ processQueue_settled r A (Some error) w1 = (Return tt, w2)
  /\ processQueue_settled r A (Some error) w1
     = processQueue r (effect r (set_queueLock false s1) [Call onError A] [] [] w1')
  /\ processQueue_settled r B None w2 = (Return tt, w3)
  /\ trace w2 = trace w ++ [Call onError A]
  /\ trace w3 = trace w ++ [Call onError A; Play r B]
  /\ resource (audioPlayer s3) = Some {| metadata := B |}
  /\ items (queue s2) = rest /\ items (queue s3) = rest
  /\ queueLock s3 = false
  /\ destroyed s2 = destroyed s /\ destroyed s3 = destroyed s
  /\ voiceConnection s2 = voiceConnection s /\ voiceConnection s3 = voiceConnection s
  /\ subscriptions w2 = subscriptions w /\ subscriptions w3 = subscriptions w
  /\ (forall (produce : Track -> option JsError) (ts : list Track),
        Some A :: Some B :: rest = Some <$> ts ->
        exists w' s',
          (processQueue r;; settle_productions produce r ts) w = (Return tt, w')
          /\ heap w' !! r = Some s'
          /\ trace w' = trace w ++ skipped_then_played produce r ts
          /\ items (queue s') = Some <$> left_queued produce ts
          /\ destroyed s' = destroyed s
          /\ subscriptions w' = subscriptions w).
Proof.
  intros Hr Hl Hi Hq after_A after_B s1 w1 w1' s2 w2 w2' s3 w3.
  assert (forall (produce : Track -> option JsError) (ts : list Track),
            Some A :: Some B :: rest = Some <$> ts ->
            exists w' s',
              (processQueue r;; settle_productions produce r ts) w = (Return tt, w')
              /\ heap w' !! r = Some s'
              /\ trace w' = trace w ++ skipped_then_played produce r ts
              /\ items (queue s') = Some <$> left_queued produce ts
              /\ destroyed s' = destroyed s
              /\ subscriptions w' = subscriptions w) as Horder.
  { intros produce ts Hts. rewrite Hts in Hq.
    destruct (queue_in_order produce r ts w s Hr Hl Hi Hq)
      as (w' & s' & H1 & H2 & H3 & H4 & _ & H5 & _ & H6).
    by exists w', s'. }
  assert (heap w1' !! r = Some s1) as Hr1 by apply lookup_insert_eq.
  assert (heap w2' !! r = Some s2) as Hr2 by apply lookup_insert_eq.
  split; [by apply (runs_processQueue_take r s A (Some B :: rest))|].
  split.
  { unfold processQueue_settled. rewrite run_settle.
    by apply (runs_processQueue_catch r s1 A error B rest). }
  split.
  { unfold processQueue_settled. rewrite run_settle. unfold processQueue_catch.
    rewrite run_bind, (runs_emit _ r s1 _ Hr1).
    by rewrite run_bind, (runs_update r _ s1 _ (effect_lookup _ _ _ _ _ _)), effect_effect. }
  split.
  { unfold processQueue_settled. rewrite run_settle.
    by apply (runs_processQueue_resolved r s2 B). }
  repeat split; try done.
  - simpl. by rewrite !app_nil_r.
  - simpl. by rewrite !app_nil_r, <- !app_assoc.
Qed.

Lemma failed_track_is_skipped_witness :
  exists w1 w2 w3,
    processQueue 0 example_world = (Return tt, w1)
    /\ processQueue_settled 0 track_A (Some (Error "no stream")) w1 = (Return tt, w2)
    /\ processQueue_settled 0 track_B None w2 = (Return tt, w3)
    /\ trace w3 = [Call onError track_A; Play 0 track_B].
Proof.
  destruct (failed_track_is_skipped 0 example_subscription example_world
              track_A track_B [] (Error "no stream") eq_refl eq_refl eq_refl eq_refl)
    as (H1 & H2 & _ & H3 & _ & H4 & _).
  eexists _, _, _. split; [exact H1|]. split; [exact H2|]. split; [exact H3 | exact H4].
Defined.

(** ** Stopping *)

Lemma effect_nothing r s g w :
  heap w !! r = Some s -> subscriptions w !! g = None ->
  effect r s [] [] [g] w = w.
Proof.
  intros Hr Hg. destruct w. unfold effect. simpl in *.
  by rewrite insert_id, !app_nil_r, delete_id.
Qed.

Lemma halted_fields s :
  queue (halted s) = empty_array /\ queueLock (halted s) = true
  /\ player_status (audioPlayer (halted s)) = Idle /\ destroyed (halted s) = true
  /\ status_of (halted s) = status_of s /\ guildId (halted s) = guildId s
  /\ lastTextChannel (halted s) = lastTextChannel s.
Proof. by destruct s as [vc [[] res] q d ltc g ql rl wt]. Qed.

Lemma stopped_fields s :
  queue (stopped s) = empty_array /\ queueLock (stopped s) = true
  /\ player_status (audioPlayer (stopped s)) = Idle /\ destroyed (stopped s) = true
  /\ status_of (stopped s) = Destroyed /\ guildId (stopped s) = guildId s
  /\ lastTextChannel (stopped s) = lastTextChannel s.
Proof. by destruct s as [vc [[] res] q d ltc g ql rl wt]. Qed.

Lemma stopped_idle s :
  finish_events (audioPlayer (stopped s)) = []
  /\ forall r, idle_guards r (audioPlayer (stopped s)) = [].
Proof. by destruct s as [vc [[] [res|]] q d ltc g ql rl wt]. Qed.

Lemma halted_destroyed s : halted (set_conn_state (plain_state Destroyed) s) = stopped s.
Proof. by destruct s as [vc [[] res] q d ltc g ql rl wt]. Qed.

(** A stopped subscription: what [stop()] and the listener find after
    [stop()] has run. *)
Lemma stop_again r s g w :
  heap w !! r = Some s ->
  status_of s = Destroyed -> halted s = s -> guildId s = g ->
  finish_events (audioPlayer s) = [] -> idle_guards r (audioPlayer s) = [] ->
  subscriptions w !! g = None ->
  stop r w = (Return tt, w)
  /\ forall oldState, onStateChange r oldState (plain_state Destroyed) w = (Return tt, w).
Proof.
  intros Hr Hst Hh Hg Hf Hi Hsub. split.
  - rewrite (runs_stop r s w Hr). rewrite (bool_decide_eq_true_2 _ Hst).
    rewrite Hh, Hf, Hi, Hg. simpl. by rewrite (effect_nothing r s g w).
  - intros oldState. unfold onStateChange.
    rewrite (runs_listener_destroyed 1 r s oldState (plain_state Destroyed) eq_refl Hst w Hr).
    rewrite Hh, Hf, Hi, Hg. by rewrite (effect_nothing r s g w).
Qed.

Lemma effect_unregistered r s es ps g w :
  subscriptions (effect r s es ps [g] w) !! g = None
  /\ forall g', g' <> g ->
       subscriptions (effect r s es ps [g] w) !! g' = subscriptions w !! g'.
Proof.
  simpl. split; [apply lookup_delete_eq|]. intros g' Hne. by apply lookup_delete_ne.
Qed.

(** C2.  [stop()] ends with the queue empty and locked, the player idle,
    the subscription marked destroyed, the connection destroyed and the
    guild removed from the registry (other guilds untouched).  Clearing the
    queue invokes no callback: the only callback a [stop()] can cause is
    [onFinish] of the track the player held, from the forced stop of a
    player that was not idle.  The connection is destroyed by the call
    exactly when it was not destroyed before, and then once, although its
    [Destroyed] announcement runs [stop()] again inside the call.  A second
    [stop()], or the listener called for [Destroyed], finds nothing left to
    do: it returns the same world, with no event added.  The same holds when
    the connection is destroyed first and [stop()] is called afterwards. *)
Theorem stop_is_idempotent (r : ref) (s : MusicSubscription) (w : World) :
  heap w !! r = Some s ->
  let s1 := after_stop s in
  let w1 := effect r s1 (stop_events r s) (idle_guards r (audioPlayer s)) [guildId s] w in
  stop r w = (Return tt, w1)
  /\ queue s1 = empty_array
  /\ queueLock s1 = true
  /\ player_status (audioPlayer s1) = Idle
  /\ destroyed s1 = true
  /\ status_of s1 = Destroyed
  /\ subscriptions w1 !! guildId s = None
  /\ (forall g, g <> guildId s -> subscriptions w1 !! g = subscriptions w !! g)
  /\ (forall cb t, Call cb t ∈ stop_events r s ->
        cb = onFinish
        /\ player_status (audioPlayer s) <> Idle
        /\ resource (audioPlayer s) = Some {| metadata := t |})
  /\ (forall r', Destroy r' ∈ stop_events r s -> r' = r /\ status_of s <> Destroyed)
  /\ length (filter (fun e => e = Destroy r) (stop_events r s))
     = (if bool_decide (status_of s = Destroyed) then 0 else 1)%nat
  /\ stop r w1 = (Return tt, w1)
  /\ (forall oldState, onStateChange r oldState (plain_state Destroyed) w1 = (Return tt, w1))
  /\ (status_of s <> Destroyed ->
      let w2 := effect r s1 (Destroy r :: finish_events (audioPlayer s))
                  (idle_guards r (audioPlayer s)) [guildId s] w in
      destroy r w = (Return tt, w2)
      /\ stop r w2 = (Return tt, w2)
      /\ subscriptions w2 !! guildId s = None).
Proof.
  intros Hr s1 w1.
  assert (status_of s1 = Destroyed /\ halted s1 = s1 /\ guildId s1 = guildId s
          /\ finish_events (audioPlayer s1) = [] /\ idle_guards r (audioPlayer s1) = []
          /\ queue s1 = empty_array /\ queueLock s1 = true
          /\ player_status (audioPlayer s1) = Idle /\ destroyed s1 = true)
    as (Hst1 & Hh1 & Hg1 & Hf1 & Hi1 & Hq1 & Hl1 & Hp1 & Hd1).
  { unfold s1, after_stop. destruct (bool_decide (status_of s = Destroyed)) eqn:Hst.
    - apply bool_decide_eq_true_1 in Hst.
      destruct (halted_fields s) as (? & ? & ? & ? & Hs & ? & ?).
      destruct (halted_idle s) as [? ?]. rewrite halted_halted, Hs. done.
    - destruct (stopped_fields s) as (? & ? & ? & ? & ? & ? & ?).
      destruct (stopped_idle s) as [? ?]. by rewrite halted_stopped. }
  destruct (effect_unregistered r s1 (stop_events r s) (idle_guards r (audioPlayer s))
              (guildId s) w) as [Hgone Hkept].
  destruct (stop_again r s1 (guildId s) w1 (effect_lookup _ _ _ _ _ _)
              Hst1 Hh1 Hg1 Hf1 Hi1 Hgone) as [Hagain Hcascade].
  split; [by apply runs_stop|].
  do 7 (split; [done|]).
  split.
  { intros cb t. unfold stop_events, finish_events.
    rewrite elem_of_app. intros [Hin|Hin].
    - destruct (resource (audioPlayer s)) as [[t']|]; [|by apply elem_of_nil in Hin].
      destruct (bool_decide (player_status (audioPlayer s) = Idle)) eqn:Hidle;
        [by apply elem_of_nil in Hin|].
      apply bool_decide_eq_false_1 in Hidle. cbn [orb metadata] in Hin.
      destruct (errored t'); [by apply elem_of_nil in Hin|].
      apply list_elem_of_singleton in Hin. by injection Hin as <- <-.
    - destruct (bool_decide (status_of s = Destroyed)); [by apply elem_of_nil in Hin|].
      by apply list_elem_of_singleton in Hin. }
  split.
  { intros r'. unfold stop_events, finish_events.
    rewrite elem_of_app. intros [Hin|Hin].
    - destruct (resource (audioPlayer s)) as [[t']|]; [|by apply elem_of_nil in Hin].
      destruct (_ || _); [by apply elem_of_nil in Hin|].
      by apply list_elem_of_singleton in Hin.
    - destruct (bool_decide (status_of s = Destroyed)) eqn:Hst;
        [by apply elem_of_nil in Hin|].
      apply bool_decide_eq_false_1 in Hst.
      apply list_elem_of_singleton in Hin. by injection Hin as <-. }
  split.
  { unfold stop_events, finish_events. rewrite filter_app, length_app.
    replace (length (filter (fun e => e = Destroy r)
               match resource (audioPlayer s) with
               | Some res =>
                   if bool_decide (player_status (audioPlayer s) = Idle)
                      || errored (metadata res)
                   then [] else [Call onFinish (metadata res)]
               | None => []
               end)) with 0%nat.
    - destruct (bool_decide (status_of s = Destroyed)); [done|].
      by rewrite filter_cons_True.
    - destruct (resource (audioPlayer s)) as [res|]; [|done].
      destruct (_ || _); [done|]. by rewrite filter_cons_False. }
  split; [done|]. split; [done|].
  intros Hst w2.
  assert (s1 = stopped s) as Hs1.
  { unfold s1, after_stop. by rewrite bool_decide_eq_false_2. }
  destruct (effect_unregistered r s1 (Destroy r :: finish_events (audioPlayer s))
              (idle_guards r (audioPlayer s)) (guildId s) w) as [Hgone2 _].
  split.
  { unfold destroy, onStateChange. rewrite (runs_destroy 1 r s Hst w Hr).
    rewrite halted_destroyed. unfold w2. by rewrite Hs1. }
  split; [|done].
  by destruct (stop_again r s1 (guildId s) w2 (effect_lookup _ _ _ _ _ _)
                 Hst1 Hh1 Hg1 Hf1 Hi1 Hgone2).
Qed.

Lemma stop_is_idempotent_witness :
  exists w1,
    stop 0 playing_world = (Return tt, w1)
    /\ stop 0 w1 = (Return tt, w1)
    /\ trace w1 = [Call onFinish track_C; Destroy 0]
    /\ subscriptions w1 !! "guild" = None.
Proof.
  destruct (stop_is_idempotent 0 playing_subscription playing_world eq_refl)
    as (H1 & _ & _ & _ & _ & _ & H2 & _ & _ & _ & _ & H3 & _).
  eexists. split; [exact H1|]. split; [exact H3|]. split; [reflexivity | exact H2].
Defined.

(** ** The inactivity guard *)



Lemma count_pending_remove_first p ps :
  p ∈ ps -> S (count_pending p (remove_first p ps)) = count_pending p ps.
Proof.
  unfold count_pending. induction ps as [|p' ps IH]; intros Hin.
  - by apply elem_of_nil in Hin.
  - cbn [remove_first]. destruct (decide (p' = p)) as [->|Hne].
    + by rewrite filter_cons_True.
    + rewrite !filter_cons_False by done. apply IH.
      apply elem_of_cons in Hin as [Heq|Hin]; [congruence | done].
Qed.

Lemma count_pending_app p ps qs :
  count_pending p (ps ++ qs) = (count_pending p ps + count_pending p qs)%nat.
Proof. unfold count_pending. by rewrite filter_app, length_app. Qed.







(** ** The ready guard *)

Lemma readyGuard_timeout_throws r s w :
  heap w !! r = Some s ->
  readyGuard_timeout r w
  = (Throw (ReferenceError "VoiceConnectdionStatus"),
     set_heap (<[r := set_readyLock false s]> (heap w))
       (set_pending (remove_first (ReadyGuard r) (pending w)) w)).
Proof.
  intros Hr. destruct w as [h m tr pe rnd dr]. simpl in Hr.
  unfold readyGuard_timeout, resolve_identifier. exec. simpl. exec. reflexivity.
Qed.

Lemma runs_guard_armed d r s oldState newState :
  readyLock s = false ->
  conn_status newState = Connecting \/ conn_status newState = Signalling ->
  runs (onVoiceStateChange (S d) r oldState newState) r s (Return tt)
       (set_readyLock true s) [] [ReadyGuard r] [].
Proof.
  intros Hl Hn. cbn [onVoiceStateChange].
  assert (bool_decide (conn_status newState = Disconnected) = false
          /\ bool_decide (conn_status newState = Destroyed) = false
          /\ bool_decide (conn_status newState = Connecting)
             || bool_decide (conn_status newState = Signalling) = true) as (-> & -> & Hc).
  { by destruct Hn as [-> | ->]. }
  eapply runs_eq; [eapply runs_bind; [apply runs_this|]|..].
  - rewrite Hl, Hc. cbn [negb andb].
    eapply runs_bind; [apply runs_update | apply runs_suspend].
  - done.
  - done.
  - done.
  - done.
  - done.
Qed.

Lemma runs_guard_not_rearmed d r s oldState newState :
  readyLock s = true ->
  conn_status newState = Connecting \/ conn_status newState = Signalling ->
  runs (onVoiceStateChange (S d) r oldState newState) r s (Return tt) s [] [] [].
Proof.
  intros Hl Hn. cbn [onVoiceStateChange].
  assert (bool_decide (conn_status newState = Disconnected) = false
          /\ bool_decide (conn_status newState = Destroyed) = false) as (-> & ->).
  { by destruct Hn as [-> | ->]. }
  eapply runs_eq; [eapply runs_bind; [apply runs_this|]|..].
  - rewrite Hl. cbn [negb andb]. apply runs_ret.
  - done.
  - done.
  - done.
  - done.
  - done.
Qed.

Lemma elem_of_remove_first (p q : Pending) ps :
  p <> q -> p ∈ ps -> p ∈ remove_first q ps.
Proof.
  intros Hne. induction ps as [|p' ps IH]; intros Hin; [done|].
  cbn [remove_first]. destruct (decide (p' = q)) as [->|Hne'].
  - apply elem_of_cons in Hin as [?|?]; [congruence|done].
  - apply elem_of_cons in Hin as [->|?]; apply elem_of_cons; auto.
Qed.

Lemma run_connection_enters_guarded r s w newState :
  heap w !! r = Some s ->
  readyLock s = false ->
  conn_status newState = Connecting \/ conn_status newState = Signalling ->
  let W := effect r (set_readyLock true (set_conn_state newState s)) []
             [ReadyGuard r] [] w in
  connection_enters r newState w
  = (Return tt,
     if bool_decide (conn_status newState = Connecting)
     then set_pending (remove_first (MoveGuard r) (pending W)) W else W).
Proof.
  intros Hr Hl Hn W. unfold connection_enters.
  assert (runs (voiceConnection_enters onStateChange r newState) r s (Return tt)
            (set_readyLock true (set_conn_state newState s)) [] [ReadyGuard r] [])
    as Henters.
  { unfold voiceConnection_enters, onStateChange. eapply runs_eq.
    - eapply runs_bind; [apply runs_this|].
      eapply runs_bind; [apply runs_update|].
      apply runs_void, runs_guard_armed; done.
    - done.
    - done.
    - done.
    - done.
    - done. }
  rewrite run_bind, (Henters w Hr). fold W.
  rewrite run_bind. unfold world at 1.
  assert (bool_decide (conn_status newState = Ready) = false) as ->
    by (by destruct Hn as [-> | ->]).
  cbn [andb when]. rewrite run_bind. unfold mret at 1, M_ret at 1.
  by destruct (bool_decide (conn_status newState = Connecting)).
Qed.

(** C3, as the code has it.  A connection that enters [Connecting] or
    [Signalling] while the guard is not armed arms it, once: while it is
    armed, entering either state again arms nothing.  When [Ready] is not
    reached in time, the continuation of the guard evaluates the identifier
    [VoiceConnectdionStatus], which the module does not define: it ends with
    a [ReferenceError] before it reaches [destroy()].  The guard is released,
    and the connection is left in the state it had, not destroyed; no event
    is added and the registry keeps the subscription. *)
Theorem ready_guard_timeout_leaves_connection (r : ref) (s : MusicSubscription)
    (w : World) (newState : VoiceConnectionState) :
  heap w !! r = Some s ->
  readyLock s = false ->
  conn_status newState = Connecting \/ conn_status newState = Signalling ->
  let s1 := set_readyLock true (set_conn_state newState s) in
  let s2 := set_readyLock false s1 in
  exists w1 w2,
    connection_enters r newState w = (Return tt, w1)
    /\ heap w1 !! r = Some s1
    /\ ReadyGuard r ∈ pending w1
    /\ (forall oldState newState',
          conn_status newState' = Connecting \/ conn_status newState' = Signalling ->
          onStateChange r oldState newState' w1 = (Return tt, w1))
    /\ readyGuard_timeout r w1 = (Throw (ReferenceError "VoiceConnectdionStatus"), w2)
    /\ heap w2 !! r = Some s2
    /\ status_of s2 = conn_status newState
    /\ status_of s2 <> Destroyed
    /\ destroyed s2 = destroyed s
    /\ readyLock s2 = false
    /\ trace w2 = trace w
    /\ subscriptions w2 = subscriptions w.
Proof.
  intros Hr Hl Hn s1 s2.
  pose proof (run_connection_enters_guarded r s w newState Hr Hl Hn) as Henters.
  cbv zeta in Henters. fold s1 in Henters.
  set (W := effect r s1 [] [ReadyGuard r] [] w) in *.
  set (w1 := if bool_decide (conn_status newState = Connecting)
             then set_pending (remove_first (MoveGuard r) (pending W)) W else W) in *.
  assert (heap w1 !! r = Some s1) as Hr1.
  { unfold w1. destruct (bool_decide _); apply lookup_insert_eq. }
  assert (trace w1 = trace w /\ subscriptions w1 = subscriptions w) as [Htr Hsub].
  { unfold w1. destruct (bool_decide _); simpl; by rewrite app_nil_r. }
  exists w1. eexists. split; [exact Henters|]. split; [done|].
  split.
  { unfold w1. destruct (bool_decide _).
    - apply elem_of_remove_first; [done|]. simpl.
      apply elem_of_app. right. by apply list_elem_of_singleton.
    - simpl. apply elem_of_app. right. by apply list_elem_of_singleton. }
  split.
  { intros oldState newState' Hn'. unfold onStateChange.
    rewrite (runs_guard_not_rearmed 1 r s1 oldState newState' eq_refl Hn' w1 Hr1).
    by rewrite effect_id. }
  split; [by apply readyGuard_timeout_throws|].
  split; [apply lookup_insert_eq|].
  assert (status_of s2 = conn_status newState) as Hst by done.
  split; [done|]. split; [rewrite Hst; by destruct Hn as [-> | ->]|].
  by repeat split.
Qed.

Lemma ready_guard_timeout_leaves_connection_witness :
  exists w1 w2 s2,
    connection_enters 0 (plain_state Connecting) signalling_world = (Return tt, w1)
    /\ readyGuard_timeout 0 w1 = (Throw (ReferenceError "VoiceConnectdionStatus"), w2)
    /\ heap w2 !! 0%nat = Some s2
    /\ status_of s2 = Connecting
    /\ trace w2 = [].
Proof.
  destruct (ready_guard_timeout_leaves_connection 0 signalling_subscription
              signalling_world (plain_state Connecting)
              ltac:(reflexivity) ltac:(reflexivity) ltac:(by left))
    as (w1 & w2 & H1 & _ & _ & _ & H2 & H3 & H4 & _ & _ & _ & H5 & _).
  exists w1, w2. eexists. split; [exact H1|]. split; [exact H2|].
  split; [exact H3|]. split; [exact H4 | exact H5].
Defined.

(** ** Reconnection *)

Lemma runs_listener_backoff d r s oldState dropped :
  recoverable dropped ->
  (rejoinAttempts (voiceConnection s) < 5)%nat ->
  runs (onVoiceStateChange (S d) r oldState dropped) r s (Return tt) s []
       [RejoinWait r ((rejoinAttempts (voiceConnection s) + 1) * 5000)%nat] [].
Proof.
  intros [Hd H4014] Ha. cbn [onVoiceStateChange].
  rewrite (bool_decide_eq_true_2 _ Hd), H4014.
  eapply runs_eq; [eapply runs_bind; [apply runs_this|]|..].
  - destruct (Nat.ltb_spec (rejoinAttempts (voiceConnection s)) 5) as [_|?]; [|lia].
    apply runs_suspend.
  - done.
  - done.
  - done.
  - done.
  - done.
Qed.

Lemma runs_listener_exhausted d r s oldState dropped :
  recoverable dropped ->
  (5 <= rejoinAttempts (voiceConnection s))%nat ->
  status_of s <> Destroyed ->
  runs (onVoiceStateChange (S (S d)) r oldState dropped) r s (Return tt)
       (stopped s) (Destroy r :: finish_events (audioPlayer s))
       (idle_guards r (audioPlayer s)) [guildId s].
Proof.
  intros [Hd H4014] Ha Hst. cbn [onVoiceStateChange].
  rewrite (bool_decide_eq_true_2 _ Hd), H4014.
  eapply runs_eq; [eapply runs_bind; [apply runs_this|]|..].
  - destruct (Nat.ltb_spec (rejoinAttempts (voiceConnection s)) 5) as [?|_]; [lia|].
    by apply runs_destroy.
  - done.
  - apply halted_destroyed.
  - done.
  - done.
  - done.
Qed.

Lemma run_connection_drops r s w dropped :
  heap w !! r = Some s ->
  recoverable dropped ->
  let a := rejoinAttempts (voiceConnection s) in
  connection_enters r dropped w
  = (Return tt,
     if (a <? 5)%nat
     then effect r (set_conn_state dropped s) [] [RejoinWait r ((a + 1) * 5000)%nat] [] w
     else effect r (stopped (set_conn_state dropped s))
            (Destroy r :: finish_events (audioPlayer s))
            (idle_guards r (audioPlayer s)) [guildId s] w).
Proof.
  intros Hr Hrec a. pose proof Hrec as [Hd _]. unfold connection_enters.
  assert (rejoinAttempts (voiceConnection (set_conn_state dropped s)) = a) as Ha.
  { unfold set_conn_state. cbn. by rewrite Hd. }
  assert (status_of (set_conn_state dropped s) <> Destroyed) as Hst.
  { unfold status_of, set_conn_state. cbn. by rewrite Hd. }
  assert (runs (voiceConnection_enters onStateChange r dropped) r s (Return tt)
            (if (a <? 5)%nat then set_conn_state dropped s
             else stopped (set_conn_state dropped s))
            (if (a <? 5)%nat then [] else Destroy r :: finish_events (audioPlayer s))
            (if (a <? 5)%nat then [RejoinWait r ((a + 1) * 5000)%nat]
             else idle_guards r (audioPlayer s))
            (if (a <? 5)%nat then [] else [guildId s])) as Henters.
  { unfold voiceConnection_enters, onStateChange.
    destruct (Nat.ltb_spec a 5) as [Hlt|Hge].
    - eapply runs_eq.
      + eapply runs_bind; [apply runs_this|].
        eapply runs_bind; [apply runs_update|].
        apply runs_void, runs_listener_backoff; [done|]. by rewrite Ha.
      + done.
      + done.
      + done.
      + cbn [app]. by rewrite Ha.
      + done.
    - eapply runs_eq.
      + eapply runs_bind; [apply runs_this|].
        eapply runs_bind; [apply runs_update|].
        apply runs_void, runs_listener_exhausted; [done| |done]. by rewrite Ha.
      + done.
      + done.
      + done.
      + done.
      + done. }
  rewrite run_bind, (Henters w Hr).
  rewrite run_bind. unfold world at 1. rewrite Hd.
  cbn [bool_decide decide_rel andb when]. 
  rewrite (bool_decide_eq_false_2 (Disconnected = Ready)) by done.
  rewrite (bool_decide_eq_false_2 (Disconnected = Connecting)) by done.
  cbn [andb when]. rewrite run_bind. unfold mret at 1, M_ret at 1.
  unfold mret, M_ret. by destruct (a <? 5)%nat.
Qed.

Lemma rejoined_fields s :
  rejoinAttempts (voiceConnection (rejoined s)) = S (rejoinAttempts (voiceConnection s))
  /\ status_of (rejoined s) = Signalling
  /\ destroyed (rejoined s) = destroyed s
  /\ guildId (rejoined s) = guildId s
  /\ audioPlayer (rejoined s) = audioPlayer s
  /\ queue (rejoined s) = queue s.
Proof. by destruct s as [[? ?] ? ? ? ? ? ? ? ?]. Qed.

Lemma runs_rejoin r s :
  status_of s <> Destroyed -> status_of s <> Ready ->
  runs (rejoin r true) r s (Return true) (rejoined s) [Rejoin r]
       (if readyLock s then [] else [ReadyGuard r]) [].
Proof.
  intros Hd Hrdy. unfold rejoin, voiceConnection_rejoin.
  assert (runs (voiceConnection_enters onStateChange r (plain_state Signalling)) r
            (count_rejoin s) (Return tt) (rejoined s) []
            (if readyLock s then [] else [ReadyGuard r]) []) as Henters.
  { unfold voiceConnection_enters, onStateChange.
    destruct (readyLock s) eqn:Hl.
    - eapply runs_eq.
      + eapply runs_bind; [apply runs_this|].
        eapply runs_bind; [apply runs_update|].
        apply runs_void, runs_guard_not_rearmed; [done | by right].
      + done.
      + unfold rejoined. destruct s; simpl in *; by subst.
      + done.
      + done.
      + done.
    - eapply runs_eq.
      + eapply runs_bind; [apply runs_this|].
        eapply runs_bind; [apply runs_update|].
        apply runs_void, runs_guard_armed; [done | by right].
      + done.
      + done.
      + done.
      + done.
      + done. }
  eapply runs_eq.
  - eapply runs_bind; [apply runs_this|].
    rewrite (bool_decide_eq_false_2 _ Hd), (bool_decide_eq_false_2 _ Hrdy).
    cbn [negb].
    eapply runs_bind; [apply (runs_when true), runs_update|].
    eapply runs_bind; [apply runs_emit|].
    eapply runs_bind; [apply (runs_when true), Henters|]. apply runs_ret.
  - done.
  - done.
  - done.
  - cbn [app]. by rewrite !app_nil_r.
  - done.
Qed.

Lemma run_connection_ready r s w :
  heap w !! r = Some s ->
  exists w' s',
    connection_enters r (plain_state Ready) w = (Return tt, w')
    /\ heap w' !! r = Some s'
    /\ rejoinAttempts (voiceConnection s') = 0%nat
    /\ status_of s' = Ready
    /\ trace w' = trace w.
Proof.
  intros Hr. unfold connection_enters.
  assert (runs (voiceConnection_enters onStateChange r (plain_state Ready)) r s
            (Return tt) (set_conn_state (plain_state Ready) s) [] [] []) as Henters.
  { unfold voiceConnection_enters, onStateChange. eapply runs_eq.
    - eapply runs_bind; [apply runs_this|].
      eapply runs_bind; [apply runs_update|].
      apply runs_void. cbn [onVoiceStateChange plain_state conn_status].
      rewrite (bool_decide_eq_false_2 (Ready = Disconnected)) by done.
      rewrite (bool_decide_eq_false_2 (Ready = Destroyed)) by done.
      rewrite (bool_decide_eq_false_2 (Ready = Connecting)) by done.
      rewrite (bool_decide_eq_false_2 (Ready = Signalling)) by done.
      eapply runs_bind; [apply runs_this|].
      cbn [orb]. rewrite andb_false_r. apply runs_ret.
    - done.
    - done.
    - done.
    - done.
    - done. }
  rewrite run_bind, (Henters w Hr). rewrite run_bind. unfold world at 1.
  set (W := effect r (set_conn_state (plain_state Ready) s) [] [] [] w).
  cbn [plain_state conn_status].
  rewrite (bool_decide_eq_true_2 (Ready = Ready)) by done.
  rewrite (bool_decide_eq_false_2 (Ready = Connecting)) by done.
  cbn [andb]. destruct (bool_decide (ReadyGuard r ∈ pending W)).
  - cbn [when]. rewrite run_bind, run_settle.
    rewrite (run_update r _ (set_conn_state (plain_state Ready) s)) by apply lookup_insert_eq.
    eexists _, _. split; [reflexivity|]. split; [apply lookup_insert_eq|].
    simpl. by rewrite app_nil_r.
  - cbn [when]. eexists _, _. split; [reflexivity|]. split; [apply lookup_insert_eq|].
    simpl. by rewrite app_nil_r.
Qed.

Lemma run_failed_cycle r s w dropped :
  heap w !! r = Some s ->
  recoverable dropped ->
  (rejoinAttempts (voiceConnection s) < 5)%nat ->
  exists w',
    failed_cycle dropped r w = (Return tt, w')
    /\ heap w' !! r = Some (rejoined (set_conn_state dropped s))
    /\ trace w' = trace w ++ [Rejoin r]
    /\ subscriptions w' = subscriptions w.
Proof.
  intros Hr Hrec Ha. pose proof Hrec as [Hd _]. unfold failed_cycle.
  rewrite run_bind, (run_this _ _ _ Hr).
  rewrite run_bind, (run_connection_drops r s w dropped Hr Hrec).
  destruct (Nat.ltb_spec (rejoinAttempts (voiceConnection s)) 5) as [_|?]; [|lia].
  unfold rejoinWait_elapsed. rewrite run_settle.
  set (W := set_pending _ _).
  assert (heap W !! r = Some (set_conn_state dropped s)) as HW by apply lookup_insert_eq.
  assert (status_of (set_conn_state dropped s) = Disconnected) as Hst.
  { unfold status_of, set_conn_state. cbn. done. }
  rewrite run_bind.
  rewrite (runs_rejoin r (set_conn_state dropped s)) by (done || by rewrite Hst).
  eexists. split; [reflexivity|]. split; [apply lookup_insert_eq|].
  simpl. by rewrite !app_nil_r.
Qed.

Lemma run_failed_cycles r dropped n : forall w s,
  heap w !! r = Some s ->
  recoverable dropped ->
  (rejoinAttempts (voiceConnection s) + n <= 5)%nat ->
  exists w' s',
    failed_cycles n dropped r w = (Return tt, w')
    /\ heap w' !! r = Some s'
    /\ rejoinAttempts (voiceConnection s') = (rejoinAttempts (voiceConnection s) + n)%nat
    /\ status_of s' = (if n is 0 then status_of s else Signalling)
    /\ destroyed s' = destroyed s
    /\ guildId s' = guildId s
    /\ trace w' = trace w ++ replicate n (Rejoin r)
    /\ subscriptions w' = subscriptions w.
Proof.
  induction n as [|n IH]; intros w s Hr Hrec Ha.
  - exists w, s. simpl. by rewrite Nat.add_0_r, app_nil_r.
  - destruct (run_failed_cycle r s w dropped Hr Hrec ltac:(lia)) as (w1 & Hrun & Hr1 & Htr & Hsub).
    destruct (rejoined_fields (set_conn_state dropped s)) as (Hat & Hst & Hde & Hg & _).
    assert (rejoinAttempts (voiceConnection (set_conn_state dropped s))
            = rejoinAttempts (voiceConnection s)) as Hsame.
    { destruct Hrec as [Hd _]. unfold set_conn_state. cbn. by rewrite Hd. }
    destruct (IH w1 _ Hr1 Hrec) as (w' & s' & Hrun' & Hr' & Hat' & Hst' & Hde' & Hg' & Htr' & Hsub').
    { rewrite Hat, Hsame. lia. }
    exists w', s'. cbn [failed_cycles]. rewrite run_bind, Hrun.
    split; [done|]. split; [done|].
    split; [rewrite Hat', Hat, Hsame; lia|].
    split; [rewrite Hst'; by destruct n|].
    split; [by rewrite Hde', Hde|]. split; [by rewrite Hg', Hg|].
    split; [|by rewrite Hsub'].
    rewrite Htr', Htr. by rewrite <- app_assoc.
Qed.

(** C5.  The connection of a subscription drops, for a reason other than
    the close code 4014, with [a] rejoin attempts counted so far.  With
    [a < 5] the listener waits [(a + 1) * 5000] milliseconds and then calls
    [rejoin()], which counts one more attempt and adds no destruction; with
    [a >= 5] it destroys the connection at once.  Entering [Ready] sets the
    counter back to 0.  So, from a counter at 0: the connection goes through
    five cycles of dropping and rejoining, alive after each of them, and the
    drop that follows the fifth failed rejoin is the one that destroys it. *)
Theorem reconnection_bound (r : ref) (s : MusicSubscription) (w : World)
    (dropped : VoiceConnectionState) :
  heap w !! r = Some s ->
  recoverable dropped ->
  let a := rejoinAttempts (voiceConnection s) in
  ((a < 5)%nat ->
     connection_enters r dropped w
     = (Return tt,
        effect r (set_conn_state dropped s) []
          [RejoinWait r ((a + 1) * 5000)%nat] [] w)
     /\ exists w',
          failed_cycle dropped r w = (Return tt, w')
          /\ heap w' !! r = Some (rejoined (set_conn_state dropped s))
          /\ rejoinAttempts (voiceConnection (rejoined (set_conn_state dropped s)))
             = S a
          /\ status_of (rejoined (set_conn_state dropped s)) = Signalling
          /\ trace w' = trace w ++ [Rejoin r])
  /\ ((5 <= a)%nat ->
        connection_enters r dropped w
        = (Return tt,
           effect r (stopped (set_conn_state dropped s))
             (Destroy r :: finish_events (audioPlayer s))
             (idle_guards r (audioPlayer s)) [guildId s] w)
        /\ status_of (stopped (set_conn_state dropped s)) = Destroyed)
  /\ (exists w' s',
        connection_enters r (plain_state Ready) w = (Return tt, w')
        /\ heap w' !! r = Some s'
        /\ rejoinAttempts (voiceConnection s') = 0%nat)
  /\ (a = 0%nat ->
        (forall n, (n <= 5)%nat ->
           exists w' s',
             failed_cycles n dropped r w = (Return tt, w')
             /\ heap w' !! r = Some s'
             /\ rejoinAttempts (voiceConnection s') = n
             /\ status_of s' = (if n is 0 then status_of s else Signalling)
             /\ destroyed s' = destroyed s
             /\ trace w' = trace w ++ replicate n (Rejoin r)
             /\ subscriptions w' = subscriptions w)
        /\ exists w5 s5 w6 s6,
             failed_cycles 5 dropped r w = (Return tt, w5)
             /\ heap w5 !! r = Some s5
             /\ status_of s5 = Signalling
             /\ connection_enters r dropped w5 = (Return tt, w6)
             /\ heap w6 !! r = Some s6
             /\ status_of s6 = Destroyed
             /\ destroyed s6 = true
             /\ trace w6 = trace w ++ replicate 5 (Rejoin r)
                           ++ Destroy r :: finish_events (audioPlayer s5)).
Proof.
  intros Hr Hrec a.
  assert (rejoinAttempts (voiceConnection (set_conn_state dropped s)) = a) as Hsame.
  { destruct Hrec as [Hd _]. unfold set_conn_state. cbn. by rewrite Hd. }
  split.
  { intros Ha. split.
    - rewrite (run_connection_drops r s w dropped Hr Hrec). fold a.
      by destruct (Nat.ltb_spec a 5) as [_|?]; [|lia].
    - destruct (run_failed_cycle r s w dropped Hr Hrec Ha) as (w' & H1 & H2 & H3 & _).
      destruct (rejoined_fields (set_conn_state dropped s)) as (Hat & Hst & _).
      exists w'. rewrite Hat, Hsame. done. }
  split.
  { intros Ha. split.
    - rewrite (run_connection_drops r s w dropped Hr Hrec). fold a.
      by destruct (Nat.ltb_spec a 5) as [?|_]; [lia|].
    - by destruct (stopped_fields (set_conn_state dropped s)) as (_ & _ & _ & _ & ? & _). }
  split.
  { destruct (run_connection_ready r s w Hr) as (w' & s' & H1 & H2 & H3 & _).
    by exists w', s'. }
  intros Hzero. fold a in Hzero.
  assert (forall n, (n <= 5)%nat ->
            exists w' s',
              failed_cycles n dropped r w = (Return tt, w')
              /\ heap w' !! r = Some s'
              /\ rejoinAttempts (voiceConnection s') = n
              /\ status_of s' = (if n is 0 then status_of s else Signalling)
              /\ destroyed s' = destroyed s
              /\ trace w' = trace w ++ replicate n (Rejoin r)
              /\ subscriptions w' = subscriptions w) as Hcycles.
  { intros n Hn.
    destruct (run_failed_cycles r dropped n w s Hr Hrec) as
      (w' & s' & H1 & H2 & H3 & H4 & H5 & _ & H6 & H7); [unfold a in Hzero; lia|].
    exists w', s'. unfold a in Hzero. rewrite Hzero in H3. done. }
  split; [exact Hcycles|].
  destruct (Hcycles 5%nat ltac:(lia)) as (w5 & s5 & H1 & H2 & H3 & H4 & _ & H5 & _).
  assert (status_of s5 <> Destroyed) as Halive by (by rewrite H4).
  exists w5, s5. eexists _, _.
  split; [done|]. split; [done|]. split; [done|].
  split.
  { rewrite (run_connection_drops r s5 w5 dropped H2 Hrec). rewrite H3.
    cbn [Nat.ltb Nat.leb]. reflexivity. }
  split; [apply effect_lookup|].
  destruct (stopped_fields (set_conn_state dropped s5)) as (_ & _ & _ & ? & ? & _).
  split; [done|]. split; [done|].
  simpl. by rewrite H5, <- app_assoc.
Qed.

Lemma example_recoverable : recoverable dropped_state.
Proof. split; reflexivity. Qed.

Lemma reconnection_bound_witness :
  exists w5 s5 w6 s6,
    failed_cycles 5 dropped_state 0 example_world = (Return tt, w5)
    /\ heap w5 !! 0%nat = Some s5
    /\ status_of s5 = Signalling
    /\ connection_enters 0 dropped_state w5 = (Return tt, w6)
    /\ heap w6 !! 0%nat = Some s6
    /\ status_of s6 = Destroyed.
Proof.
  destruct (reconnection_bound 0 example_subscription example_world dropped_state
              ltac:(reflexivity) example_recoverable)
    as (_ & _ & _ & Hrun).
  destruct (Hrun eq_refl) as (_ & w5 & s5 & w6 & s6 & H1 & H2 & H3 & H4 & H5 & H6 & _).
  exists w5, s5, w6, s6.
  exact (conj H1 (conj H2 (conj H3 (conj H4 (conj H5 H6))))).
Defined.

(** ** The swap command *)

Lemma queue_unbound : bool_decide ("queue" ∈ commands_scope) = false.
Proof. by vm_compute. Qed.

Lemma run_clamp w : clamp w = (Throw (ReferenceError "queue"), w).
Proof. unfold clamp, resolve_identifier. by rewrite queue_unbound. Qed.

Lemma run_swap_execute Number trim ToString interaction w r s option1 option2 :
  subscriptions w !! interaction_guildId interaction = Some r ->
  heap w !! r = Some s ->
  (2 <= array_length (queue s))%nat ->
  getString interaction "index1" = Some option1 ->
  getString interaction "index2" = Some option2 ->
  let index1 := Number (trim option1) in
  let index2 := Number (trim option2) in
  let len := of_nat (array_length (queue s)) in
  swap_execute Number trim ToString interaction w
  = if Number_isNaN index1 || Number_isNaN index2
    then replied "Index must be a number! To see indices, type /queue" w
    else if js_gt index1 len || js_gt index2 len
    then (Throw (ReferenceError "queue"), w)
    else if js_strict_eq index1 index2
    then replied "Indices cannot be the same" w
    else if js_lt index1 (of_nat 0) || js_lt index2 (of_nat 0)
    then replied "Index can't be less than 0" w
    else (update r (set_lastTextChannel (channel interaction));;
          swap r index1 index2;;
          emit (Reply ("Swapped positions `" +:+ ToString index1 +:+ "` and `"
                       +:+ ToString index2 +:+ "` in the queue"))) w.
Proof.
  intros Hsub Hr Hlen H1 H2 index1 index2 len.
  unfold swap_execute, subscriptions_get. rewrite run_bind.
  rewrite run_bind. unfold world at 1. unfold mret at 1, M_ret at 1. rewrite Hsub.
  rewrite run_bind, (run_this _ _ _ Hr).
  destruct (Nat.ltb_spec (array_length (queue s)) 2) as [?|_]; [lia|].
  rewrite H1, H2. fold index1 index2 len.
  destruct (Number_isNaN index1); [done|].
  destruct (Number_isNaN index2); [done|]. cbn [orb].
  destruct (js_gt index1 len).
  { cbn [orb when]. by rewrite run_bind, run_clamp. }
  destruct (js_gt index2 len).
  { cbn [orb when]. rewrite run_bind. unfold mret at 1, M_ret at 1.
    by rewrite run_bind, run_clamp. }
  cbn [orb when]. rewrite run_bind. unfold mret at 1, M_ret at 1.
  rewrite run_bind. unfold mret at 1, M_ret at 1.
  destruct (js_strict_eq index1 index2); [done|].
  destruct (js_lt index1 (of_nat 0) || js_lt index2 (of_nat 0)); done.
Qed.

Lemma run_swap_any r s w (index1 index2 : JsNum) :
  heap w !! r = Some s ->
  swap r index1 index2 w
  = (Return tt,
     set_heap (<[r := set_queue
                         (array_set (array_set (queue s) index1 (array_get (queue s) index2))
                            index2 (array_get (queue s) index1)) s]> (heap w)) w).
Proof.
  intros Hr. destruct w as [h m tr pe rnd dr]. simpl in Hr.
  unfold swap. exec. by destruct s.
Qed.

(** C8, as the code has it.  [/swap] has found a subscription, and both
    index options are supplied.  A queue of fewer than two tracks, an index
    that is not a number (whatever the other index is) and, when neither
    index is greater than the length of the queue, two equal indices or a
    negative index each end the command with a reply and nothing else: the
    queue is as it was and [swap] has not been called.  Two different
    indices inside the queue, neither of them negative, are not rejected:
    the command notes the channel, calls [swap] with the two numbers and
    answers that it has.  [swap] itself checks no bound: for any two numbers
    it reads both places and writes both. *)
Theorem swap_validation (Number : string -> JsNum) (trim : string -> string)
    (ToString : JsNum -> string) (interaction : Interaction) (w : World)
    (r : ref) (s : MusicSubscription) (option1 option2 : string) :
  subscriptions w !! interaction_guildId interaction = Some r ->
  heap w !! r = Some s ->
  getString interaction "index1" = Some option1 ->
  getString interaction "index2" = Some option2 ->
  let index1 := Number (trim option1) in
  let index2 := Number (trim option2) in
  let len := of_nat (array_length (queue s)) in
  let run := swap_execute Number trim ToString interaction w in
  ((array_length (queue s) < 2)%nat ->
     run = replied "If you swap a melon with a melon what do you get? A melon" w)
  /\ ((2 <= array_length (queue s))%nat ->
       (Number_isNaN index1 = true \/ Number_isNaN index2 = true ->
          run = replied "Index must be a number! To see indices, type /queue" w)
       /\ (Number_isNaN index1 = false -> Number_isNaN index2 = false ->
           js_gt index1 len = false -> js_gt index2 len = false ->
           (js_strict_eq index1 index2 = true ->
              run = replied "Indices cannot be the same" w)
           /\ (js_strict_eq index1 index2 = false ->
               js_lt index1 (of_nat 0) = true \/ js_lt index2 (of_nat 0) = true ->
               run = replied "Index can't be less than 0" w)
           /\ (js_strict_eq index1 index2 = false ->
               js_lt index1 (of_nat 0) = false -> js_lt index2 (of_nat 0) = false ->
               js_lt index1 len = true -> js_lt index2 len = true ->
               run = (update r (set_lastTextChannel (channel interaction));;
                      swap r index1 index2;;
                      emit (Reply ("Swapped positions `" +:+ ToString index1 +:+ "` and `"
                                   +:+ ToString index2 +:+ "` in the queue"))) w)))
  /\ (forall i j : JsNum,
        swap r i j w
        = (Return tt,
           set_heap (<[r := set_queue
                               (array_set (array_set (queue s) i (array_get (queue s) j))
                                  j (array_get (queue s) i)) s]> (heap w)) w)).
Proof.
  intros Hsub Hr H1 H2 index1 index2 len run.
  split.
  { intros Hlen. unfold run, swap_execute, subscriptions_get. rewrite run_bind.
    rewrite run_bind. unfold world at 1. unfold mret at 1, M_ret at 1. rewrite Hsub.
    rewrite run_bind, (run_this _ _ _ Hr).
    by destruct (Nat.ltb_spec (array_length (queue s)) 2) as [_|?]; [|lia]. }
  split; [|intros i j; by apply run_swap_any].
  intros Hlen.
  pose proof (run_swap_execute Number trim ToString interaction w r s option1 option2
                Hsub Hr Hlen H1 H2) as Hrun.
  cbv zeta in Hrun. fold index1 index2 len run in Hrun.
  split.
  { intros [Hn|Hn]; rewrite Hrun, Hn; [done|]. by rewrite orb_true_r. }
  intros Hn1 Hn2 Hg1 Hg2. rewrite Hn1, Hn2, Hg1, Hg2 in Hrun. cbn [orb] in Hrun.
  split; [by intros Heq; rewrite Hrun, Heq|].
  split.
  - intros Hne [Hl|Hl]; rewrite Hrun, Hne, Hl; [done|]. by rewrite orb_true_r.
  - intros Hne Hl1 Hl2 _ _. by rewrite Hrun, Hne, Hl1, Hl2.
Qed.

Lemma swap_validation_witness :
  swap_execute Number_of_digits id ToString_integer (swap_interaction "1" "1") example_world
  = replied "Indices cannot be the same" example_world
  /\ swap_execute Number_of_digits id ToString_integer (swap_interaction "one" "0")
       example_world
     = replied "Index must be a number! To see indices, type /queue" example_world
  /\ swap_execute Number_of_digits id ToString_integer (swap_interaction "1" "0")
       example_world
     = (update 0 (set_lastTextChannel "general");;
        swap 0 (of_nat 1) (of_nat 0);;
        emit (Reply "Swapped positions `1` and `0` in the queue")) example_world.
Proof.
  destruct (swap_validation Number_of_digits id ToString_integer
              (swap_interaction "1" "1") example_world 0 example_subscription "1" "1"
              ltac:(reflexivity) ltac:(reflexivity) ltac:(reflexivity) ltac:(reflexivity))
    as (_ & H & _).
  destruct (H ltac:(vm_compute; lia)) as (_ & H').
  destruct (H' ltac:(reflexivity) ltac:(reflexivity) ltac:(reflexivity) ltac:(reflexivity))
    as (Heq & _).
  destruct (swap_validation Number_of_digits id ToString_integer
              (swap_interaction "one" "0") example_world 0 example_subscription "one" "0"
              ltac:(reflexivity) ltac:(reflexivity) ltac:(reflexivity) ltac:(reflexivity))
    as (_ & G & _).
  destruct (G ltac:(vm_compute; lia)) as (Hnan & _).
  destruct (swap_validation Number_of_digits id ToString_integer
              (swap_interaction "1" "0") example_world 0 example_subscription "1" "0"
              ltac:(reflexivity) ltac:(reflexivity) ltac:(reflexivity) ltac:(reflexivity))
    as (_ & K & _).
  destruct (K ltac:(vm_compute; lia)) as (_ & K').
  destruct (K' ltac:(reflexivity) ltac:(reflexivity) ltac:(reflexivity) ltac:(reflexivity))
    as (_ & _ & Hswap).
  split; [exact (Heq ltac:(reflexivity))|].
  split; [exact (Hnan ltac:(by left))|].
  exact (Hswap ltac:(reflexivity) ltac:(reflexivity) ltac:(reflexivity)
           ltac:(reflexivity) ltac:(reflexivity)).
Defined.

(** C8, as the claim has it, fails: an index beyond the queue is not turned
    into a validation reply.  With two tracks queued, [/swap 3 0] ends
    without a reply of any kind, and so does [/swap 3 3], whose indices are
    equal; [/swap 2 0] is answered as a swap that was made, [swap] has been
    called and the queue is not as it was. *)
Lemma swap_beyond_the_queue_is_not_rejected :
  array_length (queue example_subscription) = 2%nat
  /\ swap_execute Number_of_digits id ToString_integer (swap_interaction "3" "0")
       example_world
     = (Throw (ReferenceError "queue"), example_world)
  /\ swap_execute Number_of_digits id ToString_integer (swap_interaction "3" "3")
       example_world
     = (Throw (ReferenceError "queue"), example_world)
  /\ swap_execute Number_of_digits id ToString_integer (swap_interaction "2" "0")
       example_world
     = (Return tt,
        set_trace [Reply "Swapped positions `2` and `0` in the queue"]
          (set_heap {[ 0%nat := set_queue {| items := [None; Some track_B; Some track_A];
                                            named := [] |} example_subscription ]}
             example_world)).
Proof. vm_compute. repeat split; reflexivity. Qed.

(** ** The registry *)

Lemma getOrCreateSubscription_existing voiceChannel textChannel w r s :
  subscriptions w !! channel_guild voiceChannel = Some r ->
  heap w !! r = Some s ->
  getOrCreateSubscription voiceChannel textChannel w
  = (Return r, set_heap (<[r := set_lastTextChannel textChannel s]> (heap w)) w).
Proof.
  intros Hg Hr. unfold getOrCreateSubscription.
  rewrite run_bind. unfold world at 1. rewrite Hg.
  rewrite run_bind. by rewrite (run_update _ _ _ _ Hr).
Qed.

(** A guild without a registered subscription gets a new connection. *)
Lemma run_joinVoiceChannel_new voiceChannel w :
  subscriptions w !! channel_guild voiceChannel = None ->
  joinVoiceChannel voiceChannel w
  = (Return {| conn_state := if adapter_sends voiceChannel then plain_state Signalling
                             else adapter_unavailable;
               rejoinAttempts := 0 |},
     set_trace (trace w ++ [Join (channel_id voiceChannel) (channel_guild voiceChannel)]) w).
Proof.
  intros Hg. unfold joinVoiceChannel. rewrite run_bind. unfold emit at 1, modify at 1.
  rewrite run_bind. unfold getVoiceConnection. rewrite run_bind. unfold world at 1.
  cbn [subscriptions set_trace]. by rewrite Hg.
Qed.

(** What [subscribe] sets off in the constructor: the listener sees the
    state the connection is in, arms the 15-second guard on a connection
    that is signalling, and starts the first back-off on one that could not
    send its request. *)
Lemma runs_subscribe_new r textChannel guild (sent : bool) :
  let conn := {| conn_state := if sent then plain_state Signalling else adapter_unavailable;
                 rejoinAttempts := 0 |} in
  runs (voiceConnection_subscribe onStateChange r) r
       (fresh_subscription conn textChannel guild) (Return tt)
       (set_readyLock sent (fresh_subscription conn textChannel guild)) []
       [if sent then ReadyGuard r else RejoinWait r 5000] [].
Proof.
  intros conn. unfold voiceConnection_subscribe, onStateChange.
  destruct sent.
  - eapply runs_eq.
    + eapply runs_bind; [apply runs_this|].
      cbn [status_of fresh_subscription voiceConnection conn conn_state plain_state
           conn_status].
      rewrite (bool_decide_eq_false_2 (Signalling = Destroyed)) by done.
      apply runs_void, runs_guard_armed; [done | by right].
    + done.
    + done.
    + done.
    + done.
    + done.
  - eapply runs_eq.
    + eapply runs_bind; [apply runs_this|].
      cbn [status_of fresh_subscription voiceConnection conn conn_state
           adapter_unavailable conn_status].
      rewrite (bool_decide_eq_false_2 (Disconnected = Destroyed)) by done.
      apply runs_void, runs_listener_backoff; [by split | cbn; lia].
    + done.
    + done.
    + done.
    + done.
    + done.
Qed.

Lemma getOrCreateSubscription_new voiceChannel textChannel w :
  subscriptions w !! channel_guild voiceChannel = None ->
  let r := fresh (dom (heap w)) in
  let sent := adapter_sends voiceChannel in
  let conn := {| conn_state := if sent then plain_state Signalling else adapter_unavailable;
                 rejoinAttempts := 0 |} in
  heap w !! r = None
  /\ getOrCreateSubscription voiceChannel textChannel w
     = (Return r,
        set_subscriptions (<[channel_guild voiceChannel := r]> (subscriptions w))
          (set_pending (pending w ++ [if sent then ReadyGuard r else RejoinWait r 5000])
             (set_heap (<[r := set_readyLock sent
                                 (fresh_subscription conn textChannel
                                    (channel_guild voiceChannel))]> (heap w))
                (set_trace (trace w ++ [Join (channel_id voiceChannel)
                                             (channel_guild voiceChannel)]) w)))).
Proof.
  intros Hg r sent conn. split.
  - apply not_elem_of_dom, is_fresh.
  - unfold getOrCreateSubscription.
    rewrite run_bind. unfold world at 1. rewrite Hg.
    rewrite run_bind, (run_joinVoiceChannel_new _ _ Hg). fold sent conn.
    set (w0 := set_trace (trace w ++ [Join (channel_id voiceChannel)
                                          (channel_guild voiceChannel)]) w).
    rewrite run_bind. unfold new_MusicSubscription.
    rewrite run_bind. unfold world at 1. rewrite run_bind. unfold modify at 1.
    change (fresh (dom (heap w0))) with r.
    fold (fresh_subscription conn textChannel (channel_guild voiceChannel)).
    set (w1 := set_heap (<[r := fresh_subscription conn textChannel
                                  (channel_guild voiceChannel)]> (heap w0)) w0).
    pose proof (runs_subscribe_new r textChannel (channel_guild voiceChannel) sent w1
                  (lookup_insert_eq _ _ _)) as Hrun.
    fold conn in Hrun. rewrite run_bind, Hrun.
    destruct w as [h m tr pe rnd dr].
    unfold effect, w1, w0, set_subscriptions, set_pending, set_heap, set_trace, modify.
    cbn. by rewrite insert_insert_eq, app_nil_r.
Qed.

(** C4. The registry maps a guild to at most one subscription.  The first
    of two calls for the same guild returns the registered subscription,
    or, only when the guild has no entry, joins the channel, constructs a
    subscription that was not there before and registers it; its
    notification target is the channel of the call.  Any later call that
    still finds the entry (no [stop()] has removed it) returns the very same
    reference, constructs nothing and changes nothing in the world but the
    notification target of that subscription, which becomes the channel of
    the later call. *)
Theorem getOrCreateSubscription_unique
    (voiceChannel voiceChannel' : VoiceChannel)
    (textChannel textChannel' : TextChannel) (w : World) :
  registry_ok w ->
  channel_guild voiceChannel' = channel_guild voiceChannel ->
  let guild := channel_guild voiceChannel in
  exists (r : ref) (w1 : World) (s1 : MusicSubscription),
    getOrCreateSubscription voiceChannel textChannel w = (Return r, w1)
    /\ subscriptions w1 !! guild = Some r
    /\ heap w1 !! r = Some s1
    /\ lastTextChannel s1 = textChannel
    /\ registry_ok w1
    (* the second call, and any call that finds the entry *)
    /\ (forall w' s', subscriptions w' !! guild = Some r -> heap w' !! r = Some s' ->
          exists w2 s2,
            getOrCreateSubscription voiceChannel' textChannel' w' = (Return r, w2)
            /\ heap w2 !! r = Some s2
            /\ lastTextChannel s2 = textChannel'
            /\ voiceConnection s2 = voiceConnection s'
            /\ audioPlayer s2 = audioPlayer s'
            /\ queue s2 = queue s'
            /\ destroyed s2 = destroyed s'
            /\ guildId s2 = guildId s'
            /\ queueLock s2 = queueLock s'
            /\ readyLock s2 = readyLock s'
            /\ wait s2 = wait s'
            /\ (forall r', r' <> r -> heap w2 !! r' = heap w' !! r')
            /\ dom (heap w2) = dom (heap w')
            /\ subscriptions w2 = subscriptions w'
            /\ trace w2 = trace w'
            /\ pending w2 = pending w')
    (* an entry is reused, never replaced *)
    /\ (forall r0, subscriptions w !! guild = Some r0 ->
          r = r0 /\ subscriptions w1 = subscriptions w /\ trace w1 = trace w
          /\ pending w1 = pending w /\ dom (heap w1) = dom (heap w))
    (* a subscription is constructed and inserted only when there is none *)
    /\ (subscriptions w !! guild = None ->
          let sent := adapter_sends voiceChannel in
          heap w !! r = None
          /\ guildId s1 = guild
          /\ destroyed s1 = false
          /\ queue s1 = empty_array
          /\ audioPlayer s1 = idle_state
          /\ voiceConnection s1
             = {| conn_state := if sent then plain_state Signalling else adapter_unavailable;
                  rejoinAttempts := 0 |}
          /\ queueLock s1 = false
          /\ readyLock s1 = sent
          /\ (forall r', r' <> r -> heap w1 !! r' = heap w !! r')
          /\ subscriptions w1 = <[guild := r]> (subscriptions w)
          /\ trace w1 = trace w ++ [Join (channel_id voiceChannel) guild]
          /\ pending w1
             = pending w ++ [if sent then ReadyGuard r else RejoinWait r 5000]).
Proof.
  intros Hok Hg guild.
  assert (forall r w' s', subscriptions w' !! guild = Some r -> heap w' !! r = Some s' ->
            exists w2 s2,
              getOrCreateSubscription voiceChannel' textChannel' w' = (Return r, w2)
              /\ heap w2 !! r = Some s2
              /\ lastTextChannel s2 = textChannel'
              /\ voiceConnection s2 = voiceConnection s'
              /\ audioPlayer s2 = audioPlayer s'
              /\ queue s2 = queue s'
              /\ destroyed s2 = destroyed s'
              /\ guildId s2 = guildId s'
              /\ queueLock s2 = queueLock s'
              /\ readyLock s2 = readyLock s'
              /\ wait s2 = wait s'
              /\ (forall r', r' <> r -> heap w2 !! r' = heap w' !! r')
              /\ dom (heap w2) = dom (heap w')
              /\ subscriptions w2 = subscriptions w'
              /\ trace w2 = trace w'
              /\ pending w2 = pending w')
    as Hagain.
  { intros r w' s' H1 H2. eexists _, _.
    split; [apply getOrCreateSubscription_existing; [by rewrite Hg | exact H2]|].
    split; [apply lookup_insert_eq|].
    repeat (split; [reflexivity|]).
    split; [intros r' Hne; cbn [heap set_heap]; by rewrite lookup_insert_ne|].
    split; [|done]. cbn [heap set_heap].
    rewrite dom_insert_L. apply subseteq_union_1_L, singleton_subseteq_l.
    by apply elem_of_dom_2 in H2. }
  destruct (subscriptions w !! guild) as [r0|] eqn:Hsub.
  - destruct (Hok _ _ Hsub) as [s Hs].
    exists r0, (set_heap (<[r0 := set_lastTextChannel textChannel s]> (heap w)) w),
      (set_lastTextChannel textChannel s).
    split; [by apply getOrCreateSubscription_existing|].
    split; [done|]. split; [apply lookup_insert_eq|]. split; [done|].
    split.
    { intros g r Hgr. simpl in *. destruct (decide (r0 = r)) as [->|Hne].
      - rewrite lookup_insert_eq. eauto.
      - rewrite lookup_insert_ne by done. eauto. }
    split; [intros w' s'; apply Hagain|].
    split; [|done].
    intros ? [= ?]. subst. repeat split; try done. simpl.
    rewrite dom_insert_L. apply subseteq_union_1_L, singleton_subseteq_l.
    by apply elem_of_dom_2 in Hs.
  - destruct (getOrCreateSubscription_new voiceChannel textChannel w Hsub) as [Hfresh Hrun].
    eexists _, _, _. split; [exact Hrun|]. simpl.
    split; [apply lookup_insert_eq|]. split; [apply lookup_insert_eq|].
    split; [done|].
    split.
    { intros g r. simpl. destruct (decide (channel_guild voiceChannel = g)) as [->|Hne].
      - rewrite lookup_insert_eq. intros [= ?]. subst r. rewrite lookup_insert_eq. eauto.
      - rewrite lookup_insert_ne by done. intros Hgr.
        destruct (Hok _ _ Hgr) as [s Hs].
        rewrite lookup_insert_ne; [eauto|]. intros Heq. rewrite <- Heq in Hs. congruence. }
    split; [intros w' s'; apply Hagain|].
    split; [done|]. intros _.
    split; [done|]. repeat (split; [reflexivity|]).
    split; [|done]. intros r' Hne. by rewrite lookup_insert_ne.
Qed.

Lemma example_registry_ok : registry_ok example_world.
Proof.
  intros g r H. cbn [example_world subscriptions heap] in *.
  apply lookup_singleton_Some in H as [_ <-]. by eexists.
Qed.

Lemma getOrCreateSubscription_unique_witness :
  exists (r : ref) (w1 w2 : World) (s2 : MusicSubscription),
    getOrCreateSubscription example_channel "general" example_world = (Return r, w1)
    /\ getOrCreateSubscription example_channel' "music" w1 = (Return r, w2)
    /\ heap w2 !! r = Some s2
    /\ lastTextChannel s2 = "music".
Proof.
  destruct (getOrCreateSubscription_unique example_channel example_channel'
              "general" "music" example_world example_registry_ok eq_refl)
    as (r & w1 & s1 & H1 & Hreg & Hs1 & _ & _ & H2 & _).
  destruct (H2 w1 s1 Hreg Hs1) as (w2 & s2 & Hrun & Hs2 & Htarget & _).
  exists r, w1, w2, s2. split; [exact H1|]. split; [exact Hrun|].
  split; [exact Hs2 | exact Htarget].
Defined.

(** ** The command surface *)

Lemma no_teardown_refl w : no_teardown w w.
Proof. repeat split; eauto. Qed.

Lemma no_teardown_trans w1 w2 w3 :
  no_teardown w1 w2 -> no_teardown w2 w3 -> no_teardown w1 w3.
Proof.
  intros (H1 & H2 & H3) (G1 & G2 & G3). repeat split; [|by eauto..].
  intros r s3 Hr Hd. destruct (G1 r s3 Hr Hd) as (s2 & Hr2 & Hd2). eauto.
Qed.

Lemma harmless_ret {A} (a : A) : harmless (mret a).
Proof. intros w. apply no_teardown_refl. Qed.

Lemma harmless_throw {A} e : harmless (throw (A:=A) e).
Proof. intros w. apply no_teardown_refl. Qed.

Lemma harmless_bind {A B} (c : M A) (k : A -> M B) :
  harmless c -> (forall a, harmless (k a)) -> harmless (c ≫= k).
Proof.
  intros Hc Hk w. rewrite run_bind. specialize (Hc w).
  destruct (c w) as [[a|e] w']; [|done].
  eapply no_teardown_trans; [exact Hc | apply Hk].
Qed.

Lemma harmless_this r : harmless (this r).
Proof. intros w. unfold this. destruct (heap w !! r); apply no_teardown_refl. Qed.

Lemma harmless_world : harmless world.
Proof. intros w. apply no_teardown_refl. Qed.

Lemma harmless_update r f :
  (forall s, destroyed (f s) = destroyed s) -> harmless (update r f).
Proof.
  intros Hf w. unfold update. destruct (heap w !! r) as [s|] eqn:Hr;
    [|apply no_teardown_refl].
  split; [|done]. intros r' s' Hr' Hd. cbn in Hr'.
  destruct (decide (r = r')) as [<-|Hne].
  - rewrite lookup_insert_eq in Hr'. injection Hr' as <-. rewrite Hf in Hd. eauto.
  - rewrite lookup_insert_ne in Hr' by done. eauto.
Qed.

Lemma harmless_emit e : not_a_destruction e -> harmless (emit e).
Proof.
  intros He w. split; [by eauto|]. split; [done|]. intros r Hin. cbn in Hin.
  apply elem_of_app in Hin as [?|Hin]; [done|].
  apply list_elem_of_singleton in Hin. by subst.
Qed.

Lemma harmless_suspend p : harmless (suspend p).
Proof. intros w. repeat split; eauto. Qed.

Lemma harmless_settle p : harmless (settle p).
Proof. intros w. repeat split; eauto. Qed.

Lemma harmless_void {A} (c : M A) : harmless c -> harmless (void c).
Proof.
  intros Hc w. specialize (Hc w). unfold void.
  by destruct (c w) as [[a|[]] w'].
Qed.

Lemma harmless_when b c : harmless c -> harmless (when b c).
Proof. intros Hc. destruct b; [done | apply harmless_ret]. Qed.

Lemma harmless_try_catch {A} (c : M A) h :
  harmless c -> (forall e, harmless (h e)) -> harmless (try_catch c h).
Proof.
  intros Hc Hh w. unfold try_catch. specialize (Hc w).
  destruct (c w) as [[a|e] w']; [done|].
  eapply no_teardown_trans; [exact Hc | apply Hh].
Qed.

Ltac harmless_step :=
  first
    [ assumption
    | match goal with H : context [harmless _] |- harmless _ => solve [apply H] end
    | apply harmless_ret | apply harmless_throw | apply harmless_this
    | apply harmless_world | apply harmless_suspend | apply harmless_settle
    | apply harmless_emit; exact I
    | apply harmless_update; intros []; reflexivity
    | apply harmless_bind; [|intros ?]
    | apply harmless_void | apply harmless_when | apply harmless_try_catch; [|intros ?]
    | match goal with
      | |- harmless (if ?b then _ else _) => destruct b
      | |- harmless (match ?x with _ => _ end) => destruct x
      | |- harmless (let '(_, _) := ?x in _) => destruct x
      end ].
Ltac harmless := repeat harmless_step.

Lemma harmless_processQueue r : harmless (processQueue r).
Proof. unfold processQueue. harmless. Qed.

Lemma harmless_onPlayerStateChange r o n : harmless (onPlayerStateChange r o n).
Proof. pose proof (harmless_processQueue r). unfold onPlayerStateChange. harmless. Qed.

Lemma harmless_audioPlayer_play r res : harmless (audioPlayer_play r res).
Proof.
  pose proof (harmless_onPlayerStateChange r). unfold audioPlayer_play. harmless.
Qed.

Lemma harmless_audioPlayer_stop r force : harmless (audioPlayer_stop r force).
Proof.
  pose proof (harmless_onPlayerStateChange r). unfold audioPlayer_stop. harmless.
Qed.

Lemma harmless_audioPlayer_pause r : harmless (audioPlayer_pause r).
Proof.
  pose proof (harmless_onPlayerStateChange r). unfold audioPlayer_pause. harmless.
Qed.

Lemma harmless_swap r i j : harmless (swap r i j).
Proof. unfold swap. harmless. Qed.

Lemma harmless_Math_random : harmless Math_random.
Proof. intros w. repeat split; eauto. Qed.

Lemma harmless_shuffle_loop r n : harmless (shuffle_loop r n).
Proof.
  induction n as [|n IH]; cbn [shuffle_loop]; [apply harmless_ret|].
  apply harmless_bind; [apply harmless_Math_random|intros x].
  apply harmless_bind; [apply harmless_swap | done].
Qed.

Lemma harmless_shuffle r : harmless (shuffle r).
Proof. pose proof (harmless_shuffle_loop r). unfold shuffle. harmless. Qed.

Lemma harmless_enqueue r t : harmless (enqueue r t).
Proof. pose proof (harmless_processQueue r). unfold enqueue. harmless. Qed.

Lemma harmless_bulkEnqueue r ts b : harmless (bulkEnqueue r ts b).
Proof.
  pose proof (harmless_processQueue r). pose proof (harmless_shuffle r).
  unfold bulkEnqueue. harmless.
Qed.

Lemma harmless_enqueueNext r t : harmless (enqueueNext r t).
Proof.
  pose proof (harmless_processQueue r). pose proof (harmless_swap r).
  unfold enqueueNext. harmless.
Qed.

Lemma harmless_clear r : harmless (clear r).
Proof. unfold clear. harmless. Qed.

Lemma harmless_nowPlaying r : harmless (nowPlaying r).
Proof. unfold nowPlaying. harmless. Qed.

(** *** What [joinVoiceChannel] sets off on a connection that exists *)

Lemma runs_enters_dropped r s dropped :
  recoverable dropped ->
  let a := rejoinAttempts (voiceConnection s) in
  runs (voiceConnection_enters onStateChange r dropped) r s (Return tt)
       (if (a <? 5)%nat then set_conn_state dropped s
        else stopped (set_conn_state dropped s))
       (if (a <? 5)%nat then [] else Destroy r :: finish_events (audioPlayer s))
       (if (a <? 5)%nat then [RejoinWait r ((a + 1) * 5000)%nat]
        else idle_guards r (audioPlayer s))
       (if (a <? 5)%nat then [] else [guildId s]).
Proof.
  intros Hrec a. pose proof Hrec as [Hd _].
  assert (rejoinAttempts (voiceConnection (set_conn_state dropped s)) = a) as Ha.
  { unfold set_conn_state. cbn. by rewrite Hd. }
  assert (status_of (set_conn_state dropped s) <> Destroyed) as Hst.
  { unfold status_of, set_conn_state. cbn. by rewrite Hd. }
  unfold voiceConnection_enters, onStateChange.
  destruct (Nat.ltb_spec a 5) as [Hlt|Hge].
  - eapply runs_eq.
    + eapply runs_bind; [apply runs_this|].
      eapply runs_bind; [apply runs_update|].
      apply runs_void, runs_listener_backoff; [done|]. by rewrite Ha.
    + done.
    + done.
    + done.
    + cbn [app]. by rewrite Ha.
    + done.
  - eapply runs_eq.
    + eapply runs_bind; [apply runs_this|].
      eapply runs_bind; [apply runs_update|].
      apply runs_void, runs_listener_exhausted; [done| |done]. by rewrite Ha.
    + done.
    + done.
    + done.
    + done.
    + done.
Qed.

Lemma recoverable_adapter_unavailable : recoverable adapter_unavailable.
Proof. by split. Qed.

Lemma runs_rejoin_unsent r s :
  status_of s <> Destroyed -> status_of s <> Ready ->
  let a := S (rejoinAttempts (voiceConnection s)) in
  let s1 := set_conn_state adapter_unavailable (count_rejoin s) in
  runs (rejoin r false) r s (Return false)
       (if (a <? 5)%nat then s1 else stopped s1)
       (Rejoin r :: if (a <? 5)%nat then [] else Destroy r :: finish_events (audioPlayer s))
       (if (a <? 5)%nat then [RejoinWait r ((a + 1) * 5000)%nat]
        else idle_guards r (audioPlayer s))
       (if (a <? 5)%nat then [] else [guildId s]).
Proof.
  intros Hd Hrdy a s1. unfold rejoin, voiceConnection_rejoin.
  pose proof (runs_enters_dropped r (count_rejoin s) adapter_unavailable
                recoverable_adapter_unavailable) as Henters.
  cbv zeta in Henters.
  change (rejoinAttempts (voiceConnection (count_rejoin s))) with a in Henters.
  fold s1 in Henters.
  eapply runs_eq.
  - eapply runs_bind; [apply runs_this|].
    rewrite (bool_decide_eq_false_2 _ Hd), (bool_decide_eq_false_2 _ Hrdy).
    cbn [negb].
    eapply runs_bind; [apply (runs_when true), runs_update|].
    eapply runs_bind; [apply runs_emit|].
    eapply runs_bind; [exact Henters | apply runs_ret].
  - reflexivity.
  - reflexivity.
  - cbn [app]. by rewrite !app_nil_r.
  - cbn [app]. by rewrite !app_nil_r.
  - cbn [app]. by rewrite !app_nil_r.
Qed.

Lemma no_teardown_effect r s s' es ps w :
  heap w !! r = Some s ->
  (destroyed s' = true -> destroyed s = true) ->
  Forall not_a_destruction es ->
  no_teardown w (effect r s' es ps [] w).
Proof.
  intros Hr Hd Hes. split; [|split].
  - intros r' s0 Hr' Hd0. cbn [effect heap] in Hr'.
    destruct (decide (r = r')) as [<-|Hne].
    + rewrite lookup_insert_eq in Hr'. injection Hr' as <-. eauto.
    + rewrite lookup_insert_ne in Hr' by done. eauto.
  - done.
  - intros r' Hin. cbn [effect trace] in Hin. apply elem_of_app in Hin as [?|Hin]; [done|].
    rewrite Forall_forall in Hes. by apply Hes in Hin.
Qed.

(** The connection [joinVoiceChannel] would act on is in no state in which
    the listener destroys it: the request to join can be sent, or fewer
    than five attempts will have been counted when the listener hears of
    the failure. *)
Lemma no_teardown_joinVoiceChannel voiceChannel w :
  (forall r s,
     adapter_sends voiceChannel = false ->
     subscriptions w !! channel_guild voiceChannel = Some r ->
     heap w !! r = Some s ->
     (rejoinAttempts (voiceConnection s)
      + (if bool_decide (status_of s = Disconnected) then 1 else 0) < 5)%nat) ->
  no_teardown w (joinVoiceChannel voiceChannel w).2.
Proof.
  intros Hquiet. unfold joinVoiceChannel. rewrite run_bind.
  unfold emit at 1, modify at 1.
  set (w0 := set_trace (trace w ++ [Join (channel_id voiceChannel)
                                        (channel_guild voiceChannel)]) w).
  assert (no_teardown w w0) as H0.
  { apply (harmless_emit (Join (channel_id voiceChannel) (channel_guild voiceChannel)) I w). }
  eapply no_teardown_trans; [exact H0|].
  rewrite run_bind. unfold getVoiceConnection. rewrite run_bind. unfold world at 1.
  unfold mret at 1, M_ret at 1. cbn [subscriptions w0 set_trace heap].
  destruct (subscriptions w !! channel_guild voiceChannel) as [r|] eqn:Hsub;
    [|apply no_teardown_refl].
  cbn [mbind option_bind].
  destruct (heap w !! r) as [s|] eqn:Hr; [|apply no_teardown_refl].
  cbn [mbind option_bind].
  destruct (bool_decide (status_of s = Destroyed)) eqn:Hd; [apply no_teardown_refl|].
  apply bool_decide_eq_false_1 in Hd.
  assert (heap w0 !! r = Some s) as Hr0 by exact Hr.
  specialize (Hquiet r s).
  assert (forall (c : M unit) s' es ps,
            runs c r s (Return tt) s' es ps [] ->
            (destroyed s' = true -> destroyed s = true) ->
            Forall not_a_destruction es ->
            no_teardown w0
              ((c;; s0 ← this r; mret (voiceConnection s0)) w0).2) as Hthen.
  { intros c s' es ps Hc Hds Hes. rewrite run_bind, (Hc w0 Hr0).
    rewrite run_bind, (run_this _ _ _ (effect_lookup _ _ _ _ _ _)).
    by apply (no_teardown_effect r s). }
  rewrite run_bind, (run_this _ _ _ Hr0).
  destruct (bool_decide (status_of s = Disconnected)) eqn:Hdis.
  - apply bool_decide_eq_true_1 in Hdis.
    assert (status_of s <> Ready) as Hrdy by (by rewrite Hdis).
    destruct (adapter_sends voiceChannel) eqn:Hsent.
    + eapply Hthen.
      * eapply runs_eq; [eapply runs_bind; [by apply runs_rejoin | apply runs_ret]|..];
          [done|done|by rewrite app_nil_r|by rewrite app_nil_r|done].
      * by destruct s.
      * by repeat constructor.
    + specialize (Hquiet eq_refl eq_refl Hr).
      pose proof (runs_rejoin_unsent r s Hd Hrdy) as Hrun. cbv zeta in Hrun.
      destruct (Nat.ltb_spec (S (rejoinAttempts (voiceConnection s))) 5) as [_|?]; [|lia].
      eapply Hthen.
      * eapply runs_eq; [eapply runs_bind; [exact Hrun | apply runs_ret]|..];
          [done|done|by rewrite app_nil_r|by rewrite app_nil_r|done].
      * by destruct s.
      * by repeat constructor.
  - destruct (adapter_sends voiceChannel) eqn:Hsent.
    + eapply Hthen; [apply runs_when_false | done | constructor].
    + specialize (Hquiet eq_refl eq_refl Hr).
      pose proof (runs_enters_dropped r s adapter_unavailable
                    recoverable_adapter_unavailable) as Hrun. cbv zeta in Hrun.
      destruct (Nat.ltb_spec (rejoinAttempts (voiceConnection s)) 5) as [_|?]; [|lia].
      eapply Hthen; [apply (runs_when true), Hrun | by destruct s | constructor].
Qed.

Lemma harmless_subscriptions_get g : harmless (subscriptions_get g).
Proof. unfold subscriptions_get. harmless. Qed.

Lemma harmless_getOrCreateSubscription vc tc : harmless (getOrCreateSubscription vc tc).
Proof.
  intros w.
  destruct (subscriptions w !! channel_guild vc) as [r|] eqn:Hreg.
  - unfold getOrCreateSubscription. rewrite run_bind. unfold world at 1. rewrite Hreg.
    revert w Hreg.
    assert (harmless (update r (set_lastTextChannel tc);; mret r)) as H by harmless.
    intros w _. apply H.
  - destruct (getOrCreateSubscription_new vc tc w Hreg) as [Hfresh ->]. cbn [snd].
    split; [|split].
    + intros r s' Hr Hd. cbn in Hr.
      destruct (decide (fresh (dom (heap w)) = r)) as [<-|Hne].
      * rewrite lookup_insert_eq in Hr. by injection Hr as <-.
      * rewrite lookup_insert_ne in Hr by done. eauto.
    + intros g r Hg. cbn. destruct (decide (channel_guild vc = g)) as [<-|Hne].
      * congruence.
      * by rewrite lookup_insert_ne.
    + intros r Hin. cbn in Hin. apply elem_of_app in Hin as [?|Hin]; [done|].
      by apply list_elem_of_singleton in Hin.
Qed.
Section CommandsAreHarmless.
Variable Number : string -> JsNum.
Variable trim : string -> string.
Variable ToString : JsNum -> string.
Variable toLowerCase : string -> string.
Variable includes : string -> string -> bool.
Variable queue_page : JsArray -> option string -> string.

Lemma harmless_enqueueYoutubeTrack t r b n :
  harmless (enqueueYoutubeTrack ToString t r b n).
Proof.
  pose proof (harmless_enqueueNext r). pose proof (harmless_enqueue r).
  pose proof (harmless_audioPlayer_stop r).
  unfold enqueueYoutubeTrack. harmless.
Qed.

Lemma harmless_play_execute b n i :
  harmless (play_execute toLowerCase includes b n i).
Proof.
  pose proof harmless_getOrCreateSubscription. pose proof harmless_subscriptions_get.
  pose proof harmless_audioPlayer_pause.
  unfold play_execute. harmless.
Qed.

Lemma harmless_play_ready i r b n how ready : harmless (play_ready i r b n how ready).
Proof. unfold play_ready. harmless. Qed.

Lemma harmless_play_found i r b n how t : harmless (play_found ToString i r b n how t).
Proof.
  pose proof (harmless_enqueueYoutubeTrack). unfold play_found. harmless.
Qed.

Lemma harmless_play_playlist i r ts : harmless (play_playlist ToString i r ts).
Proof. pose proof (harmless_bulkEnqueue r). unfold play_playlist. harmless. Qed.

Lemma harmless_pause_execute i : harmless (pause_execute i).
Proof.
  pose proof harmless_subscriptions_get. pose proof harmless_audioPlayer_pause.
  unfold pause_execute. harmless.
Qed.

Lemma harmless_shuffle_execute i : harmless (shuffle_execute i).
Proof.
  pose proof harmless_subscriptions_get. pose proof harmless_shuffle.
  unfold shuffle_execute. harmless.
Qed.

Lemma harmless_clear_execute i : harmless (clear_execute i).
Proof.
  pose proof harmless_subscriptions_get. pose proof harmless_clear.
  unfold clear_execute. harmless.
Qed.

Lemma harmless_queue_execute i : harmless (queue_execute queue_page i).
Proof.
  pose proof harmless_subscriptions_get. unfold queue_execute. harmless.
Qed.

Lemma harmless_clamp : harmless clamp.
Proof. unfold clamp, resolve_identifier. harmless. Qed.

Lemma harmless_swap_execute i : harmless (swap_execute Number trim ToString i).
Proof.
  pose proof harmless_subscriptions_get. pose proof harmless_swap.
  pose proof harmless_clamp.
  unfold swap_execute. harmless.
Qed.

Lemma harmless_skip_execute i : harmless (skip_execute i).
Proof.
  pose proof harmless_subscriptions_get. pose proof harmless_nowPlaying.
  pose proof harmless_audioPlayer_stop.
  unfold skip_execute. harmless.
Qed.

Lemma harmless_skip_execute_2 i : harmless (skip_execute_2 i).
Proof.
  pose proof harmless_subscriptions_get. pose proof harmless_nowPlaying.
  pose proof harmless_audioPlayer_stop.
  unfold skip_execute_2. harmless.
Qed.

End CommandsAreHarmless.

(** [/move] tears nothing down whenever the connection it acts on is not
    about to be destroyed by its listener. *)
Lemma move_execute_quiet i w :
  move_is_quiet i w -> no_teardown w (move_execute i w).2.
Proof.
  intros Hquiet. unfold move_execute, subscriptions_get.
  rewrite run_bind. rewrite run_bind. unfold world at 1. unfold mret at 1, M_ret at 1.
  destruct (subscriptions w !! interaction_guildId i) as [r0|] eqn:Hsub;
    [|apply (harmless_emit (Reply not_playing) I w)].
  rewrite run_bind.
  pose proof (harmless_update r0 (set_lastTextChannel (channel i))
                ltac:(by intros []) w) as H0.
  destruct (update r0 (set_lastTextChannel (channel i)) w) as [[[]|e] w1] eqn:Hup;
    [|exact H0].
  cbn [snd] in H0. eapply no_teardown_trans; [exact H0|].
  destruct (voice_channel i) as [voiceChannel|] eqn:Hvc;
    [|apply (harmless_emit (Reply _) I w1)].
  rewrite run_bind.
  assert (no_teardown w1 (joinVoiceChannel voiceChannel w1).2) as H1.
  { apply no_teardown_joinVoiceChannel. intros r s Hsent Hreg Hr.
    unfold update in Hup. destruct (heap w !! r0) as [s0|] eqn:Hr0; [|done].
    injection Hup as <-. cbn [subscriptions set_heap heap] in Hreg, Hr.
    destruct (decide (r0 = r)) as [->|Hne].
    - rewrite lookup_insert_eq in Hr. injection Hr as <-.
      exact (Hquiet voiceChannel r s0 Hvc Hsent Hreg Hr0).
    - rewrite lookup_insert_ne in Hr by done.
      exact (Hquiet voiceChannel r s Hvc Hsent Hreg Hr). }
  destruct (joinVoiceChannel voiceChannel w1) as [[conn|e] w2]; [|exact H1].
  eapply no_teardown_trans; [exact H1|]. apply (harmless_emit (Reply "Moved!") I w2).
Qed.

Lemma stop_tears_down r s w :
  heap w !! r = Some s -> destroyed s = false -> ~ no_teardown w (stop r w).2.
Proof.
  intros Hr Hd (Hflag & _). rewrite (runs_stop r s w Hr) in Hflag. cbn [snd] in Hflag.
  destruct (Hflag r _ (effect_lookup _ _ _ _ _ _)) as (s0 & Hr0 & Hd0).
  - destruct (bool_decide (status_of s = Destroyed)).
    + by destruct (halted_fields s) as (_ & _ & _ & ? & _).
    + by destruct (stopped_fields s) as (_ & _ & _ & ? & _).
  - congruence.
Qed.

Section Dispatch.
Variable Number : string -> JsNum.
Variable trim : string -> string.
Variable ToString : JsNum -> string.
Variable toLowerCase : string -> string.
Variable includes : string -> string -> bool.
Variable queue_page : JsArray -> option string -> string.

Lemma harmless_commands name command i :
  commands Number trim ToString toLowerCase includes queue_page !! name = Some command ->
  name <> "move" ->
  harmless (execute command i).
Proof.
  unfold commands, object_of, commands_literal. cbn [foldl fst snd].
  intros H Hname.
  repeat (apply lookup_insert_Some in H as [[Hn <-]|[_ H]];
          [first [ apply harmless_play_execute | apply harmless_pause_execute
                 | apply harmless_shuffle_execute | apply harmless_clear_execute
                 | apply harmless_queue_execute | apply harmless_swap_execute
                 | apply harmless_skip_execute | apply harmless_skip_execute_2
                 | by symmetry in Hn ]|]).
  by rewrite lookup_empty in H.
Qed.

Lemma move_is_a_command :
  commands Number trim ToString toLowerCase includes queue_page !! "move"
  = Some {| builder_name := "move"; execute := move_execute |}.
Proof.
  unfold commands, object_of, commands_literal. cbn [foldl fst snd].
  by rewrite lookup_insert_eq.
Qed.

Lemma harmless_interactionCreate i :
  commandName i <> "move" ->
  harmless (interactionCreate Number trim ToString toLowerCase includes queue_page i).
Proof.
  intros Hname. unfold interactionCreate. destruct (isCommand i); [|apply harmless_ret].
  destruct (commands _ _ _ _ _ _ !! commandName i) as [command|] eqn:Hc.
  - by eapply harmless_commands.
  - destruct (bool_decide _); [apply harmless_throw | apply harmless_ret].
Qed.

Lemma interactionCreate_quiet i w :
  move_is_quiet i w ->
  no_teardown w
    (interactionCreate Number trim ToString toLowerCase includes queue_page i w).2.
Proof.
  intros Hquiet. destruct (decide (commandName i = "move")) as [Hname|Hname];
    [|by apply harmless_interactionCreate].
  unfold interactionCreate. destruct (isCommand i); [|apply no_teardown_refl].
  rewrite Hname, move_is_a_command. by apply move_execute_quiet.
Qed.

Lemma stop_is_no_command :
  commands Number trim ToString toLowerCase includes queue_page !! "stop" = None.
Proof. by vm_compute. Qed.

Lemma stop_is_not_inherited : bool_decide ("stop" ∈ Object_prototype) = false.
Proof. by vm_compute. Qed.

Lemma skip_is_overwritten :
  commands Number trim ToString toLowerCase includes queue_page !! "skip"
  = Some {| builder_name := "stop"; execute := skip_execute_2 |}.
Proof.
  unfold commands, object_of, commands_literal. cbn [foldl fst snd].
  rewrite lookup_insert_ne by done. by rewrite lookup_insert_eq.
Qed.
End Dispatch.

(** C10, as the code has it.  The object literal [commands] writes the key
    [skip] twice and the key [stop] never.  The second value, the one whose
    builder is named [stop], replaces the first; its [execute] is the body
    of the first over again: it stops the audio player, which skips the
    track.  The object has no property [stop], of its own or inherited, so
    for an interaction whose command name is [stop] the listener of
    [interactionCreate] finds nothing to call and does nothing.  No command
    but [/move], and no continuation of a command, tears anything down: no
    subscription becomes marked destroyed, no connection is destroyed and no
    guild leaves the registry, whereas [stop()] on a live subscription does
    mark it.  [/move] tears nothing down either when the request to join
    can be sent, or when the listener of the connection, told that it could
    not, counts fewer than five attempts. *)
Theorem stop_command_is_missing (Number : string -> JsNum) (trim : string -> string)
    (ToString : JsNum -> string) (toLowerCase : string -> string)
    (includes : string -> string -> bool)
    (queue_page : JsArray -> option string -> string) :
  let literal := commands_literal Number trim ToString toLowerCase includes queue_page in
  let table := commands Number trim ToString toLowerCase includes queue_page in
  let dispatch := interactionCreate Number trim ToString toLowerCase includes queue_page in
  length (filter (fun property => property.1 = "skip") literal) = 2%nat
  /\ length (filter (fun property => property.1 = "stop") literal) = 0%nat
  /\ literal !! 8%nat = Some ("skip", {| builder_name := "skip"; execute := skip_execute |})
  /\ literal !! 9%nat = Some ("skip", {| builder_name := "stop"; execute := skip_execute_2 |})
  /\ table !! "skip" = Some {| builder_name := "stop"; execute := skip_execute_2 |}
  /\ (forall interaction w, skip_execute_2 interaction w = skip_execute interaction w)
  /\ table !! "stop" = None
  /\ (forall interaction w,
        commandName interaction = "stop" -> dispatch interaction w = (Return tt, w))
  /\ (forall interaction, commandName interaction <> "move" -> harmless (dispatch interaction))
  /\ (forall name command interaction,
        table !! name = Some command -> name <> "move" ->
        harmless (execute command interaction))
  /\ (forall interaction w,
        move_is_quiet interaction w -> no_teardown w (dispatch interaction w).2)
  /\ (forall interaction r beginningOfQueue now how ready track tracks,
        harmless (play_ready interaction r beginningOfQueue now how ready)
        /\ harmless (play_found ToString interaction r beginningOfQueue now how track)
        /\ harmless (play_playlist ToString interaction r tracks))
  /\ (forall r s w,
        heap w !! r = Some s -> destroyed s = false -> ~ no_teardown w (stop r w).2).
Proof.
  intros literal table dispatch.
  split; [reflexivity|]. split; [reflexivity|].
  split; [reflexivity|]. split; [reflexivity|].
  split; [apply skip_is_overwritten|].
  split; [reflexivity|].
  split; [apply stop_is_no_command|].
  split.
  { intros interaction w Hname. unfold dispatch, interactionCreate.
    destruct (isCommand interaction); [|done].
    rewrite Hname. fold table.
    replace (table !! "stop") with (@None Command) by (symmetry; apply stop_is_no_command).
    by rewrite stop_is_not_inherited. }
  split; [apply harmless_interactionCreate|].
  split; [intros name command interaction; apply harmless_commands|].
  split; [apply interactionCreate_quiet|].
  split.
  { intros. split; [apply harmless_play_ready|].
    split; [apply harmless_play_found | apply harmless_play_playlist]. }
  apply stop_tears_down.
Qed.

Lemma stop_command_is_missing_witness :
  interactionCreate Number_of_digits id ToString_integer id (fun _ _ => false)
    (fun _ _ => "") stop_interaction example_world
  = (Return tt, example_world)
  /\ no_teardown example_world
       (interactionCreate Number_of_digits id ToString_integer id (fun _ _ => false)
          (fun _ _ => "") move_interaction example_world).2.
Proof.
  destruct (stop_command_is_missing Number_of_digits id ToString_integer id
              (fun _ _ => false) (fun _ _ => ""))
    as (_ & _ & _ & _ & _ & _ & _ & Hstop & _ & _ & Hmove & _).
  split; [exact (Hstop stop_interaction example_world eq_refl)|].
  apply Hmove. intros voiceChannel r s Hvc _ Hr Hs.
  injection Hvc as <-. vm_compute in Hr. injection Hr as <-.
  vm_compute in Hs. injection Hs as <-. vm_compute. lia.
Defined.

(** C10, as the claim has it, fails: [stop()] does run in the course of a
    command.  The connection of the guild has been asked to rejoin five
    times; a member then sends [/move] while the gateway cannot be reached.
    [joinVoiceChannel] acts on the connection that exists, the request
    cannot be sent, the connection reports [Disconnected], and its listener,
    no attempt being left, destroys it; the destruction runs [stop()]: the
    queue is lost, the subscription is marked destroyed and its guild
    leaves the registry, before the command replies. *)
Lemma move_runs_stop :
  subscriptions worn_world !! "guild" = Some 0%nat
  /\ (destroyed <$> heap worn_world !! 0%nat) = Some false
  /\ (array_length <$> (queue <$> heap worn_world !! 0%nat)) = Some 2%nat
  /\ (interactionCreate Number_of_digits id ToString_integer id (fun _ _ => false)
        (fun _ _ => "") move_interaction worn_world).1 = Return tt
  /\ trace (interactionCreate Number_of_digits id ToString_integer id (fun _ _ => false)
              (fun _ _ => "") move_interaction worn_world).2
     = trace worn_world ++ [Join "voice-2" "guild"; Destroy 0; Reply "Moved!"]
  /\ (destroyed
        <$> heap (interactionCreate Number_of_digits id ToString_integer id
                    (fun _ _ => false) (fun _ _ => "") move_interaction worn_world).2
            !! 0%nat) = Some true
  /\ (array_length
        <$> (queue
               <$> heap (interactionCreate Number_of_digits id ToString_integer id
                           (fun _ _ => false) (fun _ _ => "") move_interaction
                           worn_world).2
                   !! 0%nat)) = Some 0%nat
  /\ subscriptions (interactionCreate Number_of_digits id ToString_integer id
                      (fun _ _ => false) (fun _ _ => "") move_interaction worn_world).2
     !! "guild" = None.
Proof. vm_compute. repeat split; reflexivity. Qed.

(** ** The depth of the listener *)
Lemma bind_ext {A B} (c : M A) (k1 k2 : A -> M B) w :
  (forall a w', k1 a w' = k2 a w') -> (c ≫= k1) w = (c ≫= k2) w.
Proof. intros H. rewrite !run_bind. destruct (c w) as [[a|e] w']; [apply H | done]. Qed.

Lemma stop_with_ext (destroy1 destroy2 : ref -> M unit) r w :
  (forall w', destroy1 r w' = destroy2 r w') ->
  stop_with destroy1 r w = stop_with destroy2 r w.
Proof.
  intros H. unfold stop_with.
  do 5 (apply bind_ext; intros ? ?).
  rewrite !run_bind. destruct (negb _); cbn [when]; [rewrite H|]; reflexivity.
Qed.

(** The listener asks for no more depth than it is given: a deeper bound
    changes nothing. *)
Lemma stop_with_destroyed_any (destroy1 destroy2 : ref -> M unit) r w :
  (forall s, heap w !! r = Some s -> status_of s = Destroyed) ->
  stop_with destroy1 r w = stop_with destroy2 r w.
Proof.
  intros H. destruct (heap w !! r) as [s|] eqn:Hr.
  - by rewrite !(runs_stop_with_destroyed _ r s (H s eq_refl) w Hr).
  - assert (update r (set_queueLock true) w = (Throw Dangling, w)) as E by (unfold update; rewrite Hr; reflexivity). unfold stop_with. rewrite !run_bind, E. reflexivity.
Qed.

Lemma destroy_depth d r w :
  voiceConnection_destroy (onVoiceStateChange (S d)) r w
  = voiceConnection_destroy (onVoiceStateChange 1) r w.
Proof.
  unfold voiceConnection_destroy, voiceConnection_enters.
  apply bind_ext. intros s w1. destruct (bool_decide _); [done|].
  apply bind_ext. intros _ w2. apply bind_ext. intros s' w3.
  rewrite !run_bind. unfold update.
  destruct (heap w3 !! r) as [s3|] eqn:Hr3; [|done].
  unfold void. cbn [onVoiceStateChange plain_state conn_status].
  rewrite (bool_decide_eq_false_2 (Destroyed = Disconnected)) by done.
  rewrite (bool_decide_eq_true_2 (Destroyed = Destroyed)) by done.
  rewrite (stop_with_destroyed_any _ (voiceConnection_destroy (onVoiceStateChange 0)));
    [done|].
  intros s0. cbn [heap set_heap]. rewrite lookup_insert_eq. by intros [= <-].
Qed.

Lemma listener_depth d r oldState newState w :
  onVoiceStateChange (S (S d)) r oldState newState w
  = onStateChange r oldState newState w.
Proof.
  unfold onStateChange. cbn [onVoiceStateChange].
  destruct (bool_decide (conn_status newState = Disconnected)).
  - destruct (_ && _); [done|].
    apply bind_ext. intros s w'. destruct (_ <? _)%nat; [done|]. apply destroy_depth.
  - destruct (bool_decide (conn_status newState = Destroyed)); [|done].
    apply stop_with_ext. intros w'. apply destroy_depth.
Qed.

Lemma destroy_within_depth d r w :
  (voiceConnection_destroy (onVoiceStateChange (S d)) r w).1 <> Throw OutOfFuel.
Proof.
  destruct (heap w !! r) as [s|] eqn:Hr.
  - destruct (decide (status_of s = Destroyed)) as [Hs|Hs].
    + rewrite (runs_destroy_twice _ r s Hs w Hr). discriminate.
    + rewrite (runs_destroy d r s Hs w Hr). discriminate.
  - unfold voiceConnection_destroy. rewrite run_bind. unfold this. rewrite Hr.
    discriminate.
Qed.

Lemma stop_within_depth r w : (stop r w).1 <> Throw OutOfFuel.
Proof.
  destruct (heap w !! r) as [s|] eqn:Hr.
  - rewrite (runs_stop r s w Hr). discriminate.
  - unfold stop, stop_with. rewrite run_bind. unfold update at 1. rewrite Hr.
    discriminate.
Qed.

(** With the bound of [onStateChange], no call of the listener, of
    [destroy()] or of [stop()] runs out of depth. *)
Lemma listener_within_depth r oldState newState w :
  (onStateChange r oldState newState w).1 <> Throw OutOfFuel.
Proof.
  unfold onStateChange. cbn [onVoiceStateChange].
  destruct (bool_decide (conn_status newState = Disconnected)).
  - destruct (_ && _); [discriminate|].
    rewrite run_bind. unfold this.
    destruct (heap w !! r) as [s|] eqn:Hr; [|discriminate].
    destruct (_ <? _)%nat; [discriminate|]. exact (destroy_within_depth 0 r w).
  - destruct (bool_decide (conn_status newState = Destroyed)).
    + rewrite (stop_with_ext _ destroy); [apply stop_within_depth|].
      intros w'. symmetry. exact (destroy_depth 1 r w').
    + rewrite run_bind. unfold this.
      destruct (heap w !! r) as [s|] eqn:Hr; [|discriminate].
      destruct (_ && _); [|discriminate].
      rewrite run_bind. unfold update. rewrite Hr. discriminate.
Qed.

(** ** Exchanging two positions *)

Lemma swap_items_twice l i j :
  (i < length l)%nat -> (j < length l)%nat ->
  swap_items (swap_items l i j) i j = l.
Proof.
  intros Hi Hj. unfold swap_items.
  destruct (lookup_lt_is_Some_2 l i Hi) as [x Hx].
  destruct (lookup_lt_is_Some_2 l j Hj) as [y Hy].
  rewrite Hx, Hy. cbn [default]; unfold id.
  destruct (decide (i = j)) as [->|Hne].
  - rewrite !list_lookup_insert_eq by (rewrite ?length_insert; lia).
    cbn [default]; unfold id. rewrite !list_insert_insert_eq.
    rewrite Hx in Hy. injection Hy as ->. by apply list_insert_id.
  - rewrite list_lookup_insert_ne by done.
    rewrite list_lookup_insert_eq by lia.
    rewrite list_lookup_insert_eq by (rewrite length_insert; lia).
    cbn [default]; unfold id.
    rewrite (list_insert_insert_ne _ i j) by done.
    rewrite !list_insert_insert_eq.
    rewrite (list_insert_id l i x) by done. by apply list_insert_id.
Qed.

Lemma swap_items_lookup l i j :
  (i < length l)%nat -> (j < length l)%nat ->
  swap_items l i j !! i = l !! j
  /\ swap_items l i j !! j = l !! i
  /\ forall k, k <> i -> k <> j -> swap_items l i j !! k = l !! k.
Proof.
  intros Hi Hj. unfold swap_items.
  destruct (lookup_lt_is_Some_2 l i Hi) as [x Hx].
  destruct (lookup_lt_is_Some_2 l j Hj) as [y Hy].
  rewrite Hx, Hy. cbn [default]; unfold id.
  split; [|split].
  - destruct (decide (i = j)) as [->|Hne].
    + rewrite list_lookup_insert_eq by (rewrite length_insert; lia). congruence.
    + rewrite list_lookup_insert_ne by done.
      by rewrite list_lookup_insert_eq by lia.
  - by rewrite list_lookup_insert_eq by (rewrite length_insert; lia).
  - intros k Hi' Hj'. by rewrite !list_lookup_insert_ne by done.
Qed.

Lemma set_heap_id r s w : heap w !! r = Some s -> set_heap (<[r := s]> (heap w)) w = w.
Proof. intros H. destruct w. unfold set_heap. simpl in *. by rewrite insert_id. Qed.

(** X1.  [swap] on two positions of the queue exchanges the two elements and
    touches nothing else; done twice, it gives the queue back. *)
Theorem swap_exchanges (r : ref) (s : MusicSubscription) (w : World) (i j : nat) :
  heap w !! r = Some s ->
  (i < array_length (queue s))%nat -> (j < array_length (queue s))%nat ->
  exists l,
    swap r (of_nat i) (of_nat j) w
    = (Return tt,
       set_heap (<[r := set_queue {| items := l; named := named (queue s) |} s]> (heap w)) w)
    /\ length l = array_length (queue s)
    /\ l !! i = items (queue s) !! j
    /\ l !! j = items (queue s) !! i
    /\ (forall k, k <> i -> k <> j -> l !! k = items (queue s) !! k)
    /\ l ≡ₚ items (queue s)
    /\ (swap r (of_nat i) (of_nat j);; swap r (of_nat i) (of_nat j)) w = (Return tt, w).
Proof.
  intros Hr Hi Hj. unfold array_length in *.
  exists (swap_items (items (queue s)) i j).
  destruct (swap_items_lookup _ i j Hi Hj) as (H1 & H2 & H3).
  split; [by apply run_swap|].
  split; [apply length_swap_items|].
  split; [done|]. split; [done|]. split; [done|].
  split; [by apply swap_items_perm|].
  rewrite run_bind, (run_swap r s w i j Hr Hi Hj).
  erewrite run_swap; [|apply lookup_insert_eq|cbn; rewrite length_swap_items; lia..].
  cbn [queue set_queue items named heap set_heap].
  rewrite swap_items_twice by done.
  destruct w as [h m tr pe rnd dr]. destruct s as [vc ap [q nm] d ltc g ql rl wt].
  unfold set_heap, set_queue. simpl in *.
  by rewrite insert_insert_eq, insert_id.
Qed.

Lemma swap_exchanges_witness :
  swap 0 (of_nat 0) (of_nat 1) example_world
  = (Return tt,
     set_heap {[ 0%nat := set_queue {| items := [Some track_B; Some track_A]; named := [] |}
                            example_subscription ]} example_world)
  /\ (swap 0 (of_nat 0) (of_nat 1);; swap 0 (of_nat 0) (of_nat 1)) example_world
     = (Return tt, example_world).
Proof.
  destruct (swap_exchanges 0 example_subscription example_world 0 1 eq_refl
              ltac:(vm_compute; lia) ltac:(vm_compute; lia))
    as (l & H1 & _ & _ & _ & _ & _ & H2).
  split; [|exact H2]. vm_compute. reflexivity.
Defined.

(** X2.  [swap] checks no bound.  With one index at or past the end of the
    queue, whichever of the two it is, the track at the other index moves
    out there: the queue grows up to that index, and a hole is left where
    the track was, and wherever the queue had to be filled up. *)
Theorem swap_past_the_end (r : ref) (s : MusicSubscription) (w : World) (i j : nat) :
  heap w !! r = Some s ->
  (array_length (queue s) <= i)%nat -> (j < array_length (queue s))%nat ->
  let grown :=
    {| items := <[j := None]> (items (queue s))
                ++ replicate (i - array_length (queue s)) None
                ++ [default None (items (queue s) !! j)];
       named := named (queue s) |} in
  swap r (of_nat i) (of_nat j) w
  = (Return tt, set_heap (<[r := set_queue grown s]> (heap w)) w)
  /\ swap r (of_nat j) (of_nat i) w
     = (Return tt, set_heap (<[r := set_queue grown s]> (heap w)) w)
  /\ array_length grown = S i
  /\ array_get grown (of_nat j) = None
  /\ array_get grown (of_nat i) = array_get (queue s) (of_nat j).
Proof.
  intros Hr Hi Hj grown. unfold array_length in *.
  assert (items (queue s) !! i = None) as Hnone by (apply lookup_ge_None; lia).
  split; [|split; [|split; [|split]]].
  - rewrite (run_swap_any r s w _ _ Hr). do 3 f_equal. f_equal.
    unfold array_set, array_get. rewrite !to_index_of_nat. rewrite Hnone.
    cbn [default]; unfold id.
    destruct (decide (i < length (items (queue s)))%nat) as [?|_]; [lia|].
    cbn [items named].
    destruct (decide (j < length (items (queue s) ++ replicate (i - length (items (queue s))) None
                                  ++ [from_option (fun x => x) None (items (queue s) !! j)]))%nat)
      as [_|Hn]; [|rewrite length_app in Hn; lia].
    unfold grown. f_equal. by rewrite insert_app_l by done.
  - rewrite (run_swap_any r s w _ _ Hr). do 3 f_equal. f_equal.
    unfold array_set, array_get. rewrite !to_index_of_nat. rewrite Hnone.
    cbn [default]; unfold id.
    destruct (decide (j < length (items (queue s)))%nat) as [_|?]; [|lia].
    cbn [items named]. rewrite length_insert.
    destruct (decide (i < length (items (queue s)))%nat) as [?|_]; [lia|].
    done.
  - unfold grown. cbn [items]. rewrite !length_app, length_insert, length_replicate.
    simpl. lia.
  - unfold array_get, grown. rewrite to_index_of_nat. cbn [items].
    rewrite lookup_app_l by (rewrite length_insert; lia).
    by rewrite list_lookup_insert_eq by done.
  - unfold array_get, grown. rewrite !to_index_of_nat. cbn [items].
    rewrite lookup_app_r by (rewrite length_insert; lia).
    rewrite length_insert.
    rewrite lookup_app_r by (rewrite length_replicate; lia).
    rewrite length_replicate.
    by replace (i - length (items (queue s)) - (i - length (items (queue s))))%nat
      with 0%nat by lia.
Qed.

Lemma swap_past_the_end_witness :
  swap 0 (of_nat 3) (of_nat 0) example_world
  = (Return tt,
     set_heap {[ 0%nat := set_queue {| items := [None; Some track_B; None; Some track_A];
                                       named := [] |} example_subscription ]}
       example_world).
Proof.
  destruct (swap_past_the_end 0 example_subscription example_world 3 0 eq_refl
              ltac:(vm_compute; lia) ltac:(vm_compute; lia)) as (H & _).
  rewrite H. vm_compute. reflexivity.
Defined.

(** ** Adding to the queue *)

Lemma busy_blocked s :
  busy s = true ->
  queueLock s = true \/ player_status (audioPlayer s) <> Idle \/ items (queue s) = [].
Proof.
  unfold busy. intros [H|H]%orb_true_iff; [by left|right; left].
  by apply negb_true_iff, bool_decide_eq_false_1 in H.
Qed.

Lemma busy_free s :
  busy s = false -> queueLock s = false /\ player_status (audioPlayer s) = Idle.
Proof.
  unfold busy. intros [H1 H2]%orb_false_iff. split; [done|].
  by apply negb_false_iff, bool_decide_eq_true_1 in H2.
Qed.

Lemma set_queue_set_queue q1 q2 s : set_queue q2 (set_queue q1 s) = set_queue q2 s.
Proof. by destruct s. Qed.

Lemma effect_set_heap r s w :
  set_heap (<[r := s]> (heap w)) w = effect r s [] [] [] w.
Proof. destruct w. unfold effect, set_heap. simpl. by rewrite !app_nil_r. Qed.

Lemma runs_swap r s (i j : nat) :
  (i < length (items (queue s)))%nat -> (j < length (items (queue s)))%nat ->
  runs (swap r (of_nat i) (of_nat j)) r s (Return tt)
       (set_queue {| items := swap_items (items (queue s)) i j;
                     named := named (queue s) |} s) [] [] [].
Proof. intros Hi Hj w Hr. by rewrite (run_swap r s w i j Hr Hi Hj), effect_set_heap. Qed.

(** X3.  [enqueue] puts the track at the end of the queue.  While the queue is
    locked or the player is not idle that is all it does; otherwise the
    front of the queue, which is the new track when the queue was empty,
    is taken out at once and its resource awaited. *)
Theorem enqueue_appends (r : ref) (s : MusicSubscription) (w : World) (track : slot) :
  heap w !! r = Some s ->
  let appended := set_queue (array_push (queue s) [track]) s in
  (busy s = true ->
     enqueue r track w = (Return tt, effect r (set_wait false appended) [] [] [] w))
  /\ (busy s = false ->
      forall front behind,
        items (queue s) ++ [track] = Some front :: behind ->
        enqueue r track w
        = (Return tt,
           effect r
             (set_queue {| items := behind; named := named (queue s) |}
                (set_queueLock true (set_wait false s)))
             [] [Production r (Some front)] [] w)).
Proof.
  intros Hr appended. split.
  - intros Hb. unfold enqueue.
    assert (runs (update r (fun s => set_queue (array_push (queue s) [track]) s);;
                  processQueue r) r s (Return tt) (set_wait false appended) [] [] [])
      as Hrun; [|exact (Hrun w Hr)].
    eapply runs_eq.
    + eapply runs_bind; [apply runs_update|].
      apply runs_processQueue_blocked, busy_blocked. exact Hb.
    + done.
    + done.
    + done.
    + done.
    + done.
  - intros Hb front behind Hq. destruct (busy_free s Hb) as [Hl Hi]. unfold enqueue.
    assert (runs (update r (fun s => set_queue (array_push (queue s) [track]) s);;
                  processQueue r) r s (Return tt)
              (set_queue {| items := behind; named := named (queue s) |}
                 (set_queueLock true (set_wait false s)))
              [] [Production r (Some front)] []) as Hrun; [|exact (Hrun w Hr)].
    eapply runs_eq.
    + eapply runs_bind; [apply runs_update|].
      apply (runs_processQueue_take r _ front behind); [exact Hl | exact Hi | exact Hq].
    + done.
    + by destruct s.
    + done.
    + done.
    + done.
Qed.

Lemma enqueue_appends_witness :
  enqueue 0 (Some track_C) playing_world
  = (Return tt,
     effect 0 (set_wait false
                 (set_queue (array_push (queue playing_subscription) [Some track_C])
                    playing_subscription)) [] [] [] playing_world)
  /\ enqueue 0 (Some track_C) example_world
     = (Return tt,
        effect 0 (set_queue {| items := [Some track_B; Some track_C]; named := [] |}
                    (set_queueLock true (set_wait false example_subscription)))
          [] [Production 0 (Some track_A)] [] example_world).
Proof.
  split.
  - destruct (enqueue_appends 0 playing_subscription playing_world (Some track_C) eq_refl)
      as [H _].
    exact (H eq_refl).
  - destruct (enqueue_appends 0 example_subscription example_world (Some track_C) eq_refl)
      as [_ H].
    exact (H eq_refl track_A [Some track_B; Some track_C] eq_refl).
Defined.

Lemma swap_to_front (track : slot) (l : list slot) :
  swap_items (l ++ [track]) 0 (length l) = next_in_front track l.
Proof.
  destruct l as [|front behind]; [done|]. unfold swap_items.
  assert (((front :: behind) ++ [track]) !! length (front :: behind) = Some track) as ->
    by (by apply list_lookup_middle).
  change (<[S (length behind) := front]> (track :: behind ++ [track])
          = track :: behind ++ [front]).
  change (track :: <[length behind := front]> (behind ++ [track])
          = track :: behind ++ [front]).
  rewrite insert_app_r_alt by lia. by rewrite Nat.sub_diag.
Qed.

Lemma runs_enqueueNext_front r s (track : slot) :
  runs (update r (fun s => set_queue (array_push (queue s) [track]) s);;
        s' ← this r;
        swap r (of_nat 0) (of_nat (array_length (queue s') - 1))) r s (Return tt)
       (set_queue {| items := next_in_front track (items (queue s));
                     named := named (queue s) |} s) [] [] [].
Proof.
  eapply runs_eq.
  - eapply runs_bind; [apply runs_update|].
    eapply runs_bind; [apply runs_this|].
    apply runs_swap; unfold array_length; cbn; rewrite length_app; simpl; lia.
  - done.
  - rewrite set_queue_set_queue. do 2 f_equal.
    cbn [queue set_queue array_push items array_length].
    unfold array_length, array_push. cbn [items]. rewrite length_app. cbn [length].
    replace (length (items (queue s)) + 1 - 1)%nat with (length (items (queue s))) by lia.
    apply swap_to_front.
  - done.
  - done.
  - done.
Qed.

Lemma enqueueNext_assoc r (track : slot) w :
  enqueueNext r track w
  = ((update r (fun s => set_queue (array_push (queue s) [track]) s);;
      s' ← this r;
      swap r (of_nat 0) (of_nat (array_length (queue s') - 1)));;
     processQueue r) w.
Proof.
  unfold enqueueNext. rewrite run_bind_assoc.
  apply bind_ext. intros [] w1. rewrite run_bind_assoc.
  apply bind_ext. intros s1 w2. reflexivity.
Qed.

Lemma runs_enqueueNext_busy r s (track : slot) :
  busy s = true ->
  runs (enqueueNext r track) r s (Return tt)
       (set_wait false
          (set_queue {| items := next_in_front track (items (queue s));
                        named := named (queue s) |} s)) [] [] [].
Proof.
  intros Hb w Hr. rewrite enqueueNext_assoc.
  assert (runs ((update r (fun s => set_queue (array_push (queue s) [track]) s);;
                 s' ← this r;
                 swap r (of_nat 0) (of_nat (array_length (queue s') - 1)));;
                processQueue r) r s (Return tt)
            (set_wait false
               (set_queue {| items := next_in_front track (items (queue s));
                             named := named (queue s) |} s)) [] [] []) as Hrun;
    [|exact (Hrun w Hr)].
  eapply runs_eq.
  - eapply runs_bind; [apply runs_enqueueNext_front|].
    apply runs_processQueue_blocked, busy_blocked. exact Hb.
  - done.
  - done.
  - done.
  - done.
  - done.
Qed.

(** X4.  [enqueueNext] puts the track in front by exchanging the two ends of the
    queue once the track is added: the track that was in front goes to the
    end, behind every other track.  While the queue is locked or the player
    is not idle that is all; otherwise the new track is taken out at once. *)
Theorem enqueueNext_puts_in_front (r : ref) (s : MusicSubscription) (w : World)
    (track : slot) :
  heap w !! r = Some s ->
  let reordered := {| items := next_in_front track (items (queue s));
                      named := named (queue s) |} in
  (busy s = true ->
     enqueueNext r track w
     = (Return tt, effect r (set_wait false (set_queue reordered s)) [] [] [] w))
  /\ (busy s = false ->
      forall t, track = Some t ->
        enqueueNext r track w
        = (Return tt,
           effect r
             (set_queue {| items := tail (next_in_front track (items (queue s)));
                           named := named (queue s) |}
                (set_queueLock true (set_wait false s)))
             [] [Production r (Some t)] [] w)).
Proof.
  intros Hr reordered. split.
  - intros Hb. exact (runs_enqueueNext_busy r s track Hb w Hr).
  - intros Hb t ->. destruct (busy_free s Hb) as [Hl Hi]. rewrite enqueueNext_assoc.
    assert (runs ((update r (fun s => set_queue (array_push (queue s) [Some t]) s);;
                   s' ← this r;
                   swap r (of_nat 0) (of_nat (array_length (queue s') - 1)));;
                  processQueue r) r s (Return tt)
              (set_queue {| items := tail (next_in_front (Some t) (items (queue s)));
                            named := named (queue s) |}
                 (set_queueLock true (set_wait false s)))
              [] [Production r (Some t)] []) as Hrun; [|exact (Hrun w Hr)].
    eapply runs_eq.
    + eapply runs_bind; [apply runs_enqueueNext_front|].
      apply (runs_processQueue_take r _ t (tail (next_in_front (Some t) (items (queue s)))));
        [exact Hl | exact Hi |].
      cbn [queue set_queue items]. by destruct (items (queue s)).
    + done.
    + by destruct s.
    + done.
    + done.
    + done.
Qed.

Lemma enqueueNext_puts_in_front_witness :
  enqueueNext 0 (Some track_C) playing_world
  = (Return tt,
     effect 0 (set_wait false
                 (set_queue {| items := [Some track_C; Some track_B; Some track_A];
                               named := [] |} playing_subscription)) [] [] []
       playing_world).
Proof.
  destruct (enqueueNext_puts_in_front 0 playing_subscription playing_world (Some track_C)
              eq_refl) as [H _].
  exact (H eq_refl).
Defined.

(** X5.  [bulkEnqueue] adds the tracks at the end and, unless told not to,
    shuffles the whole queue, the tracks that were waiting included: what is
    queued afterwards is a reordering of the old queue followed by the new
    tracks, none lost and none twice.  Only then is the queue processed. *)
Theorem bulkEnqueue_keeps_tracks (r : ref) (s : MusicSubscription) (w : World)
    (tracks : list slot) :
  heap w !! r = Some s ->
  unit_interval (random w) ->
  exists l,
    l ≡ₚ items (queue s) ++ tracks
    /\ bulkEnqueue r tracks true w
       = processQueue r
           (set_drawn (drawn w + length l)
              (set_heap (<[r := set_queue {| items := l; named := named (queue s) |} s]>
                           (heap w)) w))
    /\ bulkEnqueue r tracks false w
       = processQueue r
           (set_heap (<[r := set_queue {| items := items (queue s) ++ tracks;
                                          named := named (queue s) |} s]> (heap w)) w)
    /\ (busy s = true ->
        bulkEnqueue r tracks true w
        = (Return tt,
           set_drawn (drawn w + length l)
             (set_heap (<[r := set_wait false
                                 (set_queue {| items := l; named := named (queue s) |} s)]>
                          (heap w)) w))).
Proof.
  intros Hr Hrnd.
  set (l := fisher_yates (random w) (drawn w) (items (queue s) ++ tracks)
              (length (items (queue s) ++ tracks))).
  set (w1 := set_heap (<[r := set_queue (array_push (queue s) tracks) s]> (heap w)) w).
  assert (heap w1 !! r = Some (set_queue (array_push (queue s) tracks) s)) as Hr1
    by apply lookup_insert_eq.
  assert (bulkEnqueue r tracks true w
          = processQueue r
              (set_drawn (drawn w + length l)
                 (set_heap (<[r := set_queue {| items := l; named := named (queue s) |} s]>
                              (heap w)) w))) as Hshuffled.
  { unfold bulkEnqueue. rewrite run_bind, (run_update _ _ _ _ Hr). fold w1.
    cbn [when]. rewrite run_bind, (run_shuffle r _ w1 Hr1 Hrnd).
    f_equal. unfold l, w1. rewrite length_fisher_yates.
    destruct w as [h m tr pe rnd dr]. destruct s as [vc ap [q nm] d ltc g ql rl wt].
    unfold set_drawn, set_heap, set_queue, array_push. simpl.
    by rewrite insert_insert_eq. }
  exists l. split; [by apply fisher_yates_perm|].
  split; [exact Hshuffled|]. split.
  - unfold bulkEnqueue. rewrite run_bind, (run_update _ _ _ _ Hr). reflexivity.
  - intros Hb. rewrite Hshuffled.
    pose proof (runs_processQueue_blocked r
                  (set_queue {| items := l; named := named (queue s) |} s)
                  (busy_blocked (set_queue {| items := l; named := named (queue s) |} s)
                     Hb)) as Hrun.
    rewrite Hrun by apply lookup_insert_eq.
    f_equal. destruct w as [h m tr pe rnd dr]. unfold effect, set_drawn, set_heap. simpl.
    by rewrite insert_insert_eq, !app_nil_r.
Qed.

Lemma bulkEnqueue_keeps_tracks_witness :
  exists l,
    l ≡ₚ [Some track_A; Some track_B; Some track_C; None]
    /\ bulkEnqueue 0 [Some track_C; None] true playing_world
       = (Return tt,
          set_drawn (0 + length l)
            (set_heap (<[0%nat := set_wait false
                                    (set_queue {| items := l; named := [] |}
                                       playing_subscription)]>
                         (heap playing_world)) playing_world)).
Proof.
  destruct (bulkEnqueue_keeps_tracks 0 playing_subscription playing_world
              [Some track_C; None] eq_refl example_unit_interval)
    as (l & Hl & _ & _ & H).
  exists l. split; [exact Hl | exact (H eq_refl)].
Defined.

(** ** The lock of the queue *)

Lemma in_flight_app r ps qs : in_flight r (ps ++ qs) = (in_flight r ps + in_flight r qs)%nat.
Proof. unfold in_flight. by rewrite filter_app, length_app. Qed.

Lemma in_flight_other r p ps :
  is_production r p = false -> in_flight r (ps ++ [p]) = in_flight r ps.
Proof.
  intros Hp. rewrite in_flight_app. unfold in_flight at 2.
  rewrite filter_cons_False by (by rewrite Hp). simpl. lia.
Qed.

Lemma in_flight_one r t ps : in_flight r (ps ++ [Production r t]) = S (in_flight r ps).
Proof.
  rewrite in_flight_app. unfold in_flight at 2.
  rewrite filter_cons_True by (cbn; by rewrite bool_decide_eq_true_2). simpl. lia.
Qed.

Lemma in_flight_remove_other r p ps :
  is_production r p = false -> in_flight r (remove_first p ps) = in_flight r ps.
Proof.
  intros Hp. unfold in_flight. induction ps as [|p' ps IH]; [done|].
  cbn [remove_first]. destruct (decide (p' = p)) as [->|Hne].
  - by rewrite filter_cons_False by (by rewrite Hp).
  - destruct (is_production r p') eqn:Hp'.
    + rewrite !filter_cons_True by done. cbn [length]. by rewrite IH.
    + rewrite !filter_cons_False by (by rewrite Hp'). exact IH.
Qed.

Lemma in_flight_settle_all r p ps :
  is_production r p = false ->
  in_flight r (filter (fun p' => p' <> p) ps) = in_flight r ps.
Proof.
  intros Hp. unfold in_flight. induction ps as [|p' ps IH]; [done|].
  destruct (decide (p' = p)) as [->|Hne].
  - rewrite (filter_cons_False (fun p' => p' <> p)) by (by intros ?).
    by rewrite filter_cons_False by (by rewrite Hp).
  - rewrite (filter_cons_True (fun p' => p' <> p)) by done.
    destruct (is_production r p') eqn:Hp'.
    + rewrite !filter_cons_True by done. cbn [length]. by rewrite IH.
    + rewrite !filter_cons_False by (by rewrite Hp'). exact IH.
Qed.

Lemma in_flight_remove r p ps :
  is_production r p = true -> p ∈ ps ->
  in_flight r ps = S (in_flight r (remove_first p ps)).
Proof.
  intros Hp. unfold in_flight. induction ps as [|p' ps IH]; intros Hin.
  - by apply elem_of_nil in Hin.
  - cbn [remove_first]. destruct (decide (p' = p)) as [->|Hne].
    + by rewrite filter_cons_True by done.
    + apply elem_of_cons in Hin as [Heq|Hin]; [congruence|].
      destruct (is_production r p') eqn:Hp'.
      * rewrite !filter_cons_True by done. cbn [length]. by rewrite IH.
      * rewrite !filter_cons_False by (by rewrite Hp'). by apply IH.
Qed.

Section LockInvariant.
Variable phi : bool -> nat -> Prop.
Variable r : ref.
Hypothesis phi_lock : forall b n, phi b n -> phi true n.

Lemma keeps_ret {A} (a : A) : keeps phi r (mret a).
Proof. by intros w H. Qed.

Lemma keeps_throw {A} e : keeps phi r (throw (A:=A) e).
Proof. by intros w H. Qed.

Lemma keeps_this r' : keeps phi r (this r').
Proof. intros w H. unfold this. by destruct (heap w !! r'). Qed.

Lemma keeps_world : keeps phi r world.
Proof. by intros w H. Qed.

Lemma keeps_bind {A B} (c : M A) (k : A -> M B) :
  keeps phi r c -> (forall a, keeps phi r (k a)) -> keeps phi r (c ≫= k).
Proof.
  intros Hc Hk w H. rewrite run_bind. specialize (Hc w H).
  destruct (c w) as [[a|e] w']; [by apply Hk | done].
Qed.

Lemma keeps_void {A} (c : M A) : keeps phi r c -> keeps phi r (void c).
Proof.
  intros Hc w H. specialize (Hc w H). unfold void.
  by destruct (c w) as [[a|[]] w'].
Qed.

Lemma keeps_when b c : keeps phi r c -> keeps phi r (when b c).
Proof. intros Hc. destruct b; [done | apply keeps_ret]. Qed.

Lemma keeps_try_catch {A} (c : M A) h :
  keeps phi r c -> (forall e, keeps phi r (h e)) -> keeps phi r (try_catch c h).
Proof.
  intros Hc Hh w H. unfold try_catch. specialize (Hc w H).
  destruct (c w) as [[a|e] w']; [done | by apply Hh].
Qed.

Lemma keeps_try_finally {A} (c : M A) final :
  keeps phi r c -> keeps phi r final -> keeps phi r (try_finally c final).
Proof.
  intros Hc Hf w H. unfold try_finally. specialize (Hc w H).
  destruct (c w) as [o w']. specialize (Hf w' Hc).
  by destruct (final w') as [[a|e] w''].
Qed.

Lemma keeps_resume {A} p (c : M A) : keeps phi r c -> keeps phi r (resume p c).
Proof.
  intros Hc. unfold resume. apply keeps_bind; [apply keeps_world|intros w].
  by apply keeps_when, keeps_void.
Qed.

Lemma keeps_modify f :
  (forall w, heap (f w) = heap w /\ pending (f w) = pending w) ->
  keeps phi r (modify f).
Proof.
  intros Hf w (s & Hr & H). destruct (Hf w) as [Hh Hp].
  exists s. cbn [modify snd]. by rewrite Hh, Hp.
Qed.

Lemma keeps_emit e : keeps phi r (emit e).
Proof. by apply keeps_modify. Qed.

Lemma keeps_Math_random : keeps phi r Math_random.
Proof. intros w (s & Hr & H). by exists s. Qed.

Lemma keeps_suspend p : is_production r p = false -> keeps phi r (suspend p).
Proof.
  intros Hp w (s & Hr & H). exists s. split; [done|].
  cbn [suspend modify snd pending set_pending]. by rewrite in_flight_other.
Qed.

Lemma keeps_settle p : is_production r p = false -> keeps phi r (settle p).
Proof.
  intros Hp w (s & Hr & H). exists s. split; [done|].
  cbn [settle modify snd pending set_pending]. by rewrite in_flight_remove_other.
Qed.

Lemma keeps_settle_all p : is_production r p = false -> keeps phi r (settle_all p).
Proof.
  intros Hp w (s & Hr & H). exists s. split; [done|].
  cbn [settle_all modify snd pending set_pending]. by rewrite in_flight_settle_all.
Qed.

Lemma keeps_update r' f :
  (forall s, queueLock (f s) = queueLock s) -> keeps phi r (update r' f).
Proof.
  intros Hf w (s & Hr & H). unfold update.
  destruct (heap w !! r') as [s'|] eqn:Hr'; [|by exists s].
  cbn [snd]. unfold lock_invariant, set_heap. cbn [heap pending].
  destruct (decide (r' = r)) as [->|Hne].
  - exists (f s'). rewrite lookup_insert_eq. split; [done|].
    rewrite Hr in Hr'. injection Hr' as <-. by rewrite Hf.
  - exists s. by rewrite lookup_insert_ne.
Qed.

Lemma keeps_lock r' : keeps phi r (update r' (set_queueLock true)).
Proof.
  intros w (s & Hr & H). unfold update.
  destruct (heap w !! r') as [s'|] eqn:Hr'; [|by exists s].
  cbn [snd]. unfold lock_invariant, set_heap. cbn [heap pending].
  destruct (decide (r' = r)) as [->|Hne].
  - exists (set_queueLock true s'). rewrite lookup_insert_eq. split; [done|].
    cbn [queueLock set_queueLock]. by eapply phi_lock.
  - exists s. by rewrite lookup_insert_ne.
Qed.

Lemma keeps_update_other r' f : r' <> r -> keeps phi r (update r' f).
Proof.
  intros Hne w (s & Hr & H). unfold update.
  destruct (heap w !! r') as [s'|] eqn:Hr'; [|by exists s].
  exists s. cbn [snd]. unfold set_heap. cbn [heap pending]. by rewrite lookup_insert_ne.
Qed.

Lemma keeps_runs {A} (c : M A) :
  (forall s n, phi (queueLock s) n ->
     exists out s' es ps,
       runs c r s out s' es ps [] /\ phi (queueLock s') (n + in_flight r ps)) ->
  keeps phi r c.
Proof.
  intros Hc w (s & Hr & H).
  destruct (Hc s _ H) as (out & s' & es & ps & Hrun & H').
  rewrite (Hrun w Hr). exists s'. cbn [snd]. split; [apply effect_lookup|].
  unfold effect. cbn [pending]. by rewrite in_flight_app.
Qed.

End LockInvariant.

Section QueueLock.
Variable phi : bool -> nat -> Prop.
Variable r : ref.
Hypothesis phi_lock : forall b n, phi b n -> phi true n.
Hypothesis phi_take : forall n, phi false n -> phi true (S n).
Hypothesis phi_settle : forall b n, phi b (S n) -> phi false n.

Lemma keeps_processQueue r' : keeps phi r (processQueue r').
Proof.
  destruct (decide (r' = r)) as [->|Hne].
  - apply keeps_runs. intros s n H.
    eexists _, _, _, _. split; [apply runs_processQueue|].
    unfold processQueue_local.
    destruct (queueLock s) eqn:Hl; cbn [orb].
    + cbn [fst snd queueLock set_wait in_flight filter length]. rewrite Hl.
      by rewrite Nat.add_0_r.
    + destruct (negb _ || _); cbn [fst snd].
      * cbn [queueLock set_wait]. rewrite Hl. unfold in_flight. cbn.
        by rewrite Nat.add_0_r.
      * destruct (array_shift (queue s)).1 as [t|]; cbn [fst snd queueLock set_queue].
        -- replace [Production r (Some t)] with ([] ++ [Production r (Some t)]) by done.
           rewrite in_flight_one. unfold in_flight at 1. cbn [filter length].
           rewrite Nat.add_1_r. by apply phi_take.
        -- unfold in_flight. cbn. rewrite Nat.add_0_r. by eapply phi_lock.
  - unfold processQueue.
    apply keeps_bind; [by apply keeps_update_other|intros _].
    apply keeps_bind; [apply keeps_this|intros s].
    destruct (_ || _ || _); [apply keeps_ret|].
    apply keeps_bind; [by apply keeps_update_other|intros _].
    destruct (array_shift (queue s)) as [nextTrack rest].
    apply keeps_bind; [by apply keeps_update_other|intros _].
    destruct nextTrack; [|apply keeps_throw].
    apply keeps_suspend. cbn. by apply bool_decide_eq_false_2.
Qed.

Ltac keeps_step :=
  first
    [ assumption
    | match goal with H : context [keeps _ _ _] |- keeps _ _ _ => solve [apply H] end
    | apply keeps_ret | apply keeps_throw | apply keeps_this | apply keeps_world
    | apply keeps_emit | apply keeps_Math_random
    | apply keeps_suspend; reflexivity | apply keeps_settle; reflexivity
    | apply keeps_settle_all; reflexivity
    | apply keeps_update; intros []; reflexivity
    | apply keeps_lock; assumption
    | apply keeps_bind; [|intros ?]
    | apply keeps_void | apply keeps_when | apply keeps_try_catch; [|intros ?]
    | apply keeps_try_finally | apply keeps_resume
    | match goal with
      | |- keeps _ _ (if ?b then _ else _) => destruct b
      | |- keeps _ _ (match ?x with _ => _ end) => destruct x
      | |- keeps _ _ (let '(_, _) := ?x in _) => destruct x
      end ].
Ltac keeps_all := repeat keeps_step.

Lemma keeps_onPlayerStateChange r' o n : keeps phi r (onPlayerStateChange r' o n).
Proof. pose proof (keeps_processQueue r'). unfold onPlayerStateChange. keeps_all. Qed.

Lemma keeps_audioPlayer_play r' res : keeps phi r (audioPlayer_play r' res).
Proof. pose proof (keeps_onPlayerStateChange r'). unfold audioPlayer_play. keeps_all. Qed.

Lemma keeps_audioPlayer_stop r' force : keeps phi r (audioPlayer_stop r' force).
Proof. pose proof (keeps_onPlayerStateChange r'). unfold audioPlayer_stop. keeps_all. Qed.

Lemma keeps_audioPlayer_pause r' : keeps phi r (audioPlayer_pause r').
Proof. pose proof (keeps_onPlayerStateChange r'). unfold audioPlayer_pause. keeps_all. Qed.

Lemma keeps_player_enters r' st : keeps phi r (player_enters r' st).
Proof. pose proof (keeps_onPlayerStateChange r'). unfold player_enters. keeps_all. Qed.

Lemma keeps_swap r' i j : keeps phi r (swap r' i j).
Proof. unfold swap. keeps_all. Qed.

Lemma keeps_shuffle_loop r' n : keeps phi r (shuffle_loop r' n).
Proof.
  induction n as [|n IH]; cbn [shuffle_loop]; [apply keeps_ret|].
  apply keeps_bind; [apply keeps_Math_random|intros x].
  apply keeps_bind; [apply keeps_swap | done].
Qed.

Lemma keeps_shuffle r' : keeps phi r (shuffle r').
Proof. pose proof (keeps_shuffle_loop r'). unfold shuffle. keeps_all. Qed.

Lemma keeps_enqueue r' t : keeps phi r (enqueue r' t).
Proof. pose proof (keeps_processQueue r'). unfold enqueue. keeps_all. Qed.

Lemma keeps_bulkEnqueue r' ts b : keeps phi r (bulkEnqueue r' ts b).
Proof.
  pose proof (keeps_processQueue r'). pose proof (keeps_shuffle r').
  unfold bulkEnqueue. keeps_all.
Qed.

Lemma keeps_enqueueNext r' t : keeps phi r (enqueueNext r' t).
Proof.
  pose proof (keeps_processQueue r'). pose proof (keeps_swap r').
  unfold enqueueNext. keeps_all.
Qed.

Lemma keeps_clear r' : keeps phi r (clear r').
Proof. unfold clear. keeps_all. Qed.

Lemma keeps_nowPlaying r' : keeps phi r (nowPlaying r').
Proof. unfold nowPlaying. keeps_all. Qed.

Lemma keeps_onPlayerError r' res : keeps phi r (onPlayerError r' res).
Proof. unfold onPlayerError. keeps_all. Qed.

Lemma phi_any n : phi false n -> forall b, phi b n.
Proof. intros H [|]; [by eapply phi_lock | done]. Qed.

Lemma lock_invariant_any w :
  lock_invariant (fun _ n => phi false n) r w -> lock_invariant phi r w.
Proof. intros (s & Hr & H). exists s. split; [done | by apply phi_any]. Qed.

(** The continuation of a production: its promise is retired, and only
    then is the lock released. *)
Lemma keeps_release e t :
  forall w, lock_invariant (fun _ n => phi false n) r w ->
            lock_invariant phi r (processQueue_catch r t e w).2.
Proof.
  intros w Hw. unfold processQueue_catch.
  rewrite run_bind.
  pose proof (keeps_emit (fun _ n => phi false n) r (Call onError t) w Hw) as H1.
  destruct (emit (Call onError t) w) as [[[]|e1] w1]; cbn [snd] in H1;
    [|by apply lock_invariant_any].
  rewrite run_bind. destruct H1 as (s & Hr & H).
  rewrite (run_update _ _ _ _ Hr).
  apply keeps_processQueue. exists (set_queueLock false s).
  unfold set_heap. cbn [heap pending]. by rewrite lookup_insert_eq.
Qed.

Lemma keeps_play_quiet r' res :
  keeps (fun _ n => phi false n) r (audioPlayer_play r' res).
Proof.
  unfold audioPlayer_play.
  apply keeps_bind; [apply keeps_this|intros s].
  apply keeps_bind; [apply keeps_update; intros []; reflexivity|intros _].
  apply keeps_bind; [apply keeps_emit|intros _].
  apply keeps_void. unfold onPlayerStateChange. cbn. apply keeps_ret.
Qed.

Lemma keeps_settled r' t outcome :
  keeps phi r (resume (Production r' (Some t)) (processQueue_settled r' t outcome)).
Proof.
  destruct (decide (r' = r)) as [->|Hne].
  - intros w Hw. unfold resume. rewrite run_bind. unfold world at 1.
    destruct (bool_decide (Production r (Some t) ∈ pending w)) eqn:Hin; [|done].
    apply bool_decide_eq_true_1 in Hin. cbn [when].
    assert (lock_invariant phi r (processQueue_settled r t outcome w).2) as H;
      [|unfold void; by destruct (processQueue_settled r t outcome w) as [[a|[]] w']].
    unfold processQueue_settled. rewrite run_settle.
    set (w1 := set_pending (remove_first (Production r (Some t)) (pending w)) w).
    assert (lock_invariant (fun _ n => phi false n) r w1) as Hw1.
    { destruct Hw as (s & Hr & H). exists s. split; [done|].
      unfold w1. cbn [pending set_pending].
      rewrite (in_flight_remove r (Production r (Some t))) in H;
        [|cbn; by apply bool_decide_eq_true_2|done].
      by eapply phi_settle. }
    destruct outcome as [error|]; [by apply keeps_release|].
    unfold try_catch. rewrite run_bind.
    pose proof (keeps_play_quiet r {| metadata := t |} w1 Hw1) as H1.
    destruct (audioPlayer_play r {| metadata := t |} w1) as [[[]|e1] w2]; cbn [snd] in H1;
      [|by apply keeps_release].
    destruct H1 as (s & Hr & H). rewrite (run_update _ _ _ _ Hr).
    exists (set_queueLock false s).
    unfold set_heap. cbn [snd heap pending]. by rewrite lookup_insert_eq.
  - pose proof (keeps_processQueue r'). pose proof (keeps_audioPlayer_play r').
    assert (is_production r (Production r' (Some t)) = false) as Hp
      by (cbn; by apply bool_decide_eq_false_2).
    apply keeps_resume. unfold processQueue_settled, processQueue_catch.
    apply keeps_bind; [by apply keeps_settle|intros _].
    destruct outcome.
    + apply keeps_bind; [apply keeps_emit|intros _].
      apply keeps_bind; [by apply keeps_update_other|intros _]. done.
    + apply keeps_try_catch.
      * apply keeps_bind; [done|intros _]. by apply keeps_update_other.
      * intros e. apply keeps_bind; [apply keeps_emit|intros _].
        apply keeps_bind; [by apply keeps_update_other|intros _]. done.
Qed.

Lemma keeps_stop_with destroy r' :
  keeps phi r (destroy r') -> keeps phi r (stop_with destroy r').
Proof.
  intros Hd. pose proof (keeps_audioPlayer_stop r'). unfold stop_with. keeps_all.
Qed.

Lemma keeps_voiceConnection_enters listener r' st :
  (forall o n, keeps phi r (listener r' o n)) ->
  keeps phi r (voiceConnection_enters listener r' st).
Proof. intros Hl. unfold voiceConnection_enters. keeps_all. Qed.

Lemma keeps_voiceConnection_destroy listener r' :
  (forall o n, keeps phi r (listener r' o n)) ->
  keeps phi r (voiceConnection_destroy listener r').
Proof.
  intros Hl. pose proof (keeps_voiceConnection_enters listener r').
  unfold voiceConnection_destroy. keeps_all.
Qed.

Lemma keeps_voiceConnection_rejoin listener r' sent :
  (forall o n, keeps phi r (listener r' o n)) ->
  keeps phi r (voiceConnection_rejoin listener r' sent).
Proof.
  intros Hl. pose proof (keeps_voiceConnection_enters listener r').
  unfold voiceConnection_rejoin. keeps_all.
Qed.

Lemma keeps_onVoiceStateChange d r' o n : keeps phi r (onVoiceStateChange d r' o n).
Proof.
  revert o n. induction d as [|d IH]; intros o n; cbn [onVoiceStateChange];
    [apply keeps_throw|].
  pose proof (keeps_voiceConnection_destroy (onVoiceStateChange d) r' IH) as Hd.
  pose proof (keeps_stop_with (voiceConnection_destroy (onVoiceStateChange d)) r' Hd).
  keeps_all.
Qed.

Lemma keeps_destroy r' : keeps phi r (destroy r').
Proof. apply keeps_voiceConnection_destroy. intros o n. apply keeps_onVoiceStateChange. Qed.

Lemma keeps_rejoin r' sent : keeps phi r (rejoin r' sent).
Proof. apply keeps_voiceConnection_rejoin. intros o n. apply keeps_onVoiceStateChange. Qed.

Lemma keeps_connection_enters r' st : keeps phi r (connection_enters r' st).
Proof.
  pose proof (keeps_voiceConnection_enters onStateChange r' st
                (fun o n => keeps_onVoiceStateChange 2 r' o n)).
  unfold connection_enters. keeps_all.
Qed.

Lemma keeps_moveGuard_timeout r' : keeps phi r (moveGuard_timeout r').
Proof. pose proof (keeps_destroy r'). unfold moveGuard_timeout. keeps_all. Qed.

Lemma keeps_rejoinWait_elapsed r' ms sent : keeps phi r (rejoinWait_elapsed r' ms sent).
Proof. pose proof (keeps_rejoin r'). unfold rejoinWait_elapsed. keeps_all. Qed.

Lemma keeps_readyGuard_timeout r' : keeps phi r (readyGuard_timeout r').
Proof.
  pose proof (keeps_destroy r'). unfold readyGuard_timeout, resolve_identifier. keeps_all.
Qed.

Lemma keeps_idleGuard_timeout r' : keeps phi r (idleGuard_timeout r').
Proof. pose proof (keeps_destroy r'). unfold idleGuard_timeout. keeps_all. Qed.

Lemma keeps_voiceConnection_subscribe listener r' :
  (forall o n, keeps phi r (listener r' o n)) ->
  keeps phi r (voiceConnection_subscribe listener r').
Proof. intros Hl. unfold voiceConnection_subscribe. keeps_all. Qed.

Lemma keeps_getVoiceConnection g : keeps phi r (getVoiceConnection g).
Proof. unfold getVoiceConnection. keeps_all. Qed.

Lemma keeps_joinVoiceChannel vc : keeps phi r (joinVoiceChannel vc).
Proof.
  pose proof keeps_rejoin. pose proof keeps_getVoiceConnection.
  pose proof (fun r' st => keeps_voiceConnection_enters onStateChange r' st
                             (fun o n => keeps_onVoiceStateChange 2 r' o n)).
  unfold joinVoiceChannel. keeps_all.
Qed.

Lemma keeps_subscriptions_get g : keeps phi r (subscriptions_get g).
Proof. unfold subscriptions_get. keeps_all. Qed.

Lemma keeps_new_MusicSubscription conn tc g : keeps phi r (new_MusicSubscription conn tc g).
Proof.
  intros w (s & Hr & H). unfold new_MusicSubscription.
  rewrite run_bind. unfold world at 1. rewrite run_bind.
  unfold modify at 1.
  assert (keeps phi r (voiceConnection_subscribe onStateChange (fresh (dom (heap w)));;
                       mret (fresh (dom (heap w))))) as Hrest.
  { apply keeps_bind; [|intros ?; apply keeps_ret].
    apply keeps_voiceConnection_subscribe. intros o n. apply keeps_onVoiceStateChange. }
  apply Hrest.
  exists s. unfold set_heap. cbn [heap pending]. split; [|done].
  rewrite lookup_insert_ne; [done|].
  intros Heq. pose proof (is_fresh (dom (heap w))) as Hfresh.
  rewrite Heq in Hfresh. apply Hfresh, elem_of_dom. by exists s.
Qed.

Lemma keeps_getOrCreateSubscription vc tc : keeps phi r (getOrCreateSubscription vc tc).
Proof.
  pose proof (keeps_joinVoiceChannel vc). pose proof (keeps_new_MusicSubscription).
  unfold getOrCreateSubscription. keeps_all.
Qed.

Section Commands.
Variable Number : string -> JsNum.
Variable trim : string -> string.
Variable ToString : JsNum -> string.
Variable toLowerCase : string -> string.
Variable includes : string -> string -> bool.
Variable queue_page : JsArray -> option string -> string.

Lemma keeps_enqueueYoutubeTrack t r' b n :
  keeps phi r (enqueueYoutubeTrack ToString t r' b n).
Proof.
  pose proof (keeps_enqueueNext r'). pose proof (keeps_enqueue r').
  pose proof (keeps_audioPlayer_stop r').
  unfold enqueueYoutubeTrack. keeps_all.
Qed.

Lemma keeps_play_execute b n i : keeps phi r (play_execute toLowerCase includes b n i).
Proof.
  pose proof keeps_getOrCreateSubscription. pose proof keeps_subscriptions_get.
  pose proof keeps_audioPlayer_pause.
  unfold play_execute. keeps_all.
Qed.

Lemma keeps_play_ready i r' b n how ready : keeps phi r (play_ready i r' b n how ready).
Proof. unfold play_ready. keeps_all. Qed.

Lemma keeps_play_found i r' b n how t : keeps phi r (play_found ToString i r' b n how t).
Proof. pose proof (keeps_enqueueYoutubeTrack). unfold play_found. keeps_all. Qed.

Lemma keeps_play_playlist i r' ts : keeps phi r (play_playlist ToString i r' ts).
Proof. pose proof (keeps_bulkEnqueue r'). unfold play_playlist. keeps_all. Qed.

Lemma keeps_pause_execute i : keeps phi r (pause_execute i).
Proof.
  pose proof keeps_subscriptions_get. pose proof keeps_audioPlayer_pause.
  unfold pause_execute. keeps_all.
Qed.

Lemma keeps_shuffle_execute i : keeps phi r (shuffle_execute i).
Proof.
  pose proof keeps_subscriptions_get. pose proof keeps_shuffle.
  unfold shuffle_execute. keeps_all.
Qed.

Lemma keeps_clear_execute i : keeps phi r (clear_execute i).
Proof.
  pose proof keeps_subscriptions_get. pose proof keeps_clear.
  unfold clear_execute. keeps_all.
Qed.

Lemma keeps_queue_execute i : keeps phi r (queue_execute queue_page i).
Proof. pose proof keeps_subscriptions_get. unfold queue_execute. keeps_all. Qed.

Lemma keeps_swap_execute i : keeps phi r (swap_execute Number trim ToString i).
Proof.
  pose proof keeps_subscriptions_get. pose proof keeps_swap.
  unfold swap_execute, clamp, resolve_identifier. keeps_all.
Qed.

Lemma keeps_skip_execute i : keeps phi r (skip_execute i).
Proof.
  pose proof keeps_subscriptions_get. pose proof keeps_nowPlaying.
  pose proof keeps_audioPlayer_stop.
  unfold skip_execute. keeps_all.
Qed.

Lemma keeps_skip_execute_2 i : keeps phi r (skip_execute_2 i).
Proof.
  pose proof keeps_subscriptions_get. pose proof keeps_nowPlaying.
  pose proof keeps_audioPlayer_stop.
  unfold skip_execute_2. keeps_all.
Qed.

Lemma keeps_move_execute i : keeps phi r (move_execute i).
Proof.
  pose proof keeps_subscriptions_get. pose proof keeps_joinVoiceChannel.
  unfold move_execute. keeps_all.
Qed.

Lemma keeps_commands name command i :
  commands Number trim ToString toLowerCase includes queue_page !! name = Some command ->
  keeps phi r (execute command i).
Proof.
  unfold commands, object_of, commands_literal. cbn [foldl fst snd].
  intros H.
  repeat (apply lookup_insert_Some in H as [[_ <-]|[_ H]];
          [first [ apply keeps_play_execute | apply keeps_pause_execute
                 | apply keeps_shuffle_execute | apply keeps_clear_execute
                 | apply keeps_queue_execute | apply keeps_swap_execute
                 | apply keeps_skip_execute | apply keeps_skip_execute_2
                 | apply keeps_move_execute ]|]).
  by rewrite lookup_empty in H.
Qed.

Lemma keeps_interactionCreate i :
  keeps phi r (interactionCreate Number trim ToString toLowerCase includes queue_page i).
Proof.
  unfold interactionCreate. destruct (isCommand i); [|apply keeps_ret].
  destruct (commands _ _ _ _ _ _ !! commandName i) as [command|] eqn:Hc.
  - by eapply keeps_commands.
  - destruct (bool_decide _); [apply keeps_throw | apply keeps_ret].
Qed.

Lemma keeps_perform a :
  keeps phi r (perform Number trim ToString toLowerCase includes queue_page a).
Proof.
  destruct a; cbn [perform].
  - apply keeps_void, keeps_interactionCreate.
  - apply keeps_resume, keeps_play_ready.
  - apply keeps_resume, keeps_play_found.
  - apply keeps_resume, keeps_play_playlist.
  - apply keeps_settled.
  - apply keeps_player_enters.
  - apply keeps_void, keeps_onPlayerError.
  - apply keeps_connection_enters.
  - apply keeps_resume, keeps_idleGuard_timeout.
  - apply keeps_resume, keeps_readyGuard_timeout.
  - apply keeps_resume, keeps_moveGuard_timeout.
  - apply keeps_resume, keeps_rejoinWait_elapsed.
Qed.

Lemma keeps_perform_all actions : forall w,
  lock_invariant phi r w ->
  lock_invariant phi r
    (perform_all Number trim ToString toLowerCase includes queue_page actions w).
Proof.
  unfold perform_all. induction actions as [|a actions IH]; intros w Hw; [done|].
  cbn [foldl]. apply IH. by apply keeps_perform.
Qed.
End Commands.
End QueueLock.

Lemma one_at_a_time_lock b n : one_at_a_time b n -> one_at_a_time true n.
Proof. unfold one_at_a_time. destruct b; lia. Qed.

Lemma one_at_a_time_take n : one_at_a_time false n -> one_at_a_time true (S n).
Proof. unfold one_at_a_time. lia. Qed.

Lemma one_at_a_time_settle b n : one_at_a_time b (S n) -> one_at_a_time false n.
Proof. unfold one_at_a_time. destruct b; lia. Qed.

(** X6.  The lock of the queue does what it is there for.  Whatever commands
    arrive, whatever the players and the connections do and whichever
    promises settle, in any order: a subscription never awaits more than one
    resource at a time, and while it awaits one its queue is locked. *)
Theorem one_production_at_a_time (Number : string -> JsNum) (trim : string -> string)
    (ToString : JsNum -> string) (toLowerCase : string -> string)
    (includes : string -> string -> bool)
    (queue_page : JsArray -> option string -> string)
    (r : ref) (s : MusicSubscription) (w : World) (actions : list Action) :
  heap w !! r = Some s ->
  (in_flight r (pending w) <= if queueLock s then 1 else 0)%nat ->
  let w' := perform_all Number trim ToString toLowerCase includes queue_page actions w in
  exists s',
    heap w' !! r = Some s'
    /\ (in_flight r (pending w') <= 1)%nat
    /\ (queueLock s' = false -> in_flight r (pending w') = 0%nat).
Proof.
  intros Hr Hn w'.
  destruct (keeps_perform_all one_at_a_time r one_at_a_time_lock one_at_a_time_take
              one_at_a_time_settle Number trim ToString toLowerCase includes queue_page
              actions w) as (s' & Hr' & H').
  { by exists s. }
  exists s'. fold w' in Hr', H'. unfold one_at_a_time in H'.
  split; [done|]. split; [destruct (queueLock s'); lia|].
  intros Hl. rewrite Hl in H'. lia.
Qed.

Lemma one_production_at_a_time_witness :
  exists s',
    heap (perform_all Number_of_digits id ToString_integer id (fun _ _ => false)
            (fun _ _ => "")
            [PlayerEnters 0 idle_state; ProductionSettles 0 track_C None;
             Interact (swap_interaction "0" "1")] playing_world) !! 0%nat = Some s'
    /\ (in_flight 0
          (pending (perform_all Number_of_digits id ToString_integer id (fun _ _ => false)
                      (fun _ _ => "")
                      [PlayerEnters 0 idle_state; ProductionSettles 0 track_C None;
                       Interact (swap_interaction "0" "1")] playing_world)) <= 1)%nat.
Proof.
  destruct (one_production_at_a_time Number_of_digits id ToString_integer id
              (fun _ _ => false) (fun _ _ => "") 0 playing_subscription playing_world
              [PlayerEnters 0 idle_state; ProductionSettles 0 track_C None;
               Interact (swap_interaction "0" "1")]
              eq_refl ltac:(vm_compute; lia)) as (s' & H1 & H2 & _).
  exists s'. split; [exact H1 | exact H2].
Defined.

Lemma jammed_lock b n : jammed b n -> jammed true n.
Proof. by intros [_ ->]. Qed.

Lemma jammed_take n : jammed false n -> jammed true (S n).
Proof. by intros [? _]. Qed.

Lemma jammed_settle b n : jammed b (S n) -> jammed false n.
Proof. by intros [_ ?]. Qed.

(** X7.  An empty place at the front of the queue jams the subscription.
    [processQueue()] takes the lock, fails on the element it took out, and
    fails again in its [catch] block before the lock is released.  From then
    on, whatever happens, the lock stays held and no resource is awaited:
    every later [processQueue()] returns at once, and the tracks that wait
    are never taken. *)
Theorem hole_in_front_jams_queue (Number : string -> JsNum) (trim : string -> string)
    (ToString : JsNum -> string) (toLowerCase : string -> string)
    (includes : string -> string -> bool)
    (queue_page : JsArray -> option string -> string)
    (r : ref) (s : MusicSubscription) (w : World) (behind : list slot) :
  heap w !! r = Some s ->
  busy s = false ->
  items (queue s) = None :: behind ->
  in_flight r (pending w) = 0%nat ->
  let w1 := effect r (set_queue {| items := behind; named := named (queue s) |}
                        (set_queueLock true (set_wait false s))) [] [] [] w in
  processQueue r w
  = (Throw (TypeError "Cannot read properties of undefined (reading 'onError')"), w1)
  /\ forall actions,
       let w' := perform_all Number trim ToString toLowerCase includes queue_page
                   actions w1 in
       exists s',
         heap w' !! r = Some s'
         /\ queueLock s' = true
         /\ in_flight r (pending w') = 0%nat
         /\ processQueue r w' = (Return tt, effect r (set_wait false s') [] [] [] w').
Proof.
  intros Hr Hb Hq Hn w1. destruct (busy_free s Hb) as [Hl Hi].
  split.
  - rewrite (runs_processQueue r s w Hr). unfold processQueue_local, array_length.
    rewrite Hl, Hi, Hq. cbn. unfold w1, array_shift. by rewrite Hq.
  - intros actions w'.
    destruct (keeps_perform_all jammed r jammed_lock jammed_take jammed_settle
                Number trim ToString toLowerCase includes queue_page actions w1)
      as (s' & Hr' & Hl' & Hn').
    { eexists. split; [apply effect_lookup|]. split; [done|].
      unfold w1, effect. cbn [pending]. by rewrite app_nil_r. }
    exists s'. fold w' in Hr', Hn'. split; [done|]. split; [done|]. split; [done|].
    apply (runs_processQueue_blocked r s'); [by left | done].
Qed.

Lemma hole_in_front_jams_queue_witness :
  processQueue 0 holed_world
  = (Throw (TypeError "Cannot read properties of undefined (reading 'onError')"),
     effect 0 (set_queue {| items := [Some track_B; Some track_A]; named := [] |}
                 (set_queueLock true (set_wait false
                    (set_queue {| items := [None; Some track_B; Some track_A];
                                  named := [] |} example_subscription)))) [] [] []
       holed_world).
Proof.
  destruct (hole_in_front_jams_queue Number_of_digits id ToString_integer id
              (fun _ _ => false) (fun _ _ => "") 0
              (set_queue {| items := [None; Some track_B; Some track_A]; named := [] |}
                 example_subscription)
              holed_world [Some track_B; Some track_A] eq_refl eq_refl eq_refl eq_refl)
    as [H _].
  exact H.
Defined.

(** ** The end of a track, and the start of the next *)

(** X8.  When the track that plays comes to its end and the queue is free, the
    listener takes the front of the queue and awaits its resource, and arms
    the 30-second guard; the tracks behind keep their order.  With the
    [wait] flag set it arms the guard and leaves the queue as it is. *)
Theorem idle_transition_takes_next (r : ref) (s : MusicSubscription) (w : World)
    (res : AudioResource) (t : Track) (rest : list slot) :
  heap w !! r = Some s ->
  player_status (audioPlayer s) <> Idle ->
  resource (audioPlayer s) = Some res ->
  queueLock s = false ->
  items (queue s) = Some t :: rest ->
  let finished := if errored (metadata res) then [] else [Call onFinish (metadata res)] in
  (wait s = false ->
     player_enters r idle_state w
     = (Return tt,
        effect r
          (set_queue {| items := rest; named := named (queue s) |}
             (set_queueLock true (set_audioPlayer idle_state s)))
          finished [Production r (Some t); IdleGuard r] [] w))
  /\ (wait s = true ->
      player_enters r idle_state w
      = (Return tt, effect r (set_audioPlayer idle_state s) finished [IdleGuard r] [] w)).
Proof.
  intros Hr Hp Hres Hl Hq finished.
  assert (processQueue_local r (set_audioPlayer idle_state s)
          = (Return tt,
             set_queue {| items := rest; named := named (queue s) |}
               (set_queueLock true (set_wait false (set_audioPlayer idle_state s))),
             [Production r (Some t)])) as Htake
    by exact (processQueue_local_take r (set_audioPlayer idle_state s) t rest Hl eq_refl Hq).
  assert (onPlayerStateChange_local r (audioPlayer s) idle_state (set_audioPlayer idle_state s)
          = (if wait s then set_audioPlayer idle_state s
             else set_queue {| items := rest; named := named (queue s) |}
                    (set_queueLock true (set_wait false (set_audioPlayer idle_state s))),
             finished,
             (if wait s then [] else [Production r (Some t)]) ++ [IdleGuard r])) as Hlocal.
  { unfold onPlayerStateChange_local. rewrite Htake.
    rewrite (bool_decide_eq_false_2 _ Hp), Hres.
    cbn [player_status idle_state].
    rewrite (bool_decide_eq_true_2 (Idle = Idle)) by done.
    cbn [andb negb fst snd wait set_audioPlayer]. reflexivity. }
  assert (runs (player_enters r idle_state) r s (Return tt)
            (onPlayerStateChange_local r (audioPlayer s) idle_state
               (set_audioPlayer idle_state s)).1.1
            (onPlayerStateChange_local r (audioPlayer s) idle_state
               (set_audioPlayer idle_state s)).1.2
            (onPlayerStateChange_local r (audioPlayer s) idle_state
               (set_audioPlayer idle_state s)).2 []) as Hrun.
  { unfold player_enters. eapply runs_eq.
    - eapply runs_bind; [apply runs_this|].
      eapply runs_bind; [apply runs_update|].
      eapply runs_bind; [apply runs_onPlayerStateChange|].
      apply runs_when_false.
    - done.
    - done.
    - cbn [app]. by rewrite !app_nil_r.
    - cbn [app]. by rewrite !app_nil_r.
    - done. }
  rewrite Hlocal in Hrun. cbn [fst snd] in Hrun.
  split; intros Hw; rewrite Hw in Hrun; rewrite (Hrun w Hr); [|done].
  do 3 f_equal. destruct s; simpl in *; by subst.
Qed.

Lemma idle_transition_takes_next_witness :
  player_enters 0 idle_state playing_world
  = (Return tt,
     effect 0
       (set_queue {| items := [Some track_B]; named := [] |}
          (set_queueLock true (set_audioPlayer idle_state playing_subscription)))
       [Call onFinish track_C] [Production 0 (Some track_A); IdleGuard 0] []
       playing_world).
Proof.
  destruct (idle_transition_takes_next 0 playing_subscription playing_world
              {| metadata := track_C |} track_A [Some track_B]
              eq_refl ltac:(discriminate) eq_refl eq_refl eq_refl) as [H _].
  exact (H eq_refl).
Defined.

(** X9.  Whenever a player enters [Playing], from whatever state it comes
    (buffering, or a pause), the listener calls [onStart] of the track of
    the new state, once, and touches neither the queue nor the lock.  Every
    30-second guard of this player that is armed is met, however many idle
    transitions have armed one; the waits of other players, and waits of
    other kinds, stay as they are. *)
Theorem playing_announces_start (r : ref) (s : MusicSubscription) (w : World)
    (res : AudioResource) :
  heap w !! r = Some s ->
  let playing := {| player_status := Playing; resource := Some res |} in
  let w1 := effect r (set_audioPlayer playing s) [Call onStart (metadata res)] [] [] w in
  exists w' s',
    player_enters r playing w = (Return tt, w')
    /\ w' = set_pending (filter (fun p => p <> IdleGuard r) (pending w)) w1
    /\ trace w' = trace w ++ [Call onStart (metadata res)]
    /\ heap w' !! r = Some s'
    /\ audioPlayer s' = playing
    /\ queue s' = queue s
    /\ queueLock s' = queueLock s
    /\ (IdleGuard r ∉ pending w')
    /\ (forall p, p <> IdleGuard r -> (p ∈ pending w' <-> p ∈ pending w)).
Proof.
  intros Hr playing w1.
  assert (player_enters r playing w
          = (Return tt, set_pending (filter (fun p => p <> IdleGuard r) (pending w)) w1))
    as Hrun.
  { unfold player_enters.
    assert (runs (s0 ← this r;
                  update r (set_audioPlayer playing);;
                  void (onPlayerStateChange r (audioPlayer s0) playing)) r s (Return tt)
              (set_audioPlayer playing s) [Call onStart (metadata res)] [] []) as Hlistener.
    { eapply runs_eq.
      - eapply runs_bind; [apply runs_this|].
        eapply runs_bind; [apply runs_update|].
        apply runs_onPlayerStateChange.
      - done.
      - done.
      - done.
      - done.
      - done. }
    pose proof (Hlistener w Hr) as Hw. rewrite run_bind in Hw. rewrite run_bind.
    rewrite (run_this _ _ _ Hr) in *. rewrite run_bind in Hw. rewrite run_bind.
    destruct (update r (set_audioPlayer playing) w) as [[[]|e] w2]; [|done].
    rewrite run_bind, Hw.
    cbn [player_status playing]. rewrite (bool_decide_eq_true_2 (Playing = Playing)) by done.
    cbn [when]. unfold settle_all, modify. fold w1. do 2 f_equal.
    unfold w1, effect. cbn [pending]. by rewrite app_nil_r. }
  eexists _, _. split; [exact Hrun|]. split; [reflexivity|].
  split; [reflexivity|]. split; [apply lookup_insert_eq|].
  split; [reflexivity|]. split; [reflexivity|]. split; [reflexivity|].
  cbn [pending set_pending]. split.
  - rewrite list_elem_of_filter. by intros [Hne _].
  - intros p Hp. rewrite list_elem_of_filter. split; [by intros [_ Hin] | by split].
Qed.

Lemma playing_announces_start_witness :
  exists w',
    player_enters 0 {| player_status := Playing; resource := Some {| metadata := track_A |} |}
      (set_pending [IdleGuard 0%nat; ReadyGuard 0%nat; IdleGuard 0%nat] example_world)
    = (Return tt, w')
    /\ pending w' = [ReadyGuard 0%nat]
    /\ trace w' = [Call onStart track_A].
Proof.
  destruct (playing_announces_start 0 example_subscription
              (set_pending [IdleGuard 0%nat; ReadyGuard 0%nat; IdleGuard 0%nat] example_world)
              {| metadata := track_A |} eq_refl)
    as (w' & s' & Hrun & Hw' & Htrace & _).
  exists w'. split; [exact Hrun|]. split; [by rewrite Hw' | exact Htrace].
Defined.

(** ** Moved or kicked *)

(** X10.  A disconnection with close code 4014 is not answered with a rejoin: the
    listener counts no attempt and destroys nothing, it waits 5 seconds for
    the connection to come back by itself.  When the connection enters
    [Connecting] in time the wait is met and the subscription lives on.
    When it does not, the connection is destroyed, which ends the
    subscription and removes its guild from the registry.  That branch, unlike
    the other two guards, does not look at the status first: on a
    connection destroyed in the meantime, [destroy()] throws. *)
Theorem move_guard (r : ref) (s : MusicSubscription) (w : World) :
  heap w !! r = Some s ->
  status_of s <> Destroyed ->
  let s1 := set_conn_state moved_state s in
  let w1 := effect r s1 [] [MoveGuard r] [] w in
  let w1' := set_pending (remove_first (MoveGuard r) (pending w1)) w1 in
  connection_enters r moved_state w = (Return tt, w1)
  /\ rejoinAttempts (voiceConnection s1) = rejoinAttempts (voiceConnection s)
  /\ (exists w2 s2,
        connection_enters r (plain_state Connecting) w1 = (Return tt, w2)
        /\ heap w2 !! r = Some s2
        /\ status_of s2 = Connecting
        /\ destroyed s2 = destroyed s
        /\ trace w2 = trace w
        /\ subscriptions w2 = subscriptions w
        /\ count_pending (MoveGuard r) (pending w2) = count_pending (MoveGuard r) (pending w))
  /\ moveGuard_timeout r w1
     = (Return tt,
        effect r (stopped s1) (Destroy r :: finish_events (audioPlayer s))
          (idle_guards r (audioPlayer s)) [guildId s] w1')
  /\ status_of (stopped s1) = Destroyed
  /\ destroyed (stopped s1) = true
  /\ (forall w' s',
        heap w' !! r = Some s' -> status_of s' = Destroyed ->
        moveGuard_timeout r w'
        = (Throw (Error "Cannot destroy VoiceConnection - it has already been destroyed"),
           set_pending (remove_first (MoveGuard r) (pending w')) w')).
Proof.
  intros Hr Hst s1 w1 w1'.
  assert (heap w1 !! r = Some s1) as Hr1 by apply effect_lookup.
  assert (heap w1' !! r = Some s1) as Hr1' by apply effect_lookup.
  assert (status_of s1 <> Destroyed) as Hst1 by done.
  split; [|split; [|split; [|split; [|split; [|split]]]]].
  - unfold connection_enters.
    assert (runs (voiceConnection_enters onStateChange r moved_state) r s (Return tt)
              s1 [] [MoveGuard r] []) as Henters.
    { unfold voiceConnection_enters, onStateChange. eapply runs_eq.
      - eapply runs_bind; [apply runs_this|].
        eapply runs_bind; [apply runs_update|].
        apply runs_void. cbn. apply runs_suspend.
      - done.
      - done.
      - done.
      - done.
      - done. }
    rewrite run_bind, (Henters w Hr). reflexivity.
  - unfold s1, set_conn_state. reflexivity.
  - unfold connection_enters.
    assert (runs (voiceConnection_enters onStateChange r (plain_state Connecting)) r s1
              (Return tt)
              (if readyLock s then set_conn_state (plain_state Connecting) s1
               else set_readyLock true (set_conn_state (plain_state Connecting) s1))
              [] (if readyLock s then [] else [ReadyGuard r]) []) as Henters.
    { unfold voiceConnection_enters, onStateChange.
      destruct (readyLock s) eqn:Hl.
      - eapply runs_eq.
        + eapply runs_bind; [apply runs_this|].
          eapply runs_bind; [apply runs_update|].
          apply runs_void, runs_guard_not_rearmed; [exact Hl | by left].
        + done.
        + done.
        + done.
        + done.
        + done.
      - eapply runs_eq.
        + eapply runs_bind; [apply runs_this|].
          eapply runs_bind; [apply runs_update|].
          apply runs_void, runs_guard_armed; [exact Hl | by left].
        + done.
        + done.
        + done.
        + done.
        + done. }
    rewrite run_bind, (Henters w1 Hr1). rewrite run_bind. unfold world at 1.
    cbn [plain_state conn_status].
    rewrite (bool_decide_eq_false_2 (Connecting = Ready)) by done.
    rewrite (bool_decide_eq_true_2 (Connecting = Connecting)) by done.
    cbn [andb when]. rewrite run_bind. unfold mret at 1, M_ret at 1.
    unfold settle, modify.
    eexists _, _. split; [reflexivity|].
    split; [apply effect_lookup|].
    split; [by destruct (readyLock s)|].
    split; [by destruct (readyLock s)|].
    split; [cbn [trace set_pending effect w1]; by rewrite !app_nil_r|].
    split; [done|].
    cbn [pending set_pending effect w1].
    assert (MoveGuard r ∈ (pending w ++ [MoveGuard r])
                          ++ (if readyLock s then [] else [ReadyGuard r])) as Hin.
    { apply elem_of_app. left. apply elem_of_app. right.
      by apply list_elem_of_singleton. }
    pose proof (count_pending_remove_first _ _ Hin) as Hcount.
    rewrite !count_pending_app in Hcount.
    assert (count_pending (MoveGuard r) [MoveGuard r] = 1%nat) as H1.
    { unfold count_pending. by rewrite filter_cons_True. }
    assert (count_pending (MoveGuard r) (if readyLock s then [] else [ReadyGuard r]) = 0%nat)
      as H0.
    { unfold count_pending. destruct (readyLock s); [done|].
      by rewrite filter_cons_False. }
    rewrite H1, H0 in Hcount. lia.
  - unfold moveGuard_timeout. rewrite run_settle. fold w1'.
    pose proof (runs_destroy 1 r s1 Hst1 w1' Hr1') as Hd.
    unfold destroy, onStateChange. rewrite Hd. do 2 f_equal.
    apply halted_destroyed.
  - by destruct (stopped_fields s1) as (_ & _ & _ & _ & ? & _).
  - by destruct (stopped_fields s1) as (_ & _ & _ & ? & _).
  - intros w' s' Hr' Hd'. unfold moveGuard_timeout. rewrite run_settle.
    unfold destroy.
    rewrite (runs_destroy_twice onStateChange r s' Hd'
               (set_pending (remove_first (MoveGuard r) (pending w')) w') Hr').
    by rewrite effect_id.
Qed.

Lemma move_guard_witness :
  connection_enters 0 moved_state example_world
  = (Return tt, effect 0 (set_conn_state moved_state example_subscription) []
                  [MoveGuard 0] [] example_world).
Proof.
  destruct (move_guard 0 example_subscription example_world eq_refl ltac:(discriminate))
    as [H _].
  exact H.
Defined.

(** ** The commands *)

Section CommandBehaviour.
Variable Number : string -> JsNum.
Variable trim : string -> string.
Variable ToString : JsNum -> string.
Variable toLowerCase : string -> string.
Variable includes : string -> string -> bool.
Variable queue_page : JsArray -> option string -> string.

Lemma run_subscriptions_get g w : subscriptions_get g w = (Return (subscriptions w !! g), w).
Proof. reflexivity. Qed.

(** X11.  In a guild without a subscription, every command but the three that
    play answers that nothing is playing, and does nothing else: no
    subscription is made, no channel is joined. *)
Theorem commands_without_subscription (interaction : Interaction) (w : World)
    (name : string) (command : Command) :
  subscriptions w !! interaction_guildId interaction = None ->
  name ∈ ["pause"; "shuffle"; "clear"; "queue"; "swap"; "skip"; "move"] ->
  commands Number trim ToString toLowerCase includes queue_page !! name = Some command ->
  execute command interaction w = replied not_playing w.
Proof.
  intros Hsub Hname. unfold commands, object_of, commands_literal. cbn [foldl fst snd].
  intros H.
  repeat (apply lookup_insert_Some in H as [[Hkey <-]|[_ H]];
          [try (subst name; exfalso;
                repeat (apply elem_of_cons in Hname as [Hname|Hname];
                        [discriminate|]);
                by apply elem_of_nil in Hname);
           cbn [execute];
           first [ progress unfold pause_execute | progress unfold shuffle_execute
                 | progress unfold clear_execute | progress unfold queue_execute
                 | progress unfold swap_execute | progress unfold skip_execute
                 | progress unfold skip_execute_2 | progress unfold move_execute ];
           by rewrite run_bind, run_subscriptions_get, Hsub |]).
  by rewrite lookup_empty in H.
Qed.

(** X12.  [/play] without a song is meant to resume a paused player, but what it
    calls is [pause()]: on a paused player that does nothing.  The command
    answers that it has resumed the player, and the player stays paused. *)
Theorem unpause_does_not_resume (interaction : Interaction) (w : World) (r : ref)
    (s : MusicSubscription) (voiceChannel : VoiceChannel)
    (beginningOfQueue now : bool) :
  subscriptions w !! interaction_guildId interaction = Some r ->
  heap w !! r = Some s ->
  voice_channel interaction = Some voiceChannel ->
  getString interaction "song" = None \/ getString interaction "song" = Some "" ->
  player_status (audioPlayer s) = Paused ->
  play_execute toLowerCase includes beginningOfQueue now interaction w
  = (Return tt,
     effect r (set_lastTextChannel (channel interaction) s)
       [DeferReply; FollowUp "Unpaused"] [] [] w)
  /\ player_status (audioPlayer (set_lastTextChannel (channel interaction) s)) = Paused.
Proof.
  intros Hsub Hr Hvc Hsong Hp. split; [|done].
  assert (runs (update r (set_lastTextChannel (channel interaction));;
                audioPlayer_pause r;;
                emit (FollowUp "Unpaused")) r s (Return tt)
            (set_lastTextChannel (channel interaction) s) [FollowUp "Unpaused"] [] [])
    as Hrun.
  { unfold audioPlayer_pause. eapply runs_eq.
    - eapply runs_bind; [apply runs_update|].
      eapply runs_bind.
      + eapply runs_bind; [apply runs_this|].
        cbn [audioPlayer set_lastTextChannel]. rewrite Hp.
        rewrite (bool_decide_eq_false_2 (Paused = Playing)) by done. apply runs_ret.
      + apply runs_emit.
    - done.
    - done.
    - done.
    - done.
    - done. }
  unfold play_execute. rewrite run_bind.
  pose proof (runs_emit DeferReply r s w Hr) as Hdefer. rewrite Hdefer.
  rewrite Hvc.
  assert (forall k : M unit,
            match getString interaction "song" with
            | Some (String c u as song) =>
                r0 ← getOrCreateSubscription voiceChannel (channel interaction);
                (if includes (toLowerCase song) "youtube.com/watch"
                 then suspend (EnsureReady interaction r0 (now || beginningOfQueue) now fromURL)
                 else if includes (toLowerCase song) "spotify.com/playlist"
                 then if now || beginningOfQueue
                      then emit (FollowUp "This command cannot be used with spotify playlists")
                      else suspend (FindPlaylist interaction r0)
                 else suspend (EnsureReady interaction r0 (now || beginningOfQueue) now
                                 fromSearch))
            | _ => k
            end = k) as Hmatch.
  { intros k. by destruct Hsong as [-> | ->]. }
  rewrite Hmatch. rewrite run_bind, run_subscriptions_get.
  unfold effect at 1. cbn [subscriptions foldl]. rewrite Hsub.
  rewrite run_bind, (run_this r s) by apply lookup_insert_eq.
  rewrite Hp. rewrite (bool_decide_eq_true_2 (Paused = Paused)) by done. cbn [negb].
  rewrite Hrun by apply lookup_insert_eq. by rewrite effect_effect.
Qed.

(** X13.  [/pause] pauses a playing player.  It refuses a paused one, without
    noting the channel.  On any other player, an idle one included, it
    changes nothing and still answers that it has paused. *)
Theorem pause_command (interaction : Interaction) (w : World) (r : ref)
    (s : MusicSubscription) :
  subscriptions w !! interaction_guildId interaction = Some r ->
  heap w !! r = Some s ->
  let noted := set_lastTextChannel (channel interaction) s in
  (player_status (audioPlayer s) = Paused ->
     pause_execute interaction w
     = replied "Already paused. You can use /play without entering a song name to unpause" w)
  /\ (player_status (audioPlayer s) = Playing ->
      pause_execute interaction w
      = (Return tt,
         effect r (set_audioPlayer {| player_status := Paused;
                                      resource := resource (audioPlayer s) |} noted)
           [Reply "Paused"] [] [] w))
  /\ (player_status (audioPlayer s) <> Paused ->
      player_status (audioPlayer s) <> Playing ->
      pause_execute interaction w = (Return tt, effect r noted [Reply "Paused"] [] [] w)).
Proof.
  intros Hsub Hr noted.
  assert (forall st, player_status (audioPlayer s) = st -> st <> Paused ->
            pause_execute interaction w
            = (Return tt,
               effect r (if bool_decide (st = Playing)
                         then set_audioPlayer {| player_status := Paused;
                                                 resource := resource (audioPlayer s) |}
                                noted
                         else noted) [Reply "Paused"] [] [] w)) as Hgen.
  { intros st Hst Hne. unfold pause_execute.
    rewrite run_bind, run_subscriptions_get, Hsub.
    rewrite run_bind, (run_this r s w Hr).
    rewrite Hst, (bool_decide_eq_false_2 _ Hne).
    assert (runs (update r (set_lastTextChannel (channel interaction));;
                  audioPlayer_pause r;; emit (Reply "Paused")) r s (Return tt)
              (if bool_decide (st = Playing)
               then set_audioPlayer {| player_status := Paused;
                                       resource := resource (audioPlayer s) |} noted
               else noted) [Reply "Paused"] [] []) as Hrun; [|exact (Hrun w Hr)].
    eapply runs_eq.
    - eapply runs_bind; [apply runs_update|].
      eapply runs_bind; [apply runs_audioPlayer_pause | apply runs_emit].
    - done.
    - cbn [audioPlayer set_lastTextChannel]. by rewrite Hst.
    - done.
    - done.
    - done. }
  split; [|split].
  - intros Hp. unfold pause_execute.
    rewrite run_bind, run_subscriptions_get, Hsub.
    rewrite run_bind, (run_this r s w Hr).
    by rewrite (bool_decide_eq_true_2 _ Hp).
  - intros Hp. by rewrite (Hgen Playing Hp).
  - intros Hp1 Hp2. rewrite (Hgen _ eq_refl Hp1). by rewrite (bool_decide_eq_false_2 _ Hp2).
Qed.

(** X14.  [/skip], under either of the two definitions of its key: with an idle
    or buffering player it refuses; otherwise it names the track that
    plays and asks the player to stop, without force, so that the player is
    still in its state when the command returns. *)
Theorem skip_command (interaction : Interaction) (w : World) (r : ref)
    (s : MusicSubscription) :
  subscriptions w !! interaction_guildId interaction = Some r ->
  heap w !! r = Some s ->
  let noted := set_lastTextChannel (channel interaction) s in
  skip_execute_2 interaction w = skip_execute interaction w
  /\ (player_status (audioPlayer s) = Idle \/ player_status (audioPlayer s) = Buffering ->
      skip_execute interaction w
      = (Return tt,
         effect r noted [Reply "Cannot skip since a track is not playing yet"] [] [] w))
  /\ (player_status (audioPlayer s) <> Idle ->
      player_status (audioPlayer s) <> Buffering ->
      match resource (audioPlayer s) with
      | Some res =>
          skip_execute interaction w
          = (Return tt,
             effect r noted
               [Reply ("Skipped `" +:+ youtube_title (metadata res) +:+ "`")] [] [] w)
      | None =>
          skip_execute interaction w
          = (Throw (TypeError "Cannot read properties of undefined (reading 'metadata')"),
             effect r noted [] [] [] w)
      end).
Proof.
  intros Hsub Hr noted. split; [reflexivity|].
  assert (skip_execute interaction w
          = (update r (set_lastTextChannel (channel interaction));;
             s0 ← this r;
             if bool_decide (player_status (audioPlayer s0) = Idle)
                || bool_decide (player_status (audioPlayer s0) = Buffering)
             then emit (Reply "Cannot skip since a track is not playing yet")
             else
               skipping ← nowPlaying r;
               audioPlayer_stop r false;;
               emit (Reply ("Skipped `" +:+ youtube_title skipping +:+ "`"))) w) as ->.
  { unfold skip_execute. by rewrite run_bind, run_subscriptions_get, Hsub. }
  split.
  - intros Hp.
    assert (bool_decide (player_status (audioPlayer s) = Idle)
            || bool_decide (player_status (audioPlayer s) = Buffering) = true) as Hb.
    { destruct Hp as [-> | ->]; [done|]. by rewrite orb_true_r. }
    assert (runs (update r (set_lastTextChannel (channel interaction));;
                  s0 ← this r;
                  if bool_decide (player_status (audioPlayer s0) = Idle)
                     || bool_decide (player_status (audioPlayer s0) = Buffering)
                  then emit (Reply "Cannot skip since a track is not playing yet")
                  else
                    skipping ← nowPlaying r;
                    audioPlayer_stop r false;;
                    emit (Reply ("Skipped `" +:+ youtube_title skipping +:+ "`")))
              r s (Return tt) noted
              [Reply "Cannot skip since a track is not playing yet"] [] []) as Hrun;
      [|exact (Hrun w Hr)].
    eapply runs_eq.
    + eapply runs_bind; [apply runs_update|].
      eapply runs_bind; [apply runs_this|].
      cbn [audioPlayer set_lastTextChannel]. rewrite Hb. apply runs_emit.
    + done.
    + done.
    + done.
    + done.
    + done.
  - intros Hi Hb.
    assert (bool_decide (player_status (audioPlayer s) = Idle)
            || bool_decide (player_status (audioPlayer s) = Buffering) = false) as Hno.
    { by rewrite (bool_decide_eq_false_2 _ Hi), (bool_decide_eq_false_2 _ Hb). }
    destruct (resource (audioPlayer s)) as [res|] eqn:Hres.
    + assert (runs (update r (set_lastTextChannel (channel interaction));;
                    s0 ← this r;
                    if bool_decide (player_status (audioPlayer s0) = Idle)
                       || bool_decide (player_status (audioPlayer s0) = Buffering)
                    then emit (Reply "Cannot skip since a track is not playing yet")
                    else
                      skipping ← nowPlaying r;
                      audioPlayer_stop r false;;
                      emit (Reply ("Skipped `" +:+ youtube_title skipping +:+ "`")))
                r s (Return tt) noted
                [Reply ("Skipped `" +:+ youtube_title (metadata res) +:+ "`")] [] [])
        as Hrun; [|exact (Hrun w Hr)].
      eapply runs_eq.
      * eapply runs_bind; [apply runs_update|].
        eapply runs_bind; [apply runs_this|].
        cbn [audioPlayer set_lastTextChannel]. rewrite Hno.
        eapply runs_bind.
        -- unfold nowPlaying. eapply runs_bind; [apply runs_this|].
           cbn [audioPlayer set_lastTextChannel]. rewrite Hres. apply runs_ret.
        -- eapply runs_bind; [|apply runs_emit].
           unfold audioPlayer_stop. eapply runs_bind; [apply runs_this|].
           cbn [audioPlayer set_lastTextChannel].
           rewrite (bool_decide_eq_false_2 _ Hi). apply runs_ret.
      * done.
      * done.
      * done.
      * done.
      * done.
    + assert (runs (update r (set_lastTextChannel (channel interaction));;
                    s0 ← this r;
                    if bool_decide (player_status (audioPlayer s0) = Idle)
                       || bool_decide (player_status (audioPlayer s0) = Buffering)
                    then emit (Reply "Cannot skip since a track is not playing yet")
                    else
                      skipping ← nowPlaying r;
                      audioPlayer_stop r false;;
                      emit (Reply ("Skipped `" +:+ youtube_title skipping +:+ "`")))
                r s (Throw (TypeError "Cannot read properties of undefined (reading 'metadata')"))
                noted [] [] []) as Hrun; [|exact (Hrun w Hr)].
      eapply runs_eq.
      * eapply runs_bind; [apply runs_update|].
        eapply runs_bind; [apply runs_this|].
        cbn [audioPlayer set_lastTextChannel]. rewrite Hno.
        apply runs_bind_throw.
        unfold nowPlaying. eapply runs_bind; [apply runs_this|].
        cbn [audioPlayer set_lastTextChannel]. rewrite Hres. apply runs_throw.
      * done.
      * done.
      * done.
      * done.
      * done.
Qed.

(** X15.  [/play], [/next] and [/now] with a song, in a guild without a
    subscription: the command joins the channel of the member and registers
    a new subscription for its guild before it looks at what was asked for,
    and awaits the connection or the playlist.  The subscription it
    registers is the one its constructor leaves: the player subscribed to
    the connection, which has run the listener once, so that the ready lock
    is held and the 15-second guard of the connection is armed when the
    join request was sent, and a first rejoin is waited for when it could
    not be sent.  So [/next] and [/now] with a playlist link refuse only
    after the bot has joined; and when the connection does not get ready in
    time, the user is told so, and the subscription is left as it is,
    registered. *)
Theorem play_creates_subscription (beginningOfQueue now : bool)
    (interaction : Interaction) (w : World) (voiceChannel : VoiceChannel)
    (c : Ascii.ascii) (u : string) :
  voice_channel interaction = Some voiceChannel ->
  getString interaction "song" = Some (String c u) ->
  subscriptions w !! channel_guild voiceChannel = None ->
  let song := String c u in
  let first := now || beginningOfQueue in
  let r := fresh (dom (heap w)) in
  let sent := adapter_sends voiceChannel in
  let conn := {| conn_state := if sent then plain_state Signalling else adapter_unavailable;
                 rejoinAttempts := 0 |} in
  let guard := if sent then ReadyGuard r else RejoinWait r 5000 in
  let joined :=
    set_subscriptions (<[channel_guild voiceChannel := r]> (subscriptions w))
      (set_pending (pending w ++ [guard])
         (set_heap (<[r := set_readyLock sent
                             (fresh_subscription conn (channel interaction)
                                (channel_guild voiceChannel))]> (heap w))
            (set_trace (trace w ++ [DeferReply; Join (channel_id voiceChannel)
                                                  (channel_guild voiceChannel)]) w))) in
  heap w !! r = None
  /\ play_execute toLowerCase includes beginningOfQueue now interaction w
     = (Return tt,
        if includes (toLowerCase song) "youtube.com/watch"
        then set_pending (pending w ++ [guard; EnsureReady interaction r first now fromURL])
               joined
        else if includes (toLowerCase song) "spotify.com/playlist"
        then if first
             then set_trace (trace joined
                             ++ [FollowUp "This command cannot be used with spotify playlists"])
                    joined
             else set_pending (pending w ++ [guard; FindPlaylist interaction r]) joined
        else set_pending (pending w ++ [guard; EnsureReady interaction r first now fromSearch])
               joined)
  /\ (exists s',
        heap (play_execute toLowerCase includes beginningOfQueue now interaction w).2 !! r
        = Some s'
        /\ subscriptions (play_execute toLowerCase includes beginningOfQueue now interaction w).2
           !! channel_guild voiceChannel = Some r
        /\ readyLock s' = sent
        /\ queueLock s' = false
        /\ destroyed s' = false
        /\ items (queue s') = []
        /\ lastTextChannel s' = channel interaction
        /\ voiceConnection s' = conn
        /\ audioPlayer s' = idle_state)
  /\ (forall how w1,
        play_ready interaction r first now how false w1
        = (Return tt,
           set_trace (trace w1 ++ [FollowUp "Could not establish a voice connection within 15 seconds, please try again later"])
             (set_pending (remove_first (EnsureReady interaction r first now how)
                             (pending w1)) w1))).
Proof.
  intros Hvc Hsong Hsub song first r sent conn guard joined.
  set (w0 := set_trace (trace w ++ [DeferReply]) w).
  destruct (getOrCreateSubscription_new voiceChannel (channel interaction) w0 Hsub)
    as [Hfresh Hnew].
  assert (play_execute toLowerCase includes beginningOfQueue now interaction w
          = (Return tt,
             if includes (toLowerCase song) "youtube.com/watch"
             then set_pending (pending w ++ [guard; EnsureReady interaction r first now fromURL])
                    joined
             else if includes (toLowerCase song) "spotify.com/playlist"
             then if first
                  then set_trace (trace joined
                                  ++ [FollowUp "This command cannot be used with spotify playlists"])
                         joined
                  else set_pending (pending w ++ [guard; FindPlaylist interaction r]) joined
             else set_pending (pending w ++ [guard; EnsureReady interaction r first now fromSearch])
                    joined)) as Hrun.
  { unfold play_execute. rewrite run_bind. unfold emit at 1, modify at 1. fold w0.
    rewrite Hvc, Hsong. rewrite run_bind, Hnew. fold song first.
    change (fresh (dom (heap w0))) with r. fold sent. fold guard. fold conn.
    unfold joined, w0.
    destruct (includes (toLowerCase song) "youtube.com/watch");
      [|destruct (includes (toLowerCase song) "spotify.com/playlist"); [destruct first|]];
      unfold suspend, emit, modify, set_subscriptions, set_heap, set_trace, set_pending;
      cbn [heap subscriptions trace pending random drawn];
      by rewrite <- !app_assoc. }
  split; [exact Hfresh|]. split; [exact Hrun|]. split; [|reflexivity].
  rewrite Hrun. cbn [snd].
  exists (set_readyLock sent
            (fresh_subscription conn (channel interaction) (channel_guild voiceChannel))).
  assert (heap joined !! r
          = Some (set_readyLock sent
                    (fresh_subscription conn (channel interaction)
                       (channel_guild voiceChannel)))
          /\ subscriptions joined !! channel_guild voiceChannel = Some r) as [Hh Hs].
  { split; apply lookup_insert_eq. }
  split; [|split; [|done]].
  - destruct (includes (toLowerCase song) "youtube.com/watch"); [exact Hh|].
    destruct (includes (toLowerCase song) "spotify.com/playlist"); [|exact Hh].
    destruct first; exact Hh.
  - destruct (includes (toLowerCase song) "youtube.com/watch"); [exact Hs|].
    destruct (includes (toLowerCase song) "spotify.com/playlist"); [|exact Hs].
    destruct first; exact Hs.
Qed.
End CommandBehaviour.

Lemma commands_without_subscription_witness :
  skip_execute_2 (command_interaction "skip" "elsewhere" []) example_world
  = replied not_playing example_world.
Proof.
  exact (commands_without_subscription Number_of_digits id ToString_integer id
           (fun _ _ => false) (fun _ _ => "")
           (command_interaction "skip" "elsewhere" []) example_world "skip"
           {| builder_name := "stop"; execute := skip_execute_2 |}
           eq_refl ltac:(repeat constructor)
           (skip_is_overwritten Number_of_digits id ToString_integer id
              (fun _ _ => false) (fun _ _ => ""))).
Defined.

Lemma unpause_does_not_resume_witness :
  play_execute id (fun _ _ => false) false false
    {| isCommand := true; commandName := "play"; interaction_guildId := "guild";
       channel := "lobby"; voice_channel := Some example_channel; options := [] |}
    paused_world
  = (Return tt,
     effect 0 (set_lastTextChannel "lobby" paused_subscription)
       [DeferReply; FollowUp "Unpaused"] [] [] paused_world).
Proof.
  destruct (unpause_does_not_resume id (fun _ _ => false)
              {| isCommand := true; commandName := "play"; interaction_guildId := "guild";
                 channel := "lobby"; voice_channel := Some example_channel;
                 options := [] |}
              paused_world 0 paused_subscription example_channel false false
              eq_refl eq_refl eq_refl ltac:(by left) eq_refl) as [H _].
  exact H.
Defined.

Lemma pause_command_witness :
  pause_execute (command_interaction "pause" "guild" []) playing_world
  = (Return tt,
     effect 0 (set_audioPlayer {| player_status := Paused;
                                  resource := Some {| metadata := track_C |} |}
                 (set_lastTextChannel "lobby" playing_subscription))
       [Reply "Paused"] [] [] playing_world)
  /\ pause_execute (command_interaction "pause" "guild" []) example_world
     = (Return tt,
        effect 0 (set_lastTextChannel "lobby" example_subscription) [Reply "Paused"] [] []
          example_world).
Proof.
  split.
  - destruct (pause_command (command_interaction "pause" "guild" []) playing_world 0
                playing_subscription eq_refl eq_refl) as (_ & H & _).
    exact (H eq_refl).
  - destruct (pause_command (command_interaction "pause" "guild" []) example_world 0
                example_subscription eq_refl eq_refl) as (_ & _ & H).
    exact (H ltac:(discriminate) ltac:(discriminate)).
Defined.

Lemma skip_command_witness :
  skip_execute (command_interaction "skip" "guild" []) playing_world
  = (Return tt,
     effect 0 (set_lastTextChannel "lobby" playing_subscription)
       [Reply "Skipped `C`"] [] [] playing_world).
Proof.
  destruct (skip_command (command_interaction "skip" "guild" []) playing_world 0
              playing_subscription eq_refl eq_refl) as (_ & _ & H).
  exact (H ltac:(discriminate) ltac:(discriminate)).
Defined.

Lemma play_creates_subscription_witness :
  exists w',
    play_execute id (fun text part => bool_decide (part = "spotify.com/playlist")) true false
      {| isCommand := true; commandName := "next"; interaction_guildId := "other";
         channel := "lobby";
         voice_channel := Some {| channel_id := "voice-9"; channel_guild := "other";
                                  adapter_sends := true |};
         options := [("song", "spotify.com/playlist/1")] |}
      example_world
    = (Return tt, w')
    /\ subscriptions w' !! "other" = Some 1%nat
    /\ pending w' = [ReadyGuard 1%nat]
    /\ trace w' = [DeferReply; Join "voice-9" "other";
                   FollowUp "This command cannot be used with spotify playlists"].
Proof.
  destruct (play_creates_subscription id
              (fun text part => bool_decide (part = "spotify.com/playlist")) true false
              {| isCommand := true; commandName := "next"; interaction_guildId := "other";
                 channel := "lobby";
                 voice_channel := Some {| channel_id := "voice-9"; channel_guild := "other";
                                          adapter_sends := true |};
                 options := [("song", "spotify.com/playlist/1")] |}
              example_world
              {| channel_id := "voice-9"; channel_guild := "other"; adapter_sends := true |}
              _ _ eq_refl eq_refl eq_refl) as (_ & H & _).
  eexists. split; [exact H|].
  split; [vm_compute; reflexivity|]. split; reflexivity.
Defined.

(** X16.  [/now], once its track is found, while another track plays: the track
    is put in front of the queue and the player is stopped by force.  The
    track that played gets its [onFinish], the new track is taken out of the
    queue at once and its resource awaited, and what was in front of the
    queue is now at its end. *)
Theorem now_plays_at_once (ToString : JsNum -> string) (track : Track) (r : ref)
    (s : MusicSubscription) (w : World) (res : AudioResource)
    (beginningOfQueue : bool) :
  heap w !! r = Some s ->
  player_status (audioPlayer s) <> Idle ->
  resource (audioPlayer s) = Some res ->
  queueLock s = false ->
  enqueueYoutubeTrack ToString track r beginningOfQueue true w
  = (Return tt,
     effect r
       (set_queue {| items := tail (next_in_front (Some track) (items (queue s)));
                     named := named (queue s) |}
          (set_queueLock true (set_wait false (set_audioPlayer idle_state s))))
       ((if errored (metadata res) then [] else [Call onFinish (metadata res)])
        ++ [FollowUp ("Enqueued `" +:+ youtube_title track +:+ "` at position `0`")])
       [Production r (Some track); IdleGuard r] [] w).
Proof.
  intros Hr Hp Hres Hl.
  set (s1 := set_wait false
               (set_queue {| items := next_in_front (Some track) (items (queue s));
                             named := named (queue s) |} s)).
  assert (busy s = true) as Hb.
  { unfold busy. rewrite (bool_decide_eq_false_2 _ Hp). by rewrite orb_true_r. }
  assert (processQueue_local r (set_audioPlayer idle_state s1)
          = (Return tt,
             set_queue {| items := tail (next_in_front (Some track) (items (queue s)));
                          named := named (queue s) |}
               (set_queueLock true (set_wait false (set_audioPlayer idle_state s1))),
             [Production r (Some track)])) as Htake.
  { apply (processQueue_local_take r (set_audioPlayer idle_state s1) track
             (tail (next_in_front (Some track) (items (queue s)))) Hl eq_refl).
    cbn [s1 queue set_wait set_queue set_audioPlayer items].
    by destruct (items (queue s)). }
  assert (audioPlayer_stop_local r s1
          = (true,
             (set_queue {| items := tail (next_in_front (Some track) (items (queue s)));
                           named := named (queue s) |}
                (set_queueLock true (set_wait false (set_audioPlayer idle_state s1))),
              if errored (metadata res) then [] else [Call onFinish (metadata res)],
              [Production r (Some track); IdleGuard r]))) as Hstop.
  { unfold audioPlayer_stop_local, onPlayerStateChange_local. rewrite Htake.
    cbn [s1 audioPlayer set_wait set_queue]. rewrite (bool_decide_eq_false_2 _ Hp), Hres.
    cbn [player_status idle_state].
    rewrite (bool_decide_eq_true_2 (Idle = Idle)) by done. reflexivity. }
  assert (runs (enqueueYoutubeTrack ToString track r beginningOfQueue true) r s (Return tt)
            (audioPlayer_stop_local r s1).2.1.1
            ((audioPlayer_stop_local r s1).2.1.2
             ++ [FollowUp ("Enqueued `" +:+ youtube_title track +:+ "` at position `0`")])
            (audioPlayer_stop_local r s1).2.2 []) as Hrun.
  { unfold enqueueYoutubeTrack. cbn [orb]. eapply runs_eq.
    - eapply runs_bind.
      { eapply runs_eq; [apply runs_void, runs_enqueueNext_busy; exact Hb|done..]. }
      eapply runs_bind.
      + apply (runs_when true).
        eapply runs_bind; [apply runs_audioPlayer_stop | apply runs_ret].
      + apply runs_emit.
    - done.
    - done.
    - cbn [app]. by rewrite !app_nil_r.
    - cbn [app]. by rewrite !app_nil_r.
    - done. }
  rewrite Hstop in Hrun. cbn [fst snd] in Hrun. rewrite (Hrun w Hr).
  do 3 f_equal; unfold s1; by destruct s.
Qed.

Lemma now_plays_at_once_witness :
  enqueueYoutubeTrack ToString_integer track_C 0 false true playing_world
  = (Return tt,
     effect 0
       (set_queue {| items := [Some track_B; Some track_A]; named := [] |}
          (set_queueLock true (set_wait false
             (set_audioPlayer idle_state playing_subscription))))
       [Call onFinish track_C; FollowUp "Enqueued `C` at position `0`"]
       [Production 0 (Some track_C); IdleGuard 0] [] playing_world).
Proof.
  exact (now_plays_at_once ToString_integer track_C 0 playing_subscription playing_world
           {| metadata := track_C |} false eq_refl ltac:(discriminate) eq_refl eq_refl).
Defined.

(** ** The registry and the subscriptions it holds *)

Lemma registry_sound_effect r s s' es ps w :
  registry_sound w -> heap w !! r = Some s ->
  guildId s' = guildId s -> (destroyed s = false -> destroyed s' = false) ->
  registry_sound (effect r s' es ps [] w).
Proof.
  intros Hw Hr Hg Hd g r' Hreg. cbn in Hreg.
  destruct (Hw g r' Hreg) as (s0 & Hr0 & Hg0 & Hd0). unfold effect. cbn [heap].
  destruct (decide (r' = r)) as [->|Hne].
  - exists s'. rewrite lookup_insert_eq. rewrite Hr in Hr0. injection Hr0 as <-.
    split; [done|]. split; [congruence | auto].
  - exists s0. by rewrite lookup_insert_ne.
Qed.

Lemma registry_sound_teardown r s s' es ps w :
  registry_sound w -> heap w !! r = Some s -> guildId s' = guildId s ->
  registry_sound (effect r s' es ps [guildId s] w).
Proof.
  intros Hw Hr Hg g r' Hreg. cbn in Hreg.
  apply lookup_delete_Some in Hreg as [Hne Hreg].
  destruct (Hw g r' Hreg) as (s0 & Hr0 & Hg0 & Hd0). unfold effect. cbn [heap].
  destruct (decide (r' = r)) as [->|Hne'].
  - rewrite Hr in Hr0. injection Hr0 as <-. congruence.
  - exists s0. by rewrite lookup_insert_ne.
Qed.

Lemma sustains_ret {A} (a : A) : sustains (mret a).
Proof. by intros w H. Qed.

Lemma sustains_throw {A} e : sustains (throw (A:=A) e).
Proof. by intros w H. Qed.

Lemma sustains_this r : sustains (this r).
Proof. intros w H. unfold this. by destruct (heap w !! r). Qed.

Lemma sustains_world : sustains world.
Proof. by intros w H. Qed.

Lemma sustains_bind {A B} (c : M A) (k : A -> M B) :
  sustains c -> (forall a, sustains (k a)) -> sustains (c ≫= k).
Proof.
  intros Hc Hk w H. rewrite run_bind. specialize (Hc w H).
  destruct (c w) as [[a|e] w']; [by apply Hk | done].
Qed.

Lemma sustains_void {A} (c : M A) : sustains c -> sustains (void c).
Proof.
  intros Hc w H. specialize (Hc w H). unfold void.
  by destruct (c w) as [[a|[]] w'].
Qed.

Lemma sustains_when b c : sustains c -> sustains (when b c).
Proof. intros Hc. destruct b; [done | apply sustains_ret]. Qed.

Lemma sustains_try_catch {A} (c : M A) h :
  sustains c -> (forall e, sustains (h e)) -> sustains (try_catch c h).
Proof.
  intros Hc Hh w H. unfold try_catch. specialize (Hc w H).
  destruct (c w) as [[a|e] w']; [done | by apply Hh].
Qed.

Lemma sustains_try_finally {A} (c : M A) final :
  sustains c -> sustains final -> sustains (try_finally c final).
Proof.
  intros Hc Hf w H. unfold try_finally. specialize (Hc w H).
  destruct (c w) as [o w']. specialize (Hf w' Hc).
  by destruct (final w') as [[a|e] w''].
Qed.

Lemma sustains_resume {A} p (c : M A) : sustains c -> sustains (resume p c).
Proof.
  intros Hc. unfold resume. apply sustains_bind; [apply sustains_world|intros w].
  by apply sustains_when, sustains_void.
Qed.

Lemma sustains_modify f :
  (forall w, heap (f w) = heap w /\ subscriptions (f w) = subscriptions w) ->
  sustains (modify f).
Proof.
  intros Hf w Hw g r Hreg. destruct (Hf w) as [Hh Hs]. cbn [modify snd] in *.
  rewrite Hs in Hreg. rewrite Hh. by apply Hw.
Qed.

Lemma sustains_emit e : sustains (emit e).
Proof. by apply sustains_modify. Qed.

Lemma sustains_suspend p : sustains (suspend p).
Proof. by apply sustains_modify. Qed.

Lemma sustains_settle p : sustains (settle p).
Proof. by apply sustains_modify. Qed.

Lemma sustains_Math_random : sustains Math_random.
Proof. by intros w Hw. Qed.

Lemma sustains_update r f :
  (forall s, guildId (f s) = guildId s /\ destroyed (f s) = destroyed s) ->
  sustains (update r f).
Proof.
  intros Hf w Hw. unfold update. destruct (heap w !! r) as [s|] eqn:Hr; [|done].
  cbn [snd]. rewrite effect_set_heap. destruct (Hf s) as [Hg Hd].
  eapply registry_sound_effect; [done..|]. by rewrite Hd.
Qed.

Ltac sustains_step :=
  first
    [ assumption
    | match goal with H : context [sustains _] |- sustains _ => solve [apply H] end
    | apply sustains_ret | apply sustains_throw | apply sustains_this
    | apply sustains_world | apply sustains_emit | apply sustains_suspend
    | apply sustains_settle | apply sustains_Math_random
    | apply sustains_update; intros []; split; reflexivity
    | apply sustains_bind; [|intros ?]
    | apply sustains_void | apply sustains_when | apply sustains_try_catch; [|intros ?]
    | apply sustains_try_finally | apply sustains_resume
    | match goal with
      | |- sustains (if ?b then _ else _) => destruct b
      | |- sustains (match ?x with _ => _ end) => destruct x
      | |- sustains (let '(_, _) := ?x in _) => destruct x
      end ].
Ltac sustains_all := repeat sustains_step.

Lemma sustains_processQueue r : sustains (processQueue r).
Proof. unfold processQueue. sustains_all. Qed.

Lemma sustains_onPlayerStateChange r o n : sustains (onPlayerStateChange r o n).
Proof. pose proof (sustains_processQueue r). unfold onPlayerStateChange. sustains_all. Qed.

Lemma sustains_audioPlayer_play r res : sustains (audioPlayer_play r res).
Proof. pose proof (sustains_onPlayerStateChange r). unfold audioPlayer_play. sustains_all. Qed.

Lemma sustains_audioPlayer_stop r force : sustains (audioPlayer_stop r force).
Proof. pose proof (sustains_onPlayerStateChange r). unfold audioPlayer_stop. sustains_all. Qed.

Lemma sustains_audioPlayer_pause r : sustains (audioPlayer_pause r).
Proof. pose proof (sustains_onPlayerStateChange r). unfold audioPlayer_pause. sustains_all. Qed.

Lemma sustains_player_enters r st : sustains (player_enters r st).
Proof. pose proof (sustains_onPlayerStateChange r). unfold player_enters. sustains_all. Qed.

Lemma sustains_processQueue_settled r t o : sustains (processQueue_settled r t o).
Proof.
  pose proof (sustains_processQueue r). pose proof (sustains_audioPlayer_play r).
  unfold processQueue_settled, processQueue_catch. sustains_all.
Qed.

Lemma sustains_swap r i j : sustains (swap r i j).
Proof. unfold swap. sustains_all. Qed.

Lemma sustains_shuffle_loop r n : sustains (shuffle_loop r n).
Proof.
  induction n as [|n IH]; cbn [shuffle_loop]; [apply sustains_ret|].
  apply sustains_bind; [apply sustains_Math_random|intros x].
  apply sustains_bind; [apply sustains_swap | done].
Qed.

Lemma sustains_shuffle r : sustains (shuffle r).
Proof. pose proof (sustains_shuffle_loop r). unfold shuffle. sustains_all. Qed.

Lemma sustains_enqueue r t : sustains (enqueue r t).
Proof. pose proof (sustains_processQueue r). unfold enqueue. sustains_all. Qed.

Lemma sustains_bulkEnqueue r ts b : sustains (bulkEnqueue r ts b).
Proof.
  pose proof (sustains_processQueue r). pose proof (sustains_shuffle r).
  unfold bulkEnqueue. sustains_all.
Qed.

Lemma sustains_enqueueNext r t : sustains (enqueueNext r t).
Proof.
  pose proof (sustains_processQueue r). pose proof (sustains_swap r).
  unfold enqueueNext. sustains_all.
Qed.

Lemma sustains_clear r : sustains (clear r).
Proof. unfold clear. sustains_all. Qed.

Lemma sustains_nowPlaying r : sustains (nowPlaying r).
Proof. unfold nowPlaying. sustains_all. Qed.

Lemma sustains_onPlayerError r res : sustains (onPlayerError r res).
Proof. unfold onPlayerError. sustains_all. Qed.

(** Destroying a connection ends the subscription and takes its guild out
    of the registry in one go. *)
Lemma sustains_destroy_at d r :
  sustains (voiceConnection_destroy (onVoiceStateChange (S d)) r).
Proof.
  intros w Hw. destruct (heap w !! r) as [s|] eqn:Hr.
  - destruct (decide (status_of s = Destroyed)) as [Hs|Hs].
    + by rewrite (runs_destroy_twice _ r s Hs w Hr), effect_id.
    + rewrite (runs_destroy d r s Hs w Hr). cbn [snd].
      eapply registry_sound_teardown; [done..|].
      by destruct (halted_fields (set_conn_state (plain_state Destroyed) s))
        as (_ & _ & _ & _ & _ & ? & _).
  - unfold voiceConnection_destroy. rewrite run_bind. unfold this. by rewrite Hr.
Qed.

Lemma sustains_destroy r : sustains (destroy r).
Proof. apply sustains_destroy_at. Qed.

Lemma sustains_listener_alive r o n :
  conn_status n <> Destroyed -> sustains (onStateChange r o n).
Proof.
  intros Hn. pose proof (sustains_destroy_at 0 r).
  unfold onStateChange. cbn [onVoiceStateChange].
  rewrite (bool_decide_eq_false_2 (conn_status n = Destroyed)) by done.
  sustains_all.
Qed.

Lemma sustains_enters r st : sustains (voiceConnection_enters onStateChange r st).
Proof.
  destruct (decide (conn_status st = Destroyed)) as [Hst|Hst].
  - intros w Hw. destruct (heap w !! r) as [s|] eqn:Hr.
    + assert (runs (voiceConnection_enters onStateChange r st) r s (Return tt)
                (halted (set_conn_state st s)) (finish_events (audioPlayer s))
                (idle_guards r (audioPlayer s)) [guildId s]) as Hrun.
      { unfold voiceConnection_enters, onStateChange. eapply runs_eq.
        - eapply runs_bind; [apply runs_this|].
          eapply runs_bind; [apply runs_update|].
          apply runs_void, runs_listener_destroyed; [exact Hst | exact Hst].
        - done.
        - done.
        - done.
        - done.
        - done. }
      rewrite (Hrun w Hr). cbn [snd].
      eapply registry_sound_teardown; [done..|].
      by destruct (halted_fields (set_conn_state st s)) as (_ & _ & _ & _ & _ & ? & _).
    + unfold voiceConnection_enters. rewrite run_bind. unfold this. by rewrite Hr.
  - pose proof (fun o => sustains_listener_alive r o st Hst).
    unfold voiceConnection_enters. sustains_all.
Qed.

Lemma sustains_rejoin r sent : sustains (rejoin r sent).
Proof.
  pose proof (sustains_enters r). unfold rejoin, voiceConnection_rejoin. sustains_all.
Qed.

Lemma sustains_connection_enters r st : sustains (connection_enters r st).
Proof. pose proof (sustains_enters r st). unfold connection_enters. sustains_all. Qed.

Lemma sustains_moveGuard_timeout r : sustains (moveGuard_timeout r).
Proof. pose proof (sustains_destroy r). unfold moveGuard_timeout. sustains_all. Qed.

Lemma sustains_rejoinWait_elapsed r ms sent : sustains (rejoinWait_elapsed r ms sent).
Proof. pose proof (sustains_rejoin r). unfold rejoinWait_elapsed. sustains_all. Qed.

Lemma sustains_readyGuard_timeout r : sustains (readyGuard_timeout r).
Proof.
  pose proof (sustains_destroy r). unfold readyGuard_timeout, resolve_identifier.
  sustains_all.
Qed.

Lemma sustains_idleGuard_timeout r : sustains (idleGuard_timeout r).
Proof. pose proof (sustains_destroy r). unfold idleGuard_timeout. sustains_all. Qed.

Lemma sustains_getVoiceConnection g : sustains (getVoiceConnection g).
Proof. unfold getVoiceConnection. sustains_all. Qed.

Lemma sustains_joinVoiceChannel vc : sustains (joinVoiceChannel vc).
Proof.
  pose proof sustains_rejoin. pose proof sustains_enters.
  pose proof sustains_getVoiceConnection.
  unfold joinVoiceChannel. sustains_all.
Qed.

Lemma sustains_subscriptions_get g : sustains (subscriptions_get g).
Proof. unfold subscriptions_get. sustains_all. Qed.

Lemma sustains_getOrCreateSubscription vc tc : sustains (getOrCreateSubscription vc tc).
Proof.
  intros w Hw. destruct (subscriptions w !! channel_guild vc) as [r|] eqn:Hreg.
  - destruct (Hw _ _ Hreg) as (s & Hr & Hg & Hd).
    rewrite (getOrCreateSubscription_existing vc tc w r s Hreg Hr). cbn [snd].
    rewrite effect_set_heap. by eapply registry_sound_effect.
  - destruct (getOrCreateSubscription_new vc tc w Hreg) as [Hfresh ->]. cbn [snd].
    intros g r Hg. cbn in Hg. unfold set_subscriptions, set_pending, set_heap. cbn [heap].
    apply lookup_insert_Some in Hg as [[<- <-]|[Hne Hg]].
    + eexists. rewrite lookup_insert_eq. by split.
    + destruct (Hw g r Hg) as (s & Hr & Hgs & Hd). exists s.
      rewrite lookup_insert_ne; [done|]. intros <-. congruence.
Qed.

Section RegistryCommands.
Variable Number : string -> JsNum.
Variable trim : string -> string.
Variable ToString : JsNum -> string.
Variable toLowerCase : string -> string.
Variable includes : string -> string -> bool.
Variable queue_page : JsArray -> option string -> string.

Lemma sustains_enqueueYoutubeTrack t r b n :
  sustains (enqueueYoutubeTrack ToString t r b n).
Proof.
  pose proof (sustains_enqueueNext r). pose proof (sustains_enqueue r).
  pose proof (sustains_audioPlayer_stop r).
  unfold enqueueYoutubeTrack. sustains_all.
Qed.

Lemma sustains_play_execute b n i : sustains (play_execute toLowerCase includes b n i).
Proof.
  pose proof sustains_getOrCreateSubscription. pose proof sustains_subscriptions_get.
  pose proof sustains_audioPlayer_pause.
  unfold play_execute. sustains_all.
Qed.

Lemma sustains_play_ready i r b n how ready : sustains (play_ready i r b n how ready).
Proof. unfold play_ready. sustains_all. Qed.

Lemma sustains_play_found i r b n how t : sustains (play_found ToString i r b n how t).
Proof. pose proof (sustains_enqueueYoutubeTrack). unfold play_found. sustains_all. Qed.

Lemma sustains_play_playlist i r ts : sustains (play_playlist ToString i r ts).
Proof. pose proof (sustains_bulkEnqueue r). unfold play_playlist. sustains_all. Qed.

Lemma sustains_pause_execute i : sustains (pause_execute i).
Proof.
  pose proof sustains_subscriptions_get. pose proof sustains_audioPlayer_pause.
  unfold pause_execute. sustains_all.
Qed.

Lemma sustains_shuffle_execute i : sustains (shuffle_execute i).
Proof.
  pose proof sustains_subscriptions_get. pose proof sustains_shuffle.
  unfold shuffle_execute. sustains_all.
Qed.

Lemma sustains_clear_execute i : sustains (clear_execute i).
Proof.
  pose proof sustains_subscriptions_get. pose proof sustains_clear.
  unfold clear_execute. sustains_all.
Qed.

Lemma sustains_queue_execute i : sustains (queue_execute queue_page i).
Proof. pose proof sustains_subscriptions_get. unfold queue_execute. sustains_all. Qed.

Lemma sustains_swap_execute i : sustains (swap_execute Number trim ToString i).
Proof.
  pose proof sustains_subscriptions_get. pose proof sustains_swap.
  unfold swap_execute, clamp, resolve_identifier. sustains_all.
Qed.

Lemma sustains_skip_execute i : sustains (skip_execute i).
Proof.
  pose proof sustains_subscriptions_get. pose proof sustains_nowPlaying.
  pose proof sustains_audioPlayer_stop.
  unfold skip_execute. sustains_all.
Qed.

Lemma sustains_skip_execute_2 i : sustains (skip_execute_2 i).
Proof.
  pose proof sustains_subscriptions_get. pose proof sustains_nowPlaying.
  pose proof sustains_audioPlayer_stop.
  unfold skip_execute_2. sustains_all.
Qed.

Lemma sustains_move_execute i : sustains (move_execute i).
Proof.
  pose proof sustains_subscriptions_get. pose proof sustains_joinVoiceChannel.
  unfold move_execute. sustains_all.
Qed.

Lemma sustains_commands name command i :
  commands Number trim ToString toLowerCase includes queue_page !! name = Some command ->
  sustains (execute command i).
Proof.
  unfold commands, object_of, commands_literal. cbn [foldl fst snd].
  intros H.
  repeat (apply lookup_insert_Some in H as [[_ <-]|[_ H]];
          [first [ apply sustains_play_execute | apply sustains_pause_execute
                 | apply sustains_shuffle_execute | apply sustains_clear_execute
                 | apply sustains_queue_execute | apply sustains_swap_execute
                 | apply sustains_skip_execute | apply sustains_skip_execute_2
                 | apply sustains_move_execute ]|]).
  by rewrite lookup_empty in H.
Qed.

Lemma sustains_interactionCreate i :
  sustains (interactionCreate Number trim ToString toLowerCase includes queue_page i).
Proof.
  unfold interactionCreate. destruct (isCommand i); [|apply sustains_ret].
  destruct (commands _ _ _ _ _ _ !! commandName i) as [command|] eqn:Hc.
  - by eapply sustains_commands.
  - destruct (bool_decide _); [apply sustains_throw | apply sustains_ret].
Qed.

Lemma sustains_perform a :
  sustains (perform Number trim ToString toLowerCase includes queue_page a).
Proof.
  destruct a; cbn [perform].
  - apply sustains_void, sustains_interactionCreate.
  - apply sustains_resume, sustains_play_ready.
  - apply sustains_resume, sustains_play_found.
  - apply sustains_resume, sustains_play_playlist.
  - apply sustains_resume, sustains_processQueue_settled.
  - apply sustains_player_enters.
  - apply sustains_void, sustains_onPlayerError.
  - apply sustains_connection_enters.
  - apply sustains_resume, sustains_idleGuard_timeout.
  - apply sustains_resume, sustains_readyGuard_timeout.
  - apply sustains_resume, sustains_moveGuard_timeout.
  - apply sustains_resume, sustains_rejoinWait_elapsed.
Qed.

Lemma sustains_perform_all actions : forall w,
  registry_sound w ->
  registry_sound
    (perform_all Number trim ToString toLowerCase includes queue_page actions w).
Proof.
  unfold perform_all. induction actions as [|a actions IH]; intros w Hw; [done|].
  cbn [foldl]. apply IH. by apply sustains_perform.
Qed.
End RegistryCommands.

Lemma example_registry_sound : registry_sound example_world.
Proof.
  intros g r Hg. cbn in Hg. apply lookup_singleton_Some in Hg as [<- <-].
  by exists example_subscription.
Qed.

(** X17.  The registry stays sound.  Whatever commands arrive, whatever the
    players and the connections do and whichever promises settle, in any
    order: every guild of the registry is filed under the id of its own
    subscription, that subscription exists, and it has not been ended.  A
    command never finds a subscription that [stop()] has ended, or one of
    another guild. *)
Theorem registry_stays_sound (Number : string -> JsNum) (trim : string -> string)
    (ToString : JsNum -> string) (toLowerCase : string -> string)
    (includes : string -> string -> bool)
    (queue_page : JsArray -> option string -> string)
    (w : World) (actions : list Action) :
  registry_sound w ->
  let w' := perform_all Number trim ToString toLowerCase includes queue_page actions w in
  forall g r,
    subscriptions w' !! g = Some r ->
    exists s, heap w' !! r = Some s /\ guildId s = g /\ destroyed s = false.
Proof. intros Hw w'. by apply sustains_perform_all. Qed.

Lemma registry_stays_sound_witness :
  exists s,
    heap (perform_all Number_of_digits id ToString_integer id (fun _ _ => false)
            (fun _ _ => "")
            [PlayerEnters 0 {| player_status := Playing;
                               resource := Some {| metadata := track_A |} |};
             Interact (swap_interaction "0" "1")]
            example_world) !! 0%nat = Some s
    /\ guildId s = "guild" /\ destroyed s = false.
Proof.
  apply (registry_stays_sound Number_of_digits id ToString_integer id (fun _ _ => false)
           (fun _ _ => "") example_world
           [PlayerEnters 0 {| player_status := Playing;
                              resource := Some {| metadata := track_A |} |};
            Interact (swap_interaction "0" "1")]
           example_registry_sound "guild" 0%nat).
  vm_compute. reflexivity.
Defined.

(** ** The inactivity guard and the player *)

(** X18.  The continuation of the 30-second guard does not look at the player.
    When the player has not entered [Playing] in time, whatever it is doing
    (buffering the next track, say), the notice is sent and the connection
    is destroyed, which ends the subscription: a track the player holds
    gets its [onFinish], the queue is dropped and the guild leaves the
    registry. *)
Theorem idle_timeout_ignores_player (r : ref) (s : MusicSubscription) (w : World) :
  heap w !! r = Some s ->
  status_of s <> Destroyed ->
  let w' := set_pending (remove_first (IdleGuard r) (pending w)) w in
  idleGuard_timeout r w
  = (Return tt,
     effect r (stopped s)
       (Send (lastTextChannel s) inactivity :: Destroy r :: finish_events (audioPlayer s))
       (idle_guards r (audioPlayer s)) [guildId s] w')
  /\ destroyed (stopped s) = true
  /\ queue (stopped s) = empty_array
  /\ subscriptions (idleGuard_timeout r w).2 !! guildId s = None.
Proof.
  intros Hr Hst w'.
  assert (idleGuard_timeout r w
          = (Return tt,
             effect r (stopped s)
               (Send (lastTextChannel s) inactivity :: Destroy r
                :: finish_events (audioPlayer s))
               (idle_guards r (audioPlayer s)) [guildId s] w')) as Hrun.
  { unfold idleGuard_timeout. rewrite run_settle. fold w'.
    assert (runs (s0 ← this r;
                  emit (Send (lastTextChannel s0) inactivity);;
                  when (negb (bool_decide (status_of s0 = Destroyed))) (destroy r)) r s
              (Return tt) (stopped s)
              (Send (lastTextChannel s) inactivity :: Destroy r
               :: finish_events (audioPlayer s))
              (idle_guards r (audioPlayer s)) [guildId s]) as H;
      [|exact (H w' Hr)].
    eapply runs_eq.
    - eapply runs_bind; [apply runs_this|].
      eapply runs_bind; [apply runs_emit|].
      rewrite (bool_decide_eq_false_2 _ Hst). apply (runs_when true).
      unfold destroy, onStateChange. by apply runs_destroy.
    - done.
    - apply halted_destroyed.
    - done.
    - done.
    - done. }
  split; [exact Hrun|].
  destruct (stopped_fields s) as (Hq & _ & _ & Hd & _).
  split; [done|]. split; [done|].
  rewrite Hrun. cbn [snd]. apply effect_unregistered.
Qed.

Lemma idle_timeout_ignores_player_witness :
  idleGuard_timeout 0 playing_world
  = (Return tt,
     effect 0 (stopped playing_subscription)
       [Send "general" inactivity; Destroy 0; Call onFinish track_C] [IdleGuard 0]
       ["guild"] playing_world).
Proof.
  destruct (idle_timeout_ignores_player 0 playing_subscription playing_world eq_refl
              ltac:(discriminate)) as [H _].
  exact H.
Defined.

(** ** A production in flight *)

(** X19.  Neither [stop()] nor [clear()] calls off a resource that is being
    awaited.  When it arrives after [stop()], the player of the ended
    subscription is handed the track and the lock that [stop()] had set is
    released; when the production fails, [onError] is called and the lock is
    released all the same.  After [clear()] the track that was taken out
    before is played as if nothing had happened. *)
Theorem production_outlives_stop (r : ref) (s : MusicSubscription) (w : World)
    (t : Track) (error : JsError) :
  heap w !! r = Some s ->
  let ended := if bool_decide (status_of s = Destroyed) then halted s else stopped s in
  let w1 := (stop r w).2 in
  let w1' := set_pending (remove_first (Production r (Some t)) (pending w1)) w1 in
  let loaded := {| player_status := Buffering; resource := Some {| metadata := t |} |} in
  stop r w = (Return tt, w1)
  /\ heap w1 !! r = Some ended
  /\ destroyed ended = true
  /\ processQueue_settled r t None w1
     = (Return tt,
        effect r (set_queueLock false (set_audioPlayer loaded ended)) [Play r t] [] [] w1')
  /\ processQueue_settled r t (Some error) w1
     = (Return tt,
        effect r (set_wait false (set_queueLock false ended)) [Call onError t] [] [] w1')
  /\ (player_status (audioPlayer s) = Idle ->
      (clear r;; processQueue_settled r t None) w
      = (Return tt,
         effect r (set_queueLock false (set_audioPlayer loaded (set_queue empty_array s)))
           [Play r t] [] []
           (set_pending (remove_first (Production r (Some t)) (pending w)) w))).
Proof.
  intros Hr ended w1 w1' loaded.
  pose proof (runs_stop r s w Hr) as Hstop. fold ended in Hstop.
  assert (heap w1 !! r = Some ended) as Hr1.
  { unfold w1. rewrite Hstop. apply effect_lookup. }
  assert (heap w1' !! r = Some ended) as Hr1' by exact Hr1.
  assert (queue ended = empty_array /\ player_status (audioPlayer ended) = Idle
          /\ destroyed ended = true) as (Hq & Hi & Hd).
  { unfold ended. destruct (bool_decide (status_of s = Destroyed)).
    - by destruct (halted_fields s) as (? & _ & ? & ? & _).
    - by destruct (stopped_fields s) as (? & _ & ? & ? & _). }
  split; [unfold w1; by rewrite Hstop|].
  split; [done|]. split; [done|]. split; [|split].
  - unfold processQueue_settled. rewrite run_settle. fold w1'.
    exact (runs_processQueue_resolved r ended t Hi w1' Hr1').
  - unfold processQueue_settled. rewrite run_settle. fold w1'.
    assert (runs (processQueue_catch r t error) r ended (Return tt)
              (set_wait false (set_queueLock false ended)) [Call onError t] [] []) as H;
      [|exact (H w1' Hr1')].
    unfold processQueue_catch. eapply runs_eq.
    + eapply runs_bind; [apply runs_emit|].
      eapply runs_bind; [apply runs_update|].
      apply runs_processQueue_blocked. right. right.
      cbn [queue set_queueLock]. by rewrite Hq.
    + done.
    + done.
    + done.
    + done.
    + done.
  - intros Hidle. rewrite run_bind. unfold clear. rewrite (run_update _ _ _ _ Hr).
    unfold processQueue_settled. rewrite run_settle.
    erewrite (runs_processQueue_resolved r (set_queue empty_array s) t Hidle);
      [|apply lookup_insert_eq].
    f_equal. destruct w as [h m tr pe rnd dr]. unfold effect, set_heap, set_pending. cbn.
    by rewrite insert_insert_eq.
Qed.

Lemma production_outlives_stop_witness :
  (clear 0;; processQueue_settled 0 track_C None) loading_world
  = (Return tt,
     effect 0 (set_queueLock false
                 (set_audioPlayer {| player_status := Buffering;
                                     resource := Some {| metadata := track_C |} |}
                    (set_queue empty_array loading_subscription)))
       [Play 0 track_C] [] []
       (set_pending (remove_first (Production 0 (Some track_C)) (pending loading_world))
          loading_world)).
Proof.
  destruct (production_outlives_stop 0 loading_subscription loading_world track_C
              (Error "") eq_refl) as (_ & _ & _ & _ & _ & H).
  exact (H eq_refl).
Defined.

(** ** A rejoin that cannot be sent *)

(** X20.  When the back-off has elapsed and the adapter cannot send the join
    request, [rejoin()] itself puts the connection back into
    [Disconnected], and the listener runs again before [rejoin()] returns:
    the attempt is counted, and the next back-off, one step longer, starts
    at once; when this was the fifth attempt the connection is destroyed
    there and then.  On a connection destroyed in the meantime the elapsed
    back-off does nothing. *)
Theorem rejoin_without_adapter (r : ref) (s : MusicSubscription) (w : World) (ms : nat) :
  heap w !! r = Some s ->
  status_of s <> Destroyed ->
  status_of s <> Ready ->
  let a := rejoinAttempts (voiceConnection s) in
  let s1 := set_conn_state adapter_unavailable (count_rejoin s) in
  let w' := set_pending (remove_first (RejoinWait r ms) (pending w)) w in
  rejoinAttempts (voiceConnection s1) = S a
  /\ ((a < 4)%nat ->
      rejoinWait_elapsed r ms false w
      = (Return tt, effect r s1 [Rejoin r] [RejoinWait r ((a + 2) * 5000)%nat] [] w'))
  /\ ((4 <= a)%nat ->
      rejoinWait_elapsed r ms false w
      = (Return tt,
         effect r (stopped s1) (Rejoin r :: Destroy r :: finish_events (audioPlayer s))
           (idle_guards r (audioPlayer s)) [guildId s] w'))
  /\ (forall sent w0 s0,
        heap w0 !! r = Some s0 -> status_of s0 = Destroyed ->
        rejoinWait_elapsed r ms sent w0
        = (Return tt, set_pending (remove_first (RejoinWait r ms) (pending w0)) w0)).
Proof.
  intros Hr Hd Hrdy a s1 w'.
  assert (rejoinAttempts (voiceConnection s1) = S a) as Ha by reflexivity.
  assert (recoverable adapter_unavailable) as Hrec by (by split).
  assert (status_of s1 <> Destroyed) as Hd1 by done.
  assert (runs (rejoin r false) r s (Return false)
            (if (a <? 4)%nat then s1 else stopped s1)
            (Rejoin r :: if (a <? 4)%nat then [] else Destroy r :: finish_events (audioPlayer s))
            (if (a <? 4)%nat then [RejoinWait r ((a + 2) * 5000)%nat]
             else idle_guards r (audioPlayer s))
            (if (a <? 4)%nat then [] else [guildId s])) as Hrejoin.
  { unfold rejoin, voiceConnection_rejoin.
    assert (runs (voiceConnection_enters onStateChange r adapter_unavailable) r
              (count_rejoin s) (Return tt)
              (if (a <? 4)%nat then s1 else stopped s1)
              (if (a <? 4)%nat then [] else Destroy r :: finish_events (audioPlayer s))
              (if (a <? 4)%nat then [RejoinWait r ((a + 2) * 5000)%nat]
               else idle_guards r (audioPlayer s))
              (if (a <? 4)%nat then [] else [guildId s])) as Henters.
    { unfold voiceConnection_enters, onStateChange.
      destruct (Nat.ltb_spec a 4) as [Hlt|Hge].
      - eapply runs_eq.
        + eapply runs_bind; [apply runs_this|].
          eapply runs_bind; [apply runs_update|].
          apply runs_void, runs_listener_backoff; [exact Hrec|]. fold s1. rewrite Ha. lia.
        + done.
        + done.
        + done.
        + cbn [app]. fold s1. rewrite Ha. do 2 f_equal. lia.
        + done.
      - eapply runs_eq.
        + eapply runs_bind; [apply runs_this|].
          eapply runs_bind; [apply runs_update|].
          apply runs_void, runs_listener_exhausted; [exact Hrec| |exact Hd1].
          fold s1. rewrite Ha. lia.
        + done.
        + done.
        + done.
        + done.
        + done. }
    eapply runs_eq.
    - eapply runs_bind; [apply runs_this|].
      rewrite (bool_decide_eq_false_2 _ Hd), (bool_decide_eq_false_2 _ Hrdy).
      cbn [negb].
      eapply runs_bind; [apply (runs_when true), runs_update|].
      eapply runs_bind; [apply runs_emit|].
      eapply runs_bind; [apply Henters | apply runs_ret].
    - done.
    - done.
    - cbn [app]. by rewrite !app_nil_r.
    - cbn [app]. by rewrite !app_nil_r.
    - cbn [app]. by rewrite !app_nil_r. }
  split; [exact Ha|]. split; [|split].
  - intros Hlt. unfold rejoinWait_elapsed. rewrite run_settle. fold w'.
    rewrite run_bind, (Hrejoin w' Hr).
    by destruct (Nat.ltb_spec a 4) as [_|?]; [|lia].
  - intros Hge. unfold rejoinWait_elapsed. rewrite run_settle. fold w'.
    rewrite run_bind, (Hrejoin w' Hr).
    by destruct (Nat.ltb_spec a 4) as [?|_]; [lia|].
  - intros sent w0 s0 Hr0 Hd0. unfold rejoinWait_elapsed. rewrite run_settle.
    unfold rejoin, voiceConnection_rejoin. rewrite run_bind.
    rewrite run_bind, (run_this r s0) by exact Hr0.
    by rewrite (bool_decide_eq_true_2 _ Hd0).
Qed.

Lemma rejoin_without_adapter_witness :
  rejoinWait_elapsed 0 1 false signalling_world
  = (Return tt,
     effect 0 (set_conn_state adapter_unavailable (count_rejoin signalling_subscription))
       [Rejoin 0] [RejoinWait 0 ((0 + 2) * 5000)%nat] []
       (set_pending (remove_first (RejoinWait 0 1) (pending signalling_world))
          signalling_world)).
Proof.
  destruct (rejoin_without_adapter 0 signalling_subscription signalling_world 1
              eq_refl ltac:(discriminate) ltac:(discriminate)) as (_ & H & _).
  exact (H ltac:(vm_compute; lia)).
Defined.

(** ** Ready in time *)

(** X21.  When the connection gets ready while the 15-second guard is armed, the
    wait is met: the guard is released, the count of rejoin attempts is
    back at 0, and nothing is destroyed.  Only now can the guard be armed
    again: the next time the connection enters [Connecting] or
    [Signalling], it is. *)
Theorem ready_releases_guard (r : ref) (s : MusicSubscription) (w : World) :
  heap w !! r = Some s ->
  readyLock s = true ->
  ReadyGuard r ∈ pending w ->
  let s1 := set_readyLock false (set_conn_state (plain_state Ready) s) in
  let w1 := set_heap (<[r := s1]> (heap w))
              (set_pending (remove_first (ReadyGuard r) (pending w)) w) in
  connection_enters r (plain_state Ready) w = (Return tt, w1)
  /\ rejoinAttempts (voiceConnection s1) = 0%nat
  /\ status_of s1 = Ready
  /\ destroyed s1 = destroyed s
  /\ trace w1 = trace w
  /\ subscriptions w1 = subscriptions w
  /\ (forall newState,
        conn_status newState = Connecting \/ conn_status newState = Signalling ->
        exists w2,
          connection_enters r newState w1 = (Return tt, w2)
          /\ heap w2 !! r = Some (set_readyLock true (set_conn_state newState s1))
          /\ ReadyGuard r ∈ pending w2).
Proof.
  intros Hr Hl Hin s1 w1.
  assert (heap w1 !! r = Some s1) as Hr1 by apply lookup_insert_eq.
  split; [|split; [done|split; [done|split; [done|split; [done|split; [done|]]]]]].
  - unfold connection_enters.
    assert (runs (voiceConnection_enters onStateChange r (plain_state Ready)) r s
              (Return tt) (set_conn_state (plain_state Ready) s) [] [] []) as Henters.
    { unfold voiceConnection_enters, onStateChange. eapply runs_eq.
      - eapply runs_bind; [apply runs_this|].
        eapply runs_bind; [apply runs_update|].
        apply runs_void. cbn [onVoiceStateChange plain_state conn_status].
        rewrite (bool_decide_eq_false_2 (Ready = Disconnected)) by done.
        rewrite (bool_decide_eq_false_2 (Ready = Destroyed)) by done.
        rewrite (bool_decide_eq_false_2 (Ready = Connecting)) by done.
        rewrite (bool_decide_eq_false_2 (Ready = Signalling)) by done.
        eapply runs_bind; [apply runs_this|].
        cbn [orb]. rewrite andb_false_r. apply runs_ret.
      - done.
      - done.
      - done.
      - done.
      - done. }
    rewrite run_bind, (Henters w Hr). rewrite run_bind. unfold world at 1.
    set (W := effect r (set_conn_state (plain_state Ready) s) [] [] [] w).
    cbn [plain_state conn_status].
    rewrite (bool_decide_eq_true_2 (Ready = Ready)) by done.
    rewrite (bool_decide_eq_false_2 (Ready = Connecting)) by done.
    assert (bool_decide (ReadyGuard r ∈ pending W) = true) as ->.
    { apply bool_decide_eq_true_2. unfold W, effect. cbn [pending]. by rewrite app_nil_r. }
    cbn [andb when]. rewrite run_bind, run_settle.
    rewrite (run_update r _ (set_conn_state (plain_state Ready) s)) by apply lookup_insert_eq.
    unfold mret, M_ret. f_equal. unfold w1, W.
    destruct w as [h m tr pe rnd dr].
    unfold effect, set_heap, set_pending. cbn. by rewrite insert_insert_eq, !app_nil_r.
  - intros newState Hn.
    pose proof (run_connection_enters_guarded r s1 w1 newState Hr1 eq_refl Hn) as Hrun.
    cbv zeta in Hrun. eexists. split; [exact Hrun|].
    destruct (bool_decide (conn_status newState = Connecting)).
    + split; [apply lookup_insert_eq|].
      apply elem_of_remove_first; [done|]. cbn [pending effect].
      apply elem_of_app. right. by apply list_elem_of_singleton.
    + split; [apply lookup_insert_eq|]. cbn [pending effect].
      apply elem_of_app. right. by apply list_elem_of_singleton.
Qed.

Lemma ready_releases_guard_witness :
  connection_enters 0 (plain_state Ready) guarded_world
  = (Return tt,
     set_heap {[ 0%nat := set_readyLock false
                            (set_conn_state (plain_state Ready) guarded_subscription) ]}
       example_world).
Proof.
  destruct (ready_releases_guard 0 guarded_subscription guarded_world
              ltac:(reflexivity) eq_refl
              ltac:(apply list_elem_of_singleton; reflexivity)) as [H _].
  rewrite H. vm_compute. reflexivity.
Defined.

(** ** The track that [/play] found *)

(** X22.  When the lookup of [/play] finds nothing, the user is told so (in words
    that depend on whether a URL or a search was given) and nothing else
    happens.  When it finds a track while the queue is locked or the player
    is not idle, the track goes to the end of the queue, and the position
    the follow-up names is the position the track is at. *)
Theorem track_found_is_enqueued (ToString : JsNum -> string) (interaction : Interaction)
    (r : ref) (s : MusicSubscription) (w : World) (how : Lookup) (track : Track) :
  heap w !! r = Some s ->
  let w' := set_pending (remove_first (FindTrack interaction r false false how)
                           (pending w)) w in
  let position := array_length (queue s) in
  let queued := set_queue (array_push (queue s) [Some track]) s in
  play_found ToString interaction r false false how None w
  = (Return tt,
     set_trace
       (trace w
        ++ [FollowUp match how with
                     | fromURL => "Error queuing up track. Make sure the URL is valid, or try again later"
                     | fromSearch => "Could not find any tracks based on that search. Try using a less specific search"
                     end]) w')
  /\ (busy s = true ->
      play_found ToString interaction r false false how (Some track) w
      = (Return tt,
         effect r (set_wait false queued)
           [FollowUp ("Enqueued `" +:+ youtube_title track +:+ "` at position `"
                      +:+ ToString (of_nat position) +:+ "`")] [] [] w')
      /\ array_get (queue queued) (of_nat position) = Some track).
Proof.
  intros Hr w' position queued. split; [reflexivity|].
  intros Hb. split.
  - unfold play_found. rewrite run_settle. fold w'.
    assert (runs (enqueueYoutubeTrack ToString track r false false) r s (Return tt)
              (set_wait false queued)
              [FollowUp ("Enqueued `" +:+ youtube_title track +:+ "` at position `"
                         +:+ ToString (of_nat position) +:+ "`")] [] []) as Hrun;
      [|exact (Hrun w' Hr)].
    unfold enqueueYoutubeTrack, enqueue. cbn [orb]. eapply runs_eq.
    + eapply runs_bind; [apply runs_this|].
      eapply runs_bind; [apply runs_emit|].
      eapply runs_eq; [apply runs_void|..].
      * eapply runs_bind; [apply runs_update|].
        apply runs_processQueue_blocked, (busy_blocked queued). exact Hb.
      * done.
      * done.
      * done.
      * done.
      * done.
    + done.
    + done.
    + done.
    + done.
    + done.
  - unfold array_get, queued, position, array_length. rewrite to_index_of_nat.
    cbn [queue set_queue array_push items].
    by rewrite (list_lookup_middle _ [] (Some track)).
Qed.

Lemma track_found_is_enqueued_witness :
  play_found ToString_integer (swap_interaction "" "") 0 false false fromSearch
    (Some track_C) playing_world
  = (Return tt,
     effect 0 (set_wait false
                 (set_queue {| items := [Some track_A; Some track_B; Some track_C];
                               named := [] |} playing_subscription))
       [FollowUp "Enqueued `C` at position `2`"] [] []
       (set_pending (remove_first (FindTrack (swap_interaction "" "") 0 false false
                                     fromSearch) (pending playing_world))
          playing_world)).
Proof.
  destruct (track_found_is_enqueued ToString_integer (swap_interaction "" "") 0
              playing_subscription playing_world fromSearch track_C eq_refl) as [_ H].
  destruct (H eq_refl) as [H' _]. exact H'.
Defined.

(** *** Numbers that are integers *)

Lemma Qle_bool_Z (a : Z) (q : Q) (i : Z) :
  q == inject_Z i -> Qle_bool (inject_Z a) q = (a <=? i)%Z.
Proof.
  intros Hq. destruct (Z.leb_spec a i) as [H|H].
  - apply Qle_bool_iff. rewrite Hq, <- Zle_Qle. exact H.
  - apply not_true_is_false. intros Hle%Qle_bool_iff. rewrite Hq, <- Zle_Qle in Hle.
    lia.
Qed.

Lemma Qle_bool_Z_l (q : Q) (i a : Z) :
  q == inject_Z i -> Qle_bool q (inject_Z a) = (i <=? a)%Z.
Proof.
  intros Hq. destruct (Z.leb_spec i a) as [H|H].
  - apply Qle_bool_iff. rewrite Hq, <- Zle_Qle. exact H.
  - apply not_true_is_false. intros Hle%Qle_bool_iff. rewrite Hq, <- Zle_Qle in Hle.
    lia.
Qed.

Lemma slice_index_integer (q : Q) (i : Z) (len : nat) :
  q == inject_Z i -> slice_index (JFin q) len = slice_at i len.
Proof.
  intros Hq. unfold slice_index, slice_at.
  change 0%Q with (inject_Z 0). rewrite (Qle_bool_Z 0 q i Hq).
  assert (Qfloor q = i) as -> by (by rewrite Hq, Qfloor_Z).
  assert (Qceiling q = i) as -> by (by rewrite Hq, Qceiling_Z).
  by destruct (0 <=? i)%Z.
Qed.

Lemma highest_page (len : nat) :
  (0 < len)%nat ->
  inject_Z (Qceiling (inject_Z (Z.of_nat len) / inject_Z (Z.of_nat 10))) - 1
  == inject_Z ((Z.of_nat len - 1) / 10).
Proof.
  intros Hlen.
  assert (Qceiling (inject_Z (Z.of_nat len) / inject_Z (Z.of_nat 10))
          = ((Z.of_nat len - 1) / 10 + 1)%Z) as ->.
  { change (Z.of_nat 10) with 10%Z.
    unfold Qceiling, Qfloor, Qdiv, Qmult, Qinv, Qopp, inject_Z. cbn.
    rewrite Z.mul_1_r.
    Z.to_euclidean_division_equations. lia. }
  rewrite inject_Z_plus. unfold Qminus. ring.
Qed.
Section QueuePageProperties.
Variable Number : string -> JsNum.
Variable ToString : JsNum -> string.
Variable spotify_title : Track -> string.
Hypothesis ToString_value : forall q q', q == q' -> ToString (JFin q) = ToString (JFin q').

Lemma queue_rows_integer (ts : list Track) : forall (q : Q) (i : Z) (text : string),
  q == inject_Z i ->
  queue_rows ToString spotify_title (Some <$> ts) (JFin q) text
  = Return (page_rows ToString spotify_title ts i text).
Proof.
  induction ts as [|t ts IH]; intros q i text Hq; [done|].
  cbn [fmap list_fmap queue_rows page_rows js_add].
  rewrite (IH (q + inject_Z (Z.of_nat 1))%Q (i + 1)%Z).
  - unfold page_row. by rewrite (ToString_value q (inject_Z i) Hq).
  - rewrite Hq, inject_Z_plus. reflexivity.
Qed.

(** X23.  The page of [/queue], for a queue without empty places and a page
    option that is absent, not a number, or an integer [z].  The page shown
    is [z] unless [z] is beyond the last page, which is then shown instead;
    the heading names it and the last page.  The rows are what
    [slice(10 * page, 10 * page + 10)] gives, each with the index counted on
    from [10 * page].  For a page that is not negative these are the tracks
    at the positions [10 * page] to [10 * page + 9], as far as the queue
    goes, each under its own position, at least one and at most ten.  A
    negative page is not refused: page [-1] shows no row at all, and a page
    below that shows tracks counted from the end of the queue, under
    negative numbers. *)
Theorem queue_page_lists (queue : JsArray) (ts : list Track) (option : option string)
    (z : Z) :
  items queue = Some <$> ts ->
  ts <> [] ->
  match option with
  | None => z = 0%Z
  | Some text =>
      (js_not (Number text) = true /\ z = 0%Z) \/ Number text = JFin (inject_Z z)
  end ->
  let highestPage := ((Z.of_nat (length ts) - 1) / 10)%Z in
  let page := Z.min z highestPage in
  let from := slice_at (10 * page) (length ts) in
  let to := slice_at (10 * page + 10) (length ts) in
  let rows := take (to - from) (drop from ts) in
  queue_page_text Number ToString spotify_title queue option
  = Return (page_rows ToString spotify_title rows (10 * page)
              (page_heading (ToString (JFin (inject_Z page)))
                 (ToString (JFin (inject_Z highestPage)))))
  /\ ((0 <= z)%Z ->
      from = Z.to_nat (10 * page)
      /\ rows = take 10 (drop from ts)
      /\ (1 <= length rows <= 10)%nat
      /\ forall i track, rows !! i = Some track -> ts !! (from + i)%nat = Some track)
  /\ (z = (-1)%Z -> rows = [])
  /\ ((z < -1)%Z ->
      from = (length ts - Z.to_nat (- (10 * z)))%nat
      /\ to = (length ts - Z.to_nat (- (10 * z + 10)))%nat).
Proof.
  intros Hitems Hne Hoption highestPage page from to rows.
  assert (0 < length ts)%nat as Hlen by (destruct ts; [done | simpl; lia]).
  assert (0 <= highestPage)%Z as Hhigh by (apply Z.div_pos; lia).
  assert (10 * highestPage < Z.of_nat (length ts))%Z as Hlast.
  { unfold highestPage. Z.to_euclidean_division_equations. lia. }
  assert (Z.of_nat (length ts) <= 10 * highestPage + 10)%Z as Hlast'.
  { unfold highestPage. Z.to_euclidean_division_equations. lia. }
  split; [|split; [|split]].
  - unfold queue_page_text.
    assert ((if js_not match option with
                        | Some text => Number text
                        | None => of_nat 0
                        end
             then of_nat 0
             else match option with
                  | Some text => Number text
                  | None => of_nat 0
                  end) = JFin (inject_Z z)) as ->.
    { destruct option as [text|]; [|by rewrite Hoption].
      destruct Hoption as [[Hnot Hz]|Hnum]; [by rewrite Hnot, Hz|].
      rewrite Hnum. cbn [js_not].
      destruct (Qeq_bool (inject_Z z) 0) eqn:Hz; [|done].
      apply Qeq_bool_eq in Hz. unfold Qeq, inject_Z in Hz. cbn in Hz.
      assert (z = 0%Z) as Hz0 by lia. by rewrite Hz0. }
    unfold array_length. rewrite Hitems, length_fmap.
    set (hq := (inject_Z (Qceiling (inject_Z (Z.of_nat (length ts))
                                        / inject_Z (Z.of_nat 10))) - 1)%Q).
    assert (hq == inject_Z highestPage) as Hhq by (by apply highest_page).
    change (js_pred (Math_ceil (js_div (of_nat (length ts)) 10))) with (JFin hq).
    cbn [js_gt]. rewrite (Qle_bool_Z z hq highestPage Hhq).
    set (pq := if negb (z <=? highestPage)%Z then hq else inject_Z z).
    assert ((if negb (z <=? highestPage)%Z then JFin hq else JFin (inject_Z z)) = JFin pq)
      as -> by (unfold pq; by destruct (z <=? highestPage)%Z).
    assert (pq == inject_Z page) as Hpq.
    { unfold pq, page. destruct (Z.leb_spec z highestPage) as [H|H]; cbn [negb].
      - by rewrite Z.min_l.
      - rewrite Z.min_r by lia. exact Hhq. }
    cbn [js_mul js_add].
    assert (pq * inject_Z (Z.of_nat 10) == inject_Z (10 * page))%Q as Hstart.
    { rewrite Hpq, <- inject_Z_mult. by rewrite Z.mul_comm. }
    assert (pq * inject_Z (Z.of_nat 10) + inject_Z (Z.of_nat 10)
            == inject_Z (10 * page + 10))%Q as Hend.
    { rewrite Hstart, <- inject_Z_plus. reflexivity. }
    cbn [js_gt of_nat].
    rewrite (Qle_bool_Z_l _ (10 * page + 10) (Z.of_nat (length ts)) Hend).
    assert (array_slice {| items := Some <$> ts; named := named queue |}
              (JFin (pq * inject_Z (Z.of_nat 10))%Q)
              (if negb (10 * page + 10 <=? Z.of_nat (length ts))%Z
               then of_nat (length ts)
               else JFin (pq * inject_Z (Z.of_nat 10) + inject_Z (Z.of_nat 10))%Q)
            = Some <$> rows) as Hslice.
    { unfold array_slice, array_length. cbn [items]. rewrite length_fmap.
      rewrite (slice_index_integer _ (10 * page) _ Hstart). fold from.
      assert (slice_index
                (if negb (10 * page + 10 <=? Z.of_nat (length ts))%Z
                 then of_nat (length ts)
                 else JFin (pq * inject_Z (Z.of_nat 10) + inject_Z (Z.of_nat 10))%Q)
                (length ts) = to) as ->.
      { destruct (Z.leb_spec (10 * page + 10) (Z.of_nat (length ts))) as [H|H]; cbn [negb].
        - by rewrite (slice_index_integer _ (10 * page + 10) _ Hend).
        - unfold of_nat.
          rewrite (slice_index_integer _ (Z.of_nat (length ts)) _ ltac:(reflexivity)).
          unfold to, slice_at.
          destruct (Z.ltb_spec (Z.of_nat (length ts)) 0) as [?|_]; [lia|].
          destruct (Z.ltb_spec (10 * page + 10) 0) as [?|_]; [lia|]. lia. }
      unfold rows. by rewrite fmap_take, fmap_drop. }
    destruct queue as [its nm]. cbn [items named] in *. subst its. rewrite Hslice.
    rewrite (queue_rows_integer rows _ (10 * page) _ Hstart).
    unfold page_heading.
    by rewrite (ToString_value pq (inject_Z page) Hpq),
               (ToString_value hq (inject_Z highestPage) Hhq).
  - intros Hz.
    assert (0 <= page)%Z as Hp by (unfold page; lia).
    assert (page <= highestPage)%Z as Hp' by (unfold page; lia).
    assert (from = Z.to_nat (10 * page)) as Hfrom.
    { unfold from, slice_at. destruct (Z.ltb_spec (10 * page) 0) as [?|_]; lia. }
    assert (to = Z.to_nat (Z.min (10 * page + 10) (Z.of_nat (length ts)))) as Hto.
    { unfold to, slice_at. by destruct (Z.ltb_spec (10 * page + 10) 0) as [?|_]; [lia|]. }
    assert (rows = take 10 (drop from ts)) as Hrows.
    { unfold rows. destruct (Z.le_gt_cases (10 * page + 10) (Z.of_nat (length ts))).
      - f_equal. lia.
      - rewrite !take_ge; [done|rewrite length_drop; lia..]. }
    split; [done|]. split; [done|]. split.
    + rewrite Hrows, length_take, length_drop. lia.
    + intros i track Hi. rewrite Hrows in Hi.
      apply lookup_take_Some in Hi as [Hi _]. by rewrite lookup_drop in Hi.
  - intros ->. unfold rows.
    assert (page = (-1)%Z) as Hp by (unfold page; lia).
    assert (to = 0%nat) as ->.
    { unfold to, slice_at. rewrite Hp.
      change (10 * -1 + 10)%Z with 0%Z. cbn [Z.ltb Z.compare]. lia. }
    reflexivity.
  - intros Hz.
    assert (page = z) as Hp by (unfold page; lia).
    unfold from, to, slice_at. rewrite Hp.
    destruct (Z.ltb_spec (10 * z) 0) as [_|?]; [|lia].
    destruct (Z.ltb_spec (10 * z + 10) 0) as [_|?]; [|lia]. lia.
Qed.
End QueuePageProperties.

Lemma ToString_integer_value (q q' : Q) :
  q == q' -> ToString_integer (JFin q) = ToString_integer (JFin q').
Proof. intros H. unfold ToString_integer. by rewrite H. Qed.

Lemma queue_page_lists_witness :
  queue_page_text Number_of_digits ToString_integer (fun _ => "")
    {| items := Some <$> dozen; named := [] |} (Some "7")
  = Return (page_rows ToString_integer (fun _ => "") (drop 10 dozen) 10
              (page_heading "1" "1")).
Proof.
  destruct (queue_page_lists Number_of_digits ToString_integer (fun _ => "")
              ToString_integer_value {| items := Some <$> dozen; named := [] |} dozen
              (Some "7") 7 eq_refl ltac:(discriminate) ltac:(by right)) as [H _].
  exact H.
Defined.

(** Page [-2] of a queue of twelve: [slice(-20, -10)] is the first two
    tracks, and they are listed under [-20] and [-19]. *)
Example queue_page_minus_two :
  queue_page_text (fun _ => JFin (inject_Z (-2))) ToString_integer (fun _ => "")
    {| items := Some <$> dozen; named := [] |} (Some "-2")
  = Return (page_heading "-2" "1" +:+ newline +:+ "`-20` `0`" +:+ newline +:+ "`-19` `1`").
Proof. vm_compute. reflexivity. Qed.
